(** * KataGo search core ([cpp/search/search.cpp]): model and verified properties

    The development embeds the parts of [search.cpp] that the specification
    talks about:

    - the PUCT selection value and the Dirichlet root noise (real arithmetic);
    - the search node, its expansion state machine and the growth of its
      children arrays;
    - the edge-visit catch-up of graph search;
    - the search handle ([Search]): [clearSearch], [setPosition], [makeMove]
      together with the node table, cloning and mark-and-sweep;
    - the time-limit recomputation of the worker loop of [runWholeSearch].

    Conventions.  A C++ [double] or [float] is a real number ([R]) in the
    algebraic parts: selection value and Dirichlet noise, where the
    specification states identities of real arithmetic, and the values and
    statistics of Part G onwards, of which bounds, signs, copies and the
    outcome of the control flow are proved.  It is an IEEE binary64 value
    (Rocq's primitive [float]) everywhere else, where only control flow and
    stored values matter.  [int], [int64_t], [uint32_t], [uint64_t] and
    [size_t] are integers in [Z]; wrap-around is written out where the source
    converts to an unsigned type or increments an unsigned counter.  A
    pointer is an optional address into an
    explicit heap, an [assert] that fails and an access through a null or
    dangling pointer abort the operation ([None]). *)

From Stdlib Require Import Floats.
From Stdlib Require Import ZArith List Bool Lia Reals Lra Permutation.
From stdpp Require Import base option gmap list.

Set Default Proof Using "Type".

(* Decimal literals such as 0.1 denote the nearest binary64 value, as in C++. *)
Set Warnings "-inexact-float".

(** ** Shared vocabulary *)

(** [Player] and [Color] of [game/board.h]: the empty colour and the two
    players.  The source tests only equality on them. *)
Inductive Player : Type := C_EMPTY | P_BLACK | P_WHITE.

#[global] Instance Player_eq_dec : EqDecision Player.
Proof. solve_decision. Defined.

(** [SearchParams] ([search/searchparams.h]), restricted to the fields read by
    the functions modelled here; [double] is the representation of the C++
    floating-point type. *)
Module SearchParams.
Record t (double : Type) : Type := mk {
  cpuctExploration : double;
  cpuctExplorationLog : double;
  cpuctExplorationBase : double;
  rootDirichletNoiseTotalConcentration : double;
  rootDirichletNoiseWeight : double;
  graphSearchCatchUpLeakProb : double;
  treeReuseCarryOverTimeFactor : double;
  subtreeValueBiasFreeProp : double;
  conservativePass : bool;
  numThreads : Z
}.
Arguments mk {double}.
Arguments cpuctExploration {double}.
Arguments cpuctExplorationLog {double}.
Arguments cpuctExplorationBase {double}.
Arguments rootDirichletNoiseTotalConcentration {double}.
Arguments rootDirichletNoiseWeight {double}.
Arguments graphSearchCatchUpLeakProb {double}.
Arguments treeReuseCarryOverTimeFactor {double}.
Arguments subtreeValueBiasFreeProp {double}.
Arguments conservativePass {double}.
Arguments numThreads {double}.
End SearchParams.

(** A counted [for(int i = 0; i<n; i++)] loop over a loop state: the body of
    iteration [i] runs after the bodies of all smaller indices. *)
Fixpoint for_loop {S : Type} (n : nat) (body : nat -> S -> S) (s : S) : S :=
  match n with
  | O => s
  | Datatypes.S k => body k (for_loop k body s)
  end.

(** ** Part A.  Selection value and Dirichlet noise over the reals *)

Section RealArithmetic.
Local Open Scope R_scope.

(** A [double*] or [float*] argument: the array is read and written by index;
    the functions below touch indices below [policySize] only. *)
Definition darray : Type := nat -> R.

Definition upd (a : darray) (i : nat) (v : R) : darray :=
  fun j => if Nat.eqb j i then v else a j.

(** [static double cpuctExploration(double totalChildWeight, const SearchParams&)] *)
Definition cpuctExploration (totalChildWeight : R) (searchParams : SearchParams.t R) : R :=
  SearchParams.cpuctExploration searchParams +
  SearchParams.cpuctExplorationLog searchParams *
    ln ((totalChildWeight + SearchParams.cpuctExplorationBase searchParams)
        / SearchParams.cpuctExplorationBase searchParams).

Definition TOTALCHILDWEIGHT_PUCT_OFFSET : R := 0.01.

(** [Search::getExploreSelectionValue(nnPolicyProb, totalChildWeight,
    childWeight, childUtility, parentUtilityStdevFactor, pla)].  The sentinel
    [POLICY_ILLEGAL_SELECTION_VALUE] is declared in [search.h] and is a
    parameter here. *)
Definition getExploreSelectionValue
    (POLICY_ILLEGAL_SELECTION_VALUE : R) (searchParams : SearchParams.t R)
    (nnPolicyProb totalChildWeight childWeight childUtility
     parentUtilityStdevFactor : R) (pla : Player) : R :=
  if Rlt_dec nnPolicyProb 0 then POLICY_ILLEGAL_SELECTION_VALUE
  else
    let exploreComponent :=
      cpuctExploration totalChildWeight searchParams
      * parentUtilityStdevFactor
      * nnPolicyProb
      * sqrt (totalChildWeight + TOTALCHILDWEIGHT_PUCT_OFFSET)
      / (1 + childWeight) in
    let valueComponent :=
      if decide (pla = P_WHITE) then childUtility else - childUtility in
    exploreComponent + valueComponent.

(** The selection rule as the specification writes it (section 4.4):
    [cPuct(W)], [U_i] and [score_i]. *)
Definition spec_cPuct (searchParams : SearchParams.t R) (W : R) : R :=
  SearchParams.cpuctExploration searchParams +
  SearchParams.cpuctExplorationLog searchParams *
    ln ((W + SearchParams.cpuctExplorationBase searchParams)
        / SearchParams.cpuctExplorationBase searchParams).

Definition spec_U (searchParams : SearchParams.t R) (stdevFactor P W childWeight : R) : R :=
  spec_cPuct searchParams W * stdevFactor * P * sqrt (W + 0.01) / (1 + childWeight).

Definition spec_score (searchParams : SearchParams.t R)
    (stdevFactor P W childWeight Q : R) (pla : Player) : R :=
  (match pla with P_WHITE => Q | _ => - Q end)
  + spec_U searchParams stdevFactor P W childWeight.

(** *** Dirichlet noise *)

(** The random generator ([core/rand.h]) is external: [nextGamma] maps a
    generator state and a shape parameter to a draw and the next state. *)
Context {RandState : Type} (nextGamma : RandState -> R -> R * RandState).










End RealArithmetic.

(** ** Part B.  Search nodes *)

Open Scope Z_scope.

(** Addresses of heap objects; a C++ pointer is an [option addr], [None] being
    [NULL]. *)
Definition addr : Type := nat.

(** [Loc] ([game/board.h]) is a small integer. *)
Definition Loc : Type := Z.

(** [Hash128]: two 64-bit words. *)
Definition Hash128 : Type := (Z * Z)%type.

(** What [search.h] and [game/board.h] declare and this file does not have:
    the capacities of the three children arrays and the null location. *)
Class NodeConstants : Type := {
  CHILDREN0SIZE : nat;
  CHILDREN1SIZE : nat;
  CHILDREN2SIZE : nat;
  NULL_LOC : Loc
}.

(** The seven values of [SearchNode::state] are declared in [search.h].  The
    specification (sections 3 and 4.1) gives their order UNEVALUATED <
    EVALUATING < EXPANDED0 < GROWING1 < EXPANDED1 < GROWING2 < EXPANDED2; they
    are numbered in that order, which agrees with the comparisons the source
    makes on them. *)

(** Modelled from the spec: [SearchNode::STATE_UNEVALUATED], the least state. *)
Definition STATE_UNEVALUATED : Z := 0.
(** Modelled from the spec: [SearchNode::STATE_EVALUATING], after UNEVALUATED. *)
Definition STATE_EVALUATING : Z := 1.
(** Modelled from the spec: [SearchNode::STATE_EXPANDED0], after EVALUATING. *)
Definition STATE_EXPANDED0 : Z := 2.
(** Modelled from the spec: [SearchNode::STATE_GROWING1], after EXPANDED0. *)
Definition STATE_GROWING1 : Z := 3.
(** Modelled from the spec: [SearchNode::STATE_EXPANDED1], after GROWING1. *)
Definition STATE_EXPANDED1 : Z := 4.
(** Modelled from the spec: [SearchNode::STATE_GROWING2], after EXPANDED1. *)
Definition STATE_GROWING2 : Z := 5.
(** Modelled from the spec: [SearchNode::STATE_EXPANDED2], the greatest state. *)
Definition STATE_EXPANDED2 : Z := 6.

(** [assert(b)]: the operation aborts when [b] is false. *)
Definition assert (b : bool) : option unit := if b then Some tt else None.

(** A counted loop whose body can abort. *)
Fixpoint for_loopM {S : Type} (n : nat) (body : nat -> S -> option S) (s : S) : option S :=
  match n with
  | O => Some s
  | Datatypes.S k => s' ← for_loopM k body s; body k s'
  end.

Module SearchChildPointer.

(** The atomic triple of a child slot. *)
Record t : Type := mk {
  data : option addr;
  edgeVisits : Z;
  moveLoc : Loc
}.

Section WithConstants.
Context `{NodeConstants}.

(** [SearchChildPointer::SearchChildPointer()] *)
Definition init : t := mk None 0 NULL_LOC.

End WithConstants.

Definition getIfAllocated (p : t) : option addr := data p.
Definition getIfAllocatedRelaxed (p : t) : option addr := data p.
Definition getEdgeVisits (p : t) : Z := edgeVisits p.
Definition getEdgeVisitsRelaxed (p : t) : Z := edgeVisits p.
Definition getMoveLoc (p : t) : Loc := moveLoc p.
Definition getMoveLocRelaxed (p : t) : Loc := moveLoc p.

Definition store (node : option addr) (p : t) : t := mk node (edgeVisits p) (moveLoc p).
Definition storeRelaxed (node : option addr) (p : t) : t := mk node (edgeVisits p) (moveLoc p).
Definition setEdgeVisits (x : Z) (p : t) : t := mk (data p) x (moveLoc p).
Definition setEdgeVisitsRelaxed (x : Z) (p : t) : t := mk (data p) x (moveLoc p).
Definition addEdgeVisits (delta : Z) (p : t) : t := mk (data p) (edgeVisits p + delta) (moveLoc p).
Definition setMoveLoc (loc : Loc) (p : t) : t := mk (data p) (edgeVisits p) loc.
Definition setMoveLocRelaxed (loc : Loc) (p : t) : t := mk (data p) (edgeVisits p) loc.

(** [SearchChildPointer::storeAll(other)] *)
Definition storeAll (other : t) (p : t) : t :=
  let d := data other in
  let e := edgeVisits other in
  let m := moveLoc other in
  store d (setEdgeVisits e (setMoveLoc m p)).

End SearchChildPointer.

(** [NodeStatsAtomic] *)
Record NodeStatsAtomic : Type := mkNodeStats {
  visits : Z;
  winLossValueAvg : float;
  noResultValueAvg : float;
  scoreMeanAvg : float;
  scoreMeanSqAvg : float;
  leadAvg : float;
  utilityAvg : float;
  utilitySqAvg : float;
  weightSum : float;
  weightSqSum : float
}.

(** [NodeStatsAtomic::NodeStatsAtomic()] *)
Definition NodeStatsAtomic_init : NodeStatsAtomic :=
  mkNodeStats 0 0%float 0%float 0%float 0%float 0%float 0%float 0%float 0%float 0%float.

Module SearchNode.

(** A search node.  A children array is owned by its node and is stored in
    it: [None] is the null array pointer.  [nnOutput] is the pointer to the
    shared evaluator result, identified by a number. *)
Record t : Type := mk {
  nextPla : Player;
  forceNonTerminal : bool;
  patternBonusHash : Hash128;
  mutexIdx : Z;
  state : Z;
  nnOutput : option nat;
  nodeAge : Z;
  children0 : option (list SearchChildPointer.t);
  children1 : option (list SearchChildPointer.t);
  children2 : option (list SearchChildPointer.t);
  stats : NodeStatsAtomic;
  virtualLosses : Z;
  lastSubtreeValueBiasDeltaSum : float;
  lastSubtreeValueBiasWeight : float;
  subtreeValueBiasTableEntry : option addr;
  dirtyCounter : Z
}.

Definition set_state (v : Z) (n : t) : t :=
  mk (nextPla n) (forceNonTerminal n) (patternBonusHash n) (mutexIdx n) v (nnOutput n)
     (nodeAge n) (children0 n) (children1 n) (children2 n) (stats n) (virtualLosses n)
     (lastSubtreeValueBiasDeltaSum n) (lastSubtreeValueBiasWeight n)
     (subtreeValueBiasTableEntry n) (dirtyCounter n).

Definition set_nodeAge (v : Z) (n : t) : t :=
  mk (nextPla n) (forceNonTerminal n) (patternBonusHash n) (mutexIdx n) (state n) (nnOutput n)
     v (children0 n) (children1 n) (children2 n) (stats n) (virtualLosses n)
     (lastSubtreeValueBiasDeltaSum n) (lastSubtreeValueBiasWeight n)
     (subtreeValueBiasTableEntry n) (dirtyCounter n).

Definition set_children0 (v : option (list SearchChildPointer.t)) (n : t) : t :=
  mk (nextPla n) (forceNonTerminal n) (patternBonusHash n) (mutexIdx n) (state n) (nnOutput n)
     (nodeAge n) v (children1 n) (children2 n) (stats n) (virtualLosses n)
     (lastSubtreeValueBiasDeltaSum n) (lastSubtreeValueBiasWeight n)
     (subtreeValueBiasTableEntry n) (dirtyCounter n).

Definition set_children1 (v : option (list SearchChildPointer.t)) (n : t) : t :=
  mk (nextPla n) (forceNonTerminal n) (patternBonusHash n) (mutexIdx n) (state n) (nnOutput n)
     (nodeAge n) (children0 n) v (children2 n) (stats n) (virtualLosses n)
     (lastSubtreeValueBiasDeltaSum n) (lastSubtreeValueBiasWeight n)
     (subtreeValueBiasTableEntry n) (dirtyCounter n).

Definition set_children2 (v : option (list SearchChildPointer.t)) (n : t) : t :=
  mk (nextPla n) (forceNonTerminal n) (patternBonusHash n) (mutexIdx n) (state n) (nnOutput n)
     (nodeAge n) (children0 n) (children1 n) v (stats n) (virtualLosses n)
     (lastSubtreeValueBiasDeltaSum n) (lastSubtreeValueBiasWeight n)
     (subtreeValueBiasTableEntry n) (dirtyCounter n).

Definition set_virtualLosses (v : Z) (n : t) : t :=
  mk (nextPla n) (forceNonTerminal n) (patternBonusHash n) (mutexIdx n) (state n) (nnOutput n)
     (nodeAge n) (children0 n) (children1 n) (children2 n) (stats n) v
     (lastSubtreeValueBiasDeltaSum n) (lastSubtreeValueBiasWeight n)
     (subtreeValueBiasTableEntry n) (dirtyCounter n).

Definition set_subtreeValueBiasTableEntry (v : option addr) (n : t) : t :=
  mk (nextPla n) (forceNonTerminal n) (patternBonusHash n) (mutexIdx n) (state n) (nnOutput n)
     (nodeAge n) (children0 n) (children1 n) (children2 n) (stats n) (virtualLosses n)
     (lastSubtreeValueBiasDeltaSum n) (lastSubtreeValueBiasWeight n)
     v (dirtyCounter n).

Section WithConstants.
Context `{NodeConstants}.

(** [SearchNode::SearchNode(Player pla, bool fnt, uint32_t mIdx)] *)
Definition init (pla : Player) (fnt : bool) (mIdx : Z) : t :=
  mk pla fnt (0, 0) mIdx STATE_UNEVALUATED None 0 None None None
     NodeStatsAtomic_init 0 0%float 0%float None 0.

(** The copy loop of the copy constructor for one array:
    [children[i].storeAll(other.children[i])] for [i < size]. *)
Definition copyArray (size : nat) (other : list SearchChildPointer.t)
  : option (list SearchChildPointer.t) :=
  for_loopM size
    (fun i children =>
       o ← other !! i;
       c ← children !! i;
       Some (<[i := SearchChildPointer.storeAll o c]> children))
    (replicate size SearchChildPointer.init).

(** [SearchNode::SearchNode(const SearchNode& other, bool fnt, bool
    copySubtreeValueBias)].  It dereferences [other.nnOutput]. *)
Definition clone (other : t) (fnt : bool) (copySubtreeValueBias : bool) : option t :=
  nn ← nnOutput other;
  c0 ← match children0 other with
       | None => Some None
       | Some o => Some <$> copyArray CHILDREN0SIZE o
       end;
  c1 ← match children1 other with
       | None => Some None
       | Some o => Some <$> copyArray CHILDREN1SIZE o
       end;
  c2 ← match children2 other with
       | None => Some None
       | Some o => Some <$> copyArray CHILDREN2SIZE o
       end;
  _ ← assert (negb copySubtreeValueBias);
  Some (mk (nextPla other) fnt (patternBonusHash other) (mutexIdx other) (state other)
           (Some nn) (nodeAge other) c0 c1 c2 (stats other) (virtualLosses other)
           0%float 0%float None (dirtyCounter other)).

(** [SearchNode::getChildrenCapacity(int stateValue)] *)
Definition getChildrenCapacity (stateValue : Z) : nat :=
  if (STATE_EXPANDED2 <=? stateValue)%Z then CHILDREN2SIZE
  else if (STATE_EXPANDED1 <=? stateValue)%Z then CHILDREN1SIZE
  else if (STATE_EXPANDED0 <=? stateValue)%Z then CHILDREN0SIZE
  else 0%nat.

(** [SearchNode::getChildren(int stateValue, int& childrenCapacity)]: the
    array pointer and the capacity. *)
Definition getChildren (n : t) (stateValue : Z)
  : option (list SearchChildPointer.t) * nat :=
  if (STATE_EXPANDED2 <=? stateValue)%Z then (children2 n, CHILDREN2SIZE)
  else if (STATE_EXPANDED1 <=? stateValue)%Z then (children1 n, CHILDREN1SIZE)
  else if (STATE_EXPANDED0 <=? stateValue)%Z then (children0 n, CHILDREN0SIZE)
  else (None, 0%nat).

(** [SearchNode::iterateAndCountChildrenInArray(children, childrenCapacity)]:
    the number of slots before the first empty one.  [from] is the loop
    index, [todo] the iterations left. *)
Fixpoint countChildrenFrom (children : option (list SearchChildPointer.t))
    (todo from : nat) : option nat :=
  match todo with
  | O => Some 0%nat
  | Datatypes.S todo' =>
      arr ← children;
      c ← arr !! from;
      match SearchChildPointer.getIfAllocated c with
      | None => Some 0%nat
      | Some _ => Datatypes.S <$> countChildrenFrom children todo' (Datatypes.S from)
      end
  end.

Definition iterateAndCountChildrenInArray
    (children : option (list SearchChildPointer.t)) (childrenCapacity : nat) : option nat :=
  countChildrenFrom children childrenCapacity 0.

(** [SearchNode::initializeChildren()] *)
Definition initializeChildren (n : t) : option t :=
  _ ← assert (bool_decide (children0 n = None));
  Some (set_children0 (Some (replicate CHILDREN0SIZE SearchChildPointer.init)) n).

(** [state.compare_exchange_strong(stateValue, desired)]: the success flag,
    the updated [stateValue] (the value found, on failure) and the node. *)
Definition state_compare_exchange_strong (stateValue desired : Z) (n : t) : bool * Z * t :=
  if (state n =? stateValue)%Z then (true, stateValue, set_state desired n)
  else (false, state n, n).

(** The copy loop of [tryExpandingChildrenCapacityAssumeFull]: the first
    [size] slots of [oldChildren] are copied into [children], field by field. *)
Definition copySlots (size : nat) (oldChildren : option (list SearchChildPointer.t))
    (children : list SearchChildPointer.t) : option (list SearchChildPointer.t) :=
  for_loopM size
    (fun i children =>
       old ← oldChildren;
       o ← old !! i;
       let child := SearchChildPointer.getIfAllocatedRelaxed o in
       _ ← assert (bool_decide (child <> None));
       c ← children !! i;
       let c := SearchChildPointer.storeRelaxed child c in
       let c := SearchChildPointer.setEdgeVisitsRelaxed
                  (SearchChildPointer.getEdgeVisitsRelaxed o) c in
       let c := SearchChildPointer.setMoveLocRelaxed
                  (SearchChildPointer.getMoveLocRelaxed o) c in
       Some (<[i := c]> children))
    children.

(** First half of [tryExpandingChildrenCapacityAssumeFull]: everything up to
    and including the compare-exchange on [state].  The result is the flag
    "this thread now owns the growth", the updated [stateValue] and the node. *)
Definition tryExpanding_acquire (stateValue : Z) (n : t) : option (bool * Z * t) :=
  if (stateValue <? STATE_EXPANDED1)%Z then
    if (stateValue =? STATE_GROWING1)%Z then Some (false, stateValue, n)
    else
      _ ← assert (stateValue =? STATE_EXPANDED0)%Z;
      let '(suc, stateValue, n) :=
        state_compare_exchange_strong stateValue STATE_GROWING1 n in
      if negb suc then Some (false, stateValue, n)
      else Some (true, STATE_GROWING1, n)
  else if (stateValue <? STATE_EXPANDED2)%Z then
    if (stateValue =? STATE_GROWING2)%Z then Some (false, stateValue, n)
    else
      _ ← assert (stateValue =? STATE_EXPANDED1)%Z;
      let '(suc, stateValue, n) :=
        state_compare_exchange_strong stateValue STATE_GROWING2 n in
      if negb suc then Some (false, stateValue, n)
      else Some (true, STATE_GROWING2, n)
  else None.

(** Second half, for the owner: allocate the larger array, copy the slots and
    hang the array on the node.  [stateValue] is [STATE_GROWING1] or
    [STATE_GROWING2]. *)
Definition tryExpanding_copy (stateValue : Z) (n : t) : option t :=
  if (stateValue =? STATE_GROWING1)%Z then
    let children := replicate CHILDREN1SIZE SearchChildPointer.init in
    let oldChildren := children0 n in
    children ← copySlots CHILDREN0SIZE oldChildren children;
    _ ← assert (bool_decide (children1 n = None));
    Some (set_children1 (Some children) n)
  else
    let children := replicate CHILDREN2SIZE SearchChildPointer.init in
    let oldChildren := children1 n in
    children ← copySlots CHILDREN1SIZE oldChildren children;
    _ ← assert (bool_decide (children2 n = None));
    Some (set_children2 (Some children) n).

(** The release store that ends the growth, and the new [stateValue]. *)
Definition tryExpanding_publish (stateValue : Z) (n : t) : Z * t :=
  if (stateValue =? STATE_GROWING1)%Z
  then (STATE_EXPANDED1, set_state STATE_EXPANDED1 n)
  else (STATE_EXPANDED2, set_state STATE_EXPANDED2 n).

(** [SearchNode::tryExpandingChildrenCapacityAssumeFull(int& stateValue)],
    run without interference: the flag returned, the final [stateValue] and
    the node. *)
Definition tryExpandingChildrenCapacityAssumeFull (stateValue : Z) (n : t)
  : option (bool * Z * t) :=
  '(owner, stateValue, n) ← tryExpanding_acquire stateValue n;
  if negb owner then Some (false, stateValue, n)
  else
    n ← tryExpanding_copy stateValue n;
    let '(stateValue, n) := tryExpanding_publish stateValue n in
    Some (true, stateValue, n).

(** [SearchNode::maybeExpandChildrenCapacityForNewChild(int& stateValue, int
    numChildrenFullPlusOne)] *)
Definition maybeExpandChildrenCapacityForNewChild (stateValue : Z)
    (numChildrenFullPlusOne : nat) (n : t) : option (bool * Z * t) :=
  let capacity := getChildrenCapacity stateValue in
  if (capacity <? numChildrenFullPlusOne)%nat then
    _ ← assert (capacity =? numChildrenFullPlusOne - 1)%nat;
    tryExpandingChildrenCapacityAssumeFull stateValue n
  else Some (true, stateValue, n).

End WithConstants.
End SearchNode.

(** *** Threads expanding one node

    The part of [Search::playoutDescend] that reads and writes
    [SearchNode::state], for any number of threads working on the same node.
    A thread owns a control point; a step of a thread is one atomic access (or
    one run of thread-private code) of the source.  Steps of different
    threads interleave in any order. *)

Inductive ControlPoint : Type :=
  | Idle                        (* not inside playoutDescend on this node *)
  | Loaded (nodeState : Z)      (* after [nodeState = node.state.load()] *)
  | WonEvaluation               (* after the compare-exchange to EVALUATING *)
  | Selecting (nodeState : Z)   (* in the selection loop *)
  | Copying (stateValue : Z)    (* after the compare-exchange to GROWINGk *)
  | Publishing (stateValue : Z) (* after the copy, before the release store *).

Inductive Action : Type :=
  | AEnter
  | ADispatch (initNodeNNOutputResult : bool)
  | AFinishEvaluation
  | AReload
  | ALeave
  | AInstallChild (bestChildIdx : nat) (child : addr) (bestChildMoveLoc : Loc)
  | ANewChild (numChildrenFound : nat)
  | ACopy
  | APublish.

(** A write to [state]: the value replaced and the value written. *)
Record StateWrite : Type := mkStateWrite { replaced : Z; written : Z }.

Section NodeThreads.
Context `{NodeConstants}.

(** The children array selected by [stateValue] is replaced by [arr]. *)
Definition set_children_for (stateValue : Z) (arr : list SearchChildPointer.t)
    (n : SearchNode.t) : SearchNode.t :=
  if (STATE_EXPANDED2 <=? stateValue)%Z then SearchNode.set_children2 (Some arr) n
  else if (STATE_EXPANDED1 <=? stateValue)%Z then SearchNode.set_children1 (Some arr) n
  else SearchNode.set_children0 (Some arr) n.

(** One step of one thread on the shared node: the thread's next control
    point, the node, and the write to [state] if the step made one.  [None]:
    the action is not the thread's next one, or an assertion failed. *)
Definition thread_step (a : Action) (pc : ControlPoint) (n : SearchNode.t)
  : option (ControlPoint * SearchNode.t * option StateWrite) :=
  match a, pc with
  | AEnter, Idle =>
      (* int nodeState = node.state.load(std::memory_order_acquire); *)
      Some (Loaded (SearchNode.state n), n, None)
  | ADispatch suc, Loaded nodeState =>
      if (nodeState =? STATE_UNEVALUATED)%Z then
        if negb suc then Some (Idle, n, None)
        else
          let '(suc, _, n') :=
            SearchNode.state_compare_exchange_strong nodeState STATE_EVALUATING n in
          if negb suc then Some (Idle, n', None)
          else Some (WonEvaluation, n',
                     Some (mkStateWrite (SearchNode.state n) STATE_EVALUATING))
      else if (nodeState =? STATE_EVALUATING)%Z then Some (Idle, n, None)
      else
        _ ← assert (STATE_EXPANDED0 <=? nodeState)%Z;
        Some (Selecting nodeState, n, None)
  | AFinishEvaluation, WonEvaluation =>
      (* node.initializeChildren(); node.state.store(STATE_EXPANDED0); *)
      n' ← SearchNode.initializeChildren n;
      Some (Idle, SearchNode.set_state STATE_EXPANDED0 n',
            Some (mkStateWrite (SearchNode.state n') STATE_EXPANDED0))
  | AReload, Selecting _ =>
      Some (Selecting (SearchNode.state n), n, None)
  | ALeave, Selecting _ => Some (Idle, n, None)
  | AInstallChild bestChildIdx child bestChildMoveLoc, Selecting nodeState =>
      let '(children, childrenCapacity) := SearchNode.getChildren n nodeState in
      _ ← assert (bestChildIdx <? childrenCapacity)%nat;
      arr ← children;
      slot ← arr !! bestChildIdx;
      match SearchChildPointer.getIfAllocated slot with
      | None =>
          let slot := SearchChildPointer.setMoveLocRelaxed bestChildMoveLoc slot in
          let slot := SearchChildPointer.store (Some child) slot in
          Some (Selecting nodeState,
                set_children_for nodeState (<[bestChildIdx := slot]> arr) n, None)
      | Some _ => Some (Idle, n, None)
      end
  | ANewChild numChildrenFound, Selecting nodeState =>
      (* node.maybeExpandChildrenCapacityForNewChild(nodeState, numChildrenFound+1),
         up to the compare-exchange *)
      let capacity := SearchNode.getChildrenCapacity nodeState in
      if (capacity <? numChildrenFound + 1)%nat then
        _ ← assert (capacity =? numChildrenFound + 1 - 1)%nat;
        '(owner, stateValue, n') ← SearchNode.tryExpanding_acquire nodeState n;
        if (owner : bool)
        then Some (Copying stateValue, n',
                   Some (mkStateWrite (SearchNode.state n) stateValue))
        else
          (* std::this_thread::yield(); nodeState = node.state.load(); continue; *)
          Some (Selecting (SearchNode.state n'), n', None)
      else Some (Selecting nodeState, n, None)
  | ACopy, Copying stateValue =>
      n' ← SearchNode.tryExpanding_copy stateValue n;
      Some (Publishing stateValue, n', None)
  | APublish, Publishing stateValue =>
      let '(stateValue', n') := SearchNode.tryExpanding_publish stateValue n in
      Some (Selecting stateValue', n',
            Some (mkStateWrite (SearchNode.state n) stateValue'))
  | _, _ => None
  end.

(** The shared node and the control point of every thread. *)
Record Config : Type := mkConfig {
  node : SearchNode.t;
  threads : nat -> ControlPoint
}.

Definition initialConfig (n : SearchNode.t) : Config := mkConfig n (fun _ => Idle).

Definition set_thread (tid : nat) (pc : ControlPoint) (threads : nat -> ControlPoint)
  : nat -> ControlPoint :=
  fun t => if Nat.eqb t tid then pc else threads t.

(** A schedule names, step by step, the thread that moves and its action.
    [run] executes it and collects the writes to [state], oldest first. *)
Fixpoint run (schedule : list (nat * Action)) (c : Config)
  : option (Config * list StateWrite) :=
  match schedule with
  | [] => Some (c, [])
  | (tid, a) :: schedule =>
      '(pc, n, w) ← thread_step a (threads c tid) (node c);
      '(c', ws) ← run schedule (mkConfig n (set_thread tid pc (threads c)));
      Some (c', match w with Some w => w :: ws | None => ws end)
  end.

End NodeThreads.

(** ** Part C.  Nodes in memory: edge visits and playouts *)

(** The memory that holds the search nodes. *)
Abbreviation Heap := (gmap addr SearchNode.t).

(** The random generator of a search thread ([core/rand.h]), external. *)
Class RandOps : Type := {
  Rand : Type;
  nextBool : Rand -> float -> bool * Rand;
  nextUInt64 : Rand -> Z * Rand
}.

(** What other threads do to an edge between two accesses of the thread under
    study: the visits they add to the edge, and whether the next weak
    compare-exchange of this thread fails spuriously. *)
Record Interference : Type := mkInterference {
  addedByOthers : Z;
  spuriousFailure : bool
}.

(** What a playout does besides updating nodes, in order. *)
Inductive PlayoutEvent : Type :=
  | EvMakeBoardMove (moveLoc : Loc)
  | EvPlayoutDescend (child : addr)
  | EvUpdateStatsAfterPlayout (node : addr).

Section EdgeVisits.
Context `{NodeConstants} `{RandOps}.

(** [children[idx]] for [children = node.getChildren(nodeState, ...)]. *)
Definition readSlot (h : Heap) (node : addr) (nodeState : Z) (idx : nat)
  : option SearchChildPointer.t :=
  n ← h !! node;
  arr ← (SearchNode.getChildren n nodeState).1;
  arr !! idx.

Definition writeSlot (h : Heap) (node : addr) (nodeState : Z) (idx : nat)
    (slot : SearchChildPointer.t) : option Heap :=
  n ← h !! node;
  arr ← (SearchNode.getChildren n nodeState).1;
  _ ← arr !! idx;
  Some (<[node := set_children_for nodeState (<[idx := slot]> arr) n]> h).

(** [node->virtualLosses.fetch_add(delta)] *)
Definition addVirtualLosses (node : addr) (delta : Z) (h : Heap) : option Heap :=
  n ← h !! node;
  Some (<[node := SearchNode.set_virtualLosses (SearchNode.virtualLosses n + delta) n]> h).

(** Visits that other threads add to the edge. *)
Definition interfere (i : Interference) (h : Heap) (node : addr) (nodeState : Z)
    (idx : nat) : option Heap :=
  slot ← readSlot h node nodeState idx;
  writeSlot h node nodeState idx (SearchChildPointer.addEdgeVisits (addedByOthers i) slot).

Definition numToAdd : Z := 1.

(** The [do { ... } while(!children[bestChildIdx].compexweakEdgeVisits(
    edgeVisits, edgeVisits + numToAdd))] loop.  Each attempt of the
    compare-exchange meets the next entry of [env]; with [env] used up the
    loop has not finished ([None]). *)
Fixpoint catchUpLoop (env : list Interference) (h : Heap) (node : addr) (nodeState : Z)
    (bestChildIdx : nat) (childVisits edgeVisits : Z) : option (bool * Heap) :=
  if (childVisits <=? edgeVisits)%Z then Some (false, h)
  else
    match env with
    | [] => None
    | i :: env =>
        h ← interfere i h node nodeState bestChildIdx;
        slot ← readSlot h node nodeState bestChildIdx;
        if (SearchChildPointer.edgeVisits slot =? edgeVisits)%Z && negb (spuriousFailure i)
        then
          h ← writeSlot h node nodeState bestChildIdx
                (SearchChildPointer.setEdgeVisits (edgeVisits + numToAdd) slot);
          Some (true, h)
        else
          catchUpLoop env h node nodeState bestChildIdx childVisits
            (SearchChildPointer.edgeVisits slot)
    end.

(** [Search::maybeCatchUpEdgeVisits(thread, node, child, nodeState,
    bestChildIdx)] *)
Definition maybeCatchUpEdgeVisits (searchParams : SearchParams.t float)
    (env : list Interference) (rand : Rand) (h : Heap) (node child : addr)
    (nodeState : Z) (bestChildIdx : nat) : option (bool * Heap * Rand) :=
  c ← h !! child;
  let childVisits := visits (SearchNode.stats c) in
  slot ← readSlot h node nodeState bestChildIdx;
  let edgeVisits := SearchChildPointer.getEdgeVisits slot in
  let '(leak, rand) :=
    if PrimFloat.ltb 0%float (SearchParams.graphSearchCatchUpLeakProb searchParams)
       && (edgeVisits <? childVisits)%Z
    then nextBool rand (SearchParams.graphSearchCatchUpLeakProb searchParams)
    else (false, rand) in
  if (leak : bool) then Some (false, h, rand)
  else
    '(caughtUp, h) ← catchUpLoop env h node nodeState bestChildIdx childVisits edgeVisits;
    Some (caughtUp, h, rand).

(** The end of [Search::playoutDescend], from the point where the child to
    visit is known.  [newChild] is the node returned by [allocateOrFindNode]
    on the new-child branch (the move has been made already) and [None] on
    the existing-child branch.  The recursive call and
    [updateStatsAfterPlayout] are parameters.  The result is the flag
    [playoutDescend] returns, the memory, the generator and what happened. *)
Definition playoutDescend_visitChild
    (updateStatsAfterPlayout : addr -> Heap -> Heap)
    (playoutDescend : addr -> Heap -> Rand -> bool * Heap * Rand)
    (searchParams : SearchParams.t float) (env : list Interference)
    (rand : Rand) (h : Heap) (node : addr) (nodeState : Z) (bestChildIdx : nat)
    (bestChildMoveLoc : Loc) (newChild : option addr)
  : option (bool * Heap * Rand * list PlayoutEvent) :=
  slot ← readSlot h node nodeState bestChildIdx;
  '(child, h, installed, evs) ←
    match newChild with
    | Some child =>
        h ← addVirtualLosses child 1 h;
        match SearchChildPointer.getIfAllocated slot with
        | None =>
            let slot := SearchChildPointer.setMoveLocRelaxed bestChildMoveLoc slot in
            let slot := SearchChildPointer.store (Some child) slot in
            h ← writeSlot h node nodeState bestChildIdx slot;
            Some (child, h, true, [EvMakeBoardMove bestChildMoveLoc])
        | Some _ =>
            h ← addVirtualLosses child (-1) h;
            Some (child, h, false, [EvMakeBoardMove bestChildMoveLoc])
        end
    | None =>
        child ← SearchChildPointer.getIfAllocated slot;
        h ← addVirtualLosses child 1 h;
        Some (child, h, true, [])
    end;
  if negb installed then Some (false, h, rand, evs)
  else
    '(caughtUp, h, rand) ←
      maybeCatchUpEdgeVisits searchParams env rand h node child nodeState bestChildIdx;
    if (caughtUp : bool) then
      let h := updateStatsAfterPlayout node h in
      h ← addVirtualLosses child (-1) h;
      Some (true, h, rand, evs ++ [EvUpdateStatsAfterPlayout node])
    else
      let evs :=
        match newChild with
        | Some _ => evs
        | None => evs ++ [EvMakeBoardMove bestChildMoveLoc]
        end in
      let '(finishedPlayout, h, rand) := playoutDescend child h rand in
      let evs := evs ++ [EvPlayoutDescend child] in
      '(h, evs) ←
        (if finishedPlayout then
           n ← h !! node;
           let nodeState := SearchNode.state n in
           slot ← readSlot h node nodeState bestChildIdx;
           h ← writeSlot h node nodeState bestChildIdx
                 (SearchChildPointer.addEdgeVisits 1 slot);
           Some (updateStatsAfterPlayout node h, evs ++ [EvUpdateStatsAfterPlayout node])
         else Some (h, evs));
      h ← addVirtualLosses child (-1) h;
      Some (finishedPlayout, h, rand, evs).

End EdgeVisits.

(** ** Part D.  The search handle *)

(** The game interface the search consumes ([game/board.h],
    [game/boardhistory.h]); the game rules are external. *)
Class GameOps : Type := {
  Board : Type;
  BoardHistory : Type;
  KoHashTable : Type;
  Rules : Type;
  getOpp : Player -> Player;
  Board_clearSimpleKoLoc : Board -> Board;
  Board_isLegal : Board -> Loc -> Player -> bool -> bool;
  Hist_isLegalTolerant : BoardHistory -> Board -> Loc -> Player -> bool;
  Hist_rules : BoardHistory -> Rules;
  Hist_komi : BoardHistory -> float;
  Hist_encorePhase : BoardHistory -> Z;
  Hist_assumeMultipleStartingBlackMovesAreHandicap : BoardHistory -> bool;
  Hist_clear : BoardHistory -> Board -> Player -> Rules -> Z -> BoardHistory;
  Hist_setAssumeMultipleStartingBlackMovesAreHandicap : bool -> BoardHistory -> BoardHistory;
  Hist_makeBoardMoveAssumeLegal :
    BoardHistory -> Board -> Loc -> Player -> KoHashTable -> bool -> BoardHistory * Board;
  Hist_whiteHandicapBonusScore : BoardHistory -> float;
  Hist_passWouldEndGame : BoardHistory -> Board -> Player -> bool;
  Hist_passWouldEndPhase : BoardHistory -> Board -> Player -> bool;
  KoHashTable_recompute : KoHashTable -> BoardHistory -> KoHashTable
}.

(** [SubtreeValueBiasEntry] ([search/subtreevaluebiastable.h]) *)
Record SubtreeValueBiasEntry : Type := mkBiasEntry {
  deltaUtilitySum : float;
  weightSum_ : float
}.

(** Conversions of the source: [(uint64_t)x] and [(double)x] for an
    [int64_t] [x]. *)
Definition to_uint64 (z : Z) : Z := z mod 2 ^ 64.

(** [(uint32_t)x] *)
Definition to_uint32 (z : Z) : Z := z mod 2 ^ 32.

(** The magnitude of a negative [z] goes through the 63-bit conversion of
    primitive floats, which holds it for all [z] but the least one,
    [-2^63]. *)
Definition double_of_int64 (z : Z) : float :=
  if (z =? - 2 ^ 63)%Z then (-0x1p+63)%float
  else if (z <? 0)%Z then PrimFloat.opp (PrimFloat.of_uint63 (Uint63.of_Z (- z)))
  else PrimFloat.of_uint63 (Uint63.of_Z z).

Section SearchHandle.
Context `{NodeConstants} `{RandOps} `{GameOps}.

(** The fields of [Search] that the modelled operations read or write, and
    the memory [heap] in which its node pointers live.  A shard of the node
    table is the sequence of its entries in iteration order.
    [searchNodeAge] is a [uint32_t]: adding to it wraps around. *)
Record Search : Type := mkSearch {
  rootPla : Player;
  rootBoard : Board;
  rootHistory : BoardHistory;
  rootHintLoc : Loc;
  avoidMoveUntilByLocBlack : list Z;
  avoidMoveUntilByLocWhite : list Z;
  searchParams : SearchParams.t float;
  searchNodeAge : Z;
  plaThatSearchIsFor : Player;
  effectiveSearchTimeCarriedOver : float;
  rootKoHashTable : KoHashTable;
  rootNode : option addr;
  nodeTable : list (list (Hash128 * addr));
  nonSearchRand : Rand;
  subtreeValueBiasEntries : gmap addr SubtreeValueBiasEntry;
  numThreadsSpawned : Z;
  oldNNOutputsToCleanUp : list nat;
  heap : Heap
}.

Definition set_rootPla (v : Player) (s : Search) : Search :=
  mkSearch v (rootBoard s) (rootHistory s) (rootHintLoc s) (avoidMoveUntilByLocBlack s) (avoidMoveUntilByLocWhite s) (searchParams s) (searchNodeAge s) (plaThatSearchIsFor s) (effectiveSearchTimeCarriedOver s) (rootKoHashTable s) (rootNode s) (nodeTable s) (nonSearchRand s) (subtreeValueBiasEntries s) (numThreadsSpawned s) (oldNNOutputsToCleanUp s) (heap s).
Definition set_rootBoard (v : Board) (s : Search) : Search :=
  mkSearch (rootPla s) v (rootHistory s) (rootHintLoc s) (avoidMoveUntilByLocBlack s) (avoidMoveUntilByLocWhite s) (searchParams s) (searchNodeAge s) (plaThatSearchIsFor s) (effectiveSearchTimeCarriedOver s) (rootKoHashTable s) (rootNode s) (nodeTable s) (nonSearchRand s) (subtreeValueBiasEntries s) (numThreadsSpawned s) (oldNNOutputsToCleanUp s) (heap s).
Definition set_rootHistory (v : BoardHistory) (s : Search) : Search :=
  mkSearch (rootPla s) (rootBoard s) v (rootHintLoc s) (avoidMoveUntilByLocBlack s) (avoidMoveUntilByLocWhite s) (searchParams s) (searchNodeAge s) (plaThatSearchIsFor s) (effectiveSearchTimeCarriedOver s) (rootKoHashTable s) (rootNode s) (nodeTable s) (nonSearchRand s) (subtreeValueBiasEntries s) (numThreadsSpawned s) (oldNNOutputsToCleanUp s) (heap s).
Definition set_rootHintLoc (v : Loc) (s : Search) : Search :=
  mkSearch (rootPla s) (rootBoard s) (rootHistory s) v (avoidMoveUntilByLocBlack s) (avoidMoveUntilByLocWhite s) (searchParams s) (searchNodeAge s) (plaThatSearchIsFor s) (effectiveSearchTimeCarriedOver s) (rootKoHashTable s) (rootNode s) (nodeTable s) (nonSearchRand s) (subtreeValueBiasEntries s) (numThreadsSpawned s) (oldNNOutputsToCleanUp s) (heap s).
Definition set_avoidMoveUntilByLocBlack (v : list Z) (s : Search) : Search :=
  mkSearch (rootPla s) (rootBoard s) (rootHistory s) (rootHintLoc s) v (avoidMoveUntilByLocWhite s) (searchParams s) (searchNodeAge s) (plaThatSearchIsFor s) (effectiveSearchTimeCarriedOver s) (rootKoHashTable s) (rootNode s) (nodeTable s) (nonSearchRand s) (subtreeValueBiasEntries s) (numThreadsSpawned s) (oldNNOutputsToCleanUp s) (heap s).
Definition set_avoidMoveUntilByLocWhite (v : list Z) (s : Search) : Search :=
  mkSearch (rootPla s) (rootBoard s) (rootHistory s) (rootHintLoc s) (avoidMoveUntilByLocBlack s) v (searchParams s) (searchNodeAge s) (plaThatSearchIsFor s) (effectiveSearchTimeCarriedOver s) (rootKoHashTable s) (rootNode s) (nodeTable s) (nonSearchRand s) (subtreeValueBiasEntries s) (numThreadsSpawned s) (oldNNOutputsToCleanUp s) (heap s).
Definition set_searchParams (v : SearchParams.t float) (s : Search) : Search :=
  mkSearch (rootPla s) (rootBoard s) (rootHistory s) (rootHintLoc s) (avoidMoveUntilByLocBlack s) (avoidMoveUntilByLocWhite s) v (searchNodeAge s) (plaThatSearchIsFor s) (effectiveSearchTimeCarriedOver s) (rootKoHashTable s) (rootNode s) (nodeTable s) (nonSearchRand s) (subtreeValueBiasEntries s) (numThreadsSpawned s) (oldNNOutputsToCleanUp s) (heap s).
Definition set_searchNodeAge (v : Z) (s : Search) : Search :=
  mkSearch (rootPla s) (rootBoard s) (rootHistory s) (rootHintLoc s) (avoidMoveUntilByLocBlack s) (avoidMoveUntilByLocWhite s) (searchParams s) v (plaThatSearchIsFor s) (effectiveSearchTimeCarriedOver s) (rootKoHashTable s) (rootNode s) (nodeTable s) (nonSearchRand s) (subtreeValueBiasEntries s) (numThreadsSpawned s) (oldNNOutputsToCleanUp s) (heap s).
Definition set_plaThatSearchIsFor (v : Player) (s : Search) : Search :=
  mkSearch (rootPla s) (rootBoard s) (rootHistory s) (rootHintLoc s) (avoidMoveUntilByLocBlack s) (avoidMoveUntilByLocWhite s) (searchParams s) (searchNodeAge s) v (effectiveSearchTimeCarriedOver s) (rootKoHashTable s) (rootNode s) (nodeTable s) (nonSearchRand s) (subtreeValueBiasEntries s) (numThreadsSpawned s) (oldNNOutputsToCleanUp s) (heap s).
Definition set_effectiveSearchTimeCarriedOver (v : float) (s : Search) : Search :=
  mkSearch (rootPla s) (rootBoard s) (rootHistory s) (rootHintLoc s) (avoidMoveUntilByLocBlack s) (avoidMoveUntilByLocWhite s) (searchParams s) (searchNodeAge s) (plaThatSearchIsFor s) v (rootKoHashTable s) (rootNode s) (nodeTable s) (nonSearchRand s) (subtreeValueBiasEntries s) (numThreadsSpawned s) (oldNNOutputsToCleanUp s) (heap s).
Definition set_rootKoHashTable (v : KoHashTable) (s : Search) : Search :=
  mkSearch (rootPla s) (rootBoard s) (rootHistory s) (rootHintLoc s) (avoidMoveUntilByLocBlack s) (avoidMoveUntilByLocWhite s) (searchParams s) (searchNodeAge s) (plaThatSearchIsFor s) (effectiveSearchTimeCarriedOver s) v (rootNode s) (nodeTable s) (nonSearchRand s) (subtreeValueBiasEntries s) (numThreadsSpawned s) (oldNNOutputsToCleanUp s) (heap s).
Definition set_rootNode (v : option addr) (s : Search) : Search :=
  mkSearch (rootPla s) (rootBoard s) (rootHistory s) (rootHintLoc s) (avoidMoveUntilByLocBlack s) (avoidMoveUntilByLocWhite s) (searchParams s) (searchNodeAge s) (plaThatSearchIsFor s) (effectiveSearchTimeCarriedOver s) (rootKoHashTable s) v (nodeTable s) (nonSearchRand s) (subtreeValueBiasEntries s) (numThreadsSpawned s) (oldNNOutputsToCleanUp s) (heap s).
Definition set_nodeTable (v : list (list (Hash128 * addr))) (s : Search) : Search :=
  mkSearch (rootPla s) (rootBoard s) (rootHistory s) (rootHintLoc s) (avoidMoveUntilByLocBlack s) (avoidMoveUntilByLocWhite s) (searchParams s) (searchNodeAge s) (plaThatSearchIsFor s) (effectiveSearchTimeCarriedOver s) (rootKoHashTable s) (rootNode s) v (nonSearchRand s) (subtreeValueBiasEntries s) (numThreadsSpawned s) (oldNNOutputsToCleanUp s) (heap s).
Definition set_nonSearchRand (v : Rand) (s : Search) : Search :=
  mkSearch (rootPla s) (rootBoard s) (rootHistory s) (rootHintLoc s) (avoidMoveUntilByLocBlack s) (avoidMoveUntilByLocWhite s) (searchParams s) (searchNodeAge s) (plaThatSearchIsFor s) (effectiveSearchTimeCarriedOver s) (rootKoHashTable s) (rootNode s) (nodeTable s) v (subtreeValueBiasEntries s) (numThreadsSpawned s) (oldNNOutputsToCleanUp s) (heap s).
Definition set_subtreeValueBiasEntries (v : gmap addr SubtreeValueBiasEntry) (s : Search) : Search :=
  mkSearch (rootPla s) (rootBoard s) (rootHistory s) (rootHintLoc s) (avoidMoveUntilByLocBlack s) (avoidMoveUntilByLocWhite s) (searchParams s) (searchNodeAge s) (plaThatSearchIsFor s) (effectiveSearchTimeCarriedOver s) (rootKoHashTable s) (rootNode s) (nodeTable s) (nonSearchRand s) v (numThreadsSpawned s) (oldNNOutputsToCleanUp s) (heap s).
Definition set_numThreadsSpawned (v : Z) (s : Search) : Search :=
  mkSearch (rootPla s) (rootBoard s) (rootHistory s) (rootHintLoc s) (avoidMoveUntilByLocBlack s) (avoidMoveUntilByLocWhite s) (searchParams s) (searchNodeAge s) (plaThatSearchIsFor s) (effectiveSearchTimeCarriedOver s) (rootKoHashTable s) (rootNode s) (nodeTable s) (nonSearchRand s) (subtreeValueBiasEntries s) v (oldNNOutputsToCleanUp s) (heap s).
Definition set_oldNNOutputsToCleanUp (v : list nat) (s : Search) : Search :=
  mkSearch (rootPla s) (rootBoard s) (rootHistory s) (rootHintLoc s) (avoidMoveUntilByLocBlack s) (avoidMoveUntilByLocWhite s) (searchParams s) (searchNodeAge s) (plaThatSearchIsFor s) (effectiveSearchTimeCarriedOver s) (rootKoHashTable s) (rootNode s) (nodeTable s) (nonSearchRand s) (subtreeValueBiasEntries s) (numThreadsSpawned s) v (heap s).
Definition set_heap (v : Heap) (s : Search) : Search :=
  mkSearch (rootPla s) (rootBoard s) (rootHistory s) (rootHintLoc s) (avoidMoveUntilByLocBlack s) (avoidMoveUntilByLocWhite s) (searchParams s) (searchNodeAge s) (plaThatSearchIsFor s) (effectiveSearchTimeCarriedOver s) (rootKoHashTable s) (rootNode s) (nodeTable s) (nonSearchRand s) (subtreeValueBiasEntries s) (numThreadsSpawned s) (oldNNOutputsToCleanUp s) v.

(** [Search::numAdditionalThreadsToUseForTasks()] *)
Definition numAdditionalThreadsToUseForTasks (s : Search) : Z :=
  SearchParams.numThreads (searchParams s) - 1.

(** [Search::spawnThreadsIfNeeded()]; of the pool only its size is kept. *)
Definition spawnThreadsIfNeeded (s : Search) : Search :=
  let desiredNumAdditionalThreads := numAdditionalThreadsToUseForTasks s in
  if (desiredNumAdditionalThreads <=? numThreadsSpawned s)%Z then s
  else set_numThreadsSpawned desiredNumAdditionalThreads s.

(** Thread indices [from], ..., [from + count - 1]. *)
Fixpoint threadIndices (from : Z) (count : nat) : list Z :=
  match count with
  | O => []
  | Datatypes.S count => from :: threadIndices (from + 1) count
  end.

Fixpoint runTasks (task : Z -> Search -> option Search) (idxs : list Z) (s : Search)
  : option Search :=
  match idxs with
  | [] => Some s
  | threadIdx :: idxs => s' ← task threadIdx s; runTasks task idxs s'
  end.

(** [Search::performTaskWithThreads(task)].  The source runs [task(0)] on the
    calling thread while the pool runs [task(1)], ..., [task(n)], and waits
    for all of them; here the tasks run one after the other, thread 0
    first. *)
Definition performTaskWithThreads (task : Z -> Search -> option Search) (s : Search)
  : option Search :=
  let s := spawnThreadsIfNeeded s in
  let numAdditionalThreadsToUse := numAdditionalThreadsToUseForTasks s in
  if (numAdditionalThreadsToUse <=? 0)%Z then task 0 s
  else
    _ ← assert (numAdditionalThreadsToUse <=? numThreadsSpawned s)%Z;
    runTasks task (threadIndices 0 (Datatypes.S (Z.to_nat numAdditionalThreadsToUse))) s.

(** [Search::clearOldNNOutputs()] *)
Definition clearOldNNOutputs (s : Search) : Search := set_oldNNOutputsToCleanUp [] s.

(** The shards [idx0 <= i < idx1] that one thread handles, as the source
    computes them in unsigned 64-bit arithmetic. *)
Definition shardRange (s : Search) (threadIdx : Z) : option (Z * Z) :=
  let numAdditionalThreads := numAdditionalThreadsToUseForTasks s in
  let size := Z.of_nat (length (nodeTable s)) in
  let divisor := to_uint64 (numAdditionalThreads + 1) in
  _ ← assert (negb (divisor =? 0)%Z);
  let idx0 := to_uint64 (to_uint64 threadIdx * size) / divisor in
  let idx1 := to_uint64 (to_uint64 (threadIdx + 1) * size) / divisor in
  Some (idx0, idx1).

(** [for(size_t i = idx0; i<idx1; i++)] over the shards, with a body that can
    abort. *)
Definition forShards (idx0 idx1 : Z) (body : nat -> Search -> option Search) (s : Search)
  : option Search :=
  for_loopM (Z.to_nat (idx1 - idx0)) (fun k s => body (Z.to_nat idx0 + k)%nat s) s.

(** [Search::deleteAllTableNodesMulithreaded()] *)
Definition deleteAllTableNodesMulithreaded (s : Search) : option Search :=
  let numAdditionalThreads := numAdditionalThreadsToUseForTasks s in
  _ ← assert (0 <=? numAdditionalThreads)%Z;
  performTaskWithThreads
    (fun threadIdx s =>
       '(idx0, idx1) ← shardRange s threadIdx;
       forShards idx0 idx1
         (fun i s =>
            nodeMap ← nodeTable s !! i;
            let h := foldl (fun h (e : Hash128 * addr) => delete e.2 h) (heap s) nodeMap in
            Some (set_nodeTable (<[i := []]> (nodeTable s)) (set_heap h s)))
         s)
    s.

(** [Search::clearSearch()] *)
Definition clearSearch (s : Search) : option Search :=
  let s := set_effectiveSearchTimeCarriedOver 0%float s in
  s ← deleteAllTableNodesMulithreaded s;
  let s :=
    match rootNode s with
    | Some r => set_rootNode None (set_heap (delete r (heap s)) s)
    | None => s
    end in
  let s := clearOldNNOutputs s in
  Some (set_searchNodeAge 0 s).

(** [Search::setPosition(pla, board, history)] *)
Definition setPosition (pla : Player) (board : Board) (history : BoardHistory) (s : Search)
  : option Search :=
  s ← clearSearch s;
  let s := set_rootPla pla s in
  let s := set_plaThatSearchIsFor C_EMPTY s in
  let s := set_rootBoard board s in
  let s := set_rootHistory history s in
  let s := set_rootKoHashTable (KoHashTable_recompute (rootKoHashTable s) (rootHistory s)) s in
  let s := set_avoidMoveUntilByLocBlack [] s in
  Some (set_avoidMoveUntilByLocWhite [] s).

(** [Search::setPlayerAndClearHistory(pla)] *)
Definition setPlayerAndClearHistory (pla : Player) (s : Search) : option Search :=
  s ← clearSearch s;
  let s := set_rootPla pla s in
  let s := set_plaThatSearchIsFor C_EMPTY s in
  let s := set_rootBoard (Board_clearSimpleKoLoc (rootBoard s)) s in
  let rules := Hist_rules (rootHistory s) in
  let assumeMultipleStartingBlackMovesAreHandicap :=
    Hist_assumeMultipleStartingBlackMovesAreHandicap (rootHistory s) in
  let s :=
    set_rootHistory
      (Hist_clear (rootHistory s) (rootBoard s) (rootPla s) rules
         (Hist_encorePhase (rootHistory s))) s in
  let s :=
    set_rootHistory
      (Hist_setAssumeMultipleStartingBlackMovesAreHandicap
         assumeMultipleStartingBlackMovesAreHandicap (rootHistory s)) s in
  let s := set_rootKoHashTable (KoHashTable_recompute (rootKoHashTable s) (rootHistory s)) s in
  let s := set_avoidMoveUntilByLocBlack [] s in
  Some (set_avoidMoveUntilByLocWhite [] s).

(** [Search::isLegalTolerant(moveLoc, movePla)] *)
Definition isLegalTolerant (s : Search) (moveLoc : Loc) (movePla : Player) : bool :=
  let multiStoneSuicideLegal := true in
  if negb (bool_decide (movePla = rootPla s)) then
    let copy := rootBoard s in
    let copy := Board_clearSimpleKoLoc copy in
    Board_isLegal copy moveLoc movePla multiStoneSuicideLegal
  else Hist_isLegalTolerant (rootHistory s) (rootBoard s) moveLoc movePla.

(** The loop of [makeMove] over the root's children: the index of the first
    child whose move is [moveLoc], among the slots before the first empty
    one.  [foundChildIdx] is [None] while [foundChild] is false. *)
Fixpoint findChildLoop (children : option (list SearchChildPointer.t)) (moveLoc : Loc)
    (todo i : nat) (foundChildIdx : option nat) : option (option nat) :=
  match todo with
  | O => Some foundChildIdx
  | Datatypes.S todo =>
      arr ← children;
      slot ← arr !! i;
      match SearchChildPointer.getIfAllocated slot with
      | None => Some foundChildIdx
      | Some _ =>
          let foundChildIdx :=
            match foundChildIdx with
            | None =>
                if (SearchChildPointer.getMoveLocRelaxed slot =? moveLoc)%Z
                then Some i else None
            | Some _ => foundChildIdx
            end in
          findChildLoop children moveLoc todo (Datatypes.S i) foundChildIdx
      end
  end.

(** [Search::applyRecursivelyAnyOrderMulithreadedHelper(node, threadIdx, rand,
    randBuf, f)] with the children in index order, as for thread 0, whose
    [rand] is null.  The other threads shuffle the order; since the tasks run
    one after the other here, thread 0 first, they find their start nodes
    done and return before they look at any child.  [fuel] bounds the depth of
    the recursion: [None] also stands for a recursion deeper than [fuel]. *)
Fixpoint applyRecursivelyAnyOrderMulithreadedHelper (fuel : nat) (searchNodeAge : Z)
    (f : option (addr -> Z -> Heap -> option Heap)) (threadIdx : Z) (node : addr)
    (h : Heap) : option Heap :=
  match fuel with
  | O => None
  | Datatypes.S fuel =>
      n ← h !! node;
      if (SearchNode.nodeAge n =? searchNodeAge)%Z then Some h
      else
        let stateValue := SearchNode.state n in
        let '(children, childrenCapacity) := SearchNode.getChildren n stateValue in
        numChildren ← SearchNode.iterateAndCountChildrenInArray children childrenCapacity;
        h ← (if (0 <? numChildren)%nat then
               for_loopM numChildren
                 (fun childIdx h =>
                    slot ← readSlot h node stateValue childIdx;
                    child ← SearchChildPointer.getIfAllocated slot;
                    applyRecursivelyAnyOrderMulithreadedHelper fuel searchNodeAge f
                      threadIdx child h)
                 h
             else Some h);
        n ← h !! node;
        let oldAge := SearchNode.nodeAge n in
        let h := <[node := SearchNode.set_nodeAge searchNodeAge n]> h in
        if (oldAge =? searchNodeAge)%Z then Some h
        else
          match f with
          | None => Some h
          | Some f => f node threadIdx h
          end
  end.

(** [nonSearchRand.nextUInt64()], [count] times: the seeds of the per-thread
    generators. *)
Fixpoint drawSeeds (count : nat) (rand : Rand) : Rand :=
  match count with
  | O => rand
  | Datatypes.S count => drawSeeds count (nextUInt64 rand).2
  end.

(** [Search::applyRecursivelyAnyOrderMulithreaded(nodes, f)] *)
Definition applyRecursivelyAnyOrderMulithreaded (fuel : nat) (nodes : list addr)
    (f : option (addr -> Z -> Heap -> option Heap)) (s : Search) : option Search :=
  let s := set_searchNodeAge (to_uint32 (searchNodeAge s + 1)) s in
  let numAdditionalThreads := numAdditionalThreadsToUseForTasks s in
  _ ← assert (0 <=? numAdditionalThreads + 1)%Z;
  let s := set_nonSearchRand
             (drawSeeds (Z.to_nat numAdditionalThreads) (nonSearchRand s)) s in
  performTaskWithThreads
    (fun threadIdx s =>
       h ← foldl
             (fun oh node =>
                h ← oh;
                applyRecursivelyAnyOrderMulithreadedHelper fuel (searchNodeAge s) f
                  threadIdx node h)
             (Some (heap s)) nodes;
       Some (set_heap h s))
    s.

(** [Search::removeSubtreeValueBias(node)] *)
Definition removeSubtreeValueBias (node : addr) (s : Search) : option Search :=
  n ← heap s !! node;
  match SearchNode.subtreeValueBiasTableEntry n with
  | Some e =>
      let deltaUtilitySumToSubtract :=
        PrimFloat.mul (SearchNode.lastSubtreeValueBiasDeltaSum n)
          (SearchParams.subtreeValueBiasFreeProp (searchParams s)) in
      let weightSumToSubtract :=
        PrimFloat.mul (SearchNode.lastSubtreeValueBiasWeight n)
          (SearchParams.subtreeValueBiasFreeProp (searchParams s)) in
      entry ← subtreeValueBiasEntries s !! e;
      let entry :=
        mkBiasEntry (PrimFloat.sub (deltaUtilitySum entry) deltaUtilitySumToSubtract)
          (PrimFloat.sub (weightSum_ entry) weightSumToSubtract) in
      let s := set_subtreeValueBiasEntries (<[e := entry]> (subtreeValueBiasEntries s)) s in
      Some (set_heap (<[node := SearchNode.set_subtreeValueBiasTableEntry None n]> (heap s)) s)
  | None => Some s
  end.

(** The loop of the sweep over one shard: the entries kept, in order. *)
Fixpoint sweepShard (old : bool) (nodeMap : list (Hash128 * addr)) (s : Search)
  : option (list (Hash128 * addr) * Search) :=
  match nodeMap with
  | [] => Some ([], s)
  | (key, node) :: nodeMap =>
      n ← heap s !! node;
      if Bool.eqb old (SearchNode.nodeAge n <? searchNodeAge s)%Z then
        s ← removeSubtreeValueBias node s;
        let s := set_heap (delete node (heap s)) s in
        sweepShard old nodeMap s
      else
        '(kept, s) ← sweepShard old nodeMap s;
        Some ((key, node) :: kept, s)
  end.

(** [Search::deleteAllOldOrAllNewTableNodesAndSubtreeValueBiasMulithreaded(old)] *)
Definition deleteAllOldOrAllNewTableNodesAndSubtreeValueBiasMulithreaded (old : bool)
    (s : Search) : option Search :=
  let numAdditionalThreads := numAdditionalThreadsToUseForTasks s in
  _ ← assert (0 <=? numAdditionalThreads)%Z;
  performTaskWithThreads
    (fun threadIdx s =>
       '(idx0, idx1) ← shardRange s threadIdx;
       forShards idx0 idx1
         (fun i s =>
            nodeMap ← nodeTable s !! i;
            '(kept, s) ← sweepShard old nodeMap s;
            Some (set_nodeTable (<[i := kept]> (nodeTable s)) s))
         s)
    s.

(** The tree-reuse branch of [makeMove]: the child in slot [foundChildIdx]
    becomes the root. *)
Definition promoteChild (fuel : nat) (rn : SearchNode.t)
    (children : option (list SearchChildPointer.t)) (foundChildIdx : nat) (s : Search)
  : option Search :=
  arr ← children;
  slot ← arr !! foundChildIdx;
  child ← SearchChildPointer.getIfAllocated slot;
  cn ← heap s !! child;
  let rootVisits := visits (SearchNode.stats rn) in
  let childVisits := visits (SearchNode.stats cn) in
  let visitProportion :=
    PrimFloat.div (double_of_int64 childVisits) (double_of_int64 rootVisits) in
  let visitProportion :=
    if PrimFloat.ltb 1%float visitProportion then 1%float else visitProportion in
  let s :=
    set_effectiveSearchTimeCarriedOver
      (PrimFloat.mul (PrimFloat.mul (effectiveSearchTimeCarriedOver s) visitProportion)
         (SearchParams.treeReuseCarryOverTimeFactor (searchParams s))) s in
  let copySubtreeValueBias := false in
  let forceNonTerminal := true in
  newRoot ← SearchNode.clone cn forceNonTerminal copySubtreeValueBias;
  let a := fresh (dom (heap s)) in
  let s := set_rootNode (Some a) (set_heap (<[a := newRoot]> (heap s)) s) in
  s ← applyRecursivelyAnyOrderMulithreaded fuel [a] None s;
  let old := true in
  deleteAllOldOrAllNewTableNodesAndSubtreeValueBiasMulithreaded old s.

(** [Search::makeMove(moveLoc, movePla, preventEncore)]: the flag returned
    and the handle. *)
Definition makeMove (fuel : nat) (moveLoc : Loc) (movePla : Player) (preventEncore : bool)
    (s : Search) : option (bool * Search) :=
  if negb (isLegalTolerant s moveLoc movePla) then Some (false, s)
  else
    s ← (if negb (bool_decide (movePla = rootPla s))
         then setPlayerAndClearHistory movePla s else Some s);
    s ← match rootNode s with
        | Some root =>
            rn ← heap s !! root;
            let '(children, childrenCapacity) :=
              SearchNode.getChildren rn (SearchNode.state rn) in
            foundChildIdx ← findChildLoop children moveLoc childrenCapacity 0 None;
            foundChildIdx ←
              match foundChildIdx with
              | Some i =>
                  arr ← children;
                  slot ← arr !! i;
                  child ← SearchChildPointer.getIfAllocated slot;
                  cn ← heap s !! child;
                  match SearchNode.nnOutput cn with
                  | None => Some None
                  | Some _ => Some (Some i)
                  end
              | None => Some None
              end;
            match foundChildIdx with
            | Some i => promoteChild fuel rn children i s
            | None => clearSearch s
            end
        | None => Some s
        end;
    let oldWhiteHandicapBonusScore := Hist_whiteHandicapBonusScore (rootHistory s) in
    let '(hist, board) :=
      Hist_makeBoardMoveAssumeLegal (rootHistory s) (rootBoard s) moveLoc (rootPla s)
        (rootKoHashTable s) preventEncore in
    let s := set_rootBoard board (set_rootHistory hist s) in
    let s := set_rootPla (getOpp (rootPla s)) s in
    let s := set_rootKoHashTable (KoHashTable_recompute (rootKoHashTable s) (rootHistory s)) s in
    let s := set_avoidMoveUntilByLocBlack [] s in
    let s := set_avoidMoveUntilByLocWhite [] s in
    s ← (if negb (PrimFloat.eqb (Hist_whiteHandicapBonusScore (rootHistory s))
                    oldWhiteHandicapBonusScore)
         then clearSearch s else Some s);
    s ← (if SearchParams.conservativePass (searchParams s)
            && Hist_passWouldEndGame (rootHistory s) (rootBoard s) (rootPla s)
         then clearSearch s else Some s);
    s ← (if preventEncore && Hist_passWouldEndPhase (rootHistory s) (rootBoard s) (rootPla s)
         then clearSearch s else Some s);
    Some (true, s).

End SearchHandle.

(** ** Part E.  The worker loop of [runWholeSearch] *)

(** The variables that the workers of one [runWholeSearch] share. *)
Record SharedVars : Type := mkShared {
  numPlayoutsShared : Z;
  tcMaxTime : float;
  upperBoundVisitsLeftDueToTime : float;
  shouldStopNow : bool
}.

(** What is fixed when the workers start. *)
Record LoopParams : Type := mkLoopParams {
  threadIdx : Z;
  pondering : bool;
  hasTc : bool;
  hasMaxTime : bool;
  maxVisits : Z;
  maxPlayouts : Z;
  maxTime : float;
  numNonPlayoutVisits : Z
}.

(** What one iteration of the loop meets: the reading of the timer, a stop
    requested from outside, the playouts that other workers have added to
    [numPlayoutsShared] in the meantime, and whether [runSinglePlayout]
    finished a playout. *)
Record IterationInput : Type := mkIteration {
  timerSeconds : float;
  stopRequested : bool;
  playoutsByOthers : Z;
  finishedPlayout : bool
}.

(** What a worker leaves behind: the shared variables, its [numPlayouts], the
    timer readings at which it recomputed the time limit (oldest first), and
    whether it left the loop. *)
Record LoopResult : Type := mkLoopResult {
  sharedAfter : SharedVars;
  numPlayoutsAfter : Z;
  recomputedAt : list float;
  leftLoop : bool
}.

(** [std::min(a,b)] on doubles. *)
Definition fmin (a b : float) : float := if PrimFloat.ltb b a then b else a.

Section WorkerLoop.

(** Time control is external: [recomputeSearchTimeLimit(tc, timeUsed,
    searchFactor, rootVisits)] for the [tc] and [searchFactor] of this search,
    and [computeUpperBoundVisitsLeftDueToTime(rootVisits, timeUsed,
    plannedTimeLimit)], whose value is stored and read by futile-visit
    pruning only. *)
Context (recomputeSearchTimeLimit : float -> Z -> float)
        (computeUpperBoundVisitsLeftDueToTime : Z -> float -> float -> float).

(** The [while(true)] loop of the [searchLoop] lambda of [runWholeSearch] for
    one worker, one iteration per input.  [numPlayouts] and
    [lastTimeUsedRecomputingTcLimit] are the worker's local variables. *)
Fixpoint searchLoop (inputs : list IterationInput) (p : LoopParams) (shared : SharedVars)
    (numPlayouts : Z) (lastTimeUsedRecomputingTcLimit : float) : LoopResult :=
  match inputs with
  | [] => mkLoopResult shared numPlayouts [] false
  | input :: inputs =>
      let shared :=
        mkShared (numPlayoutsShared shared + playoutsByOthers input) (tcMaxTime shared)
          (upperBoundVisitsLeftDueToTime shared)
          (shouldStopNow shared || stopRequested input) in
      let timeUsed := if hasTc p || hasMaxTime p then timerSeconds input else 0%float in
      let tcMaxTimeLimit := if hasTc p then tcMaxTime shared else 0%float in
      let shouldStop :=
        (maxPlayouts p <=? numPlayouts)%Z
        || (maxVisits p <=? numPlayouts + numNonPlayoutVisits p)%Z in
      let shouldStop :=
        if hasMaxTime p && (2 <=? numPlayouts)%Z && PrimFloat.leb (maxTime p) timeUsed
        then true else shouldStop in
      let shouldStop :=
        if hasTc p && (2 <=? numPlayouts)%Z && PrimFloat.leb tcMaxTimeLimit timeUsed
        then true else shouldStop in
      if shouldStop || shouldStopNow shared then
        mkLoopResult
          (mkShared (numPlayoutsShared shared) (tcMaxTime shared)
             (upperBoundVisitsLeftDueToTime shared) true)
          numPlayouts [] true
      else
        let '(shared, recomputed) :=
          if negb (pondering p) && (hasTc p || hasMaxTime p) && (threadIdx p =? 0)%Z
             && PrimFloat.leb (PrimFloat.add lastTimeUsedRecomputingTcLimit 0.1%float) timeUsed
          then
            let rootVisits := (numPlayouts + numNonPlayoutVisits p)%Z in
            let tcLimit := 1e30%float in
            let '(tcLimit, shared) :=
              if hasTc p then
                let tcLimit := recomputeSearchTimeLimit timeUsed rootVisits in
                (tcLimit,
                 mkShared (numPlayoutsShared shared) tcLimit
                   (upperBoundVisitsLeftDueToTime shared) (shouldStopNow shared))
              else (tcLimit, shared) in
            let upperBoundVisits :=
              computeUpperBoundVisitsLeftDueToTime rootVisits timeUsed
                (fmin tcLimit (maxTime p)) in
            (mkShared (numPlayoutsShared shared) (tcMaxTime shared) upperBoundVisits
               (shouldStopNow shared),
             [timeUsed])
          else (shared, []) in
        let '(shared, numPlayouts) :=
          if finishedPlayout input then
            (* numPlayouts = numPlayoutsShared.fetch_add(1); numPlayouts += 1; *)
            (mkShared (numPlayoutsShared shared + 1) (tcMaxTime shared)
               (upperBoundVisitsLeftDueToTime shared) (shouldStopNow shared),
             (numPlayoutsShared shared + 1)%Z)
          else (shared, numPlayouts) in
        let r := searchLoop inputs p shared numPlayouts lastTimeUsedRecomputingTcLimit in
        mkLoopResult (sharedAfter r) (numPlayoutsAfter r) (recomputed ++ recomputedAt r)
          (leftLoop r)
  end.

(** A worker as [searchLoop] starts it:
    [numPlayouts = numPlayoutsShared.load()] and
    [lastTimeUsedRecomputingTcLimit = 0.0]. *)
Definition searchLoopWorker (inputs : list IterationInput) (p : LoopParams)
    (shared : SharedVars) : LoopResult :=
  searchLoop inputs p shared (numPlayoutsShared shared) 0%float.

End WorkerLoop.

(** The rate limit the specification states for worker 0: any two
    recomputations are at least 0.1 seconds of search time apart. *)
Fixpoint spacedByTenth (times : list float) : bool :=
  match times with
  | [] => true
  | t :: rest =>
      forallb (fun t' => PrimFloat.leb (PrimFloat.add t 0.1%float) t') rest
      && spacedByTenth rest
  end.

(** ** Part F.  A small instance

    Concrete constants, a generator, a game and a search handle, on which the
    operations above can be run. *)

Definition toyConstants : NodeConstants :=
  {| CHILDREN0SIZE := 2; CHILDREN1SIZE := 4; CHILDREN2SIZE := 8; NULL_LOC := 0 |}.

Definition toyRand : RandOps :=
  {| Rand := nat;
     nextBool := fun r _ => (Nat.even r, Datatypes.S r);
     nextUInt64 := fun r => (Z.of_nat r, Datatypes.S r) |}.

(** The pass move of the toy game. *)
Definition toyPass : Loc := 1.

(** A game in which a point may be played once; the board is the list of
    the occupied points and the history the list of the moves, latest
    first.  A pass after a pass would end the game. *)
Definition toyGame : GameOps :=
  {| Board := list Loc;
     BoardHistory := list (Loc * Player);
     KoHashTable := unit;
     Rules := unit;
     getOpp := fun pla =>
       match pla with P_BLACK => P_WHITE | P_WHITE => P_BLACK | C_EMPTY => C_EMPTY end;
     Board_clearSimpleKoLoc := fun b => b;
     Board_isLegal := fun b loc _ _ => bool_decide (loc ∉ b);
     Hist_isLegalTolerant := fun _ b loc _ => bool_decide (loc ∉ b);
     Hist_rules := fun _ => tt;
     Hist_komi := fun _ => 7.5%float;
     Hist_encorePhase := fun _ => 0;
     Hist_assumeMultipleStartingBlackMovesAreHandicap := fun _ => false;
     Hist_clear := fun _ _ _ _ _ => [];
     Hist_setAssumeMultipleStartingBlackMovesAreHandicap := fun _ h => h;
     Hist_makeBoardMoveAssumeLegal := fun h b loc pla _ _ =>
       ((loc, pla) :: h, if (loc =? toyPass)%Z then b else loc :: b);
     Hist_whiteHandicapBonusScore := fun _ => 0%float;
     Hist_passWouldEndGame := fun h _ _ =>
       match h with (loc, _) :: _ => (loc =? toyPass)%Z | [] => false end;
     Hist_passWouldEndPhase := fun h _ _ =>
       match h with (loc, _) :: _ => (loc =? toyPass)%Z | [] => false end;
     KoHashTable_recompute := fun _ _ => tt |}.

Definition toyParams : SearchParams.t float :=
  SearchParams.mk 1%float 0.45%float 500%float 10.83%float 0.25%float 0%float
    0.5%float 0.8%float true 2.

Definition toySlot (child : addr) (edgeVisits : Z) (moveLoc : Loc) : SearchChildPointer.t :=
  SearchChildPointer.mk (Some child) edgeVisits moveLoc.

Definition toyEmptySlot : SearchChildPointer.t := SearchChildPointer.mk None 0 0.

Definition toyNode (pla : Player) (fnt : bool) (state : Z) (nn : option nat) (age : Z)
    (children0 : option (list SearchChildPointer.t)) (visits : Z) : SearchNode.t :=
  SearchNode.mk pla fnt (0, 0) 0 state nn age children0 None None
    (mkNodeStats visits 0%float 0%float 0%float 0%float 0%float 0%float 0%float
       1%float 1%float)
    0 0%float 0%float None 0.

(** A root (address 1) with two children: address 2, reached by move 5,
    evaluated, with one child of its own (address 4, move 9); and address 3,
    reached by move 6, not evaluated yet. *)
Definition toyHeap : Heap :=
  <[1%nat := toyNode P_BLACK true STATE_EXPANDED0 (Some 10%nat) 1
               (Some [toySlot 2%nat 3 5; toySlot 3%nat 1 6]) 5]>
  (<[2%nat := toyNode P_WHITE false STATE_EXPANDED0 (Some 11%nat) 1
                (Some [toySlot 4%nat 1 9; toyEmptySlot]) 3]>
   (<[3%nat := toyNode P_WHITE false STATE_UNEVALUATED None 0 None 0]>
    (<[4%nat := toyNode P_BLACK false STATE_EXPANDED0 (Some 12%nat) 1
                 (Some [toyEmptySlot; toyEmptySlot]) 1]> ∅))).

Definition toySearch : @Search toyRand toyGame :=
  @mkSearch toyRand toyGame
    P_BLACK [] [] 0 [3] [4] toyParams 1 P_BLACK 2%float tt (Some 1%nat)
    [[((0, 2), 2%nat); ((0, 4), 4%nat)]; [((1, 3), 3%nat)]]
    0%nat ∅ 0 [7%nat] toyHeap.

(** ** Part G.  Values and statistics over the reals

    More of the arithmetic of [search.cpp], with [double] and [float] as real
    numbers as in Part A. *)

(** [SearchParams] again: the fields that the functions of this part read. *)
Module ValueParams.
Record t : Type := mk {
  winLossUtilityFactor : R;
  noResultUtilityForWhite : R;
  staticScoreUtilityFactor : R;
  dynamicScoreUtilityFactor : R;
  dynamicScoreCenterScale : R;
  subtreeValueBiasFactor : R;
  valueWeightExponent : R;
  noisePruneUtilityScale : R;
  noisePruningCap : R;
  useUncertainty : bool;
  uncertaintyExponent : R;
  uncertaintyCoeff : R;
  uncertaintyMaxWeight : R
}.
End ValueParams.

(** [NodeStats]: the plain copy of [NodeStatsAtomic]. *)
Record NodeStats : Type := mkStats {
  ns_visits : Z;
  ns_winLossValueAvg : R;
  ns_noResultValueAvg : R;
  ns_scoreMeanAvg : R;
  ns_scoreMeanSqAvg : R;
  ns_leadAvg : R;
  ns_utilityAvg : R;
  ns_utilitySqAvg : R;
  ns_weightSum : R;
  ns_weightSqSum : R
}.

(** [NodeStats::NodeStats()] *)
Definition NodeStats_init : NodeStats := mkStats 0 0 0 0 0 0 0 0 0 0.

(** [MoreNodeStats] *)
Record MoreNodeStats : Type := mkMoreStats {
  ms_stats : NodeStats;
  selfUtility : R;
  weightAdjusted : R;
  prevMoveLoc : Loc
}.

Definition set_weightAdjusted (v : R) (m : MoreNodeStats) : MoreNodeStats :=
  mkMoreStats (ms_stats m) (selfUtility m) v (prevMoveLoc m).


Section RealValues.
Local Open Scope R_scope.

(** [ScoreValue::expectedWhiteScoreValue(scoreMean, scoreStdev, center,
    scale, board)] ([search/...] of another file) is external. *)
Context {BoardT : Type} (expectedWhiteScoreValue : R -> R -> R -> R -> BoardT -> R).

(** [Search::getResultUtility(winLossValue, noResultValue)] *)
Definition getResultUtility (searchParams : ValueParams.t) (winLossValue noResultValue : R)
  : R :=
  winLossValue * ValueParams.winLossUtilityFactor searchParams
  + noResultValue * ValueParams.noResultUtilityForWhite searchParams.

(** [Search::getScoreStdev(scoreMean, scoreMeanSq)] *)
Definition getScoreStdev (scoreMean scoreMeanSq : R) : R :=
  let variance := scoreMeanSq - scoreMean * scoreMean in
  if Rle_dec variance 0 then 0 else sqrt variance.

(** [Search::getScoreUtility(scoreMeanAvg, scoreMeanSqAvg)]; it reads
    [rootBoard] and [recentScoreCenter] of the handle. *)
Definition getScoreUtility (searchParams : ValueParams.t) (rootBoard : BoardT)
    (recentScoreCenter : R) (scoreMeanAvg scoreMeanSqAvg : R) : R :=
  let scoreMean := scoreMeanAvg in
  let scoreMeanSq := scoreMeanSqAvg in
  let scoreStdev := getScoreStdev scoreMean scoreMeanSq in
  let staticScoreValue := expectedWhiteScoreValue scoreMean scoreStdev 0 2 rootBoard in
  let dynamicScoreValue :=
    expectedWhiteScoreValue scoreMean scoreStdev recentScoreCenter
      (ValueParams.dynamicScoreCenterScale searchParams) rootBoard in
  staticScoreValue * ValueParams.staticScoreUtilityFactor searchParams
  + dynamicScoreValue * ValueParams.dynamicScoreUtilityFactor searchParams.



(** [x > y] on doubles, as a truth value. *)
Definition Rgtb (x y : R) : bool := if Rgt_dec x y then true else false.





End RealValues.

Definition Rltb (x y : R) : bool := if Rlt_dec x y then true else false.
Definition Rleb (x y : R) : bool := if Rle_dec x y then true else false.
Definition Reqb (x y : R) : bool := if Req_EM_T x y then true else false.

(** The fields of [SearchNode] that the statistics functions read and write,
    with doubles as reals. *)
Record StatsNode : Type := mkStatsNode {
  sn_nextPla : Player;
  sn_patternBonusHash : Hash128;
  sn_subtreeValueBiasTableEntry : option addr;
  sn_stats : NodeStats
}.

(** [SubtreeValueBiasEntry], with doubles as reals. *)
Record BiasEntry : Type := mkBias {
  be_deltaUtilitySum : R;
  be_weightSum : R
}.

(** [NNOutput] ([neuralnet/nninputs.h]): the scalar fields read here. *)
Record NNOutputValues : Type := mkNNOutputValues {
  whiteWinProb : R;
  whiteLossProb : R;
  whiteNoResultProb : R;
  whiteScoreMean : R;
  whiteScoreMeanSq : R;
  whiteLead : R;
  shorttermWinlossError : R;
  shorttermScoreError : R
}.

Section RealStatistics.
Local Open Scope R_scope.
Context `{GameOps}.

(** External: [ScoreValue::expectedWhiteScoreValue],
    [ScoreValue::whiteDScoreValueDScoreSmoothNoDrawAdjust], [pow] of
    [<cmath>] and [DistributionTable::getCdf]. *)
Context (expectedWhiteScoreValue : R -> R -> R -> R -> Board -> R)
        (whiteDScoreValueDScoreSmoothNoDrawAdjust : R -> R -> R -> Board -> R)
        (pow : R -> R -> R)
        (getCdf : R -> R).

(** What the functions below read of the handle. *)
Record ValueContext : Type := mkValueContext {
  vc_searchParams : ValueParams.t;
  vc_rootBoard : Board;
  vc_recentScoreCenter : R;
  vc_patternBonusTable : option (Hash128 -> R);
  vc_plaThatSearchIsFor : Player;
  vc_mirroringPla : Player;
  vc_supportsShorttermError : bool
}.

(** [Search::getPatternBonus(patternBonusHash, prevMovePla)] *)
Definition getPatternBonus (c : ValueContext) (patternBonusHash : Hash128)
    (prevMovePla : Player) : R :=
  match vc_patternBonusTable c with
  | None => 0
  | Some table =>
      if negb (bool_decide (prevMovePla = vc_plaThatSearchIsFor c)) then 0
      else table patternBonusHash
  end.

(** [Search::getApproxScoreUtilityDerivative(scoreMean)] *)
Definition getApproxScoreUtilityDerivative (c : ValueContext) (scoreMean : R) : R :=
  let searchParams := vc_searchParams c in
  let staticScoreValueDerivative :=
    whiteDScoreValueDScoreSmoothNoDrawAdjust scoreMean 0 2 (vc_rootBoard c) in
  let dynamicScoreValueDerivative :=
    whiteDScoreValueDScoreSmoothNoDrawAdjust scoreMean (vc_recentScoreCenter c)
      (ValueParams.dynamicScoreCenterScale searchParams) (vc_rootBoard c) in
  staticScoreValueDerivative * ValueParams.staticScoreUtilityFactor searchParams
  + dynamicScoreValueDerivative * ValueParams.dynamicScoreUtilityFactor searchParams.

(** [Search::computeWeightFromNNOutput(nnOutput)] *)
Definition computeWeightFromNNOutput (c : ValueContext) (nnOutput : NNOutputValues) : R :=
  let searchParams := vc_searchParams c in
  if negb (ValueParams.useUncertainty searchParams) then 1
  else if negb (vc_supportsShorttermError c) then 1
  else
    let scoreMean := whiteScoreMean nnOutput in
    let utilityUncertaintyWL :=
      ValueParams.winLossUtilityFactor searchParams * shorttermWinlossError nnOutput in
    let utilityUncertaintyScore :=
      getApproxScoreUtilityDerivative c scoreMean * shorttermScoreError nnOutput in
    let utilityUncertainty := utilityUncertaintyWL + utilityUncertaintyScore in
    let poweredUncertainty :=
      if Reqb (ValueParams.uncertaintyExponent searchParams) 1 then utilityUncertainty
      else if Reqb (ValueParams.uncertaintyExponent searchParams) 0.5
           then sqrt utilityUncertainty
           else pow utilityUncertainty (ValueParams.uncertaintyExponent searchParams) in
    let baselineUncertainty :=
      ValueParams.uncertaintyCoeff searchParams
      / ValueParams.uncertaintyMaxWeight searchParams in
    let weight :=
      ValueParams.uncertaintyCoeff searchParams / (poweredUncertainty + baselineUncertainty) in
    weight.

(** [Search::addLeafValue(node, winLossValue, noResultValue, scoreMean,
    scoreMeanSq, lead, weight, isTerminal, assumeNoExistingWeight)];
    [entries] is the memory of the bias-table entries. *)
Definition addLeafValue (c : ValueContext) (entries : gmap addr BiasEntry)
    (node : StatsNode)
    (winLossValue noResultValue scoreMean scoreMeanSq lead weight : R)
    (isTerminal assumeNoExistingWeight : bool) : option StatsNode :=
  let searchParams := vc_searchParams c in
  let utility :=
    getResultUtility searchParams winLossValue noResultValue
    + getScoreUtility expectedWhiteScoreValue searchParams (vc_rootBoard c)
        (vc_recentScoreCenter c) scoreMean scoreMeanSq in
  utility ←
    (if negb (Reqb (ValueParams.subtreeValueBiasFactor searchParams) 0)
        && negb isTerminal
     then
       match sn_subtreeValueBiasTableEntry node with
       | Some e =>
           entry ← entries !! e;
           let newEntryDeltaUtilitySum := be_deltaUtilitySum entry in
           let newEntryWeightSum := be_weightSum entry in
           let biasFactor := ValueParams.subtreeValueBiasFactor searchParams in
           if Rgtb newEntryWeightSum 0.001
           then Some (utility + biasFactor * newEntryDeltaUtilitySum / newEntryWeightSum)
           else Some utility
       | None => Some utility
       end
     else Some utility);
  let utility :=
    utility + getPatternBonus c (sn_patternBonusHash node) (getOpp (sn_nextPla node)) in
  let utilitySq := utility * utility in
  let weightSq := weight * weight in
  let stats := sn_stats node in
  if assumeNoExistingWeight then
    let oldVisits := ns_visits stats in
    _ ← assert (oldVisits =? 0)%Z;
    Some (mkStatsNode (sn_nextPla node) (sn_patternBonusHash node)
            (sn_subtreeValueBiasTableEntry node)
            (mkStats (oldVisits + 1) winLossValue noResultValue scoreMean scoreMeanSq lead
               utility utilitySq weight weightSq))
  else
    let oldWeightSum := ns_weightSum stats in
    let newWeightSum := oldWeightSum + weight in
    Some (mkStatsNode (sn_nextPla node) (sn_patternBonusHash node)
            (sn_subtreeValueBiasTableEntry node)
            (mkStats (ns_visits stats + 1)
               ((ns_winLossValueAvg stats * oldWeightSum + winLossValue * weight) / newWeightSum)
               ((ns_noResultValueAvg stats * oldWeightSum + noResultValue * weight) / newWeightSum)
               ((ns_scoreMeanAvg stats * oldWeightSum + scoreMean * weight) / newWeightSum)
               ((ns_scoreMeanSqAvg stats * oldWeightSum + scoreMeanSq * weight) / newWeightSum)
               ((ns_leadAvg stats * oldWeightSum + lead * weight) / newWeightSum)
               ((ns_utilityAvg stats * oldWeightSum + utility * weight) / newWeightSum)
               ((ns_utilitySqAvg stats * oldWeightSum + utilitySq * weight) / newWeightSum)
               newWeightSum
               (ns_weightSqSum stats + weightSq))).

(** [Search::addCurrentNNOutputAsLeafValue(node, assumeNoExistingWeight)];
    [nnOutput] is [node.getNNOutput()], null or the values. *)
Definition addCurrentNNOutputAsLeafValue (c : ValueContext) (entries : gmap addr BiasEntry)
    (nnOutput : option NNOutputValues) (node : StatsNode) (assumeNoExistingWeight : bool)
  : option StatsNode :=
  nnOutput ← nnOutput;
  let winProb := whiteWinProb nnOutput in
  let lossProb := whiteLossProb nnOutput in
  let noResultProb := whiteNoResultProb nnOutput in
  let scoreMean := whiteScoreMean nnOutput in
  let scoreMeanSq := whiteScoreMeanSq nnOutput in
  let lead := whiteLead nnOutput in
  let weight := computeWeightFromNNOutput c nnOutput in
  addLeafValue c entries node (winProb - lossProb) noResultProb scoreMean scoreMeanSq lead
    weight false assumeNoExistingWeight.

(** [Search::pruneNoiseWeight(statsBuf, numChildren, totalChildWeight,
    policyProbsBuf)]: the buffer and the value returned.  An index outside
    the buffer aborts. *)
Definition pruneNoiseWeight (c : ValueContext) (statsBuf : list MoreNodeStats)
    (numChildren : Z) (totalChildWeight : R) (policyProbsBuf : darray)
  : option (list MoreNodeStats * R) :=
  let searchParams := vc_searchParams c in
  if (numChildren <=? 1)%Z || Rleb totalChildWeight 0.00001
  then Some (statsBuf, totalChildWeight)
  else
    '(statsBuf, utilitySumSoFar, weightSumSoFar, rawPolicySumSoFar) ←
      for_loopM (Z.to_nat numChildren)
        (fun i '(statsBuf, utilitySumSoFar, weightSumSoFar, rawPolicySumSoFar) =>
           st ← statsBuf !! i;
           let utility := selfUtility st in
           let oldWeight := weightAdjusted st in
           let rawPolicy := policyProbsBuf i in
           let newWeight := oldWeight in
           let '(newWeight, statsBuf) :=
             if Rgtb weightSumSoFar 0 && Rgtb rawPolicySumSoFar 0 then
               let avgUtilitySoFar := utilitySumSoFar / weightSumSoFar in
               let utilityGap := avgUtilitySoFar - utility in
               if Rgtb utilityGap 0 then
                 let weightShareFromRawPolicy :=
                   weightSumSoFar * rawPolicy / rawPolicySumSoFar in
                 let lenientWeightShareFromRawPolicy := 2 * weightShareFromRawPolicy in
                 if Rgtb oldWeight lenientWeightShareFromRawPolicy then
                   let excessWeight := oldWeight - lenientWeightShareFromRawPolicy in
                   let weightToSubtract :=
                     excessWeight
                     * (1 - exp (- utilityGap / ValueParams.noisePruneUtilityScale searchParams)) in
                   let weightToSubtract :=
                     if Rgtb weightToSubtract (ValueParams.noisePruningCap searchParams)
                     then ValueParams.noisePruningCap searchParams
                     else weightToSubtract in
                   let newWeight := oldWeight - weightToSubtract in
                   (newWeight, <[i := set_weightAdjusted newWeight st]> statsBuf)
                 else (newWeight, statsBuf)
               else (newWeight, statsBuf)
             else (newWeight, statsBuf) in
           Some (statsBuf, utilitySumSoFar + utility * newWeight,
                 weightSumSoFar + newWeight, rawPolicySumSoFar + rawPolicy))
        (statsBuf, 0, 0, 0);
    Some (statsBuf, weightSumSoFar).

(** The subtract-and-prune step that both branches of
    [downweightBadChildrenAndNormalizeWeight] apply to child [i]: the entry
    and [currentTotalWeight]. *)
Definition subtractOrPrune (amountToSubtract amountToPrune : R) (st : MoreNodeStats)
    (currentTotalWeight : R) : MoreNodeStats * R * bool :=
  if Rltb (weightAdjusted st) amountToPrune then
    (set_weightAdjusted 0 st, currentTotalWeight - weightAdjusted st, true)
  else
    let newWeight := weightAdjusted st - amountToSubtract in
    if Rleb newWeight 0 then
      (set_weightAdjusted 0 st, currentTotalWeight - weightAdjusted st, false)
    else
      (set_weightAdjusted newWeight st, currentTotalWeight - amountToSubtract, false).

(** [statsBuf[i].weightAdjusted *= factor] for [i < numChildren]. *)
Definition scaleWeights (numChildren : nat) (factor : R) (statsBuf : list MoreNodeStats)
  : option (list MoreNodeStats) :=
  for_loopM numChildren
    (fun i statsBuf =>
       st ← statsBuf !! i;
       Some (<[i := set_weightAdjusted (weightAdjusted st * factor) st]> statsBuf))
    statsBuf.

(** [Search::downweightBadChildrenAndNormalizeWeight(numChildren,
    currentTotalWeight, desiredTotalWeight, amountToSubtract, amountToPrune,
    statsBuf)].  [MAX_NN_POLICY_SIZE] is [NNPos::MAX_NN_POLICY_SIZE];
    [stdevs] is the uninitialised local array. *)
Definition downweightBadChildrenAndNormalizeWeight (c : ValueContext)
    (MAX_NN_POLICY_SIZE : Z) (stdevs : darray)
    (numChildren : Z) (currentTotalWeight desiredTotalWeight amountToSubtract
     amountToPrune : R) (statsBuf : list MoreNodeStats) : option (list MoreNodeStats) :=
  let searchParams := vc_searchParams c in
  if (numChildren <=? 0)%Z || Rleb currentTotalWeight 0 then Some statsBuf
  else if Reqb (ValueParams.valueWeightExponent searchParams) 0
          || negb (bool_decide (vc_mirroringPla c = C_EMPTY)) then
    '(statsBuf, currentTotalWeight) ←
      for_loopM (Z.to_nat numChildren)
        (fun i '(statsBuf, currentTotalWeight) =>
           st ← statsBuf !! i;
           let '(st, currentTotalWeight, _) :=
             subtractOrPrune amountToSubtract amountToPrune st currentTotalWeight in
           Some (<[i := st]> statsBuf, currentTotalWeight))
        (statsBuf, currentTotalWeight);
    if negb (Reqb currentTotalWeight desiredTotalWeight) then
      let factor := desiredTotalWeight / currentTotalWeight in
      scaleWeights (Z.to_nat numChildren) factor statsBuf
    else Some statsBuf
  else
    _ ← assert (numChildren <=? MAX_NN_POLICY_SIZE)%Z;
    '(stdevs, simpleValueSum) ←
      for_loopM (Z.to_nat numChildren)
        (fun i '(stdevs, simpleValueSum) =>
           st ← statsBuf !! i;
           let numVisits := ns_visits (ms_stats st) in
           _ ← assert (0 <=? numVisits)%Z;
           if (numVisits =? 0)%Z then Some (stdevs, simpleValueSum)
           else
             let weight := weightAdjusted st in
             let precision := 1.5 * sqrt weight in
             let minVariance := 0.00000001 in
             Some (upd stdevs i (sqrt (minVariance + 1 / precision)),
                   simpleValueSum + selfUtility st * weight))
        (stdevs, 0);
    let simpleValue := simpleValueSum / currentTotalWeight in
    '(statsBuf, currentTotalWeight, totalNewUnnormWeight) ←
      for_loopM (Z.to_nat numChildren)
        (fun i '(statsBuf, currentTotalWeight, totalNewUnnormWeight) =>
           st ← statsBuf !! i;
           if (ns_visits (ms_stats st) =? 0)%Z
           then Some (statsBuf, currentTotalWeight, totalNewUnnormWeight)
           else
             let '(st, currentTotalWeight, pruned) :=
               subtractOrPrune amountToSubtract amountToPrune st currentTotalWeight in
             if (pruned : bool)
             then Some (<[i := st]> statsBuf, currentTotalWeight, totalNewUnnormWeight)
             else
               let z := (selfUtility st - simpleValue) / stdevs i in
               let p := getCdf z + 0.0001 in
               let st :=
                 set_weightAdjusted
                   (weightAdjusted st * pow p (ValueParams.valueWeightExponent searchParams))
                   st in
               Some (<[i := st]> statsBuf, currentTotalWeight,
                     totalNewUnnormWeight + weightAdjusted st))
        (statsBuf, currentTotalWeight, 0);
    _ ← assert (Rgtb totalNewUnnormWeight 0);
    let factor := desiredTotalWeight / totalNewUnnormWeight in
    scaleWeights (Z.to_nat numChildren) factor statsBuf.

End RealStatistics.

(** ** Part H.  Tree walks *)

(** [maybeAppendShuffledIntRange(cap, rand, randBuf)]: the generator and the
    buffer.  [nextUInt] is [PCG32::nextUInt]; [rand = None] is the null
    pointer.  An index outside the buffer aborts. *)
Definition maybeAppendShuffledIntRange {PCG32 : Type} (nextUInt : PCG32 -> Z * PCG32)
    (cap : Z) (rand : option PCG32) (randBuf : list Z) : option (option PCG32 * list Z) :=
  match rand with
  | None => Some (None, randBuf)
  | Some rand =>
      let randBufStart := length randBuf in
      let randBuf :=
        for_loop (Z.to_nat cap) (fun i randBuf => randBuf ++ [Z.of_nat i]) randBuf in
      '(rand, randBuf) ←
        for_loopM (Z.to_nat cap - 1)
          (fun k '(rand, randBuf) =>
             let i := Datatypes.S k in
             let '(u, rand) := nextUInt rand in
             let r := Z.to_nat (u mod (Z.of_nat i + 1)) in
             tmp ← randBuf !! (randBufStart + i)%nat;
             x ← randBuf !! (randBufStart + r)%nat;
             let randBuf := <[(randBufStart + i)%nat := x]> randBuf in
             let randBuf := <[(randBufStart + r)%nat := tmp]> randBuf in
             Some (rand, randBuf))
          (rand, randBuf);
      Some (Some rand, randBuf)
  end.

Section TreeWalks.
Context `{NodeConstants}.

(** [Search::applyRecursivelyPostOrderMulithreadedHelper(node, threadIdx,
    rand, nodeBuf, randBuf, f)] with the children in index order, as for
    thread 0, whose [rand] is null: the set [nodeBuf] of the nodes on the
    path and the memory.  [fuel] bounds the depth of the recursion. *)
Fixpoint applyRecursivelyPostOrderMulithreadedHelper (fuel : nat) (searchNodeAge : Z)
    (f : option (addr -> Z -> Heap -> option Heap)) (threadIdx : Z) (node : addr)
    (nodeBuf : gset addr) (h : Heap) : option (gset addr * Heap) :=
  match fuel with
  | O => None
  | Datatypes.S fuel =>
      n ← h !! node;
      if (SearchNode.nodeAge n =? searchNodeAge)%Z then Some (nodeBuf, h)
      else if bool_decide (node ∈ nodeBuf) then Some (nodeBuf, h)
      else
        let stateValue := SearchNode.state n in
        let '(children, childrenCapacity) := SearchNode.getChildren n stateValue in
        numChildren ← SearchNode.iterateAndCountChildrenInArray children childrenCapacity;
        '(nodeBuf, h) ←
          (if (0 <? numChildren)%nat then
             let nodeBuf := {[node]} ∪ nodeBuf in
             '(nodeBuf, h) ←
               for_loopM numChildren
                 (fun childIdx '(nodeBuf, h) =>
                    slot ← readSlot h node stateValue childIdx;
                    child ← SearchChildPointer.getIfAllocated slot;
                    applyRecursivelyPostOrderMulithreadedHelper fuel searchNodeAge f
                      threadIdx child nodeBuf h)
                 (nodeBuf, h);
             Some (nodeBuf ∖ {[node]}, h)
           else Some (nodeBuf, h));
        n ← h !! node;
        if (SearchNode.nodeAge n =? searchNodeAge)%Z then Some (nodeBuf, h)
        else
          h ← match f with
              | None => Some h
              | Some f => f node threadIdx h
              end;
          n ← h !! node;
          Some (nodeBuf, <[node := SearchNode.set_nodeAge searchNodeAge n]> h)
  end.

End TreeWalks.

(** ** Part J.  The dirty counter of a node *)

Definition to_int32 (z : Z) : Z := (z + 2 ^ 31) mod 2 ^ 32 - 2 ^ 31.

Definition set_dirtyCounter (v : Z) (n : SearchNode.t) : SearchNode.t :=
  SearchNode.mk (SearchNode.nextPla n) (SearchNode.forceNonTerminal n)
    (SearchNode.patternBonusHash n) (SearchNode.mutexIdx n) (SearchNode.state n)
    (SearchNode.nnOutput n) (SearchNode.nodeAge n) (SearchNode.children0 n)
    (SearchNode.children1 n) (SearchNode.children2 n) (SearchNode.stats n)
    (SearchNode.virtualLosses n) (SearchNode.lastSubtreeValueBiasDeltaSum n)
    (SearchNode.lastSubtreeValueBiasWeight n) (SearchNode.subtreeValueBiasTableEntry n) v.

(** Where a call of [updateStatsAfterPlayout] stands: before its first
    [fetch_add], before [recomputeNodeStats] and before the [fetch_add] that
    takes [numVisitsCompleted] back, or returned. *)
Inductive UpdatePoint : Type :=
  | AtEntry
  | AtRecompute (numVisitsCompleted : Z)
  | AtUndo (numVisitsCompleted : Z)
  | Returned.

Section DirtyCounter.

(** [Search::recomputeNodeStats(node, thread, numVisitsToAdd, isRoot)], as
    it acts on the node. *)
Context (recomputeNodeStats : SearchNode.t -> Z -> bool -> option SearchNode.t).

(** One atomic step of a call of [Search::updateStatsAfterPlayout(node,
    thread, isRoot)] on the shared node.  [None]: an assertion failed, or the
    call has returned. *)
Definition updateStats_step (isRoot : bool) (pc : UpdatePoint) (node : SearchNode.t)
  : option (UpdatePoint * SearchNode.t) :=
  match pc with
  | AtEntry =>
      let oldDirtyCounter := SearchNode.dirtyCounter node in
      let node := set_dirtyCounter (to_int32 (oldDirtyCounter + 1)) node in
      _ ← assert (0 <=? oldDirtyCounter);
      if 0 <? oldDirtyCounter then Some (Returned, node)
      else
        let numVisitsCompleted := 1 in
        Some (AtRecompute numVisitsCompleted, node)
  | AtRecompute numVisitsCompleted =>
      node ← recomputeNodeStats node numVisitsCompleted isRoot;
      Some (AtUndo numVisitsCompleted, node)
  | AtUndo numVisitsCompleted =>
      let oldDirtyCounter := SearchNode.dirtyCounter node in
      let node := set_dirtyCounter (to_int32 (oldDirtyCounter - numVisitsCompleted)) node in
      let newDirtyCounter := to_int32 (oldDirtyCounter - numVisitsCompleted) in
      if newDirtyCounter <=? 0 then
        _ ← assert (newDirtyCounter =? 0);
        Some (Returned, node)
      else
        let numVisitsCompleted := newDirtyCounter in
        Some (AtRecompute numVisitsCompleted, node)
  | Returned => None
  end.

(** One call, not interrupted: [updateStatsAfterPlayout(node, thread,
    isRoot)].  [fuel] bounds the steps. *)
Fixpoint updateStats_from (fuel : nat) (isRoot : bool) (pc : UpdatePoint)
    (node : SearchNode.t) : option SearchNode.t :=
  match fuel with
  | O => None
  | Datatypes.S fuel =>
      match pc with
      | Returned => Some node
      | _ =>
          '(pc, node) ← updateStats_step isRoot pc node;
          updateStats_from fuel isRoot pc node
      end
  end.

Definition updateStatsAfterPlayout (fuel : nat) (node : SearchNode.t) (isRoot : bool)
  : option SearchNode.t :=
  updateStats_from fuel isRoot AtEntry node.

(** Several calls on one node, interleaved: [schedule] names, step by step,
    the call that takes its next step; a call that has returned, or a number
    that is no call, takes none. *)
Fixpoint runUpdates (isRoot : bool) (schedule : list nat) (calls : list UpdatePoint)
    (node : SearchNode.t) : option (list UpdatePoint * SearchNode.t) :=
  match schedule with
  | [] => Some (calls, node)
  | t :: schedule =>
      match calls !! t with
      | None | Some Returned => runUpdates isRoot schedule calls node
      | Some pc =>
          '(pc, node) ← updateStats_step isRoot pc node;
          runUpdates isRoot schedule (<[t := pc]> calls) node
      end
  end.

End DirtyCounter.

(** ** Part K.  Root children *)

(** What [isAllowedRootMove] reads of the handle.  [rootSafeArea] and
    [rootSymDupLoc] are the arrays indexed by location, [isOnBoard] is
    [rootBoard.isOnBoard] and [moves] is [rootHistory.moveHistory]. *)
Record RootPruning : Type := mkRootPruning {
  rootPruneUselessMoves : bool;
  rootSymmetryPruning : bool;
  rp_rootPla : Player;
  moves : list (Loc * Player);
  rootSafeArea : Loc -> Player;
  rootSymDupLoc : Loc -> bool;
  isOnBoard : Loc -> bool;
  PASS_LOC : Loc
}.

Section RootChildren.
Context `{NodeConstants} `{GameOps}.

(** [Search::isAllowedRootMove(moveLoc)] *)
Definition isAllowedRootMove (r : RootPruning) (moveLoc : Loc) : option bool :=
  _ ← assert ((moveLoc =? PASS_LOC r) || isOnBoard r moveLoc);
  useless ←
    (if rootPruneUselessMoves r && (0 <? length (moves r))%nat
        && negb (moveLoc =? PASS_LOC r)
     then
       let lastIdx := (length (moves r) - 1)%nat in
       let opp := getOpp (rp_rootPla r) in
       if (6 <=? lastIdx)%nat then
         m0 ← moves r !! (lastIdx - 0)%nat;
         m2 ← moves r !! (lastIdx - 2)%nat;
         m4 ← moves r !! (lastIdx - 4)%nat;
         m6 ← moves r !! (lastIdx - 6)%nat;
         Some ((m0.1 =? PASS_LOC r) && (m2.1 =? PASS_LOC r)
               && (m4.1 =? PASS_LOC r) && (m6.1 =? PASS_LOC r)
               && bool_decide (m0.2 = opp) && bool_decide (m2.2 = opp)
               && bool_decide (m4.2 = opp) && bool_decide (m6.2 = opp)
               && (bool_decide (rootSafeArea r moveLoc = opp)
                   || bool_decide (rootSafeArea r moveLoc = rp_rootPla r)))
       else Some false
     else Some false);
  if (useless : bool) then Some false
  else if rootSymmetryPruning r && negb (moveLoc =? PASS_LOC r) && rootSymDupLoc r moveLoc
       then Some false
       else Some true.

(** The first loop of the root filtering of [Search::beginSearch], from
    index [i] with [todo] iterations left: the index at which it stops, the
    array, [numGoodChildren], [filteredNodes] and [anyFiltered].  [isLegal]
    is [rootHistory.isLegal(rootBoard, moveLoc, rootPla)]. *)
Fixpoint filterRootChildrenFrom (isLegal : Loc -> bool) (r : RootPruning) (todo i : nat)
    (children : list SearchChildPointer.t) (numGoodChildren : nat)
    (filteredNodes : list addr) (anyFiltered : bool)
  : option (nat * list SearchChildPointer.t * nat * list addr * bool) :=
  match todo with
  | O => Some (i, children, numGoodChildren, filteredNodes, anyFiltered)
  | Datatypes.S todo =>
      slot ← children !! i;
      let child := SearchChildPointer.getIfAllocated slot in
      let edgeVisits := SearchChildPointer.getEdgeVisits slot in
      let moveLoc := SearchChildPointer.getMoveLoc slot in
      match child with
      | None => Some (i, children, numGoodChildren, filteredNodes, anyFiltered)
      | Some c =>
          let slot := SearchChildPointer.store None slot in
          let slot := SearchChildPointer.setEdgeVisits 0 slot in
          let slot := SearchChildPointer.setMoveLoc NULL_LOC slot in
          let children := <[i := slot]> children in
          ok ← (if isLegal moveLoc then isAllowedRootMove r moveLoc else Some false);
          if (ok : bool) then
            good ← children !! numGoodChildren;
            let good := SearchChildPointer.store (Some c) good in
            let good := SearchChildPointer.setEdgeVisits edgeVisits good in
            let good := SearchChildPointer.setMoveLoc moveLoc good in
            let children := <[numGoodChildren := good]> children in
            filterRootChildrenFrom isLegal r todo (Datatypes.S i) children
              (Datatypes.S numGoodChildren) filteredNodes anyFiltered
          else
            filterRootChildrenFrom isLegal r todo (Datatypes.S i) children
              numGoodChildren (filteredNodes ++ [c]) true
      end
  end.

(** The second loop: the slots from [i] on are empty. *)
Definition assertRestEmpty (childrenCapacity i : nat)
    (children : list SearchChildPointer.t) : option unit :=
  for_loopM (childrenCapacity - i)
    (fun k _ =>
       slot ← children !! (i + k)%nat;
       assert (bool_decide (SearchChildPointer.getIfAllocated slot = None)))
    tt.

(** The loop that adds up the edge visits of the children left, and the
    visit of the node itself.  The sum is taken without wrap-around. *)
Fixpoint sumEdgeVisitsFrom (todo i : nat) (children : list SearchChildPointer.t)
    (newNumVisits : Z) : option Z :=
  match todo with
  | O => Some newNumVisits
  | Datatypes.S todo =>
      slot ← children !! i;
      match SearchChildPointer.getIfAllocated slot with
      | None => Some newNumVisits
      | Some _ =>
          sumEdgeVisitsFrom todo (Datatypes.S i) children
            (newNumVisits + SearchChildPointer.getEdgeVisits slot)
      end
  end.

(** The filtering of the children of the root in [Search::beginSearch], on
    the array [children] of capacity [childrenCapacity]: the array,
    [filteredNodes], [anyFiltered], and the visits to store in the root when
    a child was filtered. *)
Definition filterRootChildren (isLegal : Loc -> bool) (r : RootPruning)
    (childrenCapacity : nat) (children : list SearchChildPointer.t)
  : option (list SearchChildPointer.t * list addr * bool * option Z) :=
  '(i, children, numGoodChildren, filteredNodes, anyFiltered) ←
    filterRootChildrenFrom isLegal r childrenCapacity 0 children 0 [] false;
  _ ← assertRestEmpty childrenCapacity i children;
  if (anyFiltered : bool) then
    newNumVisits ← sumEdgeVisitsFrom childrenCapacity 0 children 0;
    let newNumVisits := newNumVisits + 1 in
    Some (children, filteredNodes, anyFiltered, Some newNumVisits)
  else Some (children, filteredNodes, anyFiltered, None).

End RootChildren.

(** ** Part L.  Selection values at a node *)

Definition Rgeb (x y : R) : bool := if Rge_dec x y then true else false.

(** [Rules::SCORING_AREA] and [Rules::SCORING_TERRITORY]. *)
Inductive ScoringRule : Type := SCORING_AREA | SCORING_TERRITORY.

#[global] Instance ScoringRule_eq_dec : EqDecision ScoringRule.
Proof. solve_decision. Defined.

(** What [getEndingWhiteScoreBonus] reads of the handle: parameters, rules
    and root position.  [eb_locToPos] is [NNPos::locToPos(moveLoc,
    rootBoard.x_size, nnXLen, nnYLen)]; the two tests on the board are
    [rootBoard.isAdjacentToPla] and [rootBoard.isNonPassAliveSelfConnection]
    with [rootSafeArea]. *)
Record EndingBonusContext : Type := mkEndingBonusContext {
  eb_rootEndingBonusPoints : R;
  eb_scoringRule : ScoringRule;
  eb_encorePhase : Z;
  eb_hasButton : bool;
  eb_rootPla : Player;
  eb_ko_loc : Loc;
  eb_nnXLen : Z;
  eb_nnYLen : Z;
  eb_locToPos : Loc -> nat;
  eb_isAdjacentToPla : Loc -> Player -> bool;
  eb_isNonPassAliveSelfConnection : Loc -> Player -> bool;
  eb_PASS_LOC : Loc
}.

(** The fields of [NNOutput] read for the ending bonus; [whiteOwnerMap] may
    be null. *)
Record OwnerOutput : Type := mkOwnerOutput {
  out_nnXLen : Z;
  out_nnYLen : Z;
  whiteOwnerMap : option (nat -> R)
}.

(** The parameters of the first-play urgency. *)
Module FpuParams.
Record t : Type := mk {
  cpuctUtilityStdevPrior : R;
  cpuctUtilityStdevPriorWeight : R;
  cpuctUtilityStdevScale : R;
  fpuParentWeight : R;
  rootFpuReductionMax : R;
  fpuReductionMax : R;
  rootFpuLossProp : R;
  fpuLossProp : R
}.
End FpuParams.

Section NodeSelection.
Local Open Scope R_scope.
Context `{NodeConstants} `{GameOps}.
Context (expectedWhiteScoreValue : R -> R -> R -> R -> Board -> R).

(** [Search::getResultUtilityFromNN(nnOutput)] *)
Definition getResultUtilityFromNN (c : ValueContext) (nnOutput : NNOutputValues) : R :=
  (whiteWinProb nnOutput - whiteLossProb nnOutput)
  * ValueParams.winLossUtilityFactor (vc_searchParams c)
  + whiteNoResultProb nnOutput * ValueParams.noResultUtilityForWhite (vc_searchParams c).

(** [Search::getUtilityFromNN(nnOutput)] *)
Definition getUtilityFromNN (c : ValueContext) (nnOutput : NNOutputValues) : R :=
  let resultUtility := getResultUtilityFromNN c nnOutput in
  resultUtility
  + getScoreUtility expectedWhiteScoreValue (vc_searchParams c) (vc_rootBoard c)
      (vc_recentScoreCenter c) (whiteScoreMean nnOutput) (whiteScoreMeanSq nnOutput).


(** The penalty for a move on a point whose ownership is settled, in both
    branches of [getEndingWhiteScoreBonus]. *)
Definition ownershipPenalty (e : EndingBonusContext) (whiteOwnerMap : nat -> R)
    (moveLoc : Loc) (extraRootPoints : R) : R :=
  let extreme := 0.95 in
  let tail := 0.05 in
  let pos := eb_locToPos e moveLoc in
  let plaOwnership :=
    if decide (eb_rootPla e = P_WHITE) then whiteOwnerMap pos else - whiteOwnerMap pos in
  if Rleb plaOwnership (- extreme) then
    extraRootPoints - eb_rootEndingBonusPoints e * ((- extreme - plaOwnership) / tail)
  else if Rgeb plaOwnership extreme then
    if negb (eb_isAdjacentToPla e moveLoc (getOpp (eb_rootPla e)))
       && negb (eb_isNonPassAliveSelfConnection e moveLoc (eb_rootPla e))
    then extraRootPoints - eb_rootEndingBonusPoints e * ((plaOwnership - extreme) / tail)
    else extraRootPoints
  else extraRootPoints.

(** [Search::getEndingWhiteScoreBonus(parent, moveLoc)]; [parentIsRoot] is
    [&parent == rootNode] and [nnOutput] is [parent.getNNOutput()]. *)
Definition getEndingWhiteScoreBonus (e : EndingBonusContext) (parentIsRoot : bool)
    (nnOutput : option OwnerOutput) (moveLoc : Loc) : option R :=
  if negb parentIsRoot || (moveLoc =? NULL_LOC)%Z then Some 0
  else
    match nnOutput with
    | None => Some 0
    | Some nnOutput =>
        match whiteOwnerMap nnOutput with
        | None => Some 0
        | Some whiteOwnerMap =>
            let isAreaIsh :=
              bool_decide (eb_scoringRule e = SCORING_AREA)
              || (bool_decide (eb_scoringRule e = SCORING_TERRITORY)
                  && (2 <=? eb_encorePhase e)%Z) in
            _ ← assert (out_nnXLen nnOutput =? eb_nnXLen e)%Z;
            _ ← assert (out_nnYLen nnOutput =? eb_nnYLen e)%Z;
            let extraRootPoints := 0 in
            let extraRootPoints :=
              if isAreaIsh then
                let extraRootPoints :=
                  if negb (moveLoc =? eb_PASS_LOC e)%Z && (eb_ko_loc e =? NULL_LOC)%Z
                  then ownershipPenalty e whiteOwnerMap moveLoc extraRootPoints
                  else extraRootPoints in
                if (moveLoc =? eb_PASS_LOC e)%Z && eb_hasButton e
                then extraRootPoints - eb_rootEndingBonusPoints e * 0.5
                else extraRootPoints
              else
                if (moveLoc =? eb_PASS_LOC e)%Z
                then extraRootPoints - eb_rootEndingBonusPoints e * (2 / 3)
                else if (eb_ko_loc e =? NULL_LOC)%Z
                     then ownershipPenalty e whiteOwnerMap moveLoc extraRootPoints
                     else extraRootPoints in
            if decide (eb_rootPla e = P_WHITE) then Some extraRootPoints
            else Some (- extraRootPoints)
        end
    end.

(** [Search::getFpuValueForChildrenAssumeVisited(node, pla, isRoot,
    policyProbMassVisited, parentUtility, parentWeightPerVisit,
    parentUtilityStdevFactor)]: the value returned and the three values
    passed back.  [stats] is [node.stats] and [nnOutput] is
    [node.getNNOutput()]. *)
Definition getFpuValueForChildrenAssumeVisited (fp : FpuParams.t) (c : ValueContext)
    (stats : NodeStats) (nnOutput : option NNOutputValues) (pla : Player) (isRoot : bool)
    (policyProbMassVisited : R) : option (R * R * R * R) :=
  let searchParams := vc_searchParams c in
  let visits := ns_visits stats in
  let weightSum := ns_weightSum stats in
  let utilityAvg := ns_utilityAvg stats in
  let utilitySqAvg := ns_utilitySqAvg stats in
  _ ← assert (0 <? visits)%Z;
  _ ← assert (Rgtb weightSum 0);
  let parentWeightPerVisit := weightSum / IZR visits in
  let parentUtility := utilityAvg in
  let variancePrior :=
    FpuParams.cpuctUtilityStdevPrior fp * FpuParams.cpuctUtilityStdevPrior fp in
  let variancePriorWeight := FpuParams.cpuctUtilityStdevPriorWeight fp in
  let parentUtilityStdev :=
    if (visits <=? 0)%Z || Rleb weightSum 1 then FpuParams.cpuctUtilityStdevPrior fp
    else
      let utilitySq := parentUtility * parentUtility in
      let utilitySqAvg := if Rltb utilitySqAvg utilitySq then utilitySq else utilitySqAvg in
      sqrt (Rmax 0
              (((utilitySq + variancePrior) * variancePriorWeight + utilitySqAvg * weightSum)
               / (variancePriorWeight + weightSum - 1)
               - utilitySq)) in
  let parentUtilityStdevFactor :=
    1 + FpuParams.cpuctUtilityStdevScale fp
        * (parentUtilityStdev / FpuParams.cpuctUtilityStdevPrior fp - 1) in
  parentUtility ←
    (if Rgtb (FpuParams.fpuParentWeight fp) 0 then
       nnOutput ← nnOutput;
       Some (FpuParams.fpuParentWeight fp * getUtilityFromNN c nnOutput
             + (1 - FpuParams.fpuParentWeight fp) * parentUtility)
     else Some parentUtility);
  let fpuReductionMax :=
    if isRoot then FpuParams.rootFpuReductionMax fp else FpuParams.fpuReductionMax fp in
  let fpuLossProp :=
    if isRoot then FpuParams.rootFpuLossProp fp else FpuParams.fpuLossProp fp in
  let utilityRadius :=
    ValueParams.winLossUtilityFactor searchParams
    + ValueParams.staticScoreUtilityFactor searchParams
    + ValueParams.dynamicScoreUtilityFactor searchParams in
  let reduction := fpuReductionMax * sqrt policyProbMassVisited in
  let fpuValue :=
    if decide (pla = P_WHITE) then parentUtility - reduction else parentUtility + reduction in
  let lossValue := if decide (pla = P_WHITE) then - utilityRadius else utilityRadius in
  let fpuValue := fpuValue + (lossValue - fpuValue) * fpuLossProp in
  Some (fpuValue, parentUtility, parentWeightPerVisit, parentUtilityStdevFactor).


End NodeSelection.

(** ** Part M.  Recomputing the statistics of a node *)

(** The parameters that [recomputeNodeStats] reads besides those of
    [ValueParams]. *)
Module RecomputeParams.
Record t : Type := mk {
  useNoisePruning : bool;
  antiMirror : bool;
  rootNoiseEnabled : bool;
  chosenMoveSubtract : R;
  chosenMovePrune : R;
  subtreeValueBiasWeightExponent : R
}.
End RecomputeParams.

(** [NNOutput] as [recomputeNodeStats] reads it: the scalar values and the
    array that [NNOutput::getPolicyProbsMaybeNoised()] returns. *)
Record PolicyOutput : Type := mkPolicyOutput {
  po_values : NNOutputValues;
  getPolicyProbsMaybeNoised : nat -> R
}.

(** [SearchNode] as [recomputeNodeStats] reads and writes it: [vn_children]
    is the array that [node.getChildren(childrenCapacity)] returns, its
    length the capacity, and [vn_nnOutput] is [node.getNNOutput()]. *)
Record ValueNode : Type := mkValueNode {
  vn_node : StatsNode;
  vn_children : list SearchChildPointer.t;
  vn_nnOutput : option PolicyOutput;
  lastSubtreeValueBiasDeltaSum : R;
  lastSubtreeValueBiasWeight : R
}.

(** The sums that [recomputeNodeStats] accumulates over the children. *)
Record ValueSums : Type := mkValueSums {
  vs_winLossValueSum : R;
  vs_noResultValueSum : R;
  vs_scoreMeanSum : R;
  vs_scoreMeanSqSum : R;
  vs_leadSum : R;
  vs_utilitySum : R;
  vs_utilitySqSum : R;
  vs_weightSqSum : R
}.

Section NodeRecompute.
Local Open Scope R_scope.
Context `{GameOps}.
Context (expectedWhiteScoreValue : R -> R -> R -> R -> Board -> R)
        (whiteDScoreValueDScoreSmoothNoDrawAdjust : R -> R -> R -> Board -> R)
        (pow : R -> R -> R)
        (getCdf : R -> R).

(** The first loop of [recomputeNodeStats] over the slots left of the
    children array: [statsBuf], [numGoodChildren] and
    [origTotalChildWeight].  [childStats] holds the statistics of the nodes
    that the slots point to.  An index outside [statsBuf] aborts. *)
Fixpoint gatherChildStats (nextPla : Player) (childStats : gmap addr NodeStats)
    (children : list SearchChildPointer.t) (statsBuf : list MoreNodeStats)
    (numGoodChildren : nat) (origTotalChildWeight : R)
  : option (list MoreNodeStats * nat * R) :=
  match children with
  | [] => Some (statsBuf, numGoodChildren, origTotalChildWeight)
  | slot :: children =>
      match SearchChildPointer.getIfAllocated slot with
      | None => Some (statsBuf, numGoodChildren, origTotalChildWeight)
      | Some child =>
          stats ← statsBuf !! numGoodChildren;
          let moveLoc := SearchChildPointer.getMoveLocRelaxed slot in
          let edgeVisits := SearchChildPointer.getEdgeVisits slot in
          childNodeStats ← childStats !! child;
          let stats :=
            mkMoreStats childNodeStats (selfUtility stats) (weightAdjusted stats)
              (prevMoveLoc stats) in
          if (ns_visits (ms_stats stats) <=? 0)%Z || Rleb (ns_weightSum (ms_stats stats)) 0
             || (edgeVisits <=? 0)%Z
          then
            gatherChildStats nextPla childStats children
              (<[numGoodChildren := stats]> statsBuf) numGoodChildren origTotalChildWeight
          else
            let childWeight :=
              ns_weightSum (ms_stats stats)
              * (IZR edgeVisits / IZR (ns_visits (ms_stats stats))) in
            let childUtility := ns_utilityAvg (ms_stats stats) in
            let stats :=
              mkMoreStats (ms_stats stats)
                (if decide (nextPla = P_WHITE) then childUtility else - childUtility)
                childWeight moveLoc in
            gatherChildStats nextPla childStats children
              (<[numGoodChildren := stats]> statsBuf) (Datatypes.S numGoodChildren)
              (origTotalChildWeight + weightAdjusted stats)
      end
  end.

(** The sums over [statsBuf[0 .. numGoodChildren-1]]. *)
Definition sumChildValues (numGoodChildren : nat) (statsBuf : list MoreNodeStats)
  : option ValueSums :=
  for_loopM numGoodChildren
    (fun i sums =>
       st ← statsBuf !! i;
       let stats := ms_stats st in
       let desiredWeight := weightAdjusted st in
       let weightScaling := desiredWeight / ns_weightSum stats in
       Some (mkValueSums
               (vs_winLossValueSum sums + desiredWeight * ns_winLossValueAvg stats)
               (vs_noResultValueSum sums + desiredWeight * ns_noResultValueAvg stats)
               (vs_scoreMeanSum sums + desiredWeight * ns_scoreMeanAvg stats)
               (vs_scoreMeanSqSum sums + desiredWeight * ns_scoreMeanSqAvg stats)
               (vs_leadSum sums + desiredWeight * ns_leadAvg stats)
               (vs_utilitySum sums + desiredWeight * ns_utilityAvg stats)
               (vs_utilitySqSum sums + desiredWeight * ns_utilitySqAvg stats)
               (vs_weightSqSum sums + weightScaling * weightScaling * ns_weightSqSum stats)))
    (mkValueSums 0 0 0 0 0 0 0 0).

(** [Search::recomputeNodeStats(node, thread, numVisitsToAdd, isRoot)]: the
    node, the memory of the bias-table entries and [thread.statsBuf].
    [getPos] is [Search::getPos], [MAX_NN_POLICY_SIZE] is
    [NNPos::MAX_NN_POLICY_SIZE], the size of the local array
    [policyProbsBuf]; that array and [stdevs] of
    [downweightBadChildrenAndNormalizeWeight] start uninitialised. *)
Definition recomputeNodeStats (c : ValueContext) (rp : RecomputeParams.t)
    (MAX_NN_POLICY_SIZE : Z) (getPos : Loc -> nat) (stdevs policyProbsBuf : darray)
    (childStats : gmap addr NodeStats) (entries : gmap addr BiasEntry)
    (statsBuf : list MoreNodeStats) (node : ValueNode) (numVisitsToAdd : Z)
    (isRoot : bool)
  : option (ValueNode * gmap addr BiasEntry * list MoreNodeStats) :=
  let searchParams := vc_searchParams c in
  let nextPla := sn_nextPla (vn_node node) in
  let children := vn_children node in
  '(statsBuf, numGoodChildren, origTotalChildWeight) ←
    gatherChildStats nextPla childStats children statsBuf 0 0;
  let currentTotalChildWeight := origTotalChildWeight in
  '(statsBuf, currentTotalChildWeight) ←
    (if RecomputeParams.useNoisePruning rp && (0 <? numGoodChildren)%nat
        && negb (RecomputeParams.antiMirror rp
                 && negb (bool_decide (vc_mirroringPla c = C_EMPTY)))
     then
       nnOutput ← vn_nnOutput node;
       let policyProbs := getPolicyProbsMaybeNoised nnOutput in
       policyProbsBuf ←
         for_loopM numGoodChildren
           (fun i policyProbsBuf =>
              _ ← assert (Z.of_nat i <? MAX_NN_POLICY_SIZE)%Z;
              st ← statsBuf !! i;
              Some (upd policyProbsBuf i (Rmax 1e-30 (policyProbs (getPos (prevMoveLoc st))))))
           policyProbsBuf;
       pruneNoiseWeight c statsBuf (Z.of_nat numGoodChildren) currentTotalChildWeight
         policyProbsBuf
     else Some (statsBuf, currentTotalChildWeight));
  '(amountToSubtract, amountToPrune) ←
    (if isRoot && RecomputeParams.rootNoiseEnabled rp
        && negb (RecomputeParams.useNoisePruning rp)
     then
       maxChildWeight ←
         for_loopM numGoodChildren
           (fun i maxChildWeight =>
              st ← statsBuf !! i;
              Some (if Rgtb (weightAdjusted st) maxChildWeight then weightAdjusted st
                    else maxChildWeight))
           0;
       Some (Rmin (RecomputeParams.chosenMoveSubtract rp) (maxChildWeight / 64),
             Rmin (RecomputeParams.chosenMovePrune rp) (maxChildWeight / 64))
     else Some (0, 0));
  statsBuf ←
    downweightBadChildrenAndNormalizeWeight pow getCdf c MAX_NN_POLICY_SIZE stdevs
      (Z.of_nat numGoodChildren) currentTotalChildWeight currentTotalChildWeight
      amountToSubtract amountToPrune statsBuf;
  sums ← sumChildValues numGoodChildren statsBuf;
  let weightSum := currentTotalChildWeight in
  nnOutput ← vn_nnOutput node;
  let winProb := whiteWinProb (po_values nnOutput) in
  let lossProb := whiteLossProb (po_values nnOutput) in
  let noResultProb := whiteNoResultProb (po_values nnOutput) in
  let scoreMean := whiteScoreMean (po_values nnOutput) in
  let scoreMeanSq := whiteScoreMeanSq (po_values nnOutput) in
  let lead := whiteLead (po_values nnOutput) in
  let utility :=
    getResultUtility searchParams (winProb - lossProb) noResultProb
    + getScoreUtility expectedWhiteScoreValue searchParams (vc_rootBoard c)
        (vc_recentScoreCenter c) scoreMean scoreMeanSq in
  '(utility, entries, lastDeltaSum, lastWeight) ←
    (if negb (Reqb (ValueParams.subtreeValueBiasFactor searchParams) 0) then
       match sn_subtreeValueBiasTableEntry (vn_node node) with
       | Some e =>
           entry ← entries !! e;
           let '(entry, lastDeltaSum, lastWeight) :=
             if Rgtb currentTotalChildWeight 1e-10 then
               let utilityChildren := vs_utilitySum sums / currentTotalChildWeight in
               let subtreeValueBiasWeight :=
                 pow origTotalChildWeight
                   (RecomputeParams.subtreeValueBiasWeightExponent rp) in
               let subtreeValueBiasDeltaSum :=
                 (utilityChildren - utility) * subtreeValueBiasWeight in
               (mkBias
                  (be_deltaUtilitySum entry
                   + (subtreeValueBiasDeltaSum - lastSubtreeValueBiasDeltaSum node))
                  (be_weightSum entry
                   + (subtreeValueBiasWeight - lastSubtreeValueBiasWeight node)),
                subtreeValueBiasDeltaSum, subtreeValueBiasWeight)
             else
               (entry, lastSubtreeValueBiasDeltaSum node, lastSubtreeValueBiasWeight node) in
           let newEntryDeltaUtilitySum := be_deltaUtilitySum entry in
           let newEntryWeightSum := be_weightSum entry in
           let biasFactor := ValueParams.subtreeValueBiasFactor searchParams in
           let utility :=
             if Rgtb newEntryWeightSum 0.001
             then utility + biasFactor * newEntryDeltaUtilitySum / newEntryWeightSum
             else utility in
           Some (utility, <[e := entry]> entries, lastDeltaSum, lastWeight)
       | None =>
           Some (utility, entries, lastSubtreeValueBiasDeltaSum node,
                 lastSubtreeValueBiasWeight node)
       end
     else
       Some (utility, entries, lastSubtreeValueBiasDeltaSum node,
             lastSubtreeValueBiasWeight node));
  let weight :=
    computeWeightFromNNOutput whiteDScoreValueDScoreSmoothNoDrawAdjust pow c
      (po_values nnOutput) in
  let winLossValueSum := vs_winLossValueSum sums + (winProb - lossProb) * weight in
  let noResultValueSum := vs_noResultValueSum sums + noResultProb * weight in
  let scoreMeanSum := vs_scoreMeanSum sums + scoreMean * weight in
  let scoreMeanSqSum := vs_scoreMeanSqSum sums + scoreMeanSq * weight in
  let leadSum := vs_leadSum sums + lead * weight in
  let utilitySum := vs_utilitySum sums + utility * weight in
  let utilitySqSum := vs_utilitySqSum sums + utility * utility * weight in
  let weightSqSum := vs_weightSqSum sums + weight * weight in
  let weightSum := weightSum + weight in
  let winLossValueAvg := winLossValueSum / weightSum in
  let noResultValueAvg := noResultValueSum / weightSum in
  let scoreMeanAvg := scoreMeanSum / weightSum in
  let scoreMeanSqAvg := scoreMeanSqSum / weightSum in
  let leadAvg := leadSum / weightSum in
  let utilityAvg := utilitySum / weightSum in
  let utilitySqAvg := utilitySqSum / weightSum in
  let oldUtilityAvg := utilityAvg in
  let utilityAvg :=
    utilityAvg + getPatternBonus c (sn_patternBonusHash (vn_node node)) (getOpp nextPla) in
  let utilitySqAvg := utilitySqAvg + (utilityAvg * utilityAvg - oldUtilityAvg * oldUtilityAvg) in
  let stats :=
    mkStats (ns_visits (sn_stats (vn_node node)) + numVisitsToAdd) winLossValueAvg
      noResultValueAvg scoreMeanAvg scoreMeanSqAvg leadAvg utilityAvg utilitySqAvg
      weightSum weightSqSum in
  Some (mkValueNode
          (mkStatsNode nextPla (sn_patternBonusHash (vn_node node))
             (sn_subtreeValueBiasTableEntry (vn_node node)) stats)
          children (vn_nnOutput node) lastDeltaSum lastWeight,
        entries, statsBuf).

End NodeRecompute.

(** ** Part N.  The time limit of a search *)

(** [(int64_t)x] of an unsigned 64-bit [x]. *)
Definition to_int64 (z : Z) : Z := (z + 2 ^ 63) mod 2 ^ 64 - 2 ^ 63.

(** The parameters that the time limit reads. *)
Module TimeParams.
Record t : Type := mk {
  lagBuffer : R;
  overallocateTimeFactor : R;
  midgameTimeFactor : R;
  midgameTurnPeakTime : R;
  endgameTurnTimeDecay : R;
  obviousMovesTimeFactor : R;
  obviousMovesPolicyEntropyTolerance : R;
  obviousMovesPolicySurpriseTolerance : R;
  futileVisitsThreshold : R;
  chosenMoveTemperatureHalflife : R;
  chosenMoveTemperatureEarly : R;
  chosenMoveTemperature : R;
  numThreads : Z
}.
End TimeParams.

(** What the time limit reads of the handle: [tc_numMoves] is
    [rootHistory.moveHistory.size()]. *)
Record TimeContext : Type := mkTimeContext {
  tc_searchParams : TimeParams.t;
  tc_x_size : Z;
  tc_y_size : Z;
  tc_initialTurnNumber : Z;
  tc_numMoves : nat;
  tc_effectiveSearchTimeCarriedOver : R
}.

Section TimeLimit.
Local Open Scope R_scope.

(** External: [TimeControls::getTime] (the values it passes back for the
    root position: [tcMin], [tcRec], [tcMax]),
    [TimeControls::roundUpTimeLimitIfNeeded],
    [Search::getPolicySurpriseAndEntropy] (the flag returned, [surprise],
    [searchEntropy], [policyEntropy]) and [Search::getPlaySelectionValues]
    (the flag returned, [playSelectionValues], [visitCounts]) of
    [searchresults.cpp], and [ceil] of [<cmath>].  [pow] with a positive
    base is [Rpower], [log] of a positive number is [ln]. *)
Context (getTime : R -> R * R * R)
        (roundUpTimeLimitIfNeeded : R -> R -> R -> R)
        (getPolicySurpriseAndEntropy : bool * R * R * R)
        (getPlaySelectionValues : R -> bool * list R * list R)
        (ceil : R -> R).

(** [Search::interpolateEarly(halflife, earlyValue, value)].  The sum of the
    turn number and the size is taken in 64 bits, unsigned, the product of
    the sizes of the board in [int]. *)
Definition interpolateEarly (t : TimeContext) (halflife earlyValue value : R) : R :=
  let rawHalflives :=
    IZR (to_uint64 (tc_initialTurnNumber t + Z.of_nat (tc_numMoves t))) / halflife in
  let halflives := rawHalflives * 19 / sqrt (IZR (to_int32 (tc_x_size t * tc_y_size t))) in
  value + (earlyValue - value) * Rpower 0.5 halflives.

(** [Search::numVisitsNeededToBeNonFutile(maxVisitsMoveVisits)] *)
Definition numVisitsNeededToBeNonFutile (t : TimeContext) (maxVisitsMoveVisits : R) : R :=
  let searchParams := tc_searchParams t in
  let requiredVisits := TimeParams.futileVisitsThreshold searchParams * maxVisitsMoveVisits in
  let chosenMoveTemperature :=
    interpolateEarly t (TimeParams.chosenMoveTemperatureHalflife searchParams)
      (TimeParams.chosenMoveTemperatureEarly searchParams)
      (TimeParams.chosenMoveTemperature searchParams) in
  if Rltb chosenMoveTemperature 1e-3 then requiredVisits
  else
    let requiredVisitsDueToTemp := maxVisitsMoveVisits * Rpower 0.01 chosenMoveTemperature in
    Rmin requiredVisits requiredVisitsDueToTemp.

(** [Search::computeUpperBoundVisitsLeftDueToTime(rootVisits, timeUsed,
    plannedTimeLimit)] *)
Definition computeUpperBoundVisitsLeftDueToTime (t : TimeContext) (rootVisits : Z)
    (timeUsed plannedTimeLimit : R) : R :=
  if (rootVisits <=? 1)%Z then 1e30
  else
    let timeThoughtSoFar := tc_effectiveSearchTimeCarriedOver t + timeUsed in
    let timeLeftPlanned := plannedTimeLimit - timeUsed in
    if Rltb timeThoughtSoFar 0.1 then 1e30
    else
      let proportionOfTimeThoughtLeft := timeLeftPlanned / timeThoughtSoFar in
      ceil (proportionOfTimeThoughtLeft * IZR rootVisits
            + IZR (TimeParams.numThreads (tc_searchParams t)) - 1).

(** The loop of [recomputeSearchTimeLimit] that finds [maxVisitsIdx] and
    [bestMoveIdx].  An index outside a vector aborts. *)
Definition findBestAndMaxVisits (numMoves : Z) (playSelectionValues visitCounts : list R)
  : option (nat * nat) :=
  for_loopM (Z.to_nat numMoves - 1)
    (fun k '(maxVisitsIdx, bestMoveIdx) =>
       let i := Datatypes.S k in
       p ← playSelectionValues !! i;
       pBest ← playSelectionValues !! bestMoveIdx;
       let bestMoveIdx := if Rgtb p pBest then i else bestMoveIdx in
       v ← visitCounts !! i;
       vMax ← visitCounts !! maxVisitsIdx;
       let maxVisitsIdx := if Rgtb v vMax then i else maxVisitsIdx in
       Some (maxVisitsIdx, bestMoveIdx))
    (0%nat, 0%nat).

(** The loop that looks for a move other than the best one that the visits
    left could still make non-futile; it stops at the first one. *)
Definition findPossibleAlternativeMove (numMoves : Z) (bestMoveIdx : nat)
    (visitCounts : list R) (upperBoundVisitsLeftDueToTime requiredVisits : R)
  : option bool :=
  for_loopM (Z.to_nat numMoves)
    (fun i (foundPossibleAlternativeMove : bool) =>
       if foundPossibleAlternativeMove then Some true
       else if (i =? bestMoveIdx)%nat then Some foundPossibleAlternativeMove
       else
         v ← visitCounts !! i;
         if Rgeb (v + upperBoundVisitsLeftDueToTime) requiredVisits then Some true
         else Some foundPossibleAlternativeMove)
    false.

(** [Search::recomputeSearchTimeLimit(tc, timeUsed, searchFactor,
    rootVisits)] *)
Definition recomputeSearchTimeLimit (t : TimeContext) (timeUsed searchFactor : R)
    (rootVisits : Z) : option R :=
  let searchParams := tc_searchParams t in
  let '(tcMin, tcRec, tcMax) := getTime (TimeParams.lagBuffer searchParams) in
  let tcRec := tcRec * TimeParams.overallocateTimeFactor searchParams in
  let tcRec :=
    if negb (Reqb (TimeParams.midgameTimeFactor searchParams) 1) then
      let boardAreaScale := IZR (to_int32 (tc_x_size t * tc_y_size t)) / 361 in
      let presumedTurnNumber :=
        to_int64 (to_uint64 (tc_initialTurnNumber t + Z.of_nat (tc_numMoves t))) in
      let presumedTurnNumber :=
        if (presumedTurnNumber <? 0)%Z then 0%Z else presumedTurnNumber in
      let midGameWeight :=
        if Rltb (IZR presumedTurnNumber)
             (TimeParams.midgameTurnPeakTime searchParams * boardAreaScale)
        then IZR presumedTurnNumber
             / (TimeParams.midgameTurnPeakTime searchParams * boardAreaScale)
        else exp (- (IZR presumedTurnNumber
                     - TimeParams.midgameTurnPeakTime searchParams * boardAreaScale)
                  / (TimeParams.endgameTurnTimeDecay searchParams * boardAreaScale)) in
      let midGameWeight := if Rltb midGameWeight 0 then 0 else midGameWeight in
      let midGameWeight := if Rgtb midGameWeight 1 then 1 else midGameWeight in
      tcRec * (1 + midGameWeight * (TimeParams.midgameTimeFactor searchParams - 1))
    else tcRec in
  let tcRec :=
    if Rltb (TimeParams.obviousMovesTimeFactor searchParams) 1 then
      let '(suc, surprise, searchEntropy, policyEntropy) := getPolicySurpriseAndEntropy in
      if (suc : bool) then
        let obviousnessByEntropy :=
          exp (- policyEntropy
               / TimeParams.obviousMovesPolicyEntropyTolerance searchParams) in
        let obviousnessBySurprise :=
          exp (- surprise / TimeParams.obviousMovesPolicySurpriseTolerance searchParams) in
        let obviousnessWeight := Rmin obviousnessByEntropy obviousnessBySurprise in
        tcRec * (1 + obviousnessWeight
                     * (TimeParams.obviousMovesTimeFactor searchParams - 1))
      else tcRec
    else tcRec in
  let tcRec :=
    if Rgtb tcRec 1e-20 then
      let remainingTimeNeeded := tcRec - tc_effectiveSearchTimeCarriedOver t in
      let remainingTimeNeededFactor := remainingTimeNeeded / tcRec in
      tcRec * Rmin 1 (ln (1 + exp (remainingTimeNeededFactor * 6)) / 6)
    else tcRec in
  let tcRec := roundUpTimeLimitIfNeeded (TimeParams.lagBuffer searchParams) timeUsed tcRec in
  let tcRec := if Rgtb tcRec tcMax then tcMax else tcRec in
  tcRec ←
    (if Rgtb (TimeParams.futileVisitsThreshold searchParams) 0 then
       let upperBoundVisitsLeftDueToTime :=
         computeUpperBoundVisitsLeftDueToTime t rootVisits timeUsed tcRec in
       if Rltb upperBoundVisitsLeftDueToTime
            (TimeParams.futileVisitsThreshold searchParams * IZR rootVisits)
       then
         let '(suc, playSelectionValues, visitCounts) := getPlaySelectionValues 1 in
         if (suc : bool) && (0 <? length playSelectionValues)%nat then
           if (length playSelectionValues =? length visitCounts)%nat then
             let numMoves := to_int32 (Z.of_nat (length playSelectionValues)) in
             '(maxVisitsIdx, bestMoveIdx) ←
               findBestAndMaxVisits numMoves playSelectionValues visitCounts;
             if (maxVisitsIdx =? bestMoveIdx)%nat then
               maxVisitsMoveVisits ← visitCounts !! maxVisitsIdx;
               let requiredVisits := numVisitsNeededToBeNonFutile t maxVisitsMoveVisits in
               foundPossibleAlternativeMove ←
                 findPossibleAlternativeMove numMoves bestMoveIdx visitCounts
                   upperBoundVisitsLeftDueToTime requiredVisits;
               if negb foundPossibleAlternativeMove
               then Some (timeUsed * (1 - 1e-10))
               else Some tcRec
             else Some tcRec
           else Some tcRec
         else Some tcRec
       else Some tcRec
     else Some tcRec);
  let tcRec := roundUpTimeLimitIfNeeded (TimeParams.lagBuffer searchParams) timeUsed tcRec in
  let tcRec := if Rgtb tcRec tcMax then tcMax else tcRec in
  let tcRec := if Rltb tcRec tcMin then tcMin else tcRec in
  let tcRec := tcRec * searchFactor in
  let tcRec := if Rgtb tcRec tcMax then tcMax else tcRec in
  Some tcRec.

End TimeLimit.

(** * Part II.  Verified properties *)

(** ** Selection value *)

Section SelectionValueFacts.
Local Open Scope R_scope.

Lemma cpuctExploration_is_spec_cPuct (searchParams : SearchParams.t R) (W : R) :
  cpuctExploration W searchParams = spec_cPuct searchParams W.
Proof. reflexivity. Qed.

(** C1.  For a legal move (nonnegative policy probability) the value returned
    by [getExploreSelectionValue] is the specification's
    [score_i = (pla==white ? Q_i : -Q_i) + cPuct(W) * stdevFactor * P_i *
    sqrt(W + 0.01) / (1 + childWeight_i)], with
    [cPuct(W) = cpuctExploration + cpuctExplorationLog * ln((W + base)/base)];
    for a move with negative policy probability it is the illegal-selection
    sentinel. *)
Theorem getExploreSelectionValue_spec
    (sentinel : R) (searchParams : SearchParams.t R)
    (P W childWeight Q stdevFactor : R) (pla : Player) :
  (0 <= P ->
     getExploreSelectionValue sentinel searchParams P W childWeight Q stdevFactor pla
     = (if decide (pla = P_WHITE) then Q else - Q)
       + (SearchParams.cpuctExploration searchParams
          + SearchParams.cpuctExplorationLog searchParams
            * ln ((W + SearchParams.cpuctExplorationBase searchParams)
                  / SearchParams.cpuctExplorationBase searchParams))
         * stdevFactor * P * sqrt (W + 0.01) / (1 + childWeight))
  /\ (0 <= P ->
     getExploreSelectionValue sentinel searchParams P W childWeight Q stdevFactor pla
     = spec_score searchParams stdevFactor P W childWeight Q pla)
  /\ (P < 0 ->
     getExploreSelectionValue sentinel searchParams P W childWeight Q stdevFactor pla
     = sentinel).
Proof.
  unfold getExploreSelectionValue, spec_score, spec_U, spec_cPuct, cpuctExploration,
    TOTALCHILDWEIGHT_PUCT_OFFSET.
  repeat split; intros HP; destruct (Rlt_dec P 0) as [Hneg|Hnn]; try lra.
  all: destruct pla; simpl; apply Rplus_comm.
Qed.

Definition unitParams : SearchParams.t R :=
  SearchParams.mk 1 1 1 1 (1/4) 0 1 1 false 1%Z.

Lemma getExploreSelectionValue_spec_witness :
  getExploreSelectionValue (-1000) unitParams 1 3 1 (1/2) 1 P_BLACK
    = spec_score unitParams 1 1 3 1 (1/2) P_BLACK
  /\ getExploreSelectionValue (-1000) unitParams (-1) 3 1 (1/2) 1 P_BLACK = -1000.
Proof.
  split.
  - apply (getExploreSelectionValue_spec (-1000) unitParams 1 3 1 (1/2) 1 P_BLACK); lra.
  - apply (getExploreSelectionValue_spec (-1000) unitParams (-1) 3 1 (1/2) 1 P_BLACK); lra.
Defined.

End SelectionValueFacts.

(** ** Dirichlet noise *)

Section LoopFacts.
Local Open Scope R_scope.











End LoopFacts.

Section DirichletFacts.
Local Open Scope R_scope.
Context {RandState : Type} (nextGamma : RandState -> R -> R * RandState).









End DirichletFacts.

Section DirichletExample.
Local Open Scope R_scope.



End DirichletExample.

(** ** Growth of the children arrays *)

Section GrowthFacts.
Context `{NodeConstants}.

Lemma copySlots_spec (size : nat) (oldChildren : option (list SearchChildPointer.t))
    (children res : list SearchChildPointer.t) :
  SearchNode.copySlots size oldChildren children = Some res ->
  length res = length children
  /\ (forall i, (i < size)%nat ->
        exists old o,
          oldChildren = Some old /\ old !! i = Some o
          /\ SearchChildPointer.data o <> None
          /\ res !! i = Some (SearchChildPointer.mk (SearchChildPointer.data o)
                                (SearchChildPointer.edgeVisits o)
                                (SearchChildPointer.moveLoc o)))
  /\ (forall i, (size <= i)%nat -> res !! i = children !! i).
Proof.
  unfold SearchNode.copySlots.
  revert res. induction size as [|k IH]; intros res Hres; simpl in Hres.
  - injection Hres as <-. split; [reflexivity|split; [intros; lia|reflexivity]].
  - match type of Hres with
    | context [for_loopM k ?b children] =>
        destruct (for_loopM k b children) as [mid|] eqn:Hmid; simpl in Hres; [|discriminate]
    end.
    destruct (IH mid eq_refl) as (Hlen & Hcopied & Hrest).
    destruct oldChildren as [old|]; simpl in Hres; [|discriminate].
    destruct (old !! k) as [o|] eqn:Ho; simpl in Hres; [|discriminate].
    unfold assert in Hres.
    destruct (bool_decide _) eqn:Hnn; simpl in Hres; [|discriminate].
    apply bool_decide_eq_true in Hnn.
    destruct (mid !! k) as [c|] eqn:Hc; simpl in Hres; [|discriminate].
    injection Hres as <-.
    assert (Hk : (k < length mid)%nat) by (apply lookup_lt_is_Some; eauto).
    repeat split.
    + now rewrite length_insert.
    + intros i Hi. destruct (Nat.eq_dec i k) as [->|Hne].
      * exists old, o. repeat split; try assumption.
        rewrite list_lookup_insert_eq by assumption. reflexivity.
      * rewrite list_lookup_insert_ne by congruence. apply Hcopied. lia.
    + intros i Hi. rewrite list_lookup_insert_ne by lia. apply Hrest. lia.
Qed.

Lemma copySlots_total (size : nat) (old children : list SearchChildPointer.t) :
  (size <= length old)%nat -> (size <= length children)%nat ->
  (forall i o, (i < size)%nat -> old !! i = Some o -> SearchChildPointer.data o <> None) ->
  exists res, SearchNode.copySlots size (Some old) children = Some res.
Proof.
  induction size as [|k IH]; intros Hold Hch Hfull; [simpl; eauto|].
  destruct IH as [mid Hmid];
    [lia|lia|intros i o Hi Ho; apply (Hfull i o); [lia|assumption]|].
  pose proof (copySlots_spec k (Some old) children mid Hmid) as (Hlen & _ & _).
  unfold SearchNode.copySlots in *. cbn [for_loopM]. rewrite Hmid. simpl.
  destruct (lookup_lt_is_Some_2 old k) as [o Ho]; [lia|]. rewrite Ho. simpl.
  unfold assert. rewrite bool_decide_eq_true_2 by (apply (Hfull k o); [lia|assumption]).
  simpl.
  destruct (lookup_lt_is_Some_2 mid k) as [c Hc]; [lia|]. rewrite Hc. simpl. eauto.
Qed.

(** The tier a growth starts from: its array, its capacity, the state that
    marks the growth in progress and the state that publishes the result. *)
Definition oldArrayOf (stateValue : Z) (n : SearchNode.t) : option (list SearchChildPointer.t) :=
  if (stateValue =? STATE_EXPANDED0)%Z then SearchNode.children0 n else SearchNode.children1 n.
Definition newArrayOf (stateValue : Z) (n : SearchNode.t) : option (list SearchChildPointer.t) :=
  if (stateValue =? STATE_EXPANDED0)%Z then SearchNode.children1 n else SearchNode.children2 n.
Definition oldCapacityOf (stateValue : Z) : nat :=
  if (stateValue =? STATE_EXPANDED0)%Z then CHILDREN0SIZE else CHILDREN1SIZE.
Definition newCapacityOf (stateValue : Z) : nat :=
  if (stateValue =? STATE_EXPANDED0)%Z then CHILDREN1SIZE else CHILDREN2SIZE.
Definition growingStateOf (stateValue : Z) : Z :=
  if (stateValue =? STATE_EXPANDED0)%Z then STATE_GROWING1 else STATE_GROWING2.
Definition grownStateOf (stateValue : Z) : Z :=
  if (stateValue =? STATE_EXPANDED0)%Z then STATE_EXPANDED1 else STATE_EXPANDED2.

(** C4.  [tryExpandingChildrenCapacityAssumeFull] returns false, leaving the
    node as it is, when the observed state is GROWING1 or GROWING2 and when
    its compare-exchange on [state] fails.  When it returns true, the node
    [mid] that exists just before the final store already carries the new
    array, in which every slot [i] of the old array has been copied (child
    pointer, edge visits, move) to slot [i]; the final store changes [state]
    only, to EXPANDED1 (resp. EXPANDED2).  Under the precondition (every slot
    of the current array occupied, the node still in the observed state) the
    call does return true. *)
Theorem tryExpandingChildrenCapacityAssumeFull_spec (stateValue : Z) (n : SearchNode.t) :
  (stateValue = STATE_GROWING1 \/ stateValue = STATE_GROWING2 ->
     SearchNode.tryExpandingChildrenCapacityAssumeFull stateValue n
     = Some (false, stateValue, n))
  /\ (stateValue = STATE_EXPANDED0 \/ stateValue = STATE_EXPANDED1 ->
      SearchNode.state n <> stateValue ->
      SearchNode.tryExpandingChildrenCapacityAssumeFull stateValue n
      = Some (false, SearchNode.state n, n))
  /\ (forall stateValue' n',
        SearchNode.tryExpandingChildrenCapacityAssumeFull stateValue n
        = Some (true, stateValue', n') ->
        (stateValue = STATE_EXPANDED0 \/ stateValue = STATE_EXPANDED1)
        /\ SearchNode.state n = stateValue
        /\ exists mid new,
             SearchNode.tryExpanding_copy (growingStateOf stateValue)
               (SearchNode.set_state (growingStateOf stateValue) n) = Some mid
             /\ SearchNode.state mid = growingStateOf stateValue
             /\ oldArrayOf stateValue mid = oldArrayOf stateValue n
             /\ newArrayOf stateValue mid = Some new
             /\ length new = newCapacityOf stateValue
             /\ (forall i, (i < oldCapacityOf stateValue)%nat ->
                   exists old o c,
                     oldArrayOf stateValue n = Some old
                     /\ old !! i = Some o /\ new !! i = Some c
                     /\ SearchChildPointer.data o <> None
                     /\ SearchChildPointer.data c = SearchChildPointer.data o
                     /\ SearchChildPointer.edgeVisits c = SearchChildPointer.edgeVisits o
                     /\ SearchChildPointer.moveLoc c = SearchChildPointer.moveLoc o)
             /\ n' = SearchNode.set_state (grownStateOf stateValue) mid
             /\ stateValue' = grownStateOf stateValue)
  /\ (forall old,
        (stateValue = STATE_EXPANDED0 \/ stateValue = STATE_EXPANDED1) ->
        SearchNode.state n = stateValue ->
        oldArrayOf stateValue n = Some old ->
        length old = oldCapacityOf stateValue ->
        (forall i o, old !! i = Some o -> SearchChildPointer.data o <> None) ->
        newArrayOf stateValue n = None ->
        (oldCapacityOf stateValue <= newCapacityOf stateValue)%nat ->
        exists n',
          SearchNode.tryExpandingChildrenCapacityAssumeFull stateValue n
          = Some (true, grownStateOf stateValue, n')).
Proof.
  unfold SearchNode.tryExpandingChildrenCapacityAssumeFull, SearchNode.tryExpanding_acquire,
    SearchNode.state_compare_exchange_strong.
  split; [|split; [|split]].
  - intros [-> | ->]; reflexivity.
  - intros [-> | ->] Hne; simpl;
      (destruct (SearchNode.state n =? _)%Z eqn:E;
       [apply Z.eqb_eq in E; congruence|reflexivity]).
  - intros stateValue' n' Hres.
    assert (Hcases : stateValue = STATE_EXPANDED0 \/ stateValue = STATE_EXPANDED1).
    { destruct (stateValue <? STATE_EXPANDED1)%Z eqn:E1.
      - destruct (stateValue =? STATE_GROWING1)%Z; [discriminate|].
        unfold assert in Hres.
        destruct (stateValue =? STATE_EXPANDED0)%Z eqn:E; [|discriminate].
        left. now apply Z.eqb_eq.
      - destruct (stateValue <? STATE_EXPANDED2)%Z eqn:E2; [|discriminate].
        destruct (stateValue =? STATE_GROWING2)%Z; [discriminate|].
        unfold assert in Hres.
        destruct (stateValue =? STATE_EXPANDED1)%Z eqn:E; [|discriminate].
        right. now apply Z.eqb_eq. }
    split; [exact Hcases|].
    destruct Hcases as [-> | ->]; simpl in Hres;
      (destruct (SearchNode.state n =? _)%Z eqn:E; simpl in Hres; [|discriminate]);
      apply Z.eqb_eq in E; (split; [exact E|]);
      unfold SearchNode.tryExpanding_copy in *; simpl in *;
      match type of Hres with
      | context [SearchNode.copySlots ?sz ?o ?c] =>
          destruct (SearchNode.copySlots sz o c) as [new|] eqn:Hcopy; simpl in Hres;
            [|discriminate]
      end;
      unfold assert in *;
      match type of Hres with
      | context [bool_decide ?P] =>
          destruct (bool_decide P) eqn:Hnull; simpl in Hres; [|discriminate]
      end;
      injection Hres as <- <-;
      destruct (copySlots_spec _ _ _ _ Hcopy) as (Hlen & Hcopied & _);
      rewrite length_replicate in Hlen;
      eexists _, new; (split; [reflexivity|]);
      repeat split; try reflexivity; try assumption;
      intros i Hi; destruct (Hcopied i Hi) as (old & o & Heq & Ho & Hnn & Hc);
      exists old, o, (SearchChildPointer.mk (SearchChildPointer.data o)
                        (SearchChildPointer.edgeVisits o)
                        (SearchChildPointer.moveLoc o));
      repeat split; assumption.
  - intros old Hcases Hstate Hold Hlen Hfull Hnew Hcap.
    destruct Hcases as [-> | ->]; simpl;
      rewrite Hstate; simpl;
      unfold SearchNode.tryExpanding_copy, oldArrayOf, newArrayOf, oldCapacityOf,
        newCapacityOf in *; simpl in *;
      rewrite Hold;
      match goal with
      | |- context [SearchNode.copySlots ?sz (Some old) ?c] =>
          destruct (copySlots_total sz old c) as [res Hres];
            [lia|rewrite length_replicate; lia|intros i o _ Ho; apply (Hfull i o Ho)|];
            rewrite Hres; simpl
      end;
      rewrite Hnew; simpl; eauto.
Qed.

End GrowthFacts.

(** ** The expansion state machine *)

Section StateMachineFacts.
Context `{NodeConstants}.

(** The state a thread holds the node in while it is between its
    compare-exchange and its store. *)
Definition heldState (pc : ControlPoint) : option Z :=
  match pc with
  | WonEvaluation => Some STATE_EVALUATING
  | Copying stateValue | Publishing stateValue => Some stateValue
  | _ => None
  end.

Definition validHold (pc : ControlPoint) : Prop :=
  match pc with
  | Copying stateValue | Publishing stateValue =>
      stateValue = STATE_GROWING1 \/ stateValue = STATE_GROWING2
  | _ => True
  end.

(** A thread between its compare-exchange and its store holds the node in
    EVALUATING, GROWING1 or GROWING2, the node is in that state, and no other
    thread is in that position. *)
Definition exclusive (c : Config) : Prop :=
  (forall t sv, heldState (threads c t) = Some sv ->
     SearchNode.state (node c) = sv /\ validHold (threads c t))
  /\ (forall t t' sv sv',
        heldState (threads c t) = Some sv -> heldState (threads c t') = Some sv' -> t = t').

(** What a write to [state] may be: one step forward in the order of the
    seven states. *)
Definition advances (w : StateWrite) : Prop :=
  STATE_UNEVALUATED <= replaced w /\ written w = replaced w + 1
  /\ written w <= STATE_EXPANDED2.

Lemma set_thread_same tid pc ths : set_thread tid pc ths tid = pc.
Proof. unfold set_thread. now rewrite Nat.eqb_refl. Qed.

Lemma set_thread_other tid pc ths t : t <> tid -> set_thread tid pc ths t = ths t.
Proof. intros Hne. unfold set_thread. apply Nat.eqb_neq in Hne. now rewrite Hne. Qed.

Lemma exclusive_release (c : Config) (tid : nat) (pc : ControlPoint) (n : SearchNode.t) :
  exclusive c -> heldState pc = None ->
  (heldState (threads c tid) = None -> SearchNode.state n = SearchNode.state (node c)) ->
  exclusive (mkConfig n (set_thread tid pc (threads c))).
Proof.
  intros [Hheld Huniq] Hpc Hstate. split; simpl.
  - intros t sv Ht. destruct (Nat.eq_dec t tid) as [->|Hne].
    + rewrite set_thread_same in Ht. congruence.
    + rewrite set_thread_other in * by assumption.
      destruct (Hheld t sv Ht) as [Hs Hsv]. split; [|exact Hsv].
      rewrite <- Hs. apply Hstate.
      destruct (heldState (threads c tid)) as [sv'|] eqn:E; [|reflexivity].
      exfalso. apply Hne. eapply Huniq; eassumption.
  - intros t t' sv sv' Ht Ht'.
    destruct (Nat.eq_dec t tid) as [->|Hne];
      [rewrite set_thread_same in Ht; congruence|].
    destruct (Nat.eq_dec t' tid) as [->|Hne'];
      [rewrite set_thread_same in Ht'; congruence|].
    rewrite set_thread_other in Ht, Ht' by assumption. eapply Huniq; eassumption.
Qed.

Lemma exclusive_acquire (c : Config) (tid : nat) (pc : ControlPoint) (n : SearchNode.t)
    (sv : Z) :
  exclusive c -> heldState pc = Some sv -> SearchNode.state n = sv -> validHold pc ->
  (forall t sv', heldState (threads c t) = Some sv' -> t = tid) ->
  exclusive (mkConfig n (set_thread tid pc (threads c))).
Proof.
  intros [Hheld Huniq] Hpc Hstate Hsv Honly. split; simpl.
  - intros t sv' Ht. destruct (Nat.eq_dec t tid) as [->|Hne].
    + rewrite set_thread_same in *. split; congruence.
    + rewrite set_thread_other in Ht by assumption.
      exfalso. apply Hne. eapply Honly. eassumption.
  - intros t t' sv1 sv2 Ht Ht'.
    destruct (Nat.eq_dec t tid) as [->|Hne], (Nat.eq_dec t' tid) as [->|Hne'];
      try reflexivity.
    + rewrite set_thread_other in Ht' by assumption.
      symmetry. eapply Honly. eassumption.
    + rewrite set_thread_other in Ht by assumption. eapply Honly. eassumption.
    + rewrite set_thread_other in Ht, Ht' by assumption. eapply Huniq; eassumption.
Qed.

Lemma tryExpanding_copy_state (sv : Z) (n n' : SearchNode.t) :
  SearchNode.tryExpanding_copy sv n = Some n' -> SearchNode.state n' = SearchNode.state n.
Proof.
  unfold SearchNode.tryExpanding_copy.
  destruct (sv =? STATE_GROWING1)%Z;
    (destruct (SearchNode.copySlots _ _ _); simpl; [|discriminate]);
    (destruct (assert _); simpl; [|discriminate]);
    intros [= <-]; reflexivity.
Qed.

Lemma set_children_for_state (sv : Z) arr (n : SearchNode.t) :
  SearchNode.state (set_children_for sv arr n) = SearchNode.state n.
Proof.
  unfold set_children_for.
  destruct (STATE_EXPANDED2 <=? sv)%Z; [reflexivity|].
  destruct (STATE_EXPANDED1 <=? sv)%Z; reflexivity.
Qed.

Ltac released :=
  apply exclusive_release;
  [assumption|reflexivity
  |first [reflexivity
         |let Hn := fresh in
          intros Hn;
          first [apply set_children_for_state
                |match goal with Hpc : threads _ _ = _ |- _ =>
                   rewrite Hpc in Hn; discriminate end]]].

Ltac states := unfold advances, STATE_UNEVALUATED, STATE_EVALUATING, STATE_EXPANDED0,
  STATE_GROWING1, STATE_EXPANDED1, STATE_GROWING2, STATE_EXPANDED2 in *; simpl in *.

(** One step keeps the exclusion, and a write it makes is one step forward
    from the value the node had. *)
Lemma thread_step_sound (c : Config) (tid : nat) (a : Action)
    (pc : ControlPoint) (n : SearchNode.t) (w : option StateWrite) :
  exclusive c ->
  thread_step a (threads c tid) (node c) = Some (pc, n, w) ->
  exclusive (mkConfig n (set_thread tid pc (threads c)))
  /\ match w with
     | Some w =>
         replaced w = SearchNode.state (node c) /\ written w = SearchNode.state n
         /\ advances w
     | None => SearchNode.state n = SearchNode.state (node c)
     end.
Proof.
  intros Hex Hstep. pose proof Hex as [Hheld Huniq].
  unfold thread_step in Hstep.
  destruct a, (threads c tid) as [|ns| |ns|sv|sv] eqn:Hpc; try discriminate.
  - (* AEnter *)
    injection Hstep as <- <- <-. split; [released|reflexivity].
  - (* ADispatch *)
    destruct (ns =? STATE_UNEVALUATED)%Z eqn:E0.
    + apply Z.eqb_eq in E0. subst ns.
      destruct initNodeNNOutputResult; simpl in Hstep.
      * unfold SearchNode.state_compare_exchange_strong in Hstep.
        destruct (SearchNode.state (node c) =? STATE_UNEVALUATED)%Z eqn:E;
          simpl in Hstep; injection Hstep as <- <- <-.
        -- apply Z.eqb_eq in E. split.
           ++ eapply exclusive_acquire; [assumption|reflexivity|reflexivity|exact I|].
              intros t sv' Ht. destruct (Hheld t sv' Ht) as [Hs Hsv].
              destruct (threads c t); try discriminate; simpl in *;
                injection Ht as <-; states; lia.
           ++ simpl. rewrite E. states. lia.
        -- split; [released|reflexivity].
      * injection Hstep as <- <- <-. split; [released|reflexivity].
    + destruct (ns =? STATE_EVALUATING)%Z.
      * injection Hstep as <- <- <-. split; [released|reflexivity].
      * destruct (assert _); simpl in Hstep; [|discriminate].
        injection Hstep as <- <- <-. split; [released|reflexivity].
  - (* AFinishEvaluation *)
    unfold SearchNode.initializeChildren in Hstep.
    destruct (assert _); simpl in Hstep; [|discriminate].
    injection Hstep as <- <- <-.
    destruct (Hheld tid STATE_EVALUATING) as [Hs _]; [now rewrite Hpc|].
    split; [released|].
    simpl. rewrite Hs. states. lia.
  - (* AReload *)
    injection Hstep as <- <- <-. split; [released|reflexivity].
  - (* ALeave *)
    injection Hstep as <- <- <-. split; [released|reflexivity].
  - (* AInstallChild *)
    destruct (SearchNode.getChildren (node c) ns) as [children cap].
    destruct (assert _); simpl in Hstep; [|discriminate].
    destruct children as [arr|]; simpl in Hstep; [|discriminate].
    destruct (arr !! bestChildIdx) as [slot|]; simpl in Hstep; [|discriminate].
    destruct (SearchChildPointer.getIfAllocated slot); injection Hstep as <- <- <-.
    + split; [released|reflexivity].
    + split; [released|apply set_children_for_state].
  - (* ANewChild *)
    destruct (_ <? _)%nat.
    2:{ injection Hstep as <- <- <-. split; [released|reflexivity]. }
    destruct (assert _); simpl in Hstep; [|discriminate].
    unfold SearchNode.tryExpanding_acquire, SearchNode.state_compare_exchange_strong in Hstep.
    destruct (ns <? STATE_EXPANDED1)%Z.
    + destruct (ns =? STATE_GROWING1)%Z.
      { simpl in Hstep. injection Hstep as <- <- <-. split; [released|reflexivity]. }
      unfold assert in Hstep.
      destruct (ns =? STATE_EXPANDED0)%Z eqn:E0; simpl in Hstep; [|discriminate].
      apply Z.eqb_eq in E0. subst ns.
      destruct (SearchNode.state (node c) =? STATE_EXPANDED0)%Z eqn:E;
        simpl in Hstep; injection Hstep as <- <- <-.
      * apply Z.eqb_eq in E. split.
        -- eapply exclusive_acquire;
             [assumption|reflexivity|reflexivity|left; reflexivity|].
           intros t sv' Ht. destruct (Hheld t sv' Ht) as [Hs Hsv].
           destruct (threads c t); try discriminate; simpl in *;
             injection Ht as <-; states; lia.
        -- simpl. rewrite E. states. lia.
      * split; [released|reflexivity].
    + destruct (ns <? STATE_EXPANDED2)%Z; [|discriminate].
      destruct (ns =? STATE_GROWING2)%Z.
      { simpl in Hstep. injection Hstep as <- <- <-. split; [released|reflexivity]. }
      unfold assert in Hstep.
      destruct (ns =? STATE_EXPANDED1)%Z eqn:E0; simpl in Hstep; [|discriminate].
      apply Z.eqb_eq in E0. subst ns.
      destruct (SearchNode.state (node c) =? STATE_EXPANDED1)%Z eqn:E;
        simpl in Hstep; injection Hstep as <- <- <-.
      * apply Z.eqb_eq in E. split.
        -- eapply exclusive_acquire;
             [assumption|reflexivity|reflexivity|right; reflexivity|].
           intros t sv' Ht. destruct (Hheld t sv' Ht) as [Hs Hsv].
           destruct (threads c t); try discriminate; simpl in *;
             injection Ht as <-; states; lia.
        -- simpl. rewrite E. states. lia.
      * split; [released|reflexivity].
  - (* ACopy *)
    destruct (SearchNode.tryExpanding_copy sv (node c)) as [n'|] eqn:Hcopy;
      simpl in Hstep; [|discriminate].
    injection Hstep as <- <- <-.
    pose proof (tryExpanding_copy_state _ _ _ Hcopy) as Hs'.
    destruct (Hheld tid sv) as [Hs Hsv]; [now rewrite Hpc|].
    rewrite Hpc in Hsv.
    split; [|exact Hs'].
    eapply exclusive_acquire; [assumption|reflexivity|congruence|exact Hsv|].
    intros t sv' Ht. eapply Huniq; [eassumption|]. rewrite Hpc. reflexivity.
  - (* APublish *)
    destruct (Hheld tid sv) as [Hs Hsv]; [now rewrite Hpc|].
    rewrite Hpc in Hsv.
    unfold SearchNode.tryExpanding_publish in Hstep.
    destruct Hsv as [-> | ->]; simpl in Hstep; injection Hstep as <- <- <-.
    + split; [released|]. simpl. rewrite Hs. states. lia.
    + split; [released|]. simpl. rewrite Hs. states. lia.
Qed.

Lemma run_sound (schedule : list (nat * Action)) (c c' : Config) (ws : list StateWrite) :
  exclusive c ->
  run schedule c = Some (c', ws) ->
  exclusive c'
  /\ Forall advances ws
  /\ SearchNode.state (node c) <= SearchNode.state (node c').
Proof.
  revert c c' ws. induction schedule as [|[tid a] schedule IH]; intros c c' ws Hex Hrun.
  - injection Hrun as <- <-. split; [assumption|split; [constructor|lia]].
  - simpl in Hrun.
    destruct (thread_step a (threads c tid) (node c)) as [[[pc n] w]|] eqn:Hstep;
      simpl in Hrun; [|discriminate].
    destruct (run schedule _) as [[c1 ws1]|] eqn:Hrest; simpl in Hrun; [|discriminate].
    injection Hrun as <- <-.
    destruct (thread_step_sound c tid a pc n w Hex Hstep) as [Hex' Hw].
    destruct (IH _ _ _ Hex' Hrest) as (Hex1 & Hws1 & Hle). simpl in Hle.
    split; [exact Hex1|].
    destruct w as [w|].
    + destruct Hw as (Hr & Hwr & Hadv). pose proof Hadv as (? & ? & ?).
      split; [constructor; assumption|lia].
    + rewrite Hw in *. split; assumption.
Qed.

Lemma initialConfig_exclusive (n : SearchNode.t) : exclusive (initialConfig n).
Proof. split; simpl; intros; discriminate. Qed.

(** C3.  Along every interleaving of any number of threads working on a node
    with [playoutDescend] and the children-array growth, from a node that no
    thread is working on yet: every store and every successful
    compare-exchange on [state] writes a value strictly greater than the one
    it replaces (it is the next state in the order UNEVALUATED < EVALUATING <
    EXPANDED0 < GROWING1 < EXPANDED1 < GROWING2 < EXPANDED2), and between any
    two points of the execution the state never decreases. *)
Theorem state_only_advances (n0 : SearchNode.t)
    (before after : list (nat * Action)) (c1 c2 : Config) (ws1 ws2 : list StateWrite) :
  run before (initialConfig n0) = Some (c1, ws1) ->
  run after c1 = Some (c2, ws2) ->
  Forall (fun w => replaced w < written w) (ws1 ++ ws2)
  /\ Forall advances (ws1 ++ ws2)
  /\ SearchNode.state n0 <= SearchNode.state (node c1)
  /\ SearchNode.state (node c1) <= SearchNode.state (node c2).
Proof.
  intros Hrun1 Hrun2.
  destruct (run_sound _ _ _ _ (initialConfig_exclusive n0) Hrun1) as (Hex1 & Hws1 & Hle1).
  destruct (run_sound _ _ _ _ Hex1 Hrun2) as (_ & Hws2 & Hle2).
  assert (Hadv : Forall advances (ws1 ++ ws2)) by (apply Forall_app; split; assumption).
  split; [|split; [exact Hadv|split; assumption]].
  eapply Forall_impl; [exact Hadv|].
  intros w (? & ? & ?). lia.
Qed.

End StateMachineFacts.

(** ** Edge-visit catch-up *)

Section CatchUpFacts.
Context `{NodeConstants} `{RandOps}.

(** The additions of other threads alone. *)
Fixpoint interfereAll (others : list Interference) (h : Heap) (node : addr)
    (nodeState : Z) (idx : nat) : option Heap :=
  match others with
  | [] => Some h
  | i :: others =>
      h ← interfere i h node nodeState idx; interfereAll others h node nodeState idx
  end.

(** A successful catch-up loop: some attempts failed, then one
    compare-exchange met the value [edgeVisits slot1] it expected and replaced
    it by that value plus one. *)
Lemma catchUpLoop_true (env : list Interference) (h h' : Heap) (node : addr) (nodeState : Z)
    (idx : nat) (childVisits edgeVisits : Z) :
  catchUpLoop env h node nodeState idx childVisits edgeVisits = Some (true, h') ->
  exists attempts rest h1 slot1,
    env = attempts ++ rest /\ attempts <> []
    /\ interfereAll attempts h node nodeState idx = Some h1
    /\ readSlot h1 node nodeState idx = Some slot1
    /\ SearchChildPointer.edgeVisits slot1 < childVisits
    /\ writeSlot h1 node nodeState idx (SearchChildPointer.addEdgeVisits 1 slot1) = Some h'.
Proof.
  revert h edgeVisits. induction env as [|i env IH]; intros h edgeVisits Hloop; simpl in Hloop.
  - destruct (childVisits <=? edgeVisits)%Z; discriminate.
  - destruct (childVisits <=? edgeVisits)%Z eqn:Hle; [discriminate|].
    apply Z.leb_gt in Hle.
    destruct (interfere i h node nodeState idx) as [h1|] eqn:Hint; simpl in Hloop;
      [|discriminate].
    destruct (readSlot h1 node nodeState idx) as [slot1|] eqn:Hslot; simpl in Hloop;
      [|discriminate].
    destruct ((SearchChildPointer.edgeVisits slot1 =? edgeVisits)%Z
              && negb (spuriousFailure i)) eqn:Hcas.
    + apply andb_true_iff in Hcas as [Heq _]. apply Z.eqb_eq in Heq.
      destruct (writeSlot h1 node nodeState idx _) as [h2|] eqn:Hw; simpl in Hloop;
        [|discriminate].
      injection Hloop as <-.
      exists [i], env, h1, slot1. simpl. rewrite Hint. simpl.
      repeat split; try assumption; try discriminate; try lia.
      rewrite <- Hw. unfold SearchChildPointer.addEdgeVisits,
        SearchChildPointer.setEdgeVisits, numToAdd. now rewrite Heq.
    + destruct (IH _ _ Hloop) as (attempts & rest & h2 & slot2 & -> & _ & Hall & Hrest).
      exists (i :: attempts), rest, h2, slot2. simpl. rewrite Hint. simpl.
      repeat split; try assumption; try discriminate; apply Hrest.
Qed.

(** A slot that can be read can be written, and is then read back. *)
Lemma writeSlot_readSlot (h : Heap) (node : addr) (nodeState : Z) (idx : nat)
    (slot x : SearchChildPointer.t) :
  readSlot h node nodeState idx = Some slot ->
  exists h', writeSlot h node nodeState idx x = Some h'
             /\ readSlot h' node nodeState idx = Some x.
Proof.
  unfold readSlot, writeSlot. destruct (h !! node) as [n|]; simpl; [|discriminate].
  destruct (SearchNode.getChildren n nodeState).1 as [arr|] eqn:Harr; simpl; [|discriminate].
  intros Hidx. rewrite Hidx. simpl. eexists. split; [reflexivity|].
  rewrite lookup_insert_eq. simpl.
  assert (Hnew : (SearchNode.getChildren
                    (set_children_for nodeState (<[idx := x]> arr) n) nodeState).1
                 = Some (<[idx := x]> arr)).
  { unfold SearchNode.getChildren, set_children_for in *.
    destruct (STATE_EXPANDED2 <=? nodeState)%Z; [reflexivity|].
    destruct (STATE_EXPANDED1 <=? nodeState)%Z; [reflexivity|].
    destruct (STATE_EXPANDED0 <=? nodeState)%Z; [reflexivity|discriminate]. }
  rewrite Hnew. simpl. apply list_lookup_insert_eq. now apply lookup_lt_Some in Hidx.
Qed.

(** The visits that other threads add during some attempts. *)
Definition addedBy (attempts : list Interference) : Z :=
  foldr (fun j acc => addedByOthers j + acc) 0 attempts.

(** An attempt that must fail: other threads have added visits since the
    count was read, or the weak compare-exchange fails spuriously. *)
Definition failing (j : Interference) : Prop :=
  0 <= addedByOthers j /\ (addedByOthers j <> 0 \/ spuriousFailure j = true).

Lemma addedBy_nonneg (attempts : list Interference) :
  Forall failing attempts -> 0 <= addedBy attempts.
Proof.
  induction 1 as [|j attempts [Hj _] _ IH]; simpl; lia.
Qed.

(** The loop catches up at the first attempt that other threads leave alone,
    as long as their additions keep the edge behind the child. *)
Lemma catchUpLoop_progress (quiet : Interference) (rest : list Interference)
    (node : addr) (nodeState : Z) (idx : nat) (childVisits : Z)
    (attempts : list Interference) :
  addedByOthers quiet = 0 -> spuriousFailure quiet = false ->
  forall (h : Heap) (slot : SearchChildPointer.t),
    readSlot h node nodeState idx = Some slot ->
    Forall failing attempts ->
    SearchChildPointer.edgeVisits slot + addedBy attempts < childVisits ->
    exists h',
      catchUpLoop (attempts ++ quiet :: rest) h node nodeState idx childVisits
        (SearchChildPointer.edgeVisits slot) = Some (true, h')
      /\ readSlot h' node nodeState idx
         = Some (SearchChildPointer.setEdgeVisits
                   (SearchChildPointer.edgeVisits slot + addedBy attempts + 1) slot).
Proof.
  intros Hzero Hweak.
  induction attempts as [|j attempts IH]; intros h slot Hslot Hfail Hlt.
  - simpl in Hlt. cbn [app catchUpLoop].
    rewrite (proj2 (Z.leb_gt _ _)) by lia.
    unfold interfere. rewrite Hslot. simpl.
    destruct (writeSlot_readSlot h node nodeState idx slot
                (SearchChildPointer.addEdgeVisits (addedByOthers quiet) slot) Hslot)
      as (h1 & -> & Hread1).
    simpl. rewrite Hread1. simpl. rewrite Hzero, Hweak, Z.add_0_r, Z.eqb_refl. simpl.
    destruct (writeSlot_readSlot h1 node nodeState idx _
                (SearchChildPointer.setEdgeVisits
                   (SearchChildPointer.edgeVisits slot + numToAdd)
                   (SearchChildPointer.addEdgeVisits 0 slot)) Hread1)
      as (h2 & -> & Hread2).
    simpl. exists h2. split; [reflexivity|]. rewrite Hread2.
    unfold SearchChildPointer.setEdgeVisits, SearchChildPointer.addEdgeVisits, numToAdd.
    simpl. do 2 f_equal; lia.
  - apply Forall_cons in Hfail as [[Hpos Hj] Hfail].
    pose proof (addedBy_nonneg attempts Hfail) as Hrest.
    simpl in Hlt. cbn [app catchUpLoop].
    rewrite (proj2 (Z.leb_gt _ _)) by lia.
    unfold interfere. rewrite Hslot. simpl.
    destruct (writeSlot_readSlot h node nodeState idx slot
                (SearchChildPointer.addEdgeVisits (addedByOthers j) slot) Hslot)
      as (h1 & -> & Hread1).
    simpl. rewrite Hread1. simpl.
    assert (Hcas : (SearchChildPointer.edgeVisits slot + addedByOthers j
                    =? SearchChildPointer.edgeVisits slot)%Z
                   && negb (spuriousFailure j) = false).
    { destruct Hj as [Hne| ->]; [|apply andb_false_r].
      rewrite (proj2 (Z.eqb_neq _ _)) by lia. reflexivity. }
    rewrite Hcas.
    destruct (IH h1 _ Hread1 Hfail) as (h' & Hrun & Hread').
    { simpl. lia. }
    simpl in Hrun. exists h'. split; [exact Hrun|]. rewrite Hread'.
    unfold SearchChildPointer.setEdgeVisits, SearchChildPointer.addEdgeVisits.
    simpl. do 2 f_equal; lia.
Qed.

(** The loop gives up only on an edge that is no longer behind: at once, or
    after failed attempts during which other threads have raised it. *)
Lemma catchUpLoop_false (node : addr) (nodeState : Z) (idx : nat) (childVisits : Z)
    (env : list Interference) :
  forall (h h' : Heap) (edgeVisits : Z),
    catchUpLoop env h node nodeState idx childVisits edgeVisits = Some (false, h') ->
    (childVisits <= edgeVisits /\ h' = h)
    \/ (edgeVisits < childVisits
        /\ exists attempts rest slot',
             env = attempts ++ rest /\ attempts <> []
             /\ interfereAll attempts h node nodeState idx = Some h'
             /\ readSlot h' node nodeState idx = Some slot'
             /\ childVisits <= SearchChildPointer.edgeVisits slot').
Proof.
  induction env as [|i env IH]; intros h h' edgeVisits Hloop; simpl in Hloop.
  - destruct (Z.leb_spec childVisits edgeVisits); [|discriminate].
    injection Hloop as <-. auto.
  - destruct (Z.leb_spec childVisits edgeVisits) as [Hle|Hlt].
    { injection Hloop as <-. auto. }
    right. split; [exact Hlt|].
    destruct (interfere i h node nodeState idx) as [h1|] eqn:Hint; simpl in Hloop;
      [|discriminate].
    destruct (readSlot h1 node nodeState idx) as [slot1|] eqn:Hslot; simpl in Hloop;
      [|discriminate].
    destruct ((SearchChildPointer.edgeVisits slot1 =? edgeVisits)%Z
              && negb (spuriousFailure i)).
    { destruct (writeSlot h1 node nodeState idx _); simpl in Hloop; discriminate. }
    destruct (IH _ _ _ Hloop) as [[Hle ->]|(_ & attempts & rest & slot' & -> & _ & Hall & Hrest)].
    + exists [i], env, slot1. simpl. rewrite Hint. simpl.
      repeat split; auto; discriminate.
    + exists (i :: attempts), rest, slot'. simpl. rewrite Hint. simpl.
      repeat split; try assumption; try discriminate; apply Hrest.
Qed.

(** C5.  [maybeCatchUpEdgeVisits] returns false, changing nothing, when the
    edge's visit count is at least the child's; it also returns false when
    the edge is behind and the leak draw [nextBool(graphSearchCatchUpLeakProb)]
    comes up.  When it returns true, its one successful compare-exchange has
    replaced the edge's visit count by that count plus exactly one (all other
    changes of the count are the other threads' additions).  In that case
    the caller ([playoutDescend]) updates the node's statistics and returns
    true, a finished playout, without the recursive call on the child.
    An edge that is behind, without the leak, is caught up: the call returns
    true at the first compare-exchange that other threads leave alone, with
    the count one above what it and their additions made it, as long as
    those additions keep the edge behind the child.  False is returned in
    three cases only: the edge was not behind, the leak came up, or other
    threads have raised the edge to the child's count during failed
    attempts. *)
Theorem maybeCatchUpEdgeVisits_spec (searchParams : SearchParams.t float)
    (env : list Interference) (rand : Rand) (h : Heap) (node child : addr)
    (nodeState : Z) (bestChildIdx : nat) (c : SearchNode.t) (slot : SearchChildPointer.t) :
  h !! child = Some c ->
  readSlot h node nodeState bestChildIdx = Some slot ->
  let childVisits := visits (SearchNode.stats c) in
  let edgeVisits := SearchChildPointer.edgeVisits slot in
  let leakProb := SearchParams.graphSearchCatchUpLeakProb searchParams in
  (childVisits <= edgeVisits ->
     maybeCatchUpEdgeVisits searchParams env rand h node child nodeState bestChildIdx
     = Some (false, h, rand))
  /\ (forall rand',
        PrimFloat.ltb 0%float leakProb = true -> edgeVisits < childVisits ->
        nextBool rand leakProb = (true, rand') ->
        maybeCatchUpEdgeVisits searchParams env rand h node child nodeState bestChildIdx
        = Some (false, h, rand'))
  /\ (forall h' rand',
        maybeCatchUpEdgeVisits searchParams env rand h node child nodeState bestChildIdx
        = Some (true, h', rand') ->
        exists attempts rest h1 slot1,
          env = attempts ++ rest
          /\ interfereAll attempts h node nodeState bestChildIdx = Some h1
          /\ readSlot h1 node nodeState bestChildIdx = Some slot1
          /\ SearchChildPointer.edgeVisits slot1 < childVisits
          /\ writeSlot h1 node nodeState bestChildIdx
               (SearchChildPointer.addEdgeVisits 1 slot1) = Some h'
          /\ SearchChildPointer.edgeVisits (SearchChildPointer.addEdgeVisits 1 slot1)
             = SearchChildPointer.edgeVisits slot1 + 1)
  /\ (forall updateStatsAfterPlayout playoutDescend bestChildMoveLoc h0 h1 h2 h3 rand2,
        (* existing child: the slot of [node] in [h0] holds [child] *)
        readSlot h0 node nodeState bestChildIdx = Some slot ->
        SearchChildPointer.getIfAllocated slot = Some child ->
        addVirtualLosses child 1 h0 = Some h1 ->
        maybeCatchUpEdgeVisits searchParams env rand h1 node child nodeState bestChildIdx
        = Some (true, h2, rand2) ->
        addVirtualLosses child (-1) (updateStatsAfterPlayout node h2) = Some h3 ->
        playoutDescend_visitChild updateStatsAfterPlayout playoutDescend searchParams env
          rand h0 node nodeState bestChildIdx bestChildMoveLoc None
        = Some (true, h3, rand2, [EvUpdateStatsAfterPlayout node]))
  /\ (forall updateStatsAfterPlayout playoutDescend bestChildMoveLoc h0 h1 h1' h2 h3 rand2
             slot0,
        (* new child: the slot of [node] in [h0] is empty *)
        readSlot h0 node nodeState bestChildIdx = Some slot0 ->
        SearchChildPointer.getIfAllocated slot0 = None ->
        addVirtualLosses child 1 h0 = Some h1 ->
        writeSlot h1 node nodeState bestChildIdx
          (SearchChildPointer.store (Some child)
             (SearchChildPointer.setMoveLocRelaxed bestChildMoveLoc slot0)) = Some h1' ->
        maybeCatchUpEdgeVisits searchParams env rand h1' node child nodeState bestChildIdx
        = Some (true, h2, rand2) ->
        addVirtualLosses child (-1) (updateStatsAfterPlayout node h2) = Some h3 ->
        playoutDescend_visitChild updateStatsAfterPlayout playoutDescend searchParams env
          rand h0 node nodeState bestChildIdx bestChildMoveLoc (Some child)
        = Some (true, h3, rand2,
                [EvMakeBoardMove bestChildMoveLoc; EvUpdateStatsAfterPlayout node]))
  /\ (forall attempts quiet rest rand',
        env = attempts ++ quiet :: rest ->
        edgeVisits < childVisits ->
        (PrimFloat.ltb 0%float leakProb = false /\ rand' = rand)
        \/ (PrimFloat.ltb 0%float leakProb = true
            /\ nextBool rand leakProb = (false, rand')) ->
        Forall failing attempts ->
        edgeVisits + addedBy attempts < childVisits ->
        addedByOthers quiet = 0 -> spuriousFailure quiet = false ->
        exists h',
          maybeCatchUpEdgeVisits searchParams env rand h node child nodeState bestChildIdx
          = Some (true, h', rand')
          /\ readSlot h' node nodeState bestChildIdx
             = Some (SearchChildPointer.setEdgeVisits
                       (edgeVisits + addedBy attempts + 1) slot))
  /\ (forall h' rand',
        maybeCatchUpEdgeVisits searchParams env rand h node child nodeState bestChildIdx
        = Some (false, h', rand') ->
        (childVisits <= edgeVisits /\ h' = h /\ rand' = rand)
        \/ (PrimFloat.ltb 0%float leakProb = true /\ edgeVisits < childVisits
            /\ nextBool rand leakProb = (true, rand') /\ h' = h)
        \/ (edgeVisits < childVisits
            /\ exists attempts rest slot',
                 env = attempts ++ rest /\ attempts <> []
                 /\ interfereAll attempts h node nodeState bestChildIdx = Some h'
                 /\ readSlot h' node nodeState bestChildIdx = Some slot'
                 /\ childVisits <= SearchChildPointer.edgeVisits slot')).
Proof.
  intros Hc Hslot childVisits edgeVisits leakProb.
  split; [|split; [|split; [|split; [|split; [|split]]]]].
  6:{ intros attempts quiet rest rand' -> Hlt Hleak Hfail Hadded Hzero Hweak.
      destruct (catchUpLoop_progress quiet rest node nodeState bestChildIdx childVisits
                  attempts Hzero Hweak h slot Hslot Hfail Hadded) as (h' & Hrun & Hread).
      exists h'. split; [|exact Hread].
      unfold maybeCatchUpEdgeVisits. rewrite Hc. simpl. rewrite Hslot. simpl.
      unfold SearchChildPointer.getEdgeVisits. fold childVisits edgeVisits leakProb.
      fold edgeVisits in Hrun. fold childVisits in Hrun.
      rewrite (proj2 (Z.ltb_lt _ _) Hlt).
      destruct Hleak as [[-> ->]|[-> Hdraw]]; simpl.
      - rewrite Hrun. reflexivity.
      - rewrite Hdraw. rewrite Hrun. reflexivity. }
  6:{ intros h' rand' Hres. unfold maybeCatchUpEdgeVisits in Hres.
      rewrite Hc in Hres. simpl in Hres. rewrite Hslot in Hres. simpl in Hres.
      unfold SearchChildPointer.getEdgeVisits in Hres.
      fold childVisits edgeVisits leakProb in Hres.
      destruct (PrimFloat.ltb 0 leakProb && (edgeVisits <? childVisits)%Z) eqn:Hcond.
      - apply andb_true_iff in Hcond as [Hp Hlt]. apply Z.ltb_lt in Hlt.
        destruct (nextBool rand leakProb) as [leak rand1] eqn:Hdraw. destruct leak.
        + injection Hres as <- <-. right. left. auto.
        + destruct (catchUpLoop _ _ _ _ _ _ _) as [[r hr]|] eqn:Hloop; simpl in Hres;
            [|discriminate].
          injection Hres as -> <- <-.
          destruct (catchUpLoop_false _ _ _ _ _ _ _ _ Hloop) as [[Hle _]|Hothers];
            [lia|]. right. right. exact Hothers.
      - destruct (catchUpLoop _ _ _ _ _ _ _) as [[r hr]|] eqn:Hloop; simpl in Hres;
          [|discriminate].
        injection Hres as -> <- <-.
        destruct (catchUpLoop_false _ _ _ _ _ _ _ _ Hloop) as [[Hle ->]|Hothers];
          [left; auto|right; right; exact Hothers]. }
  - intros Hle. unfold maybeCatchUpEdgeVisits. rewrite Hc. simpl. rewrite Hslot. simpl.
    fold childVisits edgeVisits.
    assert (Hlt : (edgeVisits <? childVisits)%Z = false) by (apply Z.ltb_ge; lia).
    unfold SearchChildPointer.getEdgeVisits. fold edgeVisits.
    rewrite Hlt, andb_false_r.
    destruct env; simpl;
      (assert (Hleb : (childVisits <=? edgeVisits)%Z = true) by (apply Z.leb_le; lia));
      rewrite Hleb; reflexivity.
  - intros rand' Hp Hlt Hdraw. unfold maybeCatchUpEdgeVisits.
    rewrite Hc. simpl. rewrite Hslot. simpl.
    unfold SearchChildPointer.getEdgeVisits. fold childVisits edgeVisits leakProb.
    apply Z.ltb_lt in Hlt. rewrite Hp, Hlt. simpl. rewrite Hdraw. reflexivity.
  - intros h' rand' Hres. unfold maybeCatchUpEdgeVisits in Hres.
    rewrite Hc in Hres. simpl in Hres. rewrite Hslot in Hres. simpl in Hres.
    destruct (if _ && _ then _ else _) as [leak rand1]. destruct leak; [discriminate|].
    destruct (catchUpLoop _ _ _ _ _ _ _) as [[r hr]|] eqn:Hloop; simpl in Hres;
      [|discriminate].
    injection Hres as -> <- <-.
    destruct (catchUpLoop_true _ _ _ _ _ _ _ _ Hloop)
      as (attempts & rest & h1 & slot1 & Henv & _ & Hall & Hs1 & Hlt & Hw).
    exists attempts, rest, h1, slot1. repeat split; assumption.
  - intros updateStatsAfterPlayout playoutDescend bestChildMoveLoc h0 h1 h2 h3 rand2
      Hs0 Hchild Hvl Hcatch Hvl'.
    unfold playoutDescend_visitChild. rewrite Hs0. simpl. rewrite Hchild. simpl.
    rewrite Hvl. simpl. rewrite Hcatch. simpl. rewrite Hvl'. reflexivity.
  - intros updateStatsAfterPlayout playoutDescend bestChildMoveLoc h0 h1 h1' h2 h3 rand2
      slot0 Hs0 Hempty Hvl Hw Hcatch Hvl'.
    unfold playoutDescend_visitChild. rewrite Hs0. simpl. rewrite Hvl. simpl.
    rewrite Hempty. rewrite Hw. simpl. rewrite Hcatch. simpl. rewrite Hvl'. reflexivity.
Qed.

End CatchUpFacts.

(** A counted loop returns when every iteration does. *)
Lemma for_loopM_total {S : Type} (I : nat -> S -> Prop) (n : nat)
    (body : nat -> S -> option S) (s : S) :
  I 0%nat s ->
  (forall i s1, (i < n)%nat -> I i s1 ->
     exists s2, body i s1 = Some s2 /\ I (Datatypes.S i) s2) ->
  exists s', for_loopM n body s = Some s' /\ I n s'.
Proof.
  intros H0 Hstep. induction n as [|k IH]; simpl.
  - now exists s.
  - destruct IH as (s1 & -> & H1); [intros i s1 Hi; apply Hstep; lia|].
    simpl. apply Hstep; [lia|exact H1].
Qed.

(** ** The search handle: clearing *)

Section ClearFacts.
Context `{NodeConstants} `{RandOps} `{GameOps}.

(** Iterations [start], ..., [start + len - 1] of a loop over the shards. *)
Definition loopFrom (start len : nat) (body : nat -> Search -> option Search) (s : Search)
  : option Search :=
  for_loopM len (fun k s => body (start + k)%nat s) s.

Lemma loopFrom_app (start l1 l2 : nat) (body : nat -> Search -> option Search) (s : Search) :
  loopFrom start (l1 + l2) body s
  = s1 ← loopFrom start l1 body s; loopFrom (start + l1) l2 body s1.
Proof.
  unfold loopFrom. induction l2 as [|k IH]; simpl.
  - rewrite Nat.add_0_r. destruct (for_loopM l1 _ s); reflexivity.
  - rewrite Nat.add_succ_r. simpl. rewrite IH.
    destruct (for_loopM l1 _ s) as [s1|]; simpl; [|reflexivity].
    destruct (for_loopM k _ s1) as [s2|]; simpl; [|reflexivity].
    now rewrite Nat.add_assoc.
Qed.

Lemma for_loopM_invariant {S : Type} (P : S -> Prop) (n : nat)
    (body : nat -> S -> option S) (s s' : S) :
  (forall i s1 s2, P s1 -> body i s1 = Some s2 -> P s2) ->
  P s -> for_loopM n body s = Some s' -> P s'.
Proof.
  intros Hbody Hs. revert s'. induction n as [|k IH]; intros s' Hrun; simpl in Hrun.
  - now injection Hrun as <-.
  - destruct (for_loopM k body s) as [s1|]; simpl in Hrun; [|discriminate].
    eapply Hbody; [|eassumption]. now apply IH.
Qed.

Lemma runTasks_invariant (P : Search -> Prop) (task : Z -> Search -> option Search)
    (idxs : list Z) (s s' : Search) :
  (forall t s1 s2, P s1 -> task t s1 = Some s2 -> P s2) ->
  P s -> runTasks task idxs s = Some s' -> P s'.
Proof.
  intros Htask. revert s. induction idxs as [|t idxs IH]; intros s Hs Hrun; simpl in Hrun.
  - now injection Hrun as <-.
  - destruct (task t s) as [s1|] eqn:Ht; simpl in Hrun; [|discriminate].
    eapply IH; [|eassumption]. eapply Htask; eassumption.
Qed.

(** What stays fixed while tasks run on the shards: the parameters and the
    number of shards. *)
Definition sameShape (s0 s : Search) : Prop :=
  searchParams s = searchParams s0 /\ length (nodeTable s) = length (nodeTable s0).

Lemma sameShape_refl (s : Search) : sameShape s s.
Proof. split; reflexivity. Qed.

Lemma sameShape_trans (s0 s1 s2 : Search) :
  sameShape s0 s1 -> sameShape s1 s2 -> sameShape s0 s2.
Proof. intros [? ?] [? ?]. split; congruence. Qed.

Lemma spawnThreadsIfNeeded_sameShape (s : Search) : sameShape s (spawnThreadsIfNeeded s).
Proof.
  unfold spawnThreadsIfNeeded. destruct (_ <=? _)%Z; split; reflexivity.
Qed.

(** The boundary of the shards of thread [t] among [n + 1] threads. *)
Definition shardBound (size n t : Z) : Z := t * size / (n + 1).

Lemma shardBound_mono (size n t : Z) :
  0 <= size -> 0 <= n -> 0 <= t -> shardBound size n t <= shardBound size n (t + 1).
Proof.
  intros. unfold shardBound. apply Z.div_le_mono; [lia|nia].
Qed.

Lemma shardBound_0 (size n : Z) : shardBound size n 0 = 0.
Proof. unfold shardBound. reflexivity. Qed.

Lemma shardBound_last (size n : Z) : 0 <= n -> shardBound size n (n + 1) = size.
Proof.
  intros. unfold shardBound. rewrite Z.mul_comm. apply Z.div_mul. lia.
Qed.

Lemma shardBound_nonneg (size n t : Z) :
  0 <= size -> 0 <= n -> 0 <= t -> 0 <= shardBound size n t.
Proof. intros. unfold shardBound. apply Z.div_pos; lia. Qed.

Lemma shardRange_bounds (s : Search) (t : Z) :
  let n := numAdditionalThreadsToUseForTasks s in
  let size := Z.of_nat (length (nodeTable s)) in
  0 <= n -> n + 1 < 2 ^ 31 -> size < 2 ^ 32 -> 0 <= t <= n ->
  shardRange s t = Some (shardBound size n t, shardBound size n (t + 1)).
Proof.
  intros n size Hn Hn' Hsize Ht. unfold shardRange, to_uint64. fold n size.
  assert (Hsz : 0 <= size) by (unfold size; lia).
  assert (H31 : 2 ^ 31 * 2 ^ 32 < 2 ^ 64) by reflexivity.
  rewrite (Z.mod_small (n + 1)) by lia.
  assert (Hne : (n + 1 =? 0) = false) by (apply Z.eqb_neq; lia).
  rewrite Hne. simpl.
  rewrite (Z.mod_small t), (Z.mod_small (t + 1)) by lia.
  rewrite (Z.mod_small (t * size)), (Z.mod_small ((t + 1) * size)) by nia.
  reflexivity.
Qed.

(** With thread counts and shard counts in the range of their C++ types,
    the tasks of threads 0, ..., n together run the body once on every
    shard, in increasing order. *)
Lemma sharded_tasks (body : nat -> Search -> option Search) (s : Search) :
  let n := numAdditionalThreadsToUseForTasks s in
  0 <= n -> n + 1 < 2 ^ 31 -> Z.of_nat (length (nodeTable s)) < 2 ^ 32 ->
  (forall i s1 s2, body i s1 = Some s2 -> sameShape s1 s2) ->
  performTaskWithThreads
    (fun threadIdx s =>
       '(idx0, idx1) ← shardRange s threadIdx;
       forShards idx0 idx1 body s)
    s
  = loopFrom 0 (length (nodeTable s)) body (spawnThreadsIfNeeded s).
Proof.
  intros n Hn Hn' Hsize Hbody.
  set (size := Z.of_nat (length (nodeTable s))) in *.
  set (task := fun threadIdx s => '(idx0, idx1) ← shardRange s threadIdx;
                                   forShards idx0 idx1 body s).
  set (s0 := spawnThreadsIfNeeded s).
  assert (Hshape0 : sameShape s s0) by apply spawnThreadsIfNeeded_sameShape.
  assert (Hloop : forall start len s1 s2, sameShape s s1 ->
            loopFrom start len body s1 = Some s2 -> sameShape s s2).
  { intros start len s1 s2 Hs1 Hrun. unfold loopFrom in Hrun.
    eapply (for_loopM_invariant (sameShape s)); [|exact Hs1|exact Hrun].
    intros i sa sb Hsa Hb. cbv beta in Hb.
    eapply sameShape_trans; [exact Hsa|]. eapply Hbody; exact Hb. }
  assert (Htask : forall t s1, sameShape s s1 -> 0 <= t <= n ->
            task t s1 = loopFrom (Z.to_nat (shardBound size n t))
                          (Z.to_nat (shardBound size n (t + 1) - shardBound size n t))
                          body s1).
  { intros t s1 [Hp Hl] Ht. unfold task.
    pose proof (shardRange_bounds s1 t) as Hr. simpl in Hr.
    unfold numAdditionalThreadsToUseForTasks in Hr. rewrite Hp, Hl in Hr.
    rewrite Hr by (unfold n, numAdditionalThreadsToUseForTasks in *; fold size; lia).
    reflexivity. }
  assert (Hrun : forall count from s1, sameShape s s1 -> 0 <= from ->
            from + Z.of_nat count <= n + 1 ->
            runTasks task (threadIndices from count) s1
            = loopFrom (Z.to_nat (shardBound size n from))
                (Z.to_nat (shardBound size n (from + Z.of_nat count) - shardBound size n from))
                body s1).
  { induction count as [|count IH]; intros from s1 Hs1 Hfrom Hle; simpl.
    - rewrite Z.add_0_r, Z.sub_diag. reflexivity.
    - rewrite Htask by (try assumption; lia).
      pose proof (shardBound_mono size n from ltac:(unfold size; lia) Hn Hfrom) as Hm1.
      assert (Hm2 : shardBound size n (from + 1)
                    <= shardBound size n (from + Z.of_nat (Datatypes.S count))).
      { unfold shardBound. apply Z.div_le_mono; [lia|]. unfold size. nia. }
      pose proof (shardBound_nonneg size n from ltac:(unfold size; lia) Hn Hfrom) as Hnn.
      replace (Z.to_nat (shardBound size n (from + Z.of_nat (Datatypes.S count))
                         - shardBound size n from))
        with (Z.to_nat (shardBound size n (from + 1) - shardBound size n from)
              + Z.to_nat (shardBound size n (from + Z.of_nat (Datatypes.S count))
                          - shardBound size n (from + 1)))%nat by lia.
      rewrite loopFrom_app.
      destruct (loopFrom _ _ body s1) as [s2|] eqn:Hfirst; simpl; [|reflexivity].
      rewrite IH; [|eapply Hloop; eassumption|lia|lia].
      replace (from + 1 + Z.of_nat count) with (from + Z.of_nat (Datatypes.S count)) by lia.
      f_equal. lia. }
  unfold performTaskWithThreads. fold s0.
  assert (Hn0 : numAdditionalThreadsToUseForTasks s0 = n).
  { unfold numAdditionalThreadsToUseForTasks. destruct Hshape0 as [-> _]. reflexivity. }
  assert (Hlen0 : length (nodeTable s0) = length (nodeTable s)) by apply Hshape0.
  rewrite Hn0.
  assert (Hall : loopFrom 0 (length (nodeTable s)) body s0
                 = loopFrom (Z.to_nat (shardBound size n 0))
                     (Z.to_nat (shardBound size n (n + 1) - shardBound size n 0)) body s0).
  { rewrite shardBound_0, shardBound_last by assumption.
    f_equal. unfold size. lia. }
  rewrite Hall.
  destruct (n <=? 0) eqn:E.
  - apply Z.leb_le in E. assert (n = 0) as Hz by lia.
    rewrite Htask by (try assumption; lia). rewrite Hz. reflexivity.
  - assert (Hassert : (n <=? numThreadsSpawned s0) = true).
    { apply Z.leb_le. unfold s0, spawnThreadsIfNeeded.
      fold n. destruct (n <=? numThreadsSpawned s) eqn:E'; [now apply Z.leb_le|].
      simpl. lia. }
    rewrite Hassert.
    change (assert true ≫= _)
      with (runTasks task (threadIndices 0 (Datatypes.S (Z.to_nat n))) s0).
    assert (Hcount : Z.of_nat (Datatypes.S (Z.to_nat n)) = n + 1)
      by (rewrite Nat2Z.inj_succ, Z2Nat.id by exact Hn; reflexivity).
    rewrite (Hrun (Datatypes.S (Z.to_nat n)) 0 s0 Hshape0 (Z.le_refl 0))
      by (rewrite Hcount; apply Z.le_refl).
    rewrite Hcount. reflexivity.
Qed.

Lemma performTaskWithThreads_invariant (P : Search -> Prop)
    (task : Z -> Search -> option Search) (s s' : Search) :
  P (spawnThreadsIfNeeded s) ->
  (forall t s1 s2, P s1 -> task t s1 = Some s2 -> P s2) ->
  performTaskWithThreads task s = Some s' -> P s'.
Proof.
  intros Hs Htask Hrun. unfold performTaskWithThreads in Hrun. cbv zeta in Hrun.
  destruct (_ <=? 0)%Z.
  - exact (Htask _ _ _ Hs Hrun).
  - destruct (assert _); simpl in Hrun; [|discriminate].
    exact (runTasks_invariant P task
             (threadIndices 0
                (Datatypes.S (Z.to_nat (numAdditionalThreadsToUseForTasks
                                          (spawnThreadsIfNeeded s)))))
             _ _ Htask Hs Hrun).
Qed.

(** A handle that differs from [s] in the tree and its bookkeeping only:
    node table, memory, root pointer, cleanup list, carried-over time, node
    age and the size of the thread pool. *)
Definition withTree (s : Search) (age : Z) (time : float) (root : option addr)
    (tbl : list (list (Hash128 * addr))) (pool : Z) (cleanup : list nat) (hp : Heap)
  : Search :=
  mkSearch (rootPla s) (rootBoard s) (rootHistory s) (rootHintLoc s)
    (avoidMoveUntilByLocBlack s) (avoidMoveUntilByLocWhite s) (searchParams s)
    age (plaThatSearchIsFor s) time (rootKoHashTable s) root tbl (nonSearchRand s)
    (subtreeValueBiasEntries s) pool cleanup hp.

Lemma withTree_id (s : Search) :
  s = withTree s (searchNodeAge s) (effectiveSearchTimeCarriedOver s) (rootNode s)
        (nodeTable s) (numThreadsSpawned s) (oldNNOutputsToCleanUp s) (heap s).
Proof. destruct s; reflexivity. Qed.

(** The body of the loop of [deleteAllTableNodesMulithreaded] for shard [i]. *)
Definition clearShard (i : nat) (s : Search) : option Search :=
  nodeMap ← nodeTable s !! i;
  let h := foldl (fun h (e : Hash128 * addr) => delete e.2 h) (heap s) nodeMap in
  Some (set_nodeTable (<[i := []]> (nodeTable s)) (set_heap h s)).

Lemma deleteAllTableNodesMulithreaded_unfold (s : Search) :
  deleteAllTableNodesMulithreaded s
  = (_ ← assert (0 <=? numAdditionalThreadsToUseForTasks s)%Z;
     performTaskWithThreads
       (fun threadIdx s =>
          '(idx0, idx1) ← shardRange s threadIdx;
          forShards idx0 idx1 clearShard s)
       s).
Proof. reflexivity. Qed.

(** [s1] differs from [s0] in node table, memory and pool size only, and
    has as many shards. *)
Definition tableChanged (s0 s1 : Search) : Prop :=
  exists tbl hp pool,
    s1 = withTree s0 (searchNodeAge s0) (effectiveSearchTimeCarriedOver s0) (rootNode s0)
           tbl pool (oldNNOutputsToCleanUp s0) hp
    /\ length tbl = length (nodeTable s0).

Lemma tableChanged_spawn (s : Search) : tableChanged s (spawnThreadsIfNeeded s).
Proof.
  unfold spawnThreadsIfNeeded. destruct (_ <=? _)%Z.
  - exists (nodeTable s), (heap s), (numThreadsSpawned s).
    split; [apply withTree_id|reflexivity].
  - eexists (nodeTable s), (heap s), _. split; [|reflexivity].
    destruct s; reflexivity.
Qed.

Lemma clearShard_shape (s0 : Search) (i : nat) (s1 s2 : Search) :
  tableChanged s0 s1 -> clearShard i s1 = Some s2 -> tableChanged s0 s2.
Proof.
  intros (tbl & hp & pool & -> & Hlen) Hrun. unfold clearShard in Hrun. simpl in Hrun.
  destruct (tbl !! i) as [nodeMap|]; simpl in Hrun; [|discriminate].
  injection Hrun as <-. eexists _, _, pool. split; [reflexivity|].
  now rewrite length_insert.
Qed.

Lemma forShards_invariant (P : Search -> Prop) (idx0 idx1 : Z)
    (body : nat -> Search -> option Search) (s s' : Search) :
  (forall i s1 s2, P s1 -> body i s1 = Some s2 -> P s2) ->
  P s -> forShards idx0 idx1 body s = Some s' -> P s'.
Proof.
  intros Hbody Hs Hrun. unfold forShards in Hrun.
  eapply (for_loopM_invariant P); [|exact Hs|exact Hrun].
  intros i s1 s2 Hs1 Hb. exact (Hbody _ _ _ Hs1 Hb).
Qed.

Lemma deleteAllTableNodesMulithreaded_shape (s s' : Search) :
  deleteAllTableNodesMulithreaded s = Some s' -> tableChanged s s'.
Proof.
  rewrite deleteAllTableNodesMulithreaded_unfold.
  destruct (assert _); simpl; [|discriminate].
  intros Hrun.
  eapply (performTaskWithThreads_invariant (tableChanged s)); [| |exact Hrun].
  - apply tableChanged_spawn.
  - intros t s1 s2 Hs1 Htask. cbv beta in Htask.
    destruct (shardRange s1 t) as [[idx0 idx1]|]; simpl in Htask; [|discriminate].
    eapply (forShards_invariant (tableChanged s)); [|exact Hs1|exact Htask].
    intros i sa sb. apply clearShard_shape.
Qed.

(** The loop over all shards empties every shard. *)
Lemma clearShards_all (k : nat) (s : Search) :
  (k <= length (nodeTable s))%nat ->
  exists s',
    loopFrom 0 k clearShard s = Some s'
    /\ length (nodeTable s') = length (nodeTable s)
    /\ (forall i, (i < k)%nat -> nodeTable s' !! i = Some []).
Proof.
  unfold loopFrom. induction k as [|k IH]; intros Hk.
  - exists s. split; [reflexivity|split; [reflexivity|intros; lia]].
  - destruct IH as (s1 & Hrun & Hlen & Hempty); [lia|].
    cbn [for_loopM]. rewrite Hrun. simpl. unfold clearShard.
    destruct (lookup_lt_is_Some_2 (nodeTable s1) k) as [nodeMap Hm]; [lia|].
    rewrite Hm. simpl. eexists. split; [reflexivity|]. simpl. split.
    + now rewrite length_insert.
    + intros i Hi. destruct (Nat.eq_dec i k) as [->|Hne].
      * apply list_lookup_insert_eq. lia.
      * rewrite list_lookup_insert_ne by congruence. apply Hempty. lia.
Qed.

Lemma clearShard_sameShape (i : nat) (s1 s2 : Search) :
  clearShard i s1 = Some s2 -> sameShape s1 s2.
Proof.
  unfold clearShard. destruct (nodeTable s1 !! i); simpl; [|discriminate].
  intros [= <-]. split; simpl; [reflexivity|now rewrite length_insert].
Qed.

Lemma deleteAllTableNodesMulithreaded_empties (s : Search) :
  1 <= SearchParams.numThreads (searchParams s) < 2 ^ 31 ->
  Z.of_nat (length (nodeTable s)) < 2 ^ 32 ->
  exists s',
    deleteAllTableNodesMulithreaded s = Some s'
    /\ Forall (fun shard => shard = []) (nodeTable s').
Proof.
  intros Hthreads Hsize. rewrite deleteAllTableNodesMulithreaded_unfold.
  assert (Hn : 0 <= numAdditionalThreadsToUseForTasks s)
    by (unfold numAdditionalThreadsToUseForTasks; lia).
  assert (Hassert : (0 <=? numAdditionalThreadsToUseForTasks s) = true)
    by now apply Z.leb_le.
  rewrite Hassert. simpl.
  rewrite sharded_tasks;
    [|exact Hn|unfold numAdditionalThreadsToUseForTasks; lia|exact Hsize
     |apply clearShard_sameShape].
  pose proof (spawnThreadsIfNeeded_sameShape s) as [_ Hlen0].
  destruct (clearShards_all (length (nodeTable s)) (spawnThreadsIfNeeded s))
    as (s' & Hrun & Hlen & Hempty); [lia|].
  exists s'. split; [exact Hrun|].
  apply Forall_lookup_2. intros i shard Hi.
  assert (Hlt : (i < length (nodeTable s))%nat).
  { rewrite <- Hlen0, <- Hlen. apply lookup_lt_is_Some. eauto. }
  rewrite (Hempty i Hlt) in Hi. congruence.
Qed.

(** The effect of [clearSearch] on the handle. *)
Lemma clearSearch_shape (s s' : Search) :
  clearSearch s = Some s' ->
  exists tbl hp pool,
    s' = withTree s 0 0%float None tbl pool [] hp
    /\ length tbl = length (nodeTable s).
Proof.
  unfold clearSearch. intros Hrun.
  destruct (deleteAllTableNodesMulithreaded _) as [s1|] eqn:Hdel; simpl in Hrun;
    [|discriminate].
  destruct (deleteAllTableNodesMulithreaded_shape _ _ Hdel) as (tbl & hp & pool & -> & Hlen).
  simpl in *. injection Hrun as <-.
  destruct (rootNode s); eexists tbl, _, pool; (split; [reflexivity|exact Hlen]).
Qed.

Lemma clearSearch_empties (s : Search) :
  1 <= SearchParams.numThreads (searchParams s) < 2 ^ 31 ->
  Z.of_nat (length (nodeTable s)) < 2 ^ 32 ->
  exists s',
    clearSearch s = Some s' /\ Forall (fun shard => shard = []) (nodeTable s').
Proof.
  intros Hthreads Hsize. unfold clearSearch.
  destruct (deleteAllTableNodesMulithreaded_empties
              (set_effectiveSearchTimeCarriedOver 0%float s) Hthreads Hsize)
    as (s1 & Hdel & Hempty).
  rewrite Hdel. simpl. eexists. split; [reflexivity|].
  destruct (rootNode s1); exact Hempty.
Qed.

(** [clearSearch] does not return when the thread count is not positive. *)
Lemma clearSearch_needs_threads (s s' : Search) :
  clearSearch s = Some s' -> 1 <= SearchParams.numThreads (searchParams s).
Proof.
  unfold clearSearch. rewrite deleteAllTableNodesMulithreaded_unfold.
  unfold numAdditionalThreadsToUseForTasks. simpl.
  destruct (0 <=? _)%Z eqn:E; simpl; [|discriminate].
  intros _. apply Z.leb_le in E. lia.
Qed.

(** C7.  With the thread count and the shard count in the range of their C++
    types ([int], [uint32_t]): when [clearSearch] returns, every shard of the
    node table is empty, [rootNode] is null, the cleanup list of old
    evaluator outputs is empty, [effectiveSearchTimeCarriedOver] is 0 and
    [searchNodeAge] is 0; and it does return whenever there is at least one
    thread. *)
Theorem clearSearch_clears (s : Search) :
  SearchParams.numThreads (searchParams s) < 2 ^ 31 ->
  Z.of_nat (length (nodeTable s)) < 2 ^ 32 ->
  (1 <= SearchParams.numThreads (searchParams s) -> exists s', clearSearch s = Some s')
  /\ (forall s',
        clearSearch s = Some s' ->
        Forall (fun shard => shard = []) (nodeTable s')
        /\ length (nodeTable s') = length (nodeTable s)
        /\ rootNode s' = None
        /\ oldNNOutputsToCleanUp s' = []
        /\ effectiveSearchTimeCarriedOver s' = 0%float
        /\ searchNodeAge s' = 0).
Proof.
  intros Hthreads Hsize. split.
  - intros Hone. destruct (clearSearch_empties s) as (s' & Hrun & _); [lia|exact Hsize|].
    eauto.
  - intros s' Hrun.
    pose proof (clearSearch_needs_threads _ _ Hrun) as Hone.
    destruct (clearSearch_empties s) as (s1 & Hrun1 & Hempty); [lia|exact Hsize|].
    rewrite Hrun in Hrun1. injection Hrun1 as <-.
    destruct (clearSearch_shape _ _ Hrun) as (tbl & hp & pool & -> & Hlen).
    simpl in *. repeat split; assumption.
Qed.

(** C10.  [clearSearch] leaves the installed position and the configuration
    as they are: root board, root history (and with it the komi), root
    player, search parameters, hint location and both avoid-move lists, and
    also the player the search is for, the ko hash table, the generator and
    the subtree-value-bias entries.  What it changes is the node table, the
    nodes in memory, [rootNode], the cleanup list,
    [effectiveSearchTimeCarriedOver], [searchNodeAge] (and the thread pool,
    which it may have to spawn). *)
Theorem clearSearch_frame (s s' : Search) :
  clearSearch s = Some s' ->
  rootBoard s' = rootBoard s
  /\ rootHistory s' = rootHistory s
  /\ rootPla s' = rootPla s
  /\ Hist_komi (rootHistory s') = Hist_komi (rootHistory s)
  /\ searchParams s' = searchParams s
  /\ rootHintLoc s' = rootHintLoc s
  /\ avoidMoveUntilByLocBlack s' = avoidMoveUntilByLocBlack s
  /\ avoidMoveUntilByLocWhite s' = avoidMoveUntilByLocWhite s
  /\ plaThatSearchIsFor s' = plaThatSearchIsFor s
  /\ rootKoHashTable s' = rootKoHashTable s
  /\ nonSearchRand s' = nonSearchRand s
  /\ subtreeValueBiasEntries s' = subtreeValueBiasEntries s
  /\ exists tbl hp pool, s' = withTree s 0 0%float None tbl pool [] hp.
Proof.
  intros Hrun.
  destruct (clearSearch_shape _ _ Hrun) as (tbl & hp & pool & -> & Hlen).
  simpl. repeat split; try reflexivity. eauto.
Qed.

End ClearFacts.

(** ** The time-limit recomputation of worker 0 *)

Section WorkerLoopFacts.

(** A search with a time cap of 10 seconds, no time control, not pondering. *)
Definition tenSecondSearch : LoopParams :=
  mkLoopParams 0 false false true 1000 1000 10%float 1.

Definition freshShared : SharedVars := mkShared 0 1e30%float 1e30%float false.

(** Two iterations of worker 0 whose timer readings are 0.25 s and 0.28125 s. *)
Definition twoQuickIterations : list IterationInput :=
  [mkIteration 0.25%float false 0 true; mkIteration 0.28125%float false 0 true].

(** C8 (a defect of the code).  [lastTimeUsedRecomputingTcLimit] is
    initialised to 0 and never assigned, so from 0.1 s on worker 0 recomputes
    the limit in every iteration: here at 0.25 s and again at 0.28125 s, which
    the rate limit of 10 recomputations per second ("Cap of 10 times per
    second" in the source) excludes. *)
Theorem searchLoop_recomputes_every_iteration :
  forall recomputeSearchTimeLimit computeUpperBoundVisitsLeftDueToTime,
    recomputedAt
      (searchLoopWorker recomputeSearchTimeLimit computeUpperBoundVisitsLeftDueToTime
         twoQuickIterations tenSecondSearch freshShared)
    = [0.25%float; 0.28125%float]
    /\ spacedByTenth [0.25%float; 0.28125%float] = false.
Proof. intros. split; reflexivity. Qed.

End WorkerLoopFacts.

(** ** The search handle: advancing by a move *)

Section MakeMoveFacts.
Context `{NodeConstants} `{RandOps} `{GameOps}.

(** The three phases of [makeMove] after the legality check: the tree (reuse
    or clear), and the move on the root position with the clears that may
    follow it. *)
Definition treePhase (fuel : nat) (moveLoc : Loc) (s : Search) : option Search :=
  match rootNode s with
  | Some root =>
      rn ← heap s !! root;
      let '(children, childrenCapacity) :=
        SearchNode.getChildren rn (SearchNode.state rn) in
      foundChildIdx ← findChildLoop children moveLoc childrenCapacity 0 None;
      foundChildIdx ←
        match foundChildIdx with
        | Some i =>
            arr ← children;
            slot ← arr !! i;
            child ← SearchChildPointer.getIfAllocated slot;
            cn ← heap s !! child;
            match SearchNode.nnOutput cn with
            | None => Some None
            | Some _ => Some (Some i)
            end
        | None => Some None
        end;
      match foundChildIdx with
      | Some i => promoteChild fuel rn children i s
      | None => clearSearch s
      end
  | None => Some s
  end.

(** The handle after the move is played on the root position and the
    avoid-move lists are cleared. *)
Definition movedPosition (moveLoc : Loc) (preventEncore : bool) (s : Search) : Search :=
  let '(hist, board) :=
    Hist_makeBoardMoveAssumeLegal (rootHistory s) (rootBoard s) moveLoc (rootPla s)
      (rootKoHashTable s) preventEncore in
  let s := set_rootBoard board (set_rootHistory hist s) in
  let s := set_rootPla (getOpp (rootPla s)) s in
  let s := set_rootKoHashTable (KoHashTable_recompute (rootKoHashTable s) (rootHistory s)) s in
  let s := set_avoidMoveUntilByLocBlack [] s in
  set_avoidMoveUntilByLocWhite [] s.

(** The conditions under which [makeMove] clears the search after the move. *)
Definition handicapBonusChanged (moveLoc : Loc) (preventEncore : bool) (s : Search) : bool :=
  negb (PrimFloat.eqb
          (Hist_whiteHandicapBonusScore (rootHistory (movedPosition moveLoc preventEncore s)))
          (Hist_whiteHandicapBonusScore (rootHistory s))).

Definition conservativePassClears (s' : Search) : bool :=
  SearchParams.conservativePass (searchParams s')
  && Hist_passWouldEndGame (rootHistory s') (rootBoard s') (rootPla s').

Definition preventEncoreClears (preventEncore : bool) (s' : Search) : bool :=
  preventEncore && Hist_passWouldEndPhase (rootHistory s') (rootBoard s') (rootPla s').

Definition clearsAfterMove (moveLoc : Loc) (preventEncore : bool) (s : Search) : bool :=
  let s' := movedPosition moveLoc preventEncore s in
  handicapBonusChanged moveLoc preventEncore s
  || conservativePassClears s' || preventEncoreClears preventEncore s'.

Definition movePhase (moveLoc : Loc) (preventEncore : bool) (s : Search)
  : option (bool * Search) :=
  let s0 := s in
  let s := movedPosition moveLoc preventEncore s in
  s ← (if handicapBonusChanged moveLoc preventEncore s0 then clearSearch s else Some s);
  s ← (if conservativePassClears s then clearSearch s else Some s);
  s ← (if preventEncoreClears preventEncore s then clearSearch s else Some s);
  Some (true, s).

Lemma makeMove_phases (fuel : nat) (moveLoc : Loc) (movePla : Player)
    (preventEncore : bool) (s : Search) :
  makeMove fuel moveLoc movePla preventEncore s
  = if negb (isLegalTolerant s moveLoc movePla) then Some (false, s)
    else
      s ← (if negb (bool_decide (movePla = rootPla s))
           then setPlayerAndClearHistory movePla s else Some s);
      s ← treePhase fuel moveLoc s;
      movePhase moveLoc preventEncore s.
Proof.
  unfold makeMove, treePhase, movePhase, handicapBonusChanged, conservativePassClears,
    preventEncoreClears, movedPosition.
  destruct (negb (isLegalTolerant s moveLoc movePla)); [reflexivity|].
  destruct (if negb (bool_decide (movePla = rootPla s)) then _ else _) as [s1|];
    [|reflexivity].
  simpl.
  match goal with |- (?a ≫= _) = (?b ≫= _) => change b with a; destruct a as [s2|] end;
    [|reflexivity].
  simpl.
  destruct (Hist_makeBoardMoveAssumeLegal _ _ _ _ _ _) as [hist board]. reflexivity.
Qed.

(** The installed position and configuration, and the number of shards. *)
Definition sameSetup (s s' : Search) : Prop :=
  rootPla s' = rootPla s /\ rootBoard s' = rootBoard s /\ rootHistory s' = rootHistory s
  /\ rootHintLoc s' = rootHintLoc s
  /\ avoidMoveUntilByLocBlack s' = avoidMoveUntilByLocBlack s
  /\ avoidMoveUntilByLocWhite s' = avoidMoveUntilByLocWhite s
  /\ searchParams s' = searchParams s
  /\ plaThatSearchIsFor s' = plaThatSearchIsFor s
  /\ rootKoHashTable s' = rootKoHashTable s
  /\ length (nodeTable s') = length (nodeTable s).

Lemma sameSetup_refl (s : Search) : sameSetup s s.
Proof. repeat split. Qed.

Lemma sameSetup_trans (s0 s1 s2 : Search) :
  sameSetup s0 s1 -> sameSetup s1 s2 -> sameSetup s0 s2.
Proof.
  unfold sameSetup. intros (?&?&?&?&?&?&?&?&?&?) (?&?&?&?&?&?&?&?&?&?).
  repeat split; congruence.
Qed.


Lemma clearSearch_sameSetup (s s' : Search) : clearSearch s = Some s' -> sameSetup s s'.
Proof.
  intros Hrun. destruct (clearSearch_shape _ _ Hrun) as (tbl & hp & pool & -> & Hlen).
  repeat split; simpl; try reflexivity. exact Hlen.
Qed.











(** The move phase: it returns true, with both avoid-move lists empty. *)
Lemma movePhase_spec (moveLoc : Loc) (preventEncore : bool) (s s' : Search) (b : bool) :
  movePhase moveLoc preventEncore s = Some (b, s') ->
  b = true
  /\ sameSetup (movedPosition moveLoc preventEncore s) s'
  /\ (clearsAfterMove moveLoc preventEncore s = false ->
      s' = movedPosition moveLoc preventEncore s)
  /\ (clearsAfterMove moveLoc preventEncore s = true ->
      exists s1 s2, sameSetup (movedPosition moveLoc preventEncore s) s1
                    /\ clearSearch s1 = Some s2
                    /\ (s' = s2 \/ clearSearch s2 = Some s'
                        \/ exists s3, clearSearch s2 = Some s3 /\ clearSearch s3 = Some s')).
Proof.
  unfold movePhase, clearsAfterMove.
  set (m := movedPosition moveLoc preventEncore s).
  intros Hrun.
  destruct (handicapBonusChanged moveLoc preventEncore s) eqn:E1.
  - destruct (clearSearch m) as [s1|] eqn:Hc1; simpl in Hrun; [|discriminate].
    pose proof (clearSearch_sameSetup _ _ Hc1) as Hs1.
    destruct (conservativePassClears s1) eqn:E2.
    + destruct (clearSearch s1) as [s2|] eqn:Hc2; simpl in Hrun; [|discriminate].
      pose proof (clearSearch_sameSetup _ _ Hc2) as Hs2.
      destruct (preventEncoreClears preventEncore s2) eqn:E3.
      * destruct (clearSearch s2) as [s3|] eqn:Hc3; simpl in Hrun; [|discriminate].
        pose proof (clearSearch_sameSetup _ _ Hc3) as Hs3.
        injection Hrun as <- <-.
        split; [reflexivity|]. split; [|split; [discriminate|]].
        -- eapply sameSetup_trans; [exact Hs1|]. eapply sameSetup_trans; eassumption.
        -- intros _. exists m, s1. split; [apply sameSetup_refl|]. split; [exact Hc1|].
           right. right. eauto.
      * simpl in Hrun. injection Hrun as <- <-.
        split; [reflexivity|]. split; [|split; [discriminate|]].
        -- eapply sameSetup_trans; eassumption.
        -- intros _. exists m, s1. split; [apply sameSetup_refl|]. split; [exact Hc1|].
           right. left. exact Hc2.
    + simpl in Hrun. destruct (preventEncoreClears preventEncore s1) eqn:E3.
      * destruct (clearSearch s1) as [s3|] eqn:Hc3; simpl in Hrun; [|discriminate].
        pose proof (clearSearch_sameSetup _ _ Hc3) as Hs3.
        injection Hrun as <- <-.
        split; [reflexivity|]. split; [|split; [discriminate|]].
        -- eapply sameSetup_trans; eassumption.
        -- intros _. exists m, s1. split; [apply sameSetup_refl|]. split; [exact Hc1|].
           right. left. exact Hc3.
      * simpl in Hrun. injection Hrun as <- <-.
        split; [reflexivity|]. split; [exact Hs1|split; [discriminate|]].
        intros _. exists m, s1. split; [apply sameSetup_refl|]. split; [exact Hc1|].
        left. reflexivity.
  - simpl in Hrun. destruct (conservativePassClears m) eqn:E2.
    + destruct (clearSearch m) as [s2|] eqn:Hc2; simpl in Hrun; [|discriminate].
      pose proof (clearSearch_sameSetup _ _ Hc2) as Hs2.
      destruct (preventEncoreClears preventEncore s2) eqn:E3.
      * destruct (clearSearch s2) as [s3|] eqn:Hc3; simpl in Hrun; [|discriminate].
        pose proof (clearSearch_sameSetup _ _ Hc3) as Hs3.
        injection Hrun as <- <-.
        split; [reflexivity|]. split; [|split; [discriminate|]].
        -- eapply sameSetup_trans; eassumption.
        -- intros _. exists m, s2. split; [apply sameSetup_refl|]. split; [exact Hc2|].
           right. left. exact Hc3.
      * simpl in Hrun. injection Hrun as <- <-.
        split; [reflexivity|]. split; [exact Hs2|split; [discriminate|]].
        intros _. exists m, s2. split; [apply sameSetup_refl|]. split; [exact Hc2|].
        left. reflexivity.
    + simpl in Hrun. destruct (preventEncoreClears preventEncore m) eqn:E3.
      * destruct (clearSearch m) as [s3|] eqn:Hc3; simpl in Hrun; [|discriminate].
        pose proof (clearSearch_sameSetup _ _ Hc3) as Hs3.
        injection Hrun as <- <-.
        split; [reflexivity|]. split; [exact Hs3|split; [discriminate|]].
        intros _. exists m, s3. split; [apply sameSetup_refl|]. split; [exact Hc3|].
        left. reflexivity.
      * simpl in Hrun. injection Hrun as <- <-.
        split; [reflexivity|]. split; [apply sameSetup_refl|split; [reflexivity|]].
        discriminate.
Qed.

Lemma movedPosition_avoid (moveLoc : Loc) (preventEncore : bool) (s : Search) :
  avoidMoveUntilByLocBlack (movedPosition moveLoc preventEncore s) = []
  /\ avoidMoveUntilByLocWhite (movedPosition moveLoc preventEncore s) = [].
Proof.
  unfold movedPosition. destruct (Hist_makeBoardMoveAssumeLegal _ _ _ _ _ _).
  split; reflexivity.
Qed.

(** C9.  Every call of [makeMove] that returns true leaves both avoid-move
    lists empty, whatever happens to the tree (reused or cleared), and so
    does every call of [setPosition]; and [setPosition] returns, for every
    player, board and history, on a handle with at least one thread and with
    thread and shard counts in the range of their C++ types. *)
Theorem makeMove_clears_avoid_lists (fuel : nat) (moveLoc : Loc) (movePla : Player)
    (preventEncore : bool) (s : Search) :
  (forall s',
     makeMove fuel moveLoc movePla preventEncore s = Some (true, s') ->
     avoidMoveUntilByLocBlack s' = [] /\ avoidMoveUntilByLocWhite s' = [])
  /\ (forall pla board history s',
        setPosition pla board history s = Some s' ->
        avoidMoveUntilByLocBlack s' = [] /\ avoidMoveUntilByLocWhite s' = [])
  /\ (1 <= SearchParams.numThreads (searchParams s) < 2 ^ 31 ->
      Z.of_nat (length (nodeTable s)) < 2 ^ 32 ->
      forall pla board history,
      exists s',
        setPosition pla board history s = Some s'
        /\ avoidMoveUntilByLocBlack s' = [] /\ avoidMoveUntilByLocWhite s' = []
        /\ rootPla s' = pla /\ rootBoard s' = board /\ rootHistory s' = history).
Proof.
  split; [|split].
  3:{ intros Hthreads Hshards pla board history. unfold setPosition.
      destruct (clearSearch_empties s Hthreads Hshards) as (s1 & -> & _). simpl.
      eexists. split; [reflexivity|]. repeat split. }
  - intros s'. rewrite makeMove_phases.
    destruct (negb (isLegalTolerant s moveLoc movePla)); [discriminate|].
    destruct (if negb (bool_decide (movePla = rootPla s)) then _ else _) as [s1|];
      simpl; [|discriminate].
    destruct (treePhase fuel moveLoc s1) as [s2|]; simpl; [|discriminate].
    intros Hmove.
    destruct (movePhase_spec _ _ _ _ _ Hmove) as (_ & Hsame & _).
    destruct (movedPosition_avoid moveLoc preventEncore s2) as [Hb Hw].
    destruct Hsame as (_&_&_&_&Hb'&Hw'&_). split; congruence.
  - intros pla board history s'. unfold setPosition.
    destruct (clearSearch s) as [s1|]; simpl; [|discriminate].
    intros [= <-]. split; reflexivity.
Qed.

End MakeMoveFacts.

(** ** The search handle: marking the nodes to keep *)

Section MarkFacts.
Context `{NodeConstants} `{RandOps}.

(** The child in slot [i] of the current children array of a node, and the
    number of its children (the slots before the first empty one). *)
Definition slotChild (n : SearchNode.t) (i : nat) : option addr :=
  arr ← (SearchNode.getChildren n (SearchNode.state n)).1;
  slot ← arr !! i;
  SearchChildPointer.getIfAllocated slot.

Definition numChildrenOf (n : SearchNode.t) : option nat :=
  SearchNode.iterateAndCountChildrenInArray
    (SearchNode.getChildren n (SearchNode.state n)).1
    (SearchNode.getChildren n (SearchNode.state n)).2.

(** [b] is a child of [a]; [reach]: [b] is [a] or a descendant of [a]. *)
Definition edge (h : Heap) (a b : addr) : Prop :=
  exists n k i,
    h !! a = Some n /\ numChildrenOf n = Some k /\ (i < k)%nat /\ slotChild n i = Some b.

Definition reach (h : Heap) : addr -> addr -> Prop := rtc (edge h).

(** Marked: the node's age is the age of the current walk. *)
Definition marked (age : Z) (h : Heap) (a : addr) : Prop :=
  exists n, h !! a = Some n /\ SearchNode.nodeAge n = age.

(** Every child of a marked node is marked. *)
Definition closed (age : Z) (h : Heap) : Prop :=
  forall a b, marked age h a -> edge h a b -> marked age h b.

(** The children of every node can be counted, and each is allocated. *)
Definition wellLinked (h : Heap) : Prop :=
  forall a n, h !! a = Some n ->
    exists k, numChildrenOf n = Some k
      /\ forall i, (i < k)%nat -> exists b, slotChild n i = Some b /\ is_Some (h !! b).

(** [h'] is [h] with the age of some nodes reachable from [from] set to
    [age]. *)
Definition marksWithin (age : Z) (from : addr) (h h' : Heap) : Prop :=
  forall a,
    h' !! a = h !! a
    \/ exists n, h !! a = Some n /\ h' !! a = Some (SearchNode.set_nodeAge age n)
                 /\ reach h from a.

Definition sameGraph (h h' : Heap) : Prop :=
  forall a, SearchNode.set_nodeAge 0 <$> h' !! a = SearchNode.set_nodeAge 0 <$> h !! a.

Lemma erased_slotChild (n n' : SearchNode.t) (i : nat) :
  SearchNode.set_nodeAge 0 n' = SearchNode.set_nodeAge 0 n -> slotChild n' i = slotChild n i.
Proof.
  intros Heq.
  change (slotChild (SearchNode.set_nodeAge 0 n') i = slotChild (SearchNode.set_nodeAge 0 n) i).
  now rewrite Heq.
Qed.

Lemma erased_numChildrenOf (n n' : SearchNode.t) :
  SearchNode.set_nodeAge 0 n' = SearchNode.set_nodeAge 0 n -> numChildrenOf n' = numChildrenOf n.
Proof.
  intros Heq.
  change (numChildrenOf (SearchNode.set_nodeAge 0 n') = numChildrenOf (SearchNode.set_nodeAge 0 n)).
  now rewrite Heq.
Qed.


Lemma sameGraph_sym (h h' : Heap) : sameGraph h h' -> sameGraph h' h.
Proof. intros Hs a. symmetry. apply Hs. Qed.

Lemma edge_sameGraph (h h' : Heap) (a b : addr) :
  sameGraph h h' -> edge h a b -> edge h' a b.
Proof.
  intros Hs (n & k & i & Hn & Hk & Hi & Hb).
  pose proof (Hs a) as Ha. rewrite Hn in Ha.
  destruct (h' !! a) as [n'|] eqn:Hn'; [|discriminate Ha].
  apply (inj Some) in Ha.
  exists n', k, i. split; [exact Hn'|].
  rewrite (erased_numChildrenOf _ _ Ha), (erased_slotChild _ _ _ Ha). auto.
Qed.

Lemma reach_sameGraph (h h' : Heap) (a b : addr) :
  sameGraph h h' -> reach h a b -> reach h' a b.
Proof.
  intros Hs Hr. induction Hr as [|x y z Hxy _ IH]; [constructor|].
  eapply rtc_l; [|exact IH]. eapply edge_sameGraph; eassumption.
Qed.

Lemma marksWithin_sameGraph (age : Z) (from : addr) (h h' : Heap) :
  marksWithin age from h h' -> sameGraph h h'.
Proof.
  intros Hm a. destruct (Hm a) as [->|(n & -> & -> & _)]; reflexivity.
Qed.

Lemma marksWithin_refl (age : Z) (from : addr) (h : Heap) : marksWithin age from h h.
Proof. intros a. now left. Qed.

Lemma marksWithin_trans (age : Z) (from from' : addr) (h h1 h2 : Heap) :
  marksWithin age from h h1 -> marksWithin age from' h1 h2 -> reach h from from' ->
  marksWithin age from h h2.
Proof.
  intros H01 H12 Hfrom a.
  pose proof (marksWithin_sameGraph _ _ _ _ H01) as Hs.
  destruct (H12 a) as [E12|(n1 & Hn1 & Hn2 & Hr)].
  - rewrite E12. exact (H01 a).
  - right. destruct (H01 a) as [E01|(n & Hn & Hn' & Hr0)].
    + exists n1. rewrite <- E01. split; [exact Hn1|]. split; [exact Hn2|].
      etrans; [exact Hfrom|]. eapply reach_sameGraph; [apply sameGraph_sym; exact Hs|exact Hr].
    + exists n. split; [exact Hn|]. split; [|exact Hr0].
      rewrite Hn2. rewrite Hn' in Hn1. injection Hn1 as <-. reflexivity.
Qed.

Lemma marksWithin_marked (age : Z) (from : addr) (h h' : Heap) (a : addr) :
  marksWithin age from h h' -> marked age h a -> marked age h' a.
Proof.
  intros Hm (n & Hn & Hage). destruct (Hm a) as [E|(n0 & Hn0 & Hn' & _)].
  - exists n. rewrite E. auto.
  - exists (SearchNode.set_nodeAge age n0). auto.
Qed.

(** What a node looks like while a walk is running: as at the start, or
    marked. *)
Lemma marksWithin_lookup (age : Z) (from : addr) (h h' : Heap) (a : addr) (n : SearchNode.t) :
  marksWithin age from h h' -> h !! a = Some n ->
  exists n', h' !! a = Some n'
             /\ SearchNode.set_nodeAge age n' = SearchNode.set_nodeAge age n
             /\ SearchNode.set_nodeAge 0 n' = SearchNode.set_nodeAge 0 n.
Proof.
  intros Hm Hn. destruct (Hm a) as [E|(n0 & Hn0 & Hn' & _)].
  - exists n. rewrite E. auto.
  - rewrite Hn in Hn0. injection Hn0 as <-. eexists. split; [exact Hn'|]. auto.
Qed.

(** The walk from [node]: it changes ages only, of nodes reachable from
    [node]; it leaves [node] marked; and it keeps the marked nodes closed
    under children (a node is marked after its children). *)
Lemma applyRecursivelyAnyOrderMulithreadedHelper_spec (age threadIdx : Z) (fuel : nat) :
  forall (node : addr) (h h' : Heap),
    applyRecursivelyAnyOrderMulithreadedHelper fuel age None threadIdx node h = Some h' ->
    marksWithin age node h h' /\ marked age h' node /\ (closed age h -> closed age h').
Proof.
  induction fuel as [|fuel IH]; intros node h h' Hrun; [discriminate|].
  cbn [applyRecursivelyAnyOrderMulithreadedHelper] in Hrun.
  destruct (h !! node) as [n|] eqn:Hn; simpl in Hrun; [|discriminate].
  destruct (SearchNode.nodeAge n =? age) eqn:Eage.
  { injection Hrun as <-. apply Z.eqb_eq in Eage.
    split; [apply marksWithin_refl|]. split; [exists n; auto|auto]. }
  destruct (SearchNode.getChildren n (SearchNode.state n)) as [children cap] eqn:Hgc.
  destruct (SearchNode.iterateAndCountChildrenInArray children cap) as [numChildren|] eqn:Hcount;
    simpl in Hrun; [|discriminate].
  assert (Hnum : numChildrenOf n = Some numChildren).
  { unfold numChildrenOf. rewrite Hgc. exact Hcount. }
  set (body := fun (childIdx : nat) (h : Heap) =>
                 slot ← readSlot h node (SearchNode.state n) childIdx;
                 child ← SearchChildPointer.getIfAllocated slot;
                 applyRecursivelyAnyOrderMulithreadedHelper fuel age None threadIdx child h)
    in Hrun.
  assert (Hloop : forall k hk, (k <= numChildren)%nat -> for_loopM k body h = Some hk ->
            marksWithin age node h hk
            /\ (forall i b, (i < k)%nat -> slotChild n i = Some b -> marked age hk b)
            /\ (closed age h -> closed age hk)).
  { induction k as [|k IHk]; intros hk Hk Hfor; cbn [for_loopM] in Hfor.
    - injection Hfor as <-. split; [apply marksWithin_refl|]. split; [lia|auto].
    - destruct (for_loopM k body h) as [h1|] eqn:Hprev; simpl in Hfor; [|discriminate].
      destruct (IHk h1 ltac:(lia) eq_refl) as (Hm1 & Hdone & Hcl1).
      unfold body in Hfor.
      destruct (marksWithin_lookup _ _ _ _ _ _ Hm1 Hn) as (n1 & Hn1 & _ & Hera).
      assert (Hslot : (readSlot h1 node (SearchNode.state n) k
                         ≫= SearchChildPointer.getIfAllocated) = slotChild n k).
      { unfold readSlot. rewrite Hn1. simpl.
        rewrite <- (erased_slotChild n n1 k Hera). unfold slotChild.
        replace (SearchNode.state n1) with (SearchNode.state n)
          by (change (SearchNode.state (SearchNode.set_nodeAge 0 n)
                      = SearchNode.state (SearchNode.set_nodeAge 0 n1)); now rewrite Hera).
        destruct (SearchNode.getChildren n1 (SearchNode.state n)).1; reflexivity. }
      destruct (readSlot h1 node (SearchNode.state n) k) as [slot|]; simpl in Hfor, Hslot;
        [|discriminate].
      destruct (SearchChildPointer.getIfAllocated slot) as [child|]; simpl in Hfor;
        [|discriminate].
      destruct (IH _ _ _ Hfor) as (Hm2 & Hchild & Hcl2).
      assert (Hedge : edge h node child).
      { exists n, numChildren, k. split; [exact Hn|]. split; [exact Hnum|]. split; [lia|].
        now rewrite <- Hslot. }
      split; [|split].
      + eapply marksWithin_trans; [exact Hm1|exact Hm2|].
        apply rtc_once. exact Hedge.
      + intros i b Hi Hb. destruct (decide (i = k)) as [->|Hne].
        * rewrite <- Hslot in Hb. injection Hb as <-. exact Hchild.
        * eapply marksWithin_marked; [exact Hm2|]. apply (Hdone i b); [lia|exact Hb].
      + auto. }
  assert (Hfor : exists h1, for_loopM numChildren body h = Some h1
                            /\ (n1 ← h1 !! node;
                                Some (<[node := SearchNode.set_nodeAge age n1]> h1)) = Some h').
  { destruct (0 <? numChildren)%nat eqn:Epos.
    - destruct (for_loopM numChildren body h) as [h1|]; simpl in Hrun; [|discriminate].
      exists h1. split; [reflexivity|].
      destruct (h1 !! node) as [n1|]; simpl in *; [|discriminate].
      destruct (_ =? _) in Hrun; exact Hrun.
    - apply Nat.ltb_ge in Epos. assert (numChildren = 0)%nat as -> by lia.
      exists h. split; [reflexivity|]. simpl in Hrun.
      destruct (h !! node) as [n1|]; simpl in *; [|discriminate].
      destruct (_ =? _) in Hrun; exact Hrun. }
  destruct Hfor as (h1 & Hfor & Hend).
  destruct (Hloop numChildren h1 (Nat.le_refl _) Hfor) as (Hm1 & Hdone & Hcl1).
  destruct (marksWithin_lookup _ _ _ _ _ _ Hm1 Hn) as (n1 & Hn1 & Hsame & Hera).
  rewrite Hn1 in Hend. simpl in Hend. injection Hend as <-. rewrite Hsame.
  assert (Hself : marked age (<[node := SearchNode.set_nodeAge age n]> h1) node).
  { eexists. rewrite lookup_insert_eq. split; reflexivity. }
  assert (Hkeep : forall b, marked age h1 b ->
                            marked age (<[node := SearchNode.set_nodeAge age n]> h1) b).
  { intros b Hb. destruct (decide (b = node)) as [->|Hne]; [exact Hself|].
    destruct Hb as (nb & Hnb & Hab). exists nb. rewrite lookup_insert_ne by congruence. auto. }
  assert (Hlast : marksWithin age node h1 (<[node := SearchNode.set_nodeAge age n]> h1)).
  { intros a. destruct (decide (a = node)) as [->|Hne].
    - right. exists n1. split; [exact Hn1|]. rewrite lookup_insert_eq, <- Hsame.
      split; [reflexivity|constructor].
    - left. now rewrite lookup_insert_ne by congruence. }
  split; [|split].
  - eapply marksWithin_trans; [exact Hm1|exact Hlast|constructor].
  - exact Hself.
  - intros Hcl a b Ha Hab.
    pose proof (marksWithin_sameGraph _ _ _ _ Hlast) as Hs.
    apply (edge_sameGraph _ _ _ _ (sameGraph_sym _ _ Hs)) in Hab.
    destruct (decide (a = node)) as [->|Hne].
    + destruct Hab as (na & k & i & Hna & Hk & Hi & Hb).
      rewrite Hn1 in Hna. injection Hna as <-.
      rewrite (erased_numChildrenOf _ _ Hera) in Hk.
      rewrite (erased_slotChild _ _ _ Hera) in Hb.
      rewrite Hnum in Hk. injection Hk as <-.
      apply Hkeep. exact (Hdone i b Hi Hb).
    + apply Hkeep. apply (Hcl1 Hcl a b); [|exact Hab].
      destruct Ha as (na & Hna & Haa). rewrite lookup_insert_ne in Hna by congruence.
      exists na. auto.
Qed.

End MarkFacts.

(** ** The search handle: mark and sweep *)

Section SweepFacts.
Context `{NodeConstants} `{RandOps} `{GameOps}.









End SweepFacts.

(** ** The search handle: reusing the tree *)

Section PromotionFacts.
Context `{NodeConstants} `{RandOps} `{GameOps}.









End PromotionFacts.

(** ** The search handle: what [makeMove] does to the tree *)

Section MakeMoveTreeFacts.
Context `{NodeConstants} `{RandOps} `{GameOps}.













End MakeMoveTreeFacts.

(** ** The search handle: when the tree-reuse branch returns *)

Section ReuseFacts.
Context `{NodeConstants} `{RandOps} `{GameOps}.



































End ReuseFacts.

Section MakeMoveSpec.
Context `{NodeConstants} `{RandOps} `{GameOps}.


End MakeMoveSpec.

(** ** The properties at work on the small instance *)

Section Examples.
#[local] Existing Instance toyConstants.
#[local] Existing Instance toyRand.
#[local] Existing Instance toyGame.

(** Two threads take a fresh node through all seven states: thread 0 wins
    the evaluation, thread 1 installs the children and grows the array
    twice, thread 0 meets the growth in progress. *)
Definition exampleSchedule : list (nat * Action) :=
  let t0 := 0%nat in
  let t1 := 1%nat in
  [(t0, AEnter); (t0, ADispatch true); (t1, AEnter); (t1, ADispatch true);
   (t0, AFinishEvaluation); (t1, AEnter); (t1, ADispatch false);
   (t1, AInstallChild 0 7%nat 3); (t1, AInstallChild 1 8%nat 4);
   (t0, AEnter); (t0, ADispatch false);
   (t1, ANewChild 2); (t0, ANewChild 2); (t0, ANewChild 2);
   (t1, ACopy); (t1, APublish); (t0, AReload);
   (t1, AInstallChild 2 9%nat 5); (t1, AInstallChild 3 10%nat 6);
   (t1, ANewChild 4); (t1, ACopy); (t0, ANewChild 4); (t1, APublish); (t0, ALeave)].

Definition exampleNode : SearchNode.t := SearchNode.init P_BLACK true 0.

Lemma state_only_advances_witness :
  exists c ws,
    run exampleSchedule (initialConfig exampleNode) = Some (c, ws)
    /\ map (fun w => (replaced w, written w)) ws
       = [(0, 1); (1, 2); (2, 3); (3, 4); (4, 5); (5, 6)]
    /\ Forall (fun w => replaced w < written w) (ws ++ []).
Proof.
  destruct (run exampleSchedule (initialConfig exampleNode)) as [[c ws]|] eqn:Hrun.
  - exists c, ws. split; [reflexivity|].
    pose proof (state_only_advances exampleNode exampleSchedule [] c c ws [] Hrun eq_refl)
      as (Hlt & _).
    split; [|exact Hlt].
    vm_compute in Hrun. injection Hrun as _ <-. reflexivity.
  - vm_compute in Hrun. discriminate.
Defined.

(** A node in EXPANDED0 whose two slots are occupied. *)
Definition fullNode : SearchNode.t :=
  toyNode P_BLACK true STATE_EXPANDED0 (Some 10%nat) 1
    (Some [toySlot 2%nat 3 5; toySlot 3%nat 1 6]) 5.

Lemma tryExpandingChildrenCapacityAssumeFull_spec_witness :
  exists n',
    SearchNode.tryExpandingChildrenCapacityAssumeFull STATE_EXPANDED0 fullNode
    = Some (true, STATE_EXPANDED1, n').
Proof.
  destruct (tryExpandingChildrenCapacityAssumeFull_spec STATE_EXPANDED0 fullNode)
    as (_ & _ & _ & Htotal).
  apply (Htotal [toySlot 2%nat 3 5; toySlot 3%nat 1 6]).
  - left. reflexivity.
  - reflexivity.
  - reflexivity.
  - reflexivity.
  - intros [|[|i]] o; simpl; intros [= <-]; discriminate.
  - reflexivity.
  - cbv. lia.
Defined.

Example tryExpanding_example :
  (SearchNode.tryExpandingChildrenCapacityAssumeFull STATE_EXPANDED0 fullNode
     ≫= fun r => SearchNode.children1 r.2)
  = Some [toySlot 2%nat 3 5; toySlot 3%nat 1 6; SearchChildPointer.init;
          SearchChildPointer.init].
Proof. reflexivity. Qed.

(** The edge from the root (address 1) to address 2 has 3 visits, as many as
    the node at address 2: nothing to catch up. *)
Example maybeCatchUpEdgeVisits_level :
  maybeCatchUpEdgeVisits toyParams [] 0%nat toyHeap 1%nat 2%nat STATE_EXPANDED0 0
  = Some (false, toyHeap, 0%nat).
Proof. vm_compute. reflexivity. Qed.

(** [toyHeap] with 9 visits at address 2: the edge from the root, with 3
    visits, is behind. *)
Definition laggingHeap : Heap :=
  <[2%nat := toyNode P_WHITE false STATE_EXPANDED0 (Some 11%nat) 1
               (Some [toySlot 4%nat 1 9; toyEmptySlot]) 9]> toyHeap.

(** On the edge that is behind, a first compare-exchange fails because
    another thread has added a visit, the second succeeds: the call returns
    true and the edge has 3 + 1 + 1 visits. *)
Lemma maybeCatchUpEdgeVisits_spec_witness :
  exists h',
    maybeCatchUpEdgeVisits toyParams [mkInterference 1 false; mkInterference 0 false]
      0%nat laggingHeap 1%nat 2%nat STATE_EXPANDED0 0 = Some (true, h', 0%nat)
    /\ readSlot h' 1%nat STATE_EXPANDED0 0 = Some (toySlot 2%nat 5 5).
Proof.
  destruct (@maybeCatchUpEdgeVisits_spec toyConstants toyRand toyParams
              [mkInterference 1 false; mkInterference 0 false] 0%nat laggingHeap
              1%nat 2%nat STATE_EXPANDED0 0
              (toyNode P_WHITE false STATE_EXPANDED0 (Some 11%nat) 1
                 (Some [toySlot 4%nat 1 9; toyEmptySlot]) 9)
              (toySlot 2%nat 3 5) eq_refl eq_refl)
    as (_ & _ & _ & _ & _ & Hprogress & _).
  apply (Hprogress [mkInterference 1 false] (mkInterference 0 false) [] 0%nat).
  - reflexivity.
  - simpl. lia.
  - left. split; reflexivity.
  - constructor; [|constructor]. split; simpl; [lia|left; lia].
  - simpl. lia.
  - reflexivity.
  - reflexivity.
Defined.

(** When other threads add six visits at once, the edge is no longer behind
    and the call returns false. *)
Example maybeCatchUpEdgeVisits_overtaken :
  (maybeCatchUpEdgeVisits toyParams [mkInterference 6 false; mkInterference 0 false]
     0%nat laggingHeap 1%nat 2%nat STATE_EXPANDED0 0
     ≫= fun r => edge ← readSlot r.1.2 1%nat STATE_EXPANDED0 0;
                 Some (r.1.1, SearchChildPointer.edgeVisits edge))
  = Some (false, 9).
Proof. vm_compute. reflexivity. Qed.

Lemma clearSearch_clears_witness :
  exists s',
    clearSearch toySearch = Some s'
    /\ Forall (fun shard => shard = []) (nodeTable s')
    /\ rootNode s' = None
    /\ searchNodeAge s' = 0.
Proof.
  assert (SearchParams.numThreads (searchParams toySearch) < 2 ^ 31) as Hthreads
    by reflexivity.
  assert (Z.of_nat (length (nodeTable toySearch)) < 2 ^ 32) as Hshards by reflexivity.
  destruct (clearSearch_clears toySearch Hthreads Hshards) as [Hreturns Hcleared].
  destruct Hreturns as [s' Hrun]; [simpl; lia|].
  exists s'. split; [exact Hrun|].
  destruct (Hcleared s' Hrun) as (Hempty & _ & Hroot & _ & _ & Hage).
  repeat split; assumption.
Defined.

Lemma clearSearch_frame_witness :
  exists s',
    clearSearch toySearch = Some s'
    /\ rootBoard s' = rootBoard toySearch
    /\ rootHistory s' = rootHistory toySearch
    /\ rootPla s' = P_BLACK
    /\ avoidMoveUntilByLocBlack s' = [3]
    /\ avoidMoveUntilByLocWhite s' = [4].
Proof.
  destruct (clearSearch toySearch) as [s'|] eqn:Hrun.
  - exists s'. split; [reflexivity|].
    destruct (clearSearch_frame toySearch s' Hrun)
      as (Hb & Hh & Hp & _ & _ & _ & Hab & Haw & _).
    repeat split; assumption.
  - vm_compute in Hrun. discriminate.
Defined.

(** On [toySearch], whose lists are [[3]] and [[4]]: Black's move at 5, and
    a new position with White to move. *)
Lemma makeMove_clears_avoid_lists_witness :
  (exists s',
     makeMove 10 5 P_BLACK false toySearch = Some (true, s')
     /\ avoidMoveUntilByLocBlack s' = [] /\ avoidMoveUntilByLocWhite s' = [])
  /\ (exists s',
        setPosition P_WHITE [7] [(7, P_BLACK)] toySearch = Some s'
        /\ avoidMoveUntilByLocBlack s' = [] /\ avoidMoveUntilByLocWhite s' = []
        /\ rootPla s' = P_WHITE /\ rootBoard s' = [7]
        /\ rootHistory s' = [(7, P_BLACK)]).
Proof.
  destruct (makeMove_clears_avoid_lists 10 5 P_BLACK false toySearch)
    as (Hmove & _ & Hset).
  split.
  - destruct (makeMove 10 5 P_BLACK false toySearch) as [[b s']|] eqn:Hrun.
    + assert (b = true) as -> by (vm_compute in Hrun; congruence).
      exists s'. split; [reflexivity|]. exact (Hmove s' eq_refl).
    + vm_compute in Hrun. discriminate.
  - apply Hset.
    + split; [simpl; lia|reflexivity].
    + reflexivity.
Defined.










End Examples.

(** * Part III.  Further verified properties *)

(** ** Reported values *)

Section ReportedValueFacts.
Local Open Scope R_scope.
Context {BoardT : Type} (expectedWhiteScoreValue : R -> R -> R -> R -> BoardT -> R).



End ReportedValueFacts.

(** ** The selection value and its inverse *)

Section SelectionInverseExample.
Local Open Scope R_scope.


End SelectionInverseExample.

(** ** Choosing an index with temperature *)

Section TemperatureFacts.
Local Open Scope R_scope.




End TemperatureFacts.


Section TemperatureExample.
Local Open Scope R_scope.




End TemperatureExample.



(** ** Child weights *)

Section ComparisonFacts.
Local Open Scope R_scope.

Lemma Rgtb_spec (x y : R) : reflect (x > y) (Rgtb x y).
Proof. unfold Rgtb. destruct (Rgt_dec x y); constructor; assumption. Qed.

Lemma Rltb_spec (x y : R) : reflect (x < y) (Rltb x y).
Proof. unfold Rltb. destruct (Rlt_dec x y); constructor; assumption. Qed.

Lemma Rleb_spec (x y : R) : reflect (x <= y) (Rleb x y).
Proof. unfold Rleb. destruct (Rle_dec x y); constructor; assumption. Qed.

Lemma Reqb_spec (x y : R) : reflect (x = y) (Reqb x y).
Proof. unfold Reqb. destruct (Req_EM_T x y); constructor; assumption. Qed.

End ComparisonFacts.

(** The sum of [weightAdjusted] over the first [k] entries of a buffer. *)
Fixpoint weightSumTo (statsBuf : list MoreNodeStats) (k : nat) : R :=
  match k with
  | O => 0%R
  | Datatypes.S j =>
      (weightSumTo statsBuf j + from_option weightAdjusted 0 (statsBuf !! j))%R
  end.

(** Two entries that differ in [weightAdjusted] at most. *)
Definition sameButWeight (st st' : MoreNodeStats) : Prop :=
  ms_stats st' = ms_stats st /\ selfUtility st' = selfUtility st
  /\ prevMoveLoc st' = prevMoveLoc st.

Section NoisePruningFacts.
Local Open Scope R_scope.
Context `{GameOps}.

Lemma weightSumTo_ext (buf buf' : list MoreNodeStats) (k : nat) :
  (forall j, (j < k)%nat -> buf' !! j = buf !! j) ->
  weightSumTo buf' k = weightSumTo buf k.
Proof.
  induction k as [|k IH]; intros Hsame; simpl; [reflexivity|].
  rewrite IH, Hsame by (intros; try apply Hsame; lia). reflexivity.
Qed.

Lemma sameButWeight_refl (st : MoreNodeStats) : sameButWeight st st.
Proof. now repeat split. Qed.

Lemma set_weightAdjusted_same (st : MoreNodeStats) :
  set_weightAdjusted (weightAdjusted st) st = st.
Proof. now destruct st. Qed.

(** The state of the loop of [pruneNoiseWeight] before child [k]. *)
Definition pruneInv (buf : list MoreNodeStats) (k : nat)
    (s : list MoreNodeStats * R * R * R) : Prop :=
  let '(buf', _, weightSumSoFar, rawPolicySumSoFar) := s in
  length buf' = length buf
  /\ (forall j, (k <= j)%nat -> buf' !! j = buf !! j)
  /\ (forall j st, (j < k)%nat -> buf !! j = Some st ->
        exists st', buf' !! j = Some st' /\ sameButWeight st st'
                    /\ 0 <= weightAdjusted st' <= weightAdjusted st)
  /\ buf' !! 0%nat = buf !! 0%nat
  /\ weightSumSoFar = weightSumTo buf' k
  /\ 0 <= weightSumSoFar /\ 0 <= rawPolicySumSoFar.

Lemma pruneInv_step (buf : list MoreNodeStats) (k : nat) (buf1 buf2 : list MoreNodeStats)
    (U U' Ws P w' pol : R) (st : MoreNodeStats) :
  pruneInv buf k (buf1, U, Ws, P) ->
  buf !! k = Some st ->
  0 <= w' <= weightAdjusted st ->
  (k = 0%nat -> w' = weightAdjusted st) ->
  0 <= pol ->
  (buf2 = buf1 /\ w' = weightAdjusted st) \/ buf2 = <[k := set_weightAdjusted w' st]> buf1 ->
  pruneInv buf (Datatypes.S k) (buf2, U', Ws + w', P + pol).
Proof.
  intros (Hlen & Hge & Hlt & H0 & HWs & HWs0 & HP0) Hst Hw' Hk0 Hpol Hbuf2.
  assert (buf1 !! k = Some st) as Hst1 by (rewrite Hge by lia; exact Hst).
  assert (buf2 = <[k := set_weightAdjusted w' st]> buf1) as ->.
  { destruct Hbuf2 as [[Hb Hw0]|Hb]; subst buf2; [subst w'|reflexivity].
    rewrite set_weightAdjusted_same. symmetry. now apply list_insert_id. }
  assert (k < length buf1)%nat as Hk by (eapply lookup_lt_Some; eauto).
  unfold pruneInv. split; [now rewrite length_insert|].
  split. { intros j Hj. rewrite list_lookup_insert_ne by lia. apply Hge. lia. }
  split.
  { intros j st0 Hj Hst0. destruct (decide (j = k)) as [->|Hne].
    - rewrite list_lookup_insert_eq by exact Hk.
      assert (st0 = st) as -> by congruence.
      eexists. split; [reflexivity|]. split; [now repeat split|]. simpl. lra.
    - rewrite list_lookup_insert_ne by lia. apply Hlt; [lia|exact Hst0]. }
  split.
  { destruct (decide (k = 0%nat)) as [->|Hne].
    - rewrite list_lookup_insert_eq by exact Hk.
      rewrite (Hk0 eq_refl), set_weightAdjusted_same. now rewrite Hst.
    - rewrite list_lookup_insert_ne by lia. exact H0. }
  split.
  { simpl. rewrite list_lookup_insert_eq by exact Hk. simpl.
    rewrite (weightSumTo_ext buf1); [now rewrite HWs|].
    intros j Hj. apply list_lookup_insert_ne. lia. }
  lra.
Qed.

Lemma pruned_weight_bounds (old share e cap : R) :
  0 <= share -> old > 2 * share -> 0 < e < 1 -> 0 <= cap ->
  0 <= old - (if Rgtb ((old - 2 * share) * e) cap then cap else (old - 2 * share) * e)
    <= old.
Proof.
  intros Hshare Hold He Hcap.
  destruct (Rgtb_spec ((old - 2 * share) * e) cap) as [Hgt|Hle]; nra.
Qed.

Lemma gap_factor_bounds (gap scale : R) :
  gap > 0 -> 0 < scale -> 0 < 1 - exp (- gap / scale) < 1.
Proof.
  intros Hgap Hscale.
  assert (- gap / scale < 0) as Hneg.
  { unfold Rdiv. pose proof (Rinv_0_lt_compat scale Hscale). nra. }
  pose proof (exp_pos (- gap / scale)).
  pose proof (exp_increasing _ _ Hneg) as Hinc. rewrite exp_0 in Hinc. lra.
Qed.

(** The run of [pruneNoiseWeight]. *)
Lemma pruneNoiseWeight_run (c : ValueContext) (statsBuf : list MoreNodeStats)
    (numChildren : Z) (totalChildWeight : R) (policyProbsBuf : darray) :
  let n := Z.to_nat numChildren in
  0 < ValueParams.noisePruneUtilityScale (vc_searchParams c) ->
  0 <= ValueParams.noisePruningCap (vc_searchParams c) ->
  (n <= length statsBuf)%nat ->
  (forall i st, (i < n)%nat -> statsBuf !! i = Some st -> 0 <= weightAdjusted st) ->
  (forall i, (i < n)%nat -> 0 <= policyProbsBuf i) ->
  exists buf' total',
    pruneNoiseWeight c statsBuf numChildren totalChildWeight policyProbsBuf
    = Some (buf', total')
    /\ length buf' = length statsBuf
    /\ (forall i st, statsBuf !! i = Some st ->
          exists st', buf' !! i = Some st' /\ sameButWeight st st'
            /\ weightAdjusted st' <= weightAdjusted st
            /\ ((i < n)%nat -> 0 <= weightAdjusted st')
            /\ ((n <= i)%nat \/ i = 0%nat -> st' = st))
    /\ ((numChildren <= 1)%Z \/ totalChildWeight <= 0.00001 ->
        buf' = statsBuf /\ total' = totalChildWeight)
    /\ ((1 < numChildren)%Z -> 0.00001 < totalChildWeight ->
        total' = weightSumTo buf' n).
Proof.
  intros n Hscale Hcap Hlen Hweights Hpolicy. unfold pruneNoiseWeight.
  destruct (Z.leb_spec numChildren 1) as [Hn|Hn]; simpl.
  { exists statsBuf, totalChildWeight. split; [reflexivity|]. split; [reflexivity|].
    split; [|split; [auto|lia]].
    intros i st Hst. exists st. split; [exact Hst|]. split; [apply sameButWeight_refl|].
    split; [lra|]. split; [intros Hi; eapply Hweights; eauto|auto]. }
  destruct (Rleb_spec totalChildWeight 0.00001) as [Hsmall|Hbig]; simpl.
  { exists statsBuf, totalChildWeight. split; [reflexivity|]. split; [reflexivity|].
    split; [|split; [auto|lra]].
    intros i st Hst. exists st. split; [exact Hst|]. split; [apply sameButWeight_refl|].
    split; [lra|]. split; [intros Hi; eapply Hweights; eauto|auto]. }
  fold n.
  match goal with
  | |- context [for_loopM n ?body ?s0] =>
      destruct (for_loopM_total (pruneInv statsBuf) n body s0)
        as ([[[buf' U] Ws] P] & Hrun & Hinv)
  end.
  { unfold pruneInv. simpl. repeat split; auto; try lra. intros j st Hj. lia. }
  { intros i [[[buf1 U] Ws] P] Hi Hinv.
    destruct (lookup_lt_is_Some_2 statsBuf i) as [st Hst]; [lia|].
    assert (buf1 !! i = Some st) as Hst1.
    { destruct Hinv as (_ & Hge & _). rewrite Hge by lia. exact Hst. }
    assert (0 <= weightAdjusted st) as Hw by (eapply Hweights; eauto).
    pose proof (Hpolicy i Hi) as Hpol.
    rewrite Hst1. simpl.
    destruct (Rgtb_spec Ws 0) as [HWs|HWs]; simpl;
      [destruct (Rgtb_spec P 0) as [HP|HP]; simpl|];
      [destruct (Rgtb_spec (U / Ws - selfUtility st) 0) as [Hgap|Hgap]; simpl|..];
      [destruct (Rgtb_spec (weightAdjusted st) (2 * (Ws * policyProbsBuf i / P)))
         as [Hexcess|Hexcess]; simpl|..].
    2-5: eexists; split; [reflexivity|];
         eapply pruneInv_step; eauto; lra.
    eexists; split; [reflexivity|].
    eapply pruneInv_step; eauto.
    - apply pruned_weight_bounds; auto.
      + apply Rle_mult_inv_pos; [nra|lra].
      + apply gap_factor_bounds; auto.
    - intros ->. destruct Hinv as (_ & _ & _ & _ & HWs0 & _). simpl in HWs0. lra. }
  rewrite Hrun. simpl. exists buf', Ws.
  destruct Hinv as (Hlen' & Hge & Hlt & H0 & HWs & _).
  split; [reflexivity|]. split; [exact Hlen'|].
  split; [|split; [intros [?|?]; [lia|lra]|auto]].
  intros i st Hst. destruct (decide (i < n)%nat) as [Hi|Hi].
  - destruct (Hlt i st Hi Hst) as (st' & Hst' & Hsame & Hw).
    exists st'. split; [exact Hst'|]. split; [exact Hsame|]. split; [lra|].
    split; [intros _; lra|].
    intros [Hni|Hi0]; [lia|]. subst i. rewrite H0, Hst in Hst'. congruence.
  - exists st. split; [rewrite Hge by lia; exact Hst|].
    split; [apply sameButWeight_refl|]. split; [lra|]. split; [lia|auto].
Qed.

(** Noise pruning only ever takes weight away: every child keeps its other
    fields and a weight between zero and its old weight, the first child and
    the entries past [numChildren] are untouched, and the value returned is
    the sum of the new weights of the children.  With one child at most, or
    a total weight of at most 0.00001, nothing changes and the total given
    is returned. *)
Theorem pruneNoiseWeight_spec (c : ValueContext) (statsBuf : list MoreNodeStats)
    (numChildren : Z) (totalChildWeight : R) (policyProbsBuf : darray) :
  let n := Z.to_nat numChildren in
  0 < ValueParams.noisePruneUtilityScale (vc_searchParams c) ->
  0 <= ValueParams.noisePruningCap (vc_searchParams c) ->
  (n <= length statsBuf)%nat ->
  (forall i st, (i < n)%nat -> statsBuf !! i = Some st -> 0 <= weightAdjusted st) ->
  (forall i, (i < n)%nat -> 0 <= policyProbsBuf i) ->
  exists buf' total',
    pruneNoiseWeight c statsBuf numChildren totalChildWeight policyProbsBuf
    = Some (buf', total')
    /\ length buf' = length statsBuf
    /\ (forall i st, statsBuf !! i = Some st ->
          exists st', buf' !! i = Some st' /\ sameButWeight st st'
            /\ weightAdjusted st' <= weightAdjusted st
            /\ ((i < n)%nat -> 0 <= weightAdjusted st')
            /\ ((n <= i)%nat \/ i = 0%nat -> st' = st))
    /\ ((numChildren <= 1)%Z \/ totalChildWeight <= 0.00001 ->
        buf' = statsBuf /\ total' = totalChildWeight)
    /\ ((1 < numChildren)%Z -> 0.00001 < totalChildWeight ->
        total' = weightSumTo buf' n).
Proof.
  intros n. exact (pruneNoiseWeight_run c statsBuf numChildren totalChildWeight
                     policyProbsBuf).
Qed.

End NoisePruningFacts.


(** The weight that the subtract-and-prune step of
    [downweightBadChildrenAndNormalizeWeight] leaves to a child. *)
Definition keptWeight (amountToSubtract amountToPrune : R) (st : MoreNodeStats) : R :=
  if Rltb (weightAdjusted st) amountToPrune then 0%R
  else if Rleb (weightAdjusted st - amountToSubtract) 0 then 0%R
       else (weightAdjusted st - amountToSubtract)%R.

Section DownweightFacts.
Local Open Scope R_scope.
Context `{GameOps}.
Context (pow : R -> R -> R) (getCdf : R -> R).

Lemma subtractOrPrune_spec (sub prune : R) (st : MoreNodeStats) (cur : R) :
  subtractOrPrune sub prune st cur
  = (set_weightAdjusted (keptWeight sub prune st) st,
     cur - weightAdjusted st + keptWeight sub prune st,
     Rltb (weightAdjusted st) prune).
Proof.
  unfold subtractOrPrune, keptWeight.
  destruct (Rltb (weightAdjusted st) prune); [do 2 f_equal; lra|].
  destruct (Rleb (weightAdjusted st - sub) 0); do 2 f_equal; lra.
Qed.

Lemma keptWeight_nonneg (sub prune : R) (st : MoreNodeStats) :
  0 <= keptWeight sub prune st.
Proof.
  unfold keptWeight. destruct (Rltb_spec (weightAdjusted st) prune); [lra|].
  destruct (Rleb_spec (weightAdjusted st - sub) 0); lra.
Qed.

Lemma weightSumTo_scaled (buf buf' : list MoreNodeStats) (f : R) (k : nat) :
  (forall j, (j < k)%nat ->
     from_option weightAdjusted 0 (buf' !! j) = from_option weightAdjusted 0 (buf !! j) * f) ->
  weightSumTo buf' k = weightSumTo buf k * f.
Proof.
  induction k as [|k IH]; intros Hsame; simpl; [lra|].
  rewrite IH, Hsame by (intros; try apply Hsame; lia). lra.
Qed.

Lemma weightSumTo_nonneg (buf : list MoreNodeStats) (k : nat) :
  (forall j, (j < k)%nat -> 0 <= from_option weightAdjusted 0 (buf !! j)) ->
  0 <= weightSumTo buf k.
Proof.
  induction k as [|k IH]; intros Hall; simpl; [lra|].
  pose proof (Hall k ltac:(lia)). assert (0 <= weightSumTo buf k) by (apply IH; intros; apply Hall; lia).
  lra.
Qed.

Lemma weightSumTo_pos (buf : list MoreNodeStats) (k i : nat) :
  (forall j, (j < k)%nat -> 0 <= from_option weightAdjusted 0 (buf !! j)) ->
  (i < k)%nat -> 0 < from_option weightAdjusted 0 (buf !! i) ->
  0 < weightSumTo buf k.
Proof.
  induction k as [|k IH]; intros Hall Hi Hpos; [lia|]. simpl.
  pose proof (Hall k ltac:(lia)).
  assert (0 <= weightSumTo buf k) by (apply weightSumTo_nonneg; intros; apply Hall; lia).
  destruct (decide (i = k)) as [->|Hne]; [lra|].
  assert (0 < weightSumTo buf k) by (apply IH; [intros; apply Hall|..]; auto; lia).
  lra.
Qed.

(** The buffer [buf'] holds, for the first [k] children of [buf], their
    entries with the weight given by [weight], and the entries of [buf]
    after them. *)
Definition reweighted (weight : MoreNodeStats -> R) (buf : list MoreNodeStats) (k : nat)
    (buf' : list MoreNodeStats) : Prop :=
  length buf' = length buf
  /\ forall j st, buf !! j = Some st ->
       buf' !! j = Some (if decide (j < k)%nat then set_weightAdjusted (weight st) st else st).

Lemma reweighted_step (weight : MoreNodeStats -> R) (buf buf1 : list MoreNodeStats)
    (k : nat) (st : MoreNodeStats) :
  reweighted weight buf k buf1 -> buf !! k = Some st ->
  reweighted weight buf (Datatypes.S k) (<[k := set_weightAdjusted (weight st) st]> buf1).
Proof.
  intros [Hlen Hall] Hst. split; [now rewrite length_insert|].
  intros j st0 Hst0. destruct (decide (j = k)) as [->|Hne].
  - rewrite list_lookup_insert_eq by (rewrite Hlen; eapply lookup_lt_Some; eauto).
    rewrite decide_True by lia. congruence.
  - rewrite list_lookup_insert_ne by lia. rewrite (Hall j st0 Hst0).
    destruct (decide (j < k)%nat); [rewrite decide_True by lia|rewrite decide_False by lia];
      reflexivity.
Qed.

Lemma reweighted_lookup (weight : MoreNodeStats -> R) (buf buf1 : list MoreNodeStats)
    (k : nat) (st : MoreNodeStats) :
  reweighted weight buf k buf1 -> buf !! k = Some st -> buf1 !! k = Some st.
Proof.
  intros [_ Hall] Hst. rewrite (Hall k st Hst). now rewrite decide_False by lia.
Qed.

Lemma reweighted_sum (weight : MoreNodeStats -> R) (buf buf1 : list MoreNodeStats)
    (k n : nat) :
  reweighted weight buf n buf1 -> (k <= n)%nat -> (n <= length buf)%nat ->
  forall j, (j < k)%nat ->
    exists st, buf !! j = Some st
      /\ from_option weightAdjusted 0 (buf1 !! j) = weight st.
Proof.
  intros [_ Hall] Hk Hn j Hj.
  destruct (lookup_lt_is_Some_2 buf j) as [st Hst]; [lia|].
  exists st. split; [exact Hst|]. rewrite (Hall j st Hst).
  now rewrite decide_True by lia.
Qed.

Lemma scaleWeights_spec (n : nat) (factor : R) (buf : list MoreNodeStats) :
  (n <= length buf)%nat ->
  exists buf', scaleWeights n factor buf = Some buf'
    /\ reweighted (fun st => weightAdjusted st * factor) buf n buf'.
Proof.
  intros Hn. unfold scaleWeights.
  apply (for_loopM_total (reweighted (fun st => weightAdjusted st * factor) buf)).
  - split; [reflexivity|]. intros j st Hst. now rewrite decide_False by lia.
  - intros i buf1 Hi Hinv.
    destruct (lookup_lt_is_Some_2 buf i) as [st Hst]; [lia|].
    rewrite (reweighted_lookup _ _ _ _ _ Hinv Hst). simpl.
    eexists. split; [reflexivity|]. now apply reweighted_step.
Qed.

(** The run of [downweightBadChildrenAndNormalizeWeight] without value
    weighting. *)
Lemma downweight_plain_run (c : ValueContext)
    (MAX_NN_POLICY_SIZE : Z) (stdevs : darray) (numChildren : Z)
    (currentTotalWeight desiredTotalWeight amountToSubtract amountToPrune : R)
    (statsBuf : list MoreNodeStats) :
  let n := Z.to_nat numChildren in
  ValueParams.valueWeightExponent (vc_searchParams c) = 0 \/ vc_mirroringPla c <> C_EMPTY ->
  (n <= length statsBuf)%nat ->
  currentTotalWeight = weightSumTo statsBuf n ->
  0 < currentTotalWeight ->
  (exists i st, (i < n)%nat /\ statsBuf !! i = Some st
     /\ amountToPrune <= weightAdjusted st /\ amountToSubtract < weightAdjusted st) ->
  exists buf' factor,
    downweightBadChildrenAndNormalizeWeight pow getCdf c MAX_NN_POLICY_SIZE stdevs
      numChildren currentTotalWeight desiredTotalWeight amountToSubtract amountToPrune
      statsBuf = Some buf'
    /\ reweighted (fun st => keptWeight amountToSubtract amountToPrune st * factor)
         statsBuf n buf'
    /\ weightSumTo buf' n = desiredTotalWeight
    /\ (0 <= desiredTotalWeight -> 0 <= factor).
Proof.
  intros n Hbranch Hlen Hcur Hpos (i0 & st0 & Hi0 & Hst0 & Hprune0 & Hsub0).
  unfold downweightBadChildrenAndNormalizeWeight.
  destruct (Z.leb_spec numChildren 0) as [Hn|Hn]; [lia|]. simpl.
  destruct (Rleb_spec currentTotalWeight 0) as [Hle|_]; [lra|]. simpl.
  assert (Reqb (ValueParams.valueWeightExponent (vc_searchParams c)) 0
          || negb (bool_decide (vc_mirroringPla c = C_EMPTY)) = true) as ->.
  { destruct Hbranch as [Hz|Hm].
    - destruct (Reqb_spec (ValueParams.valueWeightExponent (vc_searchParams c)) 0);
        [reflexivity|contradiction].
    - rewrite bool_decide_eq_false_2 by exact Hm. apply orb_true_r. }
  fold n.
  set (kept := keptWeight amountToSubtract amountToPrune).
  match goal with
  | |- context [for_loopM n ?body ?s0] =>
      destruct (for_loopM_total
                  (fun k '(buf1, cur1) =>
                     reweighted kept statsBuf k buf1
                     /\ cur1 = currentTotalWeight - weightSumTo statsBuf k
                               + weightSumTo buf1 k) n body s0)
        as ([buf1 cur1] & Hrun & Hinv & Hcur1)
  end.
  { split; [|simpl; lra]. split; [reflexivity|].
    intros j st Hst. now rewrite decide_False by lia. }
  { intros i [buf1 cur1] Hi [Hinv Hcur1].
    destruct (lookup_lt_is_Some_2 statsBuf i) as [st Hst]; [lia|].
    rewrite (reweighted_lookup _ _ _ _ _ Hinv Hst). simpl.
    rewrite subtractOrPrune_spec. eexists. split; [reflexivity|].
    split; [now apply reweighted_step|].
    simpl. rewrite Hst. simpl.
    rewrite list_lookup_insert_eq
      by (rewrite (proj1 Hinv); eapply lookup_lt_Some; eauto). simpl.
    rewrite (weightSumTo_ext buf1 (<[i:=_]> buf1))
      by (intros; apply list_lookup_insert_ne; lia).
    fold kept. lra. }
  rewrite Hrun. simpl.
  assert (cur1 = weightSumTo buf1 n) as Hsum1 by lra.
  assert (0 < cur1) as Hpos1.
  { rewrite Hsum1. apply (weightSumTo_pos buf1 n i0); [|exact Hi0|].
    - intros j Hj.
      destruct (reweighted_sum kept statsBuf buf1 n n Hinv (le_n _) Hlen j Hj)
        as (st & _ & ->).
      apply keptWeight_nonneg.
    - destruct (reweighted_sum kept statsBuf buf1 n n Hinv (le_n _) Hlen i0 Hi0)
        as (st & Hst & ->).
      assert (st = st0) as -> by congruence.
      unfold kept, keptWeight.
      destruct (Rltb_spec (weightAdjusted st0) amountToPrune); [lra|].
      destruct (Rleb_spec (weightAdjusted st0 - amountToSubtract) 0); lra. }
  destruct (Reqb_spec cur1 desiredTotalWeight) as [Heq|Hne]; simpl.
  - exists buf1, 1. split; [reflexivity|]. split; [|split; [lra|intros; lra]].
    destruct Hinv as [Hlen1 Hall]. split; [exact Hlen1|].
    intros j st Hst. rewrite (Hall j st Hst). now rewrite Rmult_1_r.
  - destruct (scaleWeights_spec n (desiredTotalWeight / cur1) buf1) as (buf2 & -> & Hinv2).
    { now rewrite (proj1 Hinv). }
    exists buf2, (desiredTotalWeight / cur1). split; [reflexivity|].
    destruct Hinv as [Hlen1 Hall1]. destruct Hinv2 as [Hlen2 Hall2].
    assert (forall j st, statsBuf !! j = Some st ->
              buf2 !! j = Some (if decide (j < n)%nat
                                then set_weightAdjusted
                                       (kept st * (desiredTotalWeight / cur1)) st
                                else st)) as Hall.
    { intros j st Hst. rewrite (Hall2 j _ (Hall1 j st Hst)).
      destruct (decide (j < n)%nat); reflexivity. }
    split; [split; [congruence|exact Hall]|].
    split; [|intros Hd; apply Rle_mult_inv_pos; [exact Hd|exact Hpos1]].
    rewrite (weightSumTo_scaled buf1 buf2 (desiredTotalWeight / cur1)).
    + rewrite <- Hsum1. field. lra.
    + intros j Hj.
      destruct (lookup_lt_is_Some_2 statsBuf j) as [st Hst]; [lia|].
      rewrite (Hall j st Hst), (Hall1 j st Hst), !decide_True by lia. reflexivity.
Qed.

End DownweightFacts.

Section StatisticsExamples.
Local Open Scope R_scope.
#[local] Existing Instance toyGame.

Definition exampleValueParams : ValueParams.t :=
  ValueParams.mk 1 0 0.1 0.3 0.75 0.45 0.25 0.15 100 true 1 0.25 8.

Definition exampleContext (mirroringPla : Player) : ValueContext :=
  mkValueContext exampleValueParams [] 0 None P_BLACK mirroringPla true.

Definition exampleChild (selfUtility weightAdjusted : R) : MoreNodeStats :=
  mkMoreStats NodeStats_init selfUtility weightAdjusted 0%Z.

Lemma pruneNoiseWeight_spec_witness :
  let statsBuf := [exampleChild 0.5 1; exampleChild 0.1 10; exampleChild 0.6 2] in
  let policyProbsBuf : darray :=
    fun i => match i with 0%nat => 0.6 | 1%nat => 0.1 | _ => 0.3 end in
  exists buf' total',
    pruneNoiseWeight (exampleContext C_EMPTY) statsBuf 3 13 policyProbsBuf
    = Some (buf', total')
    /\ length buf' = 3%nat
    /\ total' = weightSumTo buf' 3.
Proof.
  intros statsBuf policyProbsBuf.
  destruct (pruneNoiseWeight_spec (exampleContext C_EMPTY) statsBuf 3 13 policyProbsBuf)
    as (buf' & total' & Hrun & Hlen & _ & _ & Hsum).
  - simpl. lra.
  - simpl. lra.
  - simpl. lia.
  - intros i st Hi. destruct i as [|[|[|i]]]; simpl; intros [= <-]; simpl; lra.
  - intros i Hi. destruct i as [|[|i]]; simpl; lra.
  - exists buf', total'. split; [exact Hrun|]. split; [exact Hlen|].
    apply Hsum; [lia|lra].
Defined.

End StatisticsExamples.


(** ** Tree walks *)

Section ShuffleFacts.
Context {PCG32 : Type} (nextUInt : PCG32 -> Z * PCG32).

Lemma insert_head_perm {A : Type} (l : list A) (j : nat) (a y : A) :
  l !! j = Some y -> y :: <[j := a]> l ≡ₚ a :: l.
Proof.
  revert j. induction l as [|b t IH]; intros [|j] Hj; simpl in *; try discriminate.
  - injection Hj as ->. apply perm_swap.
  - rewrite perm_swap, (IH j Hj). apply perm_swap.
Qed.

Lemma swap_perm {A : Type} (l : list A) (i j : nat) (x y : A) :
  l !! i = Some x -> l !! j = Some y -> <[j := x]> (<[i := y]> l) ≡ₚ l.
Proof.
  revert i j. induction l as [|a t IH]; intros [|i] [|j] Hi Hj; simpl in *;
    try discriminate.
  - injection Hi as ->. injection Hj as ->. reflexivity.
  - injection Hi as ->. now apply insert_head_perm.
  - injection Hj as ->. now apply insert_head_perm.
  - now rewrite (IH i j).
Qed.

Lemma appendRange_spec (n : nat) (randBuf : list Z) :
  for_loop n (fun i randBuf => randBuf ++ [Z.of_nat i]) randBuf
  = randBuf ++ (Z.of_nat <$> seq 0 n).
Proof.
  induction n as [|n IH]; simpl for_loop.
  - simpl. now rewrite app_nil_r.
  - rewrite IH, seq_S, fmap_app, <- app_assoc. reflexivity.
Qed.

(** With a generator, [maybeAppendShuffledIntRange] appends a permutation of
    0, ..., cap-1 to the buffer, keeps what the buffer held, and never reads
    or writes outside of it; without one it leaves the buffer as it is. *)
Theorem maybeAppendShuffledIntRange_spec (cap : Z) (rand : option PCG32)
    (randBuf : list Z) :
  (rand = None ->
   maybeAppendShuffledIntRange nextUInt cap rand randBuf = Some (None, randBuf))
  /\ (forall g, rand = Some g ->
        exists g' seg,
          maybeAppendShuffledIntRange nextUInt cap rand randBuf
          = Some (Some g', randBuf ++ seg)
          /\ seg ≡ₚ (Z.of_nat <$> seq 0 (Z.to_nat cap))).
Proof.
  split; [intros ->; reflexivity|]. intros g ->.
  unfold maybeAppendShuffledIntRange. cbv zeta. rewrite appendRange_spec.
  set (n := Z.to_nat cap). set (s := length randBuf).
  match goal with
  | |- context [for_loopM (n - 1) ?body ?s0] =>
      destruct (for_loopM_total
                  (fun (_ : nat) '(_, buf) =>
                     exists seg, buf = randBuf ++ seg /\ length seg = n
                                 /\ seg ≡ₚ (Z.of_nat <$> seq 0 n))
                  (n - 1) body s0)
        as ([g' buf] & Hrun & seg & -> & _ & Hperm)
  end.
  - eexists. split; [reflexivity|]. split; [|reflexivity].
    now rewrite length_fmap, length_seq.
  - intros k [g1 buf] Hk (seg & -> & Hlen & Hperm).
    destruct (nextUInt g1) as [u g2].
    assert (0 <= u mod (Z.of_nat (Datatypes.S k) + 1) < Z.of_nat (Datatypes.S k) + 1)
      as Hr by (apply Z.mod_pos_bound; lia).
    set (r := Z.to_nat (u mod (Z.of_nat (Datatypes.S k) + 1))) in *.
    destruct (lookup_lt_is_Some_2 seg (Datatypes.S k)) as [tmp Htmp]; [lia|].
    destruct (lookup_lt_is_Some_2 seg r) as [x Hx]; [lia|].
    rewrite !lookup_app_r by lia.
    replace (s + Datatypes.S k - length randBuf)%nat with (Datatypes.S k) by lia.
    replace (s + r - length randBuf)%nat with r by lia.
    rewrite Htmp, Hx. simpl.
    eexists. split; [reflexivity|].
    exists (<[r := tmp]> (<[Datatypes.S k := x]> seg)).
    split; [subst s; now rewrite !insert_app_r|].
    split; [now rewrite !length_insert|].
    now rewrite (swap_perm seg _ _ tmp x).
  - rewrite Hrun. simpl. exists g', seg. split; [reflexivity|exact Hperm].
Qed.

End ShuffleFacts.


Section CycleFacts.
Context `{NodeConstants} `{RandOps}.

(** Every node of [C] is unmarked and has a child in [C]: from a node of
    [C] a walk can go on inside [C] for ever. *)
Definition trapped (age : Z) (C : addr -> Prop) (h : Heap) : Prop :=
  forall a, C a ->
    exists n k i b,
      h !! a = Some n /\ SearchNode.nodeAge n <> age
      /\ numChildrenOf n = Some k /\ (i < k)%nat /\ slotChild n i = Some b /\ C b.

Lemma trapped_marksWithin (age : Z) (C : addr -> Prop) (from : addr) (h h' : Heap) :
  trapped age C h -> marksWithin age from h h' ->
  (forall a, C a -> ~ marked age h' a) -> trapped age C h'.
Proof.
  intros Htr Hm Hun a Ca.
  destruct (Htr a Ca) as (n & k & i & b & Hn & Hrest).
  destruct (Hm a) as [E|(n0 & Hn0 & Hn' & _)].
  - exists n, k, i, b. rewrite E. auto.
  - exfalso. apply (Hun a Ca). eexists. split; [exact Hn'|reflexivity].
Qed.

Lemma trapped_unmarked (age : Z) (C : addr -> Prop) (h : Heap) (a : addr) :
  trapped age C h -> C a -> ~ marked age h a.
Proof.
  intros Htr Ca (n' & Hn' & Hage). destruct (Htr a Ca) as (n & _ & _ & _ & Hn & Hne & _).
  congruence.
Qed.

Lemma readSlot_marksWithin (age : Z) (from node : addr) (h h1 : Heap)
    (n : SearchNode.t) (i : nat) :
  marksWithin age from h h1 -> h !! node = Some n ->
  readSlot h1 node (SearchNode.state n) i ≫= SearchChildPointer.getIfAllocated
  = slotChild n i.
Proof.
  intros Hm Hn.
  destruct (marksWithin_lookup _ _ _ _ _ _ Hm Hn) as (n1 & Hn1 & _ & Hera).
  unfold readSlot. rewrite Hn1. simpl.
  rewrite <- (erased_slotChild n n1 i Hera). unfold slotChild.
  replace (SearchNode.state n1) with (SearchNode.state n)
    by (change (SearchNode.state (SearchNode.set_nodeAge 0 n)
                = SearchNode.state (SearchNode.set_nodeAge 0 n1)); now rewrite Hera).
  destruct (SearchNode.getChildren n1 (SearchNode.state n)).1; reflexivity.
Qed.

Lemma for_loopM_None_mono {S : Type} (body : nat -> S -> option S) (s : S) (j j' : nat) :
  for_loopM j body s = None -> (j <= j')%nat -> for_loopM j' body s = None.
Proof.
  intros Hj Hle. induction Hle as [|j' _ IH]; [exact Hj|]. simpl. now rewrite IH.
Qed.

Lemma applyRecursivelyAnyOrderMulithreadedHelper_trap (age threadIdx : Z)
    (C : addr -> Prop) (fuel : nat) :
  forall (node : addr) (h : Heap),
    trapped age C h ->
    (C node ->
     applyRecursivelyAnyOrderMulithreadedHelper fuel age None threadIdx node h = None)
    /\ (forall h',
          applyRecursivelyAnyOrderMulithreadedHelper fuel age None threadIdx node h = Some h' ->
          forall a, C a -> ~ marked age h' a).
Proof.
  induction fuel as [|fuel IH]; intros node h Htr; [split; [reflexivity|discriminate]|].
  assert (Hloop : forall n k, h !! node = Some n -> numChildrenOf n = Some k ->
            forall j hj, (j <= k)%nat ->
              for_loopM j
                (fun childIdx h =>
                   slot ← readSlot h node (SearchNode.state n) childIdx;
                   child ← SearchChildPointer.getIfAllocated slot;
                   applyRecursivelyAnyOrderMulithreadedHelper fuel age None threadIdx child h)
                h = Some hj ->
              marksWithin age node h hj /\ (forall a, C a -> ~ marked age hj a)).
  { intros n k Hn Hk. induction j as [|j IHj]; intros hj Hj Hfor; cbn [for_loopM] in Hfor.
    - injection Hfor as <-. split; [apply marksWithin_refl|].
      intros a Ca. now apply trapped_unmarked with C.
    - destruct (for_loopM j _ h) as [h1|] eqn:Hprev; simpl in Hfor; [|discriminate].
      destruct (IHj h1 ltac:(lia) eq_refl) as [Hm1 Hun1].
      pose proof (readSlot_marksWithin _ _ _ _ _ _ j Hm1 Hn) as Hslot.
      destruct (readSlot h1 node (SearchNode.state n) j) as [slot|]; simpl in Hfor, Hslot;
        [|discriminate].
      destruct (SearchChildPointer.getIfAllocated slot) as [child|]; simpl in Hfor;
        [|discriminate].
      destruct (applyRecursivelyAnyOrderMulithreadedHelper_spec _ _ _ _ _ _ Hfor)
        as (Hm2 & _ & _).
      split.
      + eapply marksWithin_trans; [exact Hm1|exact Hm2|].
        apply rtc_once. exists n, k, j. split; [exact Hn|]. split; [exact Hk|].
        split; [lia|]. now rewrite <- Hslot.
      + apply (IH child h1); [|exact Hfor].
        now apply (trapped_marksWithin age C node h h1). }
  assert (Hpart1 : C node ->
            applyRecursivelyAnyOrderMulithreadedHelper (Datatypes.S fuel) age None threadIdx
              node h = None).
  { intros Cnode.
    destruct (Htr node Cnode) as (n & k & i & b & Hn & Hage & Hk & Hi & Hb & Cb).
    cbn [applyRecursivelyAnyOrderMulithreadedHelper]. rewrite Hn. simpl.
    rewrite (proj2 (Z.eqb_neq _ _) Hage).
    pose proof Hk as Hcount. unfold numChildrenOf in Hcount.
    destruct (SearchNode.getChildren n (SearchNode.state n)) as [children cap].
    simpl in Hcount. rewrite Hcount. simpl.
    rewrite (proj2 (Nat.ltb_lt 0 k)) by lia.
    match goal with
    | |- context [for_loopM k ?body h] =>
        assert (for_loopM k body h = None) as ->; [|reflexivity]
    end.
    apply for_loopM_None_mono with (Datatypes.S i); [|lia].
    cbn [for_loopM].
    destruct (for_loopM i _ h) as [h1|] eqn:Hprev; [|reflexivity]. simpl.
    destruct (Hloop n k Hn Hk i h1 ltac:(lia) Hprev) as [Hm1 Hun1].
    pose proof (readSlot_marksWithin _ _ _ _ _ _ i Hm1 Hn) as Hslot.
    rewrite Hb in Hslot.
    destruct (readSlot h1 node (SearchNode.state n) i) as [slot|]; simpl in Hslot |- *;
      [|reflexivity].
    rewrite Hslot. simpl.
    apply (IH b h1); [|exact Cb].
    now apply (trapped_marksWithin age C node h h1). }
  split; [exact Hpart1|].
  intros h' Hrun a Ca.
  assert (~ C node) as Hout by (intros Cn; rewrite (Hpart1 Cn) in Hrun; discriminate).
  assert (a <> node) as Hne by congruence.
  cbn [applyRecursivelyAnyOrderMulithreadedHelper] in Hrun.
  destruct (h !! node) as [n|] eqn:Hn; simpl in Hrun; [|discriminate].
  destruct (SearchNode.nodeAge n =? age).
  { injection Hrun as <-. now apply trapped_unmarked with C. }
  destruct (SearchNode.getChildren n (SearchNode.state n)) as [children cap] eqn:Hgc.
  destruct (SearchNode.iterateAndCountChildrenInArray children cap) as [k|] eqn:Hcount;
    simpl in Hrun; [|discriminate].
  assert (Hk : numChildrenOf n = Some k).
  { unfold numChildrenOf. rewrite Hgc. exact Hcount. }
  assert (exists h1, (forall a, C a -> ~ marked age h1 a)
                     /\ (n1 ← h1 !! node;
                         Some (<[node := SearchNode.set_nodeAge age n1]> h1)) = Some h')
    as (h1 & Hun1 & Hend).
  { destruct (0 <? k)%nat.
    - destruct (for_loopM k _ h) as [h1|] eqn:Hfor; simpl in Hrun; [|discriminate].
      exists h1. split; [exact (proj2 (Hloop n k eq_refl Hk k h1 (Nat.le_refl _) Hfor))|].
      destruct (h1 !! node) as [n1|]; simpl in *; [|discriminate].
      destruct (_ =? _) in Hrun; exact Hrun.
    - exists h. split; [intros a0 Ca0; now apply trapped_unmarked with C|].
      simpl in Hrun. destruct (h !! node) as [n1|]; simpl in *; [|discriminate].
      destruct (_ =? _) in Hrun; exact Hrun. }
  destruct (h1 !! node) as [n1|]; simpl in Hend; [|discriminate].
  injection Hend as <-. intros (na & Hna & Hage).
  rewrite lookup_insert_ne in Hna by congruence.
  apply (Hun1 a Ca). exists na. auto.
Qed.

(** The any-order walk has no guard against cycles: started on an unmarked
    node from which some path through unmarked nodes never ends, it returns
    for no depth of recursion. *)
Theorem applyRecursivelyAnyOrderMulithreadedHelper_cycle (age threadIdx : Z)
    (C : addr -> Prop) (fuel : nat) (node : addr) (h : Heap) :
  trapped age C h -> C node ->
  applyRecursivelyAnyOrderMulithreadedHelper fuel age None threadIdx node h = None.
Proof.
  intros Htr Cnode.
  exact (proj1 (applyRecursivelyAnyOrderMulithreadedHelper_trap age threadIdx C fuel node h
                  Htr) Cnode).
Qed.

End CycleFacts.


Section CycleExample.
#[local] Existing Instance toyConstants.
#[local] Existing Instance toyRand.

(** Two positions that lead to each other. *)
Definition cycleHeap : Heap :=
  <[1%nat := toyNode P_BLACK false STATE_EXPANDED0 (Some 10%nat) 0
               (Some [toySlot 2%nat 1 3; toyEmptySlot]) 1]>
    (<[2%nat := toyNode P_WHITE false STATE_EXPANDED0 (Some 11%nat) 0
                  (Some [toySlot 1%nat 1 4; toyEmptySlot]) 1]> ∅).

Lemma applyRecursivelyAnyOrderMulithreadedHelper_cycle_witness :
  applyRecursivelyAnyOrderMulithreadedHelper 100 5 None 0 1%nat cycleHeap = None.
Proof.
  apply (applyRecursivelyAnyOrderMulithreadedHelper_cycle 5 0
           (fun a => a = 1%nat \/ a = 2%nat)); [|left; reflexivity].
  intros a [->| ->].
  - eexists _, 1%nat, 0%nat, 2%nat. split; [reflexivity|].
    split; [discriminate|]. split; [reflexivity|]. split; [lia|].
    split; [reflexivity|right; reflexivity].
  - eexists _, 1%nat, 0%nat, 1%nat. split; [reflexivity|].
    split; [discriminate|]. split; [reflexivity|]. split; [lia|].
    split; [reflexivity|left; reflexivity].
Defined.

End CycleExample.


Section PostOrderFacts.
Context `{NodeConstants} `{RandOps}.

(** What the edges of a node are read from. *)
Definition links (n : SearchNode.t)
  : Z * option (list SearchChildPointer.t) * option (list SearchChildPointer.t)
    * option (list SearchChildPointer.t) :=
  (SearchNode.state n, SearchNode.children0 n, SearchNode.children1 n,
   SearchNode.children2 n).

Definition sameLinks (h h' : Heap) : Prop :=
  forall a, links <$> h' !! a = links <$> h !! a.

Definition sameAge (h h' : Heap) (a : addr) : Prop :=
  SearchNode.nodeAge <$> h' !! a = SearchNode.nodeAge <$> h !! a.

(** A function applied to the nodes that returns on every allocated node and
    keeps the links and the ages of all nodes. *)
Definition keepsTree (g : addr -> Z -> Heap -> option Heap) : Prop :=
  forall node t h, is_Some (h !! node) ->
    exists h', g node t h = Some h' /\ sameLinks h h' /\ forall a, sameAge h h' a.

(** [h'] is [h] with the same links, and with the same ages but for nodes
    reachable from [from] that are now marked. *)
Definition walked (age : Z) (from : addr) (h h' : Heap) : Prop :=
  sameLinks h h'
  /\ forall a, sameAge h h' a \/ (marked age h' a /\ reach h from a).

(** Every child of a marked node is marked or in [B]. *)
Definition closedUpTo (age : Z) (B : gset addr) (h : Heap) : Prop :=
  forall a b, marked age h a -> edge h a b -> marked age h b \/ b ∈ B.

Lemma links_slotChild (n n' : SearchNode.t) (i : nat) :
  links n' = links n -> slotChild n' i = slotChild n i.
Proof.
  unfold links, slotChild, SearchNode.getChildren. intros [= -> -> -> ->]. reflexivity.
Qed.

Lemma links_numChildrenOf (n n' : SearchNode.t) :
  links n' = links n -> numChildrenOf n' = numChildrenOf n.
Proof.
  unfold links, numChildrenOf, SearchNode.getChildren. intros [= -> -> -> ->]. reflexivity.
Qed.

Lemma sameLinks_refl (h : Heap) : sameLinks h h.
Proof. intros a. reflexivity. Qed.

Lemma sameLinks_sym (h h' : Heap) : sameLinks h h' -> sameLinks h' h.
Proof. intros Hs a. symmetry. apply Hs. Qed.

Lemma sameLinks_trans (h h1 h2 : Heap) :
  sameLinks h h1 -> sameLinks h1 h2 -> sameLinks h h2.
Proof. intros H1 H2 a. now rewrite H2, H1. Qed.

Lemma sameLinks_lookup (h h' : Heap) (a : addr) (n : SearchNode.t) :
  sameLinks h h' -> h !! a = Some n -> exists n', h' !! a = Some n' /\ links n' = links n.
Proof.
  intros Hs Hn. specialize (Hs a). rewrite Hn in Hs.
  destruct (h' !! a) as [n'|]; simpl in Hs; [|discriminate].
  exists n'. split; [reflexivity|]. exact (inj Some _ _ Hs).
Qed.

Lemma sameLinks_dom (h h' : Heap) : sameLinks h h' -> dom h' = dom h.
Proof.
  intros Hs. apply set_eq. intros a. rewrite !elem_of_dom. specialize (Hs a).
  destruct (h !! a), (h' !! a); simpl in Hs; try discriminate;
    split; intros [? ?]; try discriminate; eauto.
Qed.

Lemma sameLinks_edge (h h' : Heap) (a b : addr) :
  sameLinks h h' -> edge h a b -> edge h' a b.
Proof.
  intros Hs (n & k & i & Hn & Hk & Hi & Hb).
  destruct (sameLinks_lookup h h' a n Hs Hn) as (n' & Hn' & Hl).
  exists n', k, i. split; [exact Hn'|].
  rewrite (links_numChildrenOf n n' Hl), (links_slotChild n n' i Hl). auto.
Qed.

Lemma sameLinks_reach (h h' : Heap) (a b : addr) :
  sameLinks h h' -> reach h a b -> reach h' a b.
Proof.
  intros Hs Hr. induction Hr as [|x y z Hxy _ IH]; [constructor|].
  eapply rtc_l; [|exact IH]. now apply (sameLinks_edge h h').
Qed.

Lemma sameLinks_wellLinked (h h' : Heap) :
  sameLinks h h' -> wellLinked h -> wellLinked h'.
Proof.
  intros Hs Hw a n' Hn'.
  destruct (sameLinks_lookup h' h a n' (sameLinks_sym _ _ Hs) Hn') as (n & Hn & Hl).
  destruct (Hw a n Hn) as (k & Hk & Hslots).
  exists k. rewrite <- (links_numChildrenOf n' n Hl). split; [exact Hk|].
  intros i Hi. destruct (Hslots i Hi) as (b & Hb & [nb Hnb]).
  exists b. rewrite <- (links_slotChild n' n i Hl). split; [exact Hb|].
  destruct (sameLinks_lookup h h' b nb Hs Hnb) as (nb' & -> & _). eauto.
Qed.

Lemma sameAge_marked (age : Z) (h h' : Heap) (a : addr) :
  sameAge h h' a -> marked age h a -> marked age h' a.
Proof.
  unfold sameAge. intros Hs (n & Hn & Hage). rewrite Hn in Hs.
  destruct (h' !! a) as [n'|] eqn:Hn'; simpl in Hs; [|discriminate].
  exists n'. split; [exact Hn'|]. injection Hs as ->. exact Hage.
Qed.

Lemma sameAge_sym (h h' : Heap) (a : addr) : sameAge h h' a -> sameAge h' h a.
Proof. unfold sameAge. intros ->. reflexivity. Qed.

Lemma walked_refl (age : Z) (from : addr) (h : Heap) : walked age from h h.
Proof. split; [apply sameLinks_refl|]. intros a. left. reflexivity. Qed.

Lemma walked_marked (age : Z) (from : addr) (h h' : Heap) (a : addr) :
  walked age from h h' -> marked age h a -> marked age h' a.
Proof.
  intros [_ Hages] Ha. destruct (Hages a) as [Hs|[Hm _]]; [|exact Hm].
  now apply (sameAge_marked age h h').
Qed.

Lemma walked_trans (age : Z) (from from' : addr) (h h1 h2 : Heap) :
  walked age from h h1 -> walked age from' h1 h2 -> reach h from from' ->
  walked age from h h2.
Proof.
  intros [Hl1 Ha1] [Hl2 Ha2] Hr. split; [now apply (sameLinks_trans h h1 h2)|].
  intros a. destruct (Ha2 a) as [Hs2|[Hm2 Hr2]].
  - destruct (Ha1 a) as [Hs1|[Hm1 Hr1]].
    + left. unfold sameAge in *. now rewrite Hs2, Hs1.
    + right. split; [|exact Hr1]. now apply (sameAge_marked age h1 h2).
  - right. split; [exact Hm2|]. etrans; [exact Hr|].
    apply (sameLinks_reach h1 h); [now apply sameLinks_sym|exact Hr2].
Qed.

Lemma closedUpTo_mono (age : Z) (B B' : gset addr) (h : Heap) :
  B ⊆ B' -> closedUpTo age B h -> closedUpTo age B' h.
Proof.
  intros Hsub Hcl a b Ha Hab. destruct (Hcl a b Ha Hab); [now left|right; set_solver].
Qed.

Lemma readSlot_links (h1 : Heap) (node : addr) (n n1 : SearchNode.t) (i : nat) :
  h1 !! node = Some n1 -> links n1 = links n ->
  readSlot h1 node (SearchNode.state n) i ≫= SearchChildPointer.getIfAllocated
  = slotChild n i.
Proof.
  intros Hn1 Hl. unfold readSlot. rewrite Hn1. simpl.
  rewrite <- (links_slotChild n n1 i Hl). unfold slotChild.
  replace (SearchNode.state n1) with (SearchNode.state n)
    by (unfold links in Hl; congruence).
  destruct (SearchNode.getChildren n1 (SearchNode.state n)).1; reflexivity.
Qed.


(** The end of [applyRecursivelyPostOrderMulithreadedHelper], after the
    children: the second look at the age, [f], and the marking. *)
Definition finishNode (age : Z) (f : option (addr -> Z -> Heap -> option Heap))
    (threadIdx : Z) (node : addr) (nodeBuf : gset addr) (h : Heap)
  : option (gset addr * Heap) :=
  n ← h !! node;
  if (SearchNode.nodeAge n =? age)%Z then Some (nodeBuf, h)
  else
    h ← match f with
        | None => Some h
        | Some f => f node threadIdx h
        end;
    n ← h !! node;
    Some (nodeBuf, <[node := SearchNode.set_nodeAge age n]> h).

Lemma finishNode_spec (age threadIdx : Z) (f : option (addr -> Z -> Heap -> option Heap))
    (node : addr) (B : gset addr) (h h1 : Heap) (n : SearchNode.t) (k : nat) :
  (forall g, f = Some g -> keepsTree g) ->
  h !! node = Some n -> SearchNode.nodeAge n <> age -> node ∉ B ->
  numChildrenOf n = Some k ->
  walked age node h h1 ->
  (forall i b, (i < k)%nat -> slotChild n i = Some b ->
     marked age h1 b \/ b ∈ ({[node]} ∪ B : gset addr)) ->
  (forall a, a ∈ ({[node]} ∪ B : gset addr) -> sameAge h h1 a) ->
  (closedUpTo age B h -> closedUpTo age ({[node]} ∪ B) h1) ->
  exists h',
    finishNode age f threadIdx node B h1 = Some (B, h')
    /\ walked age node h h'
    /\ (marked age h' node \/ node ∈ B)
    /\ (forall a, a ∈ B -> sameAge h h' a)
    /\ (closedUpTo age B h -> closedUpTo age B h').
Proof.
  intros Hf Hn Hage Hout Hk [Hl1 Ha1] Hdone Hsame Hcl.
  destruct (sameLinks_lookup h h1 node n Hl1 Hn) as (n1 & Hn1 & Hln1).
  assert (SearchNode.nodeAge n1 = SearchNode.nodeAge n) as Hage1.
  { pose proof (Hsame node ltac:(set_solver)) as Hs. unfold sameAge in Hs.
    rewrite Hn, Hn1 in Hs. now injection Hs. }
  unfold finishNode. rewrite Hn1. simpl.
  rewrite (proj2 (Z.eqb_neq _ _)) by congruence.
  assert (exists h2, match f with
                     | None => Some h1
                     | Some f => f node threadIdx h1
                     end = Some h2
                     /\ sameLinks h1 h2 /\ forall a, sameAge h1 h2 a)
    as (h2 & -> & Hl2 & Ha2).
  { destruct f as [g|].
    - apply (Hf g eq_refl). eauto.
    - exists h1. split; [reflexivity|]. split; [apply sameLinks_refl|]. intros a. reflexivity. }
  simpl.
  destruct (sameLinks_lookup h1 h2 node n1 Hl2 Hn1) as (n2 & Hn2 & Hln2).
  rewrite Hn2. simpl. eexists. split; [reflexivity|].
  set (h' := <[node := SearchNode.set_nodeAge age n2]> h2).
  assert (Hself : marked age h' node).
  { eexists. unfold h'. rewrite lookup_insert_eq. split; reflexivity. }
  assert (Hkeep : forall x, marked age h1 x -> marked age h' x).
  { intros x Hx. destruct (decide (x = node)) as [->|Hne]; [exact Hself|].
    destruct (sameAge_marked age h1 h2 x (Ha2 x) Hx) as (nx & Hnx & Hax).
    exists nx. unfold h'. rewrite lookup_insert_ne by congruence. auto. }
  assert (Hother : forall x, x <> node -> sameAge h1 h' x).
  { intros x Hne. unfold sameAge, h'. rewrite lookup_insert_ne by congruence. apply Ha2. }
  assert (Hl' : sameLinks h h').
  { intros a. unfold h'. destruct (decide (a = node)) as [->|Hne].
    - rewrite lookup_insert_eq, Hn. simpl. f_equal.
      change (links n2 = links n). congruence.
    - rewrite lookup_insert_ne by congruence. now rewrite Hl2, Hl1. }
  split; [split; [exact Hl'|]|].
  { intros a. destruct (decide (a = node)) as [->|Hne].
    - right. split; [exact Hself|constructor].
    - destruct (Ha1 a) as [Hs|[Hm Hr]].
      + left. unfold sameAge in *. now rewrite (Hother a Hne), Hs.
      + right. split; [now apply Hkeep|exact Hr]. }
  split; [left; exact Hself|].
  split.
  { intros a Ha. assert (a <> node) as Hne by set_solver.
    unfold sameAge. rewrite (Hother a Hne). apply Hsame. set_solver. }
  intros HclB a b Ha Hab.
  assert (Hfin : forall x, marked age h1 x \/ x ∈ ({[node]} ∪ B : gset addr) ->
                           marked age h' x \/ x ∈ B).
  { intros x [Hx|Hx]; [left; now apply Hkeep|].
    destruct (decide (x = node)) as [->|Hne]; [left; exact Hself|right; set_solver]. }
  apply Hfin.
  apply (sameLinks_edge h' h) in Hab; [|now apply sameLinks_sym].
  destruct (decide (a = node)) as [->|Hne].
  - destruct Hab as (n0 & k0 & i & Hn0 & Hk0 & Hi & Hb).
    rewrite Hn in Hn0. injection Hn0 as <-. rewrite Hk in Hk0. injection Hk0 as <-.
    exact (Hdone i b Hi Hb).
  - apply (Hcl HclB a b).
    + apply (sameAge_marked age h' h1); [|exact Ha].
      apply sameAge_sym. now apply Hother.
    + now apply (sameLinks_edge h h1).
Qed.

Lemma applyRecursivelyPostOrderMulithreadedHelper_walk (age threadIdx : Z)
    (f : option (addr -> Z -> Heap -> option Heap)) :
  (forall g, f = Some g -> keepsTree g) ->
  forall (fuel : nat) (node : addr) (B : gset addr) (h : Heap),
    wellLinked h -> is_Some (h !! node) -> (size (dom h ∖ B) < fuel)%nat ->
    exists h',
      applyRecursivelyPostOrderMulithreadedHelper fuel age f threadIdx node B h
      = Some (B, h')
      /\ walked age node h h'
      /\ (marked age h' node \/ node ∈ B)
      /\ (forall a, a ∈ B -> sameAge h h' a)
      /\ (closedUpTo age B h -> closedUpTo age B h').
Proof.
  intros Hf. induction fuel as [|fuel IH]; intros node B h Hw [n Hn] Hsize; [lia|].
  cbn [applyRecursivelyPostOrderMulithreadedHelper]. rewrite Hn. simpl.
  destruct (Z.eqb_spec (SearchNode.nodeAge n) age) as [Hage|Hage].
  { exists h. split; [reflexivity|]. split; [apply walked_refl|].
    split; [left; exists n; auto|]. split; [intros; reflexivity|auto]. }
  destruct (decide (node ∈ B)) as [Hin|Hout].
  { rewrite bool_decide_eq_true_2 by exact Hin.
    exists h. split; [reflexivity|]. split; [apply walked_refl|].
    split; [right; exact Hin|]. split; [intros; reflexivity|auto]. }
  rewrite bool_decide_eq_false_2 by exact Hout.
  destruct (Hw node n Hn) as (k & Hk & Hslots).
  pose proof Hk as Hcount. unfold numChildrenOf in Hcount.
  destruct (SearchNode.getChildren n (SearchNode.state n)) as [children cap].
  simpl in Hcount. rewrite Hcount. simpl.
  destruct (Nat.ltb_spec 0 k) as [Hpos|Hzero].
  - set (B' := ({[node]} ∪ B : gset addr)).
    match goal with
    | |- context [for_loopM k ?body ?s0] =>
        destruct (for_loopM_total
                    (fun j '(Bj, hj) =>
                       Bj = B' /\ walked age node h hj
                       /\ (forall i b, (i < j)%nat -> slotChild n i = Some b ->
                             marked age hj b \/ b ∈ B')
                       /\ (forall a, a ∈ B' -> sameAge h hj a)
                       /\ (closedUpTo age B h -> closedUpTo age B' hj))
                    k body s0)
          as ([Bk h1] & Hrun & -> & Hwk & Hdone & Hsame & Hcl)
    end.
    + split; [reflexivity|]. split; [apply walked_refl|]. split; [intros; lia|].
      split; [intros; reflexivity|]. apply closedUpTo_mono. set_solver.
    + intros j [Bj hj] Hj (-> & Hwk & Hdone & Hsame & Hcl).
      destruct (Hslots j Hj) as (b & Hb & [nb Hnb]).
      destruct (sameLinks_lookup h hj node n (proj1 Hwk) Hn) as (nj & Hnj & Hlj).
      pose proof (readSlot_links hj node n nj j Hnj Hlj) as Hslot. rewrite Hb in Hslot.
      destruct (readSlot hj node (SearchNode.state n) j) as [slot|];
        simpl in Hslot |- *; [|discriminate].
      rewrite Hslot. simpl.
      destruct (IH b B' hj) as (h2 & Hrun2 & Hwk2 & Hb2 & Hsame2 & Hcl2).
      { now apply (sameLinks_wellLinked h hj (proj1 Hwk)). }
      { destruct (sameLinks_lookup h hj b nb (proj1 Hwk) Hnb) as (nb' & -> & _). eauto. }
      { rewrite (sameLinks_dom h hj (proj1 Hwk)).
        assert (size (dom h ∖ B') < size (dom h ∖ B))%nat; [|lia].
        apply subset_size. apply elem_of_dom_2 in Hn. set_solver. }
      exists (B', h2). split; [exact Hrun2|]. split; [reflexivity|].
      split.
      { eapply walked_trans; [exact Hwk|exact Hwk2|].
        apply rtc_once. exists n, k, j. auto. }
      split.
      { intros i b' Hi Hb'. destruct (decide (i = j)) as [->|Hne].
        - assert (b' = b) as -> by congruence. exact Hb2.
        - destruct (Hdone i b' ltac:(lia) Hb') as [Hm|Hm]; [left|right; exact Hm].
          now apply (walked_marked age b hj h2). }
      split.
      { intros a Ha. unfold sameAge. rewrite (Hsame2 a Ha). now apply Hsame. }
      auto.
    + rewrite Hrun. simpl.
      replace (B' ∖ {[node]}) with B by (unfold B'; set_solver).
      now apply (finishNode_spec age threadIdx f node B h h1 n k).
  - assert (k = 0)%nat as -> by lia.
    simpl.
    apply (finishNode_spec age threadIdx f node B h h n 0); auto.
    + apply walked_refl.
    + intros; lia.
    + intros; reflexivity.
    + apply closedUpTo_mono. set_solver.
Qed.

(** The post-order walk copes with cycles: on any memory whose child
    pointers lead to allocated nodes, with a fresh age and a recursion depth
    above the number of nodes, the walk from a node returns with nothing left
    on its path; it has marked exactly the nodes reachable from that node,
    and has changed no link, and no age but those. *)
Theorem applyRecursivelyPostOrderMulithreadedHelper_spec (age threadIdx : Z)
    (f : option (addr -> Z -> Heap -> option Heap)) (fuel : nat) (node : addr)
    (h : Heap) :
  (forall g, f = Some g -> keepsTree g) ->
  wellLinked h -> is_Some (h !! node) ->
  (forall a, ~ marked age h a) ->
  (size (dom h) < fuel)%nat ->
  exists h',
    applyRecursivelyPostOrderMulithreadedHelper fuel age f threadIdx node ∅ h
    = Some (∅, h')
    /\ sameLinks h h'
    /\ (forall a, marked age h' a <-> reach h node a)
    /\ (forall a, ~ reach h node a -> sameAge h h' a).
Proof.
  intros Hf Hw Hnode Hfresh Hsize.
  destruct (applyRecursivelyPostOrderMulithreadedHelper_walk age threadIdx f Hf fuel node
              ∅ h Hw Hnode) as (h' & Hrun & [Hl Ha] & Hm & _ & Hcl).
  { replace (dom h ∖ ∅) with (dom h) by set_solver. exact Hsize. }
  exists h'. split; [exact Hrun|]. split; [exact Hl|].
  assert (closedUpTo age ∅ h') as Hcl'.
  { apply Hcl. intros a b Hma. exfalso. exact (Hfresh a Hma). }
  assert (marked age h' node) as Hnode' by (destruct Hm as [Hm|Hm]; [exact Hm|set_solver]).
  split.
  - intros a. split.
    + intros Hma. destruct (Ha a) as [Hs|[_ Hr]]; [|exact Hr].
      exfalso. apply (Hfresh a). apply (sameAge_marked age h' h); [|exact Hma].
      now apply sameAge_sym.
    + intros Hr. apply (sameLinks_reach h h' _ _ Hl) in Hr.
      assert (Hclosed : forall x y, reach h' x y -> marked age h' x -> marked age h' y).
      { clear -Hcl'. intros x y Hxy. induction Hxy as [|x y z Hxy _ IHr]; [auto|].
        intros Hx. apply IHr. destruct (Hcl' x y Hx Hxy) as [Hy|Hy]; [exact Hy|set_solver]. }
      exact (Hclosed _ _ Hr Hnode').
  - intros a Hnr. destruct (Ha a) as [Hs|[_ Hr]]; [exact Hs|contradiction].
Qed.

End PostOrderFacts.


Section PostOrderExample.
#[local] Existing Instance toyConstants.
#[local] Existing Instance toyRand.

(** A function for the walk that counts its calls in [virtualLosses]. *)
Definition countCall (node : addr) (_ : Z) (h : Heap) : option Heap :=
  n ← h !! node;
  Some (<[node := SearchNode.set_virtualLosses (SearchNode.virtualLosses n + 1) n]> h).

Lemma countCall_keepsTree : keepsTree countCall.
Proof.
  intros node t h [n Hn]. unfold countCall. rewrite Hn. simpl.
  eexists. split; [reflexivity|].
  split; intros a; unfold sameAge; (destruct (decide (a = node)) as [->|Hne];
    [rewrite lookup_insert_eq, Hn; reflexivity|now rewrite lookup_insert_ne by congruence]).
Qed.

Lemma cycleHeap_lookup (a : addr) (n : SearchNode.t) :
  cycleHeap !! a = Some n ->
  (a = 1%nat \/ a = 2%nat) /\ SearchNode.nodeAge n = 0
  /\ numChildrenOf n = Some 1%nat
  /\ exists b, slotChild n 0 = Some b /\ is_Some (cycleHeap !! b).
Proof.
  unfold cycleHeap. intros Hn.
  apply lookup_insert_Some in Hn as [[<- <-]|[_ Hn]].
  { split; [now left|]. split; [reflexivity|]. split; [reflexivity|].
    exists 2%nat. split; [reflexivity|]. eexists. reflexivity. }
  apply lookup_insert_Some in Hn as [[<- <-]|[_ Hn]].
  { split; [now right|]. split; [reflexivity|]. split; [reflexivity|].
    exists 1%nat. split; [reflexivity|]. eexists. reflexivity. }
  now rewrite lookup_empty in Hn.
Qed.

Lemma applyRecursivelyPostOrderMulithreadedHelper_spec_witness :
  exists h',
    applyRecursivelyPostOrderMulithreadedHelper 3 5 (Some countCall) 0 1%nat ∅ cycleHeap
    = Some (∅, h')
    /\ marked 5 h' 1%nat /\ marked 5 h' 2%nat.
Proof.
  destruct (applyRecursivelyPostOrderMulithreadedHelper_spec 5 0 (Some countCall) 3 1%nat
              cycleHeap) as (h' & Hrun & _ & Hmarked & _).
  - intros g [= <-]. exact countCall_keepsTree.
  - intros a n Hn. destruct (cycleHeap_lookup a n Hn) as (_ & _ & Hk & Hb).
    exists 1%nat. split; [exact Hk|]. intros i Hi. assert (i = 0)%nat as -> by lia. exact Hb.
  - eexists. reflexivity.
  - intros a (n & Hn & Hage). destruct (cycleHeap_lookup a n Hn) as (_ & Hzero & _).
    rewrite Hzero in Hage. discriminate.
  - vm_compute. lia.
  - exists h'. split; [exact Hrun|]. split; apply Hmarked; [constructor|].
    apply rtc_once. eexists _, 1%nat, 0%nat. split; [reflexivity|].
    split; [reflexivity|]. split; [lia|reflexivity].
Defined.

End PostOrderExample.


(** ** The dirty counter *)

(** The calls that hold the right to recompute, and the calls that have
    made their first [fetch_add]. *)
Definition isWorking (pc : UpdatePoint) : bool :=
  match pc with AtRecompute _ | AtUndo _ => true | _ => false end.

Definition hasEntered (pc : UpdatePoint) : bool :=
  match pc with AtEntry => false | _ => true end.

Fixpoint countP (p : UpdatePoint -> bool) (calls : list UpdatePoint) : nat :=
  match calls with
  | [] => 0%nat
  | pc :: calls => ((if p pc then 1 else 0) + countP p calls)%nat
  end.

(** Every visit is accounted for: [V] visits at the start, one for each
    call that has entered, of which [dirtyCounter] are still to be added,
    less those that the working call has added and not yet taken back; and
    one call at most is working. *)
Definition accounted (V : Z) (calls : list UpdatePoint) (node : SearchNode.t) : Prop :=
  let dc := SearchNode.dirtyCounter node in
  let V' := visits (SearchNode.stats node) in
  let E := Z.of_nat (countP hasEntered calls) in
  (countP isWorking calls <= 1)%nat
  /\ 0 <= dc <= E
  /\ (countP isWorking calls = 0%nat -> dc = 0 /\ V' = V + E)
  /\ (forall t v, calls !! t = Some (AtRecompute v) -> V' + dc = V + E /\ 1 <= v <= dc)
  /\ (forall t v, calls !! t = Some (AtUndo v) -> V' + dc = V + E + v /\ 1 <= v <= dc).

Section DirtyCounterFacts.
Context (recomputeNodeStats : SearchNode.t -> Z -> bool -> option SearchNode.t).

(** [recomputeNodeStats] returns, adds [numVisitsToAdd] to the visits and
    leaves the dirty counter alone. *)
Hypothesis recomputeNodeStats_visits : forall n v r,
  exists n', recomputeNodeStats n v r = Some n'
    /\ visits (SearchNode.stats n') = visits (SearchNode.stats n) + v
    /\ SearchNode.dirtyCounter n' = SearchNode.dirtyCounter n.

Lemma to_int32_small (z : Z) : - 2 ^ 31 <= z < 2 ^ 31 -> to_int32 z = z.
Proof. intros Hz. unfold to_int32. rewrite Z.mod_small; lia. Qed.

Lemma countP_insert (p : UpdatePoint -> bool) (calls : list UpdatePoint) (t : nat)
    (x y : UpdatePoint) :
  calls !! t = Some x ->
  (countP p (<[t := y]> calls) + (if p x then 1 else 0)
   = countP p calls + (if p y then 1 else 0))%nat.
Proof.
  revert t. induction calls as [|pc calls IH]; intros [|t] Ht; simpl in *; try discriminate.
  - injection Ht as ->. lia.
  - specialize (IH t Ht). lia.
Qed.

Lemma countP_lookup (p : UpdatePoint -> bool) (calls : list UpdatePoint) (t : nat)
    (x : UpdatePoint) :
  calls !! t = Some x ->
  (if p x then 1 <= countP p calls else countP p calls < length calls)%nat.
Proof.
  assert (Hle : forall l, (countP p l <= length l)%nat).
  { induction l as [|pc l IHl]; simpl; [lia|]. destruct (p pc); lia. }
  revert t. induction calls as [|pc calls IH]; intros [|t] Ht; simpl in *; try discriminate.
  - injection Ht as ->. specialize (Hle calls). destruct (p x); lia.
  - specialize (IH t Ht). destruct (p x), (p pc); lia.
Qed.

Lemma countP_unique (p : UpdatePoint -> bool) (calls : list UpdatePoint) (t t' : nat)
    (x y : UpdatePoint) :
  (countP p calls <= 1)%nat -> calls !! t = Some x -> calls !! t' = Some y ->
  p x = true -> p y = true -> t = t'.
Proof.
  revert t t'. induction calls as [|pc calls IH]; intros [|t] [|t'] Hc Ht Ht' Hx Hy;
    simpl in *; try discriminate.
  - reflexivity.
  - injection Ht as ->. rewrite Hx in Hc.
    pose proof (countP_lookup p calls t' y Ht') as Hpos. rewrite Hy in Hpos. lia.
  - injection Ht' as ->. rewrite Hy in Hc.
    pose proof (countP_lookup p calls t x Ht) as Hpos. rewrite Hx in Hpos. lia.
  - f_equal. apply IH; auto. destruct (p pc); lia.
Qed.

Lemma countP_exists (p : UpdatePoint -> bool) (calls : list UpdatePoint) :
  (0 < countP p calls)%nat -> exists t x, calls !! t = Some x /\ p x = true.
Proof.
  induction calls as [|pc calls IH]; simpl; [lia|]. intros Hpos.
  destruct (p pc) eqn:Hp.
  - exists 0%nat, pc. auto.
  - destruct IH as (t & x & Ht & Hx); [lia|]. exists (Datatypes.S t), x. auto.
Qed.

Lemma countP_replicate (p : UpdatePoint -> bool) (k : nat) (x : UpdatePoint) :
  countP p (replicate k x) = (if p x then k else 0)%nat.
Proof. induction k as [|k IH]; simpl; [now destruct (p x)|]. rewrite IH. now destruct (p x). Qed.

Lemma countP_all (p : UpdatePoint -> bool) (calls : list UpdatePoint) :
  Forall (fun x => p x = true) calls -> countP p calls = length calls.
Proof. induction 1 as [|x l Hx _ IH]; simpl; [reflexivity|]. rewrite Hx, IH. reflexivity. Qed.

Lemma accounted_idle (V : Z) (calls : list UpdatePoint) (node : SearchNode.t) :
  accounted V calls node -> SearchNode.dirtyCounter node = 0 ->
  countP isWorking calls = 0%nat.
Proof.
  intros (Hw & Hdc & _ & Hrec & Hundo) Hzero.
  destruct (countP isWorking calls) eqn:Hcount; [reflexivity|].
  destruct (countP_exists isWorking calls) as (t & x & Ht & Hx); [lia|].
  destruct x; try discriminate.
  - destruct (Hrec t _ Ht). lia.
  - destruct (Hundo t _ Ht). lia.
Qed.

Lemma updateStats_step_accounted (isRoot : bool) (V : Z) (calls : list UpdatePoint)
    (node : SearchNode.t) (t : nat) (pc : UpdatePoint) :
  accounted V calls node -> Z.of_nat (length calls) < 2 ^ 31 ->
  calls !! t = Some pc -> pc <> Returned ->
  exists pc' node',
    updateStats_step recomputeNodeStats isRoot pc node = Some (pc', node')
    /\ accounted V (<[t := pc']> calls) node'.
Proof using recomputeNodeStats_visits.
  intros Hacc Hlen Ht Hpc.
  pose proof Hacc as (Hw & Hdc & Hidle & Hrec & Hundo).
  assert (Hins : forall p pc',
            (countP p (<[t := pc']> calls) + (if p pc then 1 else 0)
             = countP p calls + (if p pc' then 1 else 0))%nat)
    by (intros; now apply countP_insert).
  assert (Hother : forall t' x pc', (<[t := pc']> calls) !! t' = Some x ->
            (t' = t /\ x = pc') \/ (t' <> t /\ calls !! t' = Some x)).
  { intros t' x pc' Hx. apply list_lookup_insert_Some in Hx.
    destruct Hx as [(-> & -> & _)|[Hne Hx]]; [left|right]; auto. }
  assert (Hsole : forall t' x, t' <> t -> calls !! t' = Some x -> isWorking pc = true ->
            isWorking x = true -> False).
  { intros t' x Hne Hx Hwpc Hwx. apply Hne.
    exact (countP_unique isWorking calls t' t x pc Hw Hx Ht Hwx Hwpc). }
  pose proof (countP_lookup hasEntered calls t pc Ht) as Hent.
  pose proof (countP_lookup isWorking calls t pc Ht) as Hwork.
  assert (Z.of_nat (countP hasEntered calls) <= Z.of_nat (length calls)) as HE.
  { clear. induction calls as [|x l IH]; simpl; [lia|]. destruct (hasEntered x); lia. }
  destruct pc as [|v|v|]; [| | |congruence]; simpl in Hent, Hwork;
    unfold updateStats_step.
  - (* the first fetch_add *)
    rewrite (proj2 (Z.leb_le 0 _)) by lia. simpl.
    rewrite to_int32_small by lia.
    destruct (Z.ltb_spec 0 (SearchNode.dirtyCounter node)) as [Hpos|Hzero].
    + eexists _, _. split; [reflexivity|]. unfold accounted. simpl.
      pose proof (Hins isWorking Returned) as Hi1. pose proof (Hins hasEntered Returned) as Hi2.
      simpl in Hi1, Hi2.
      split; [lia|]. split; [lia|].
      split; [intros Hz; destruct Hidle; lia|].
      split; intros t' v' Hx; (destruct (Hother _ _ _ Hx) as [[_ [=]]|[Hne Hx']]);
        [destruct (Hrec _ _ Hx')|destruct (Hundo _ _ Hx')]; lia.
    + assert (SearchNode.dirtyCounter node = 0) as Hz by lia.
      pose proof (accounted_idle V calls node Hacc Hz) as Hnone.
      destruct (Hidle Hnone) as [_ HV].
      eexists _, _. split; [reflexivity|]. unfold accounted. simpl.
      pose proof (Hins isWorking (AtRecompute 1)) as Hi1.
      pose proof (Hins hasEntered (AtRecompute 1)) as Hi2. simpl in Hi1, Hi2.
      split; [lia|]. split; [lia|]. split; [lia|].
      split; intros t' v' Hx; (destruct (Hother _ _ _ Hx) as [[_ [=]]|[Hne Hx']]);
        try (subst; lia);
        (pose proof (countP_lookup isWorking calls t' _ Hx') as Hc; simpl in Hc; lia).
  - (* recomputeNodeStats *)
    destruct (Hrec t v Ht) as [Heq Hv].
    destruct (recomputeNodeStats_visits node v isRoot) as (node1 & -> & HV1 & Hdc1). simpl.
    eexists _, _. split; [reflexivity|]. unfold accounted. rewrite HV1, Hdc1.
    pose proof (Hins isWorking (AtUndo v)) as Hi1.
    pose proof (Hins hasEntered (AtUndo v)) as Hi2. simpl in Hi1, Hi2.
    split; [lia|]. split; [lia|]. split; [lia|].
    split; intros t' v' Hx; (destruct (Hother _ _ _ Hx) as [[_ [=]]|[Hne Hx']]);
      try (subst; lia); exfalso; now apply (Hsole t' _ Hne Hx').
  - (* the fetch_add that takes the visits back *)
    destruct (Hundo t v Ht) as [Heq Hv].
    rewrite to_int32_small by lia.
    destruct (Z.leb_spec (SearchNode.dirtyCounter node - v) 0) as [Hdone|Hmore].
    + rewrite (proj2 (Z.eqb_eq _ 0)) by lia. simpl.
      eexists _, _. split; [reflexivity|]. unfold accounted. simpl.
      pose proof (Hins isWorking Returned) as Hi1.
      pose proof (Hins hasEntered Returned) as Hi2. simpl in Hi1, Hi2.
      split; [lia|]. split; [lia|]. split; [lia|].
      split; intros t' v' Hx; (destruct (Hother _ _ _ Hx) as [[_ [=]]|[Hne Hx']]);
        exfalso; now apply (Hsole t' _ Hne Hx').
    + eexists _, _. split; [reflexivity|]. unfold accounted. simpl.
      pose proof (Hins isWorking (AtRecompute (SearchNode.dirtyCounter node - v))) as Hi1.
      pose proof (Hins hasEntered (AtRecompute (SearchNode.dirtyCounter node - v))) as Hi2.
      simpl in Hi1, Hi2.
      split; [lia|]. split; [lia|]. split; [lia|].
      split; intros t' v' Hx; (destruct (Hother _ _ _ Hx) as [[_ [=]]|[Hne Hx']]);
        try (subst; lia); exfalso; now apply (Hsole t' _ Hne Hx').
Qed.

(** No visit is lost and no assertion fails, however the calls interleave:
    for fewer than 2^31 calls of [updateStatsAfterPlayout] on a node whose
    dirty counter is 0, every schedule runs through; at each moment one call
    at most is recomputing and the visits are accounted for; and once all
    calls have returned, the dirty counter is 0 again and the visits have
    grown by the number of calls. *)
Theorem updateStatsAfterPlayout_interleaved (isRoot : bool) (schedule : list nat)
    (k : nat) (node : SearchNode.t) :
  Z.of_nat k < 2 ^ 31 ->
  SearchNode.dirtyCounter node = 0 ->
  exists calls node',
    runUpdates recomputeNodeStats isRoot schedule (replicate k AtEntry) node
    = Some (calls, node')
    /\ length calls = k
    /\ accounted (visits (SearchNode.stats node)) calls node'
    /\ (Forall (fun pc => pc = Returned) calls ->
        SearchNode.dirtyCounter node' = 0
        /\ visits (SearchNode.stats node') = visits (SearchNode.stats node) + Z.of_nat k).
Proof using recomputeNodeStats_visits.
  intros Hk Hzero.
  set (V := visits (SearchNode.stats node)).
  assert (Hrun : forall schedule calls n,
            accounted V calls n -> length calls = k ->
            exists calls' n',
              runUpdates recomputeNodeStats isRoot schedule calls n = Some (calls', n')
              /\ length calls' = k /\ accounted V calls' n').
  { clear schedule. induction schedule as [|t schedule IH]; intros calls n Hacc Hlen.
    - exists calls, n. auto.
    - cbn [runUpdates].
      destruct (calls !! t) as [pc|] eqn:Ht; [|now apply IH].
      assert (pc = Returned \/ pc <> Returned) as [->|Hpc]
        by (destruct pc; [right; discriminate..|left; reflexivity]);
        [now apply IH|].
      destruct (updateStats_step_accounted isRoot V calls n t pc Hacc ltac:(lia) Ht Hpc)
        as (pc' & n' & Hstep & Hacc').
      rewrite Hstep. simpl.
      destruct (IH (<[t := pc']> calls) n' Hacc') as (calls' & n'' & Hr & Hl & Ha).
      { now rewrite length_insert. }
      exists calls', n''. split; [|auto].
      destruct pc; try congruence; exact Hr. }
  destruct (Hrun schedule (replicate k AtEntry) node) as (calls & node' & Hr & Hl & Ha).
  { unfold accounted. rewrite !countP_replicate. simpl. rewrite Hzero. unfold V.
    split; [lia|]. split; [lia|]. split; [lia|].
    split; intros t v Hx; apply lookup_replicate in Hx; destruct Hx; discriminate. }
  { apply length_replicate. }
  exists calls, node'. split; [exact Hr|]. split; [exact Hl|]. split; [exact Ha|].
  intros Hall. destruct Ha as (_ & _ & Hidle & _).
  assert (countP isWorking calls = 0%nat) as Hnone.
  { clear -Hall. induction Hall as [|x l -> _ IH]; simpl; auto. }
  assert (countP hasEntered calls = k) as Hent.
  { rewrite <- Hl. apply countP_all. eapply Forall_impl; [exact Hall|].
    intros x ->. reflexivity. }
  destruct (Hidle Hnone) as [Hdc HV]. rewrite Hent in HV. auto.
Qed.

End DirtyCounterFacts.


Section DirtyCounterExample.

(** A stand-in for [recomputeNodeStats] that adds the visits and nothing
    else. *)
Definition addVisitsOnly (n : SearchNode.t) (numVisitsToAdd : Z) (_ : bool)
  : option SearchNode.t :=
  let st := SearchNode.stats n in
  Some (SearchNode.mk (SearchNode.nextPla n) (SearchNode.forceNonTerminal n)
          (SearchNode.patternBonusHash n) (SearchNode.mutexIdx n) (SearchNode.state n)
          (SearchNode.nnOutput n) (SearchNode.nodeAge n) (SearchNode.children0 n)
          (SearchNode.children1 n) (SearchNode.children2 n)
          (mkNodeStats (visits st + numVisitsToAdd) (winLossValueAvg st)
             (noResultValueAvg st) (scoreMeanAvg st) (scoreMeanSqAvg st) (leadAvg st)
             (utilityAvg st) (utilitySqAvg st) (weightSum st) (weightSqSum st))
          (SearchNode.virtualLosses n) (SearchNode.lastSubtreeValueBiasDeltaSum n)
          (SearchNode.lastSubtreeValueBiasWeight n)
          (SearchNode.subtreeValueBiasTableEntry n) (SearchNode.dirtyCounter n)).

(** Three calls: the first takes the counter from 0, the other two pass by
    while it recomputes, and it adds their visits in a second round. *)
Lemma updateStatsAfterPlayout_interleaved_witness :
  exists node',
    runUpdates addVisitsOnly true [0; 1; 2; 0; 0; 0; 0]%nat (replicate 3 AtEntry) exampleNode
    = Some ([Returned; Returned; Returned], node')
    /\ SearchNode.dirtyCounter node' = 0
    /\ visits (SearchNode.stats node') = 3.
Proof.
  destruct (updateStatsAfterPlayout_interleaved addVisitsOnly
              ltac:(intros; eexists; split; [reflexivity|]; split; reflexivity)
              true [0; 1; 2; 0; 0; 0; 0]%nat 3 exampleNode)
    as (calls & node' & Hrun & _ & _ & Hfinal); [lia|reflexivity|].
  assert (calls = [Returned; Returned; Returned]) as Hcalls
    by (vm_compute in Hrun; congruence).
  exists node'. split; [rewrite Hrun, Hcalls; reflexivity|].
  apply Hfinal. rewrite Hcalls. repeat constructor.
Defined.

End DirtyCounterExample.


(** ** Root children *)

Section RootChildrenFacts.
Context `{NodeConstants} `{GameOps}.
Context (isLegal : Loc -> bool) (r : RootPruning).

(** The root keeps a child when its move is legal and allowed. *)
Definition keepAtRoot (slot : SearchChildPointer.t) : bool :=
  isLegal (SearchChildPointer.moveLoc slot)
  && match isAllowedRootMove r (SearchChildPointer.moveLoc slot) with
     | Some allowed => allowed
     | None => false
     end.

(** A slot of the root that holds a child whose move is the pass or on the
    board. *)
Definition rootChildSlot (slot : SearchChildPointer.t) : Prop :=
  is_Some (SearchChildPointer.data slot)
  /\ ((SearchChildPointer.moveLoc slot =? PASS_LOC r)
      || isOnBoard r (SearchChildPointer.moveLoc slot) = true).

Definition sumEdgeVisits (slots : list SearchChildPointer.t) : Z :=
  foldr (fun s acc => SearchChildPointer.edgeVisits s + acc) 0 slots.

Definition emptySlot : SearchChildPointer.t := SearchChildPointer.init.

Lemma isAllowedRootMove_total (moveLoc : Loc) :
  (moveLoc =? PASS_LOC r) || isOnBoard r moveLoc = true ->
  is_Some (isAllowedRootMove r moveLoc).
Proof.
  intros Hok. unfold isAllowedRootMove. rewrite Hok.
  match goal with
  | |- context [if (6 <=? ?l)%nat then ?a else ?b] =>
      assert (is_Some (if (6 <=? l)%nat then a else b)) as [u Hu]
  end.
  { destruct (Nat.leb_spec 6 (length (moves r) - 1)) as [Hlen|Hlen]; [|eauto].
    repeat match goal with
           | |- is_Some (mbind _ ?x) =>
               let E := fresh "E" in
               destruct x as [?|] eqn:E;
                 [simpl|apply lookup_ge_None in E; unfold Loc in *; lia]
           end.
    eauto. }
  rewrite Hu. simpl.
  repeat (match goal with
          | |- context [if ?c then _ else _] => destruct c
          end; simpl); eauto.
Qed.

Lemma replicate_cons_comm {A : Type} (d : nat) (x : A) (l : list A) :
  replicate d x ++ x :: l = x :: replicate d x ++ l.
Proof. induction d as [|d IH]; simpl; [reflexivity|]. now rewrite IH. Qed.

Lemma filterRootChildrenFrom_spec (rest : list SearchChildPointer.t) :
  forall (Q K : list SearchChildPointer.t) (d : nat) (D : list addr) (any : bool)
         (todo : nat),
    Forall rootChildSlot Q -> (length Q <= todo)%nat ->
    ((length Q < todo)%nat ->
     exists s0 rest', rest = s0 :: rest' /\ SearchChildPointer.data s0 = None) ->
    filterRootChildrenFrom isLegal r todo (length K + d)
      (K ++ replicate d emptySlot ++ Q ++ rest) (length K) D any
    = Some ((length K + d + length Q)%nat,
            (K ++ List.filter keepAtRoot Q)
              ++ replicate (d + length Q - length (List.filter keepAtRoot Q)) emptySlot
              ++ rest,
            (length K + length (List.filter keepAtRoot Q))%nat,
            D ++ omap SearchChildPointer.data
                   (List.filter (fun s => negb (keepAtRoot s)) Q),
            any || negb (forallb keepAtRoot Q)).
Proof.
  induction Q as [|s Q IH]; intros K d D any todo Hall Hlen Hrest.
  - simpl. rewrite !app_nil_r, !Nat.add_0_r, Nat.sub_0_r, orb_false_r.
    destruct todo as [|todo]; [reflexivity|].
    destruct Hrest as (s0 & rest' & -> & Hs0); [simpl; lia|].
    cbn [filterRootChildrenFrom].
    assert ((K ++ replicate d emptySlot ++ s0 :: rest') !! (length K + d)%nat = Some s0)
      as ->.
    { rewrite app_assoc, lookup_app_r by (rewrite length_app, length_replicate; lia).
      rewrite length_app, length_replicate, Nat.sub_diag. reflexivity. }
    simpl. unfold SearchChildPointer.getIfAllocated. rewrite Hs0. reflexivity.
  - destruct todo as [|todo]; [simpl in Hlen; lia|].
    inversion Hall as [|? ? [[c Hc] Hboard] Hall']; subst.
    cbn [filterRootChildrenFrom].
    assert ((K ++ replicate d emptySlot ++ (s :: Q) ++ rest) !! (length K + d)%nat
            = Some s) as ->.
    { rewrite app_assoc, lookup_app_r by (rewrite length_app, length_replicate; lia).
      rewrite length_app, length_replicate, Nat.sub_diag. reflexivity. }
    simpl. unfold SearchChildPointer.getIfAllocated. rewrite Hc.
    assert (<[(length K + d)%nat :=
                SearchChildPointer.setMoveLoc NULL_LOC
                  (SearchChildPointer.setEdgeVisits 0 (SearchChildPointer.store None s))]>
              (K ++ replicate d emptySlot ++ s :: Q ++ rest)
            = K ++ emptySlot :: replicate d emptySlot ++ Q ++ rest) as ->.
    { rewrite insert_app_r.
      replace d with (length (replicate d emptySlot) + 0)%nat at 1
        by (rewrite length_replicate; lia).
      rewrite insert_app_r. simpl. now rewrite replicate_cons_comm. }
    assert ((if isLegal (SearchChildPointer.getMoveLoc s)
             then isAllowedRootMove r (SearchChildPointer.getMoveLoc s)
             else Some false) = Some (keepAtRoot s)) as ->.
    { unfold keepAtRoot, SearchChildPointer.getMoveLoc.
      destruct (isLegal (SearchChildPointer.moveLoc s)); [|reflexivity].
      destruct (isAllowedRootMove_total _ Hboard) as [b ->]. reflexivity. }
    simpl. destruct (keepAtRoot s) eqn:Hkeep.
    + assert ((K ++ emptySlot :: replicate d emptySlot ++ Q ++ rest) !! length K
              = Some emptySlot) as ->.
      { rewrite lookup_app_r by lia. now rewrite Nat.sub_diag. }
      simpl.
      replace (length K) with (length K + 0)%nat at 2 by lia.
      rewrite insert_app_r. simpl.
      assert (SearchChildPointer.setMoveLoc (SearchChildPointer.getMoveLoc s)
                (SearchChildPointer.setEdgeVisits (SearchChildPointer.getEdgeVisits s)
                   (SearchChildPointer.store (Some c) emptySlot)) = s) as ->.
      { destruct s. simpl in *. now rewrite Hc. }
      specialize (IH (K ++ [s]) d D any todo Hall').
      rewrite length_app in IH. simpl in IH.
      replace (Datatypes.S (length K + d)) with (length K + 1 + d)%nat by lia.
      replace (Datatypes.S (length K)) with (length K + 1)%nat by lia.
      rewrite <- !app_assoc in IH. simpl in IH. rewrite IH.
      * replace (d + Datatypes.S (length Q)
                 - Datatypes.S (length (List.filter keepAtRoot Q)))%nat
          with (d + length Q - length (List.filter keepAtRoot Q))%nat by lia.
        replace (length K + d + Datatypes.S (length Q))%nat
          with (length K + 1 + d + length Q)%nat by lia.
        replace (length K + Datatypes.S (length (List.filter keepAtRoot Q)))%nat
          with (length K + 1 + length (List.filter keepAtRoot Q))%nat by lia.
        now rewrite <- app_assoc.
      * simpl in Hlen. lia.
      * intros Hlt. apply Hrest. simpl. lia.
    + specialize (IH K (Datatypes.S d) (D ++ [c]) true todo Hall').
      simpl in IH.
      replace (Datatypes.S (length K + d)) with (length K + Datatypes.S d)%nat by lia.
      rewrite IH.
      * simpl. rewrite Hc. simpl. rewrite <- (app_assoc D). simpl. rewrite orb_true_r.
        replace (Datatypes.S (d + length Q))%nat with (d + Datatypes.S (length Q))%nat
          by lia.
        replace (length K + Datatypes.S d + length Q)%nat
          with (length K + d + Datatypes.S (length Q))%nat by lia.
        reflexivity.
      * simpl in Hlen. lia.
      * intros Hlt. apply Hrest. simpl. lia.
Qed.

Lemma sumEdgeVisitsFrom_spec (tail : list SearchChildPointer.t) :
  forall (L A : list SearchChildPointer.t) (todo : nat) (acc : Z),
    Forall (fun s => is_Some (SearchChildPointer.data s)) L ->
    (length L < todo)%nat ->
    (exists s0 tail', tail = s0 :: tail' /\ SearchChildPointer.data s0 = None) ->
    sumEdgeVisitsFrom todo (length A) (A ++ L ++ tail) acc = Some (acc + sumEdgeVisits L).
Proof.
  induction L as [|s L IH]; intros A todo acc Hall Hlen Htail;
    (destruct todo as [|todo]; [simpl in Hlen; lia|]); cbn [sumEdgeVisitsFrom].
  - destruct Htail as (s0 & tail' & -> & Hs0). simpl.
    rewrite lookup_app_r by lia. rewrite Nat.sub_diag. simpl.
    unfold SearchChildPointer.getIfAllocated. rewrite Hs0. f_equal. lia.
  - inversion Hall as [|? ? [c Hc] Hall']; subst.
    rewrite lookup_app_r by lia. rewrite Nat.sub_diag. simpl.
    unfold SearchChildPointer.getIfAllocated. rewrite Hc.
    specialize (IH (A ++ [s]) todo (acc + SearchChildPointer.getEdgeVisits s) Hall').
    rewrite length_app, <- app_assoc in IH. simpl in IH.
    replace (Datatypes.S (length A)) with (length A + 1)%nat by lia.
    rewrite IH; [|simpl in Hlen; lia|exact Htail].
    unfold SearchChildPointer.getEdgeVisits. f_equal. lia.
Qed.

(** The filtering of the root's children in place is a filter: of the
    leading slots that hold children it keeps, in order and with their edge
    visits and moves, those whose move is legal and allowed at the root; the
    slots that this frees are empty, the rest of the array is as before,
    [filteredNodes] lists the children dropped, and when any was dropped the
    root's visits become 1 plus the edge visits of the children kept. *)
Theorem filterRootChildren_spec (childrenCapacity : nat)
    (prefix rest : list SearchChildPointer.t) :
  Forall rootChildSlot prefix ->
  Forall (fun s => SearchChildPointer.data s = None)
    (take (childrenCapacity - length prefix) rest) ->
  (length prefix <= childrenCapacity <= length (prefix ++ rest))%nat ->
  let kept := List.filter keepAtRoot prefix in
  let dropped :=
    omap SearchChildPointer.data (List.filter (fun s => negb (keepAtRoot s)) prefix) in
  filterRootChildren isLegal r childrenCapacity (prefix ++ rest)
  = Some (kept ++ replicate (length prefix - length kept) emptySlot ++ rest,
          dropped,
          negb (forallb keepAtRoot prefix),
          if forallb keepAtRoot prefix then None else Some (sumEdgeVisits kept + 1)).
Proof.
  intros Hprefix Hrest [Hlen Hcap] kept dropped. rewrite length_app in Hcap.
  assert (Hnext : (length prefix < childrenCapacity)%nat ->
            exists s0 rest', rest = s0 :: rest' /\ SearchChildPointer.data s0 = None).
  { intros Hlt. destruct rest as [|s0 rest']; [simpl in Hcap; lia|].
    exists s0, rest'. split; [reflexivity|].
    destruct (childrenCapacity - length prefix)%nat as [|m] eqn:Hm; [lia|].
    simpl in Hrest. now inversion Hrest. }
  unfold filterRootChildren.
  pose proof (filterRootChildrenFrom_spec rest prefix [] 0 [] false childrenCapacity
                Hprefix Hlen Hnext) as Hloop.
  simpl in Hloop. rewrite Hloop. simpl. fold kept dropped.
  assert (Hk : (length kept <= length prefix)%nat) by apply List.filter_length_le.
  assert (assertRestEmpty childrenCapacity (length prefix)
            (kept ++ replicate (length prefix - length kept) emptySlot ++ rest) = Some tt)
    as ->.
  { unfold assertRestEmpty.
    destruct (for_loopM_total (fun _ _ => True) (childrenCapacity - length prefix)
                (fun (k : nat) (_ : unit) =>
                   slot ← (kept ++ replicate (length prefix - length kept) emptySlot ++ rest)
                            !! (length prefix + k)%nat;
                   assert (bool_decide (SearchChildPointer.getIfAllocated slot = None)))
                tt) as ([] & -> & _); [exact I| |reflexivity].
    intros k [] Hk' _.
    rewrite app_assoc, lookup_app_r by (rewrite length_app, length_replicate; lia).
    rewrite length_app, length_replicate.
    replace (length prefix + k - (length kept + (length prefix - length kept)))%nat
      with k by lia.
    destruct (lookup_lt_is_Some_2 rest k) as [s Hs]; [lia|]. rewrite Hs. simpl.
    assert (SearchChildPointer.data s = None) as Hnone.
    { rewrite Forall_lookup in Hrest. apply (Hrest k).
      rewrite lookup_take_lt by lia. exact Hs. }
    unfold SearchChildPointer.getIfAllocated.
    rewrite bool_decide_eq_true_2 by exact Hnone. exists tt. auto. }
  simpl. destruct (forallb keepAtRoot prefix) eqn:Hall; simpl; [reflexivity|].
  assert (length kept < length prefix)%nat as Hlt.
  { destruct (decide (length kept = length prefix)) as [Heq|Hne]; [|lia].
    exfalso. unfold kept in Heq.
    assert (forallb keepAtRoot prefix = true); [|congruence].
    clear -Heq. induction prefix as [|s l IH]; [reflexivity|]. simpl in *.
    pose proof (List.filter_length_le keepAtRoot l).
    destruct (keepAtRoot s); simpl in *; [apply IH; lia|lia]. }
  pose proof (sumEdgeVisitsFrom_spec
                (replicate (length prefix - length kept) emptySlot ++ rest) kept []
                childrenCapacity 0) as Hsum.
  simpl in Hsum. rewrite Hsum; [reflexivity| |lia|].
  - unfold kept. clear -Hprefix. induction Hprefix as [|s l [Hs _] _ IH]; simpl;
      [constructor|]. destruct (keepAtRoot s); [constructor; assumption|assumption].
  - destruct (length prefix - length kept)%nat as [|m] eqn:Hm; [lia|].
    simpl. eexists _, _. split; reflexivity.
Qed.

End RootChildrenFacts.


Section RootChildrenExample.
#[local] Existing Instance toyConstants.
#[local] Existing Instance toyGame.

(** Black to move at the root; point 4 duplicates another by symmetry, and
    point 5 is not legal. *)
Definition exampleRootPruning : RootPruning :=
  mkRootPruning false true P_BLACK [] (fun _ => C_EMPTY) (fun loc => loc =? 4)
    (fun _ => true) toyPass.

Definition exampleRootSlots : list SearchChildPointer.t :=
  [toySlot 7%nat 3 2; toySlot 8%nat 5 4; toySlot 9%nat 2 5; toySlot 10%nat 1 toyPass].

Lemma filterRootChildren_spec_witness :
  filterRootChildren (fun loc => negb (loc =? 5)) exampleRootPruning 8
    (exampleRootSlots ++ replicate 4 toyEmptySlot)
  = Some ([toySlot 7%nat 3 2; toySlot 10%nat 1 toyPass; toyEmptySlot; toyEmptySlot]
            ++ replicate 4 toyEmptySlot,
          [8%nat; 9%nat], true, Some 5).
Proof.
  rewrite (filterRootChildren_spec (fun loc => negb (loc =? 5)) exampleRootPruning 8
             exampleRootSlots (replicate 4 toyEmptySlot)).
  - reflexivity.
  - repeat constructor; eexists; reflexivity.
  - repeat constructor.
  - simpl. lia.
Defined.

End RootChildrenExample.


(** ** The memory that [clearSearch] frees *)

Section ClearMemoryFacts.
Context `{NodeConstants} `{RandOps} `{GameOps}.

(** [a] is a node of one of the first [k] shards of the table. *)
Definition inShards (k : nat) (tbl : list (list (Hash128 * addr))) (a : addr) : Prop :=
  exists i shard e, (i < k)%nat /\ tbl !! i = Some shard /\ e ∈ shard /\ e.2 = a.

Lemma deleteEntries_None (nodeMap : list (Hash128 * addr)) (h : Heap) (a : addr) :
  h !! a = None ->
  foldl (fun h (e : Hash128 * addr) => delete e.2 h) h nodeMap !! a = None.
Proof.
  revert h. induction nodeMap as [|e nodeMap IH]; intros h Hnone; simpl; [exact Hnone|].
  apply IH. apply lookup_delete_None. now right.
Qed.

Lemma deleteEntries_spec (nodeMap : list (Hash128 * addr)) (h : Heap) (a : addr) :
  ((exists e, e ∈ nodeMap /\ e.2 = a) ->
   foldl (fun h (e : Hash128 * addr) => delete e.2 h) h nodeMap !! a = None)
  /\ ((forall e, e ∈ nodeMap -> e.2 <> a) ->
      foldl (fun h (e : Hash128 * addr) => delete e.2 h) h nodeMap !! a = h !! a).
Proof.
  revert h. induction nodeMap as [|e nodeMap IH]; intros h; simpl.
  - split; [|reflexivity]. intros (e & He & _). now apply elem_of_nil in He.
  - destruct (IH (delete e.2 h)) as [IH1 IH2]. split.
    + intros (e0 & He0 & Ha). apply elem_of_cons in He0 as [->|He0].
      * apply deleteEntries_None. rewrite <- Ha. apply lookup_delete_eq.
      * apply IH1. eauto.
    + intros Hall. rewrite IH2 by (intros e0 He0; apply Hall; now right).
      apply lookup_delete_ne. apply Hall. now left.
Qed.

Lemma clearShards_exact (s : Search) (k : nat) :
  (k <= length (nodeTable s))%nat ->
  exists hp,
    loopFrom 0 k clearShard s
    = Some (withTree s (searchNodeAge s) (effectiveSearchTimeCarriedOver s) (rootNode s)
              (replicate k [] ++ drop k (nodeTable s)) (numThreadsSpawned s)
              (oldNNOutputsToCleanUp s) hp)
    /\ (forall a, inShards k (nodeTable s) a -> hp !! a = None)
    /\ (forall a, ~ inShards k (nodeTable s) a -> hp !! a = heap s !! a).
Proof.
  unfold loopFrom. induction k as [|k IH]; intros Hk.
  - exists (heap s). simpl. rewrite drop_0. split; [now rewrite <- withTree_id|].
    split; [intros a (i & _ & _ & Hi & _); lia|reflexivity].
  - destruct IH as (hp & Hrun & Hin & Hout); [lia|].
    cbn [for_loopM]. rewrite Hrun. simpl. unfold clearShard. simpl.
    destruct (lookup_lt_is_Some_2 (nodeTable s) k) as [shard Hshard]; [lia|].
    assert ((replicate k [] ++ drop k (nodeTable s)) !! k = Some shard) as ->.
    { rewrite lookup_app_r by (rewrite length_replicate; lia).
      rewrite length_replicate, Nat.sub_diag, lookup_drop, Nat.add_0_r. exact Hshard. }
    simpl. eexists. split.
    { assert (<[k := []]> (replicate k [] ++ drop k (nodeTable s))
              = [] :: replicate k [] ++ drop (Datatypes.S k) (nodeTable s)) as ->;
        [|reflexivity].
      rewrite (drop_S _ shard k Hshard).
      rewrite insert_app_r_alt by (rewrite length_replicate; lia).
      rewrite length_replicate, Nat.sub_diag. simpl.
      apply replicate_cons_comm. }
    split.
    + intros a (i & sh & e & Hi & Hsh & He & Ha).
      destruct (decide (i = k)) as [->|Hne].
      * apply deleteEntries_spec.
        exists e. rewrite Hshard in Hsh. injection Hsh as ->. auto.
      * apply deleteEntries_None.
        apply Hin. exists i, sh, e. split; [lia|auto].
    + intros a Hnot. simpl. rewrite (proj2 (deleteEntries_spec shard hp a)).
      * apply Hout. intros (i & sh & e & Hi & Hrest). apply Hnot.
        exists i, sh, e. split; [lia|exact Hrest].
      * intros e He Ha. apply Hnot. exists k, shard, e. split; [lia|auto].
Qed.

Lemma deleteAllTableNodesMulithreaded_exact (s : Search) :
  1 <= SearchParams.numThreads (searchParams s) < 2 ^ 31 ->
  Z.of_nat (length (nodeTable s)) < 2 ^ 32 ->
  exists hp,
    deleteAllTableNodesMulithreaded s
    = Some (withTree s (searchNodeAge s) (effectiveSearchTimeCarriedOver s) (rootNode s)
              (replicate (length (nodeTable s)) [])
              (numThreadsSpawned (spawnThreadsIfNeeded s)) (oldNNOutputsToCleanUp s) hp)
    /\ (forall a, inShards (length (nodeTable s)) (nodeTable s) a -> hp !! a = None)
    /\ (forall a, ~ inShards (length (nodeTable s)) (nodeTable s) a ->
          hp !! a = heap s !! a).
Proof.
  intros Hthreads Hsize. rewrite deleteAllTableNodesMulithreaded_unfold.
  assert (Hn : 0 <= numAdditionalThreadsToUseForTasks s)
    by (unfold numAdditionalThreadsToUseForTasks; lia).
  rewrite (proj2 (Z.leb_le 0 _) Hn). simpl.
  rewrite sharded_tasks;
    [|exact Hn|unfold numAdditionalThreadsToUseForTasks; lia|exact Hsize
     |apply clearShard_sameShape].
  assert (Hspawn : spawnThreadsIfNeeded s
                   = withTree s (searchNodeAge s) (effectiveSearchTimeCarriedOver s)
                       (rootNode s) (nodeTable s)
                       (numThreadsSpawned (spawnThreadsIfNeeded s))
                       (oldNNOutputsToCleanUp s) (heap s)).
  { unfold spawnThreadsIfNeeded. destruct (_ <=? _); [apply withTree_id|reflexivity]. }
  destruct (clearShards_exact (spawnThreadsIfNeeded s) (length (nodeTable s)))
    as (hp & Hrun & Hin & Hout).
  { rewrite Hspawn. simpl. lia. }
  exists hp. rewrite Hrun. rewrite Hspawn in Hin, Hout |- *. simpl in *.
  rewrite drop_all, app_nil_r. auto.
Qed.

(** The search as [clearSearch] leaves it. *)
Definition cleared (s : Search) (hp : Heap) : Search :=
  withTree s 0 0%float None (replicate (length (nodeTable s)) [])
    (numThreadsSpawned (spawnThreadsIfNeeded s)) [] hp.

(** [clearSearch] frees the nodes of the table and the root, and no other
    node; and clearing a search that is cleared changes nothing. *)
Theorem clearSearch_frees (s : Search) :
  1 <= SearchParams.numThreads (searchParams s) < 2 ^ 31 ->
  Z.of_nat (length (nodeTable s)) < 2 ^ 32 ->
  exists s',
    clearSearch s = Some s'
    /\ (forall a, inShards (length (nodeTable s)) (nodeTable s) a \/ rootNode s = Some a ->
          heap s' !! a = None)
    /\ (forall a, ~ inShards (length (nodeTable s)) (nodeTable s) a ->
          rootNode s <> Some a -> heap s' !! a = heap s !! a)
    /\ clearSearch s' = Some s'.
Proof.
  intros Hthreads Hsize.
  assert (Hfirst : forall s0 : Search,
            1 <= SearchParams.numThreads (searchParams s0) < 2 ^ 31 ->
            Z.of_nat (length (nodeTable s0)) < 2 ^ 32 ->
            exists hp,
              clearSearch s0 = Some (cleared s0 hp)
              /\ (forall a, inShards (length (nodeTable s0)) (nodeTable s0) a
                            \/ rootNode s0 = Some a -> hp !! a = None)
              /\ (forall a, ~ inShards (length (nodeTable s0)) (nodeTable s0) a ->
                    rootNode s0 <> Some a -> hp !! a = heap s0 !! a)).
  { intros s0 Ht Hs. unfold clearSearch.
    destruct (deleteAllTableNodesMulithreaded_exact
                (set_effectiveSearchTimeCarriedOver 0%float s0) Ht Hs)
      as (hp & -> & Hin & Hout).
    assert (numThreadsSpawned
              (spawnThreadsIfNeeded (set_effectiveSearchTimeCarriedOver 0%float s0))
            = numThreadsSpawned (spawnThreadsIfNeeded s0)) as ->.
    { unfold spawnThreadsIfNeeded, numAdditionalThreadsToUseForTasks. simpl.
      now destruct (_ <=? _). }
    simpl in *. destruct (rootNode s0) as [root|] eqn:Hroot; simpl.
    - exists (delete root hp). split; [reflexivity|]. split.
      + intros a [Ha|[= <-]]; [|apply lookup_delete_eq].
        destruct (decide (root = a)) as [->|Hne]; [apply lookup_delete_eq|].
        rewrite lookup_delete_ne by exact Hne. now apply Hin.
      + intros a Ha Hne. rewrite lookup_delete_ne by congruence. now apply Hout.
    - exists hp. split; [reflexivity|]. split.
      + intros a [Ha|Ha]; [now apply Hin|discriminate].
      + intros a Ha _. now apply Hout. }
  destruct (Hfirst s Hthreads Hsize) as (hp & Hrun & Hin & Hout).
  exists (cleared s hp). split; [exact Hrun|]. split; [exact Hin|]. split; [exact Hout|].
  destruct (Hfirst (cleared s hp)) as (hp' & Hrun' & _ & Hout').
  { exact Hthreads. }
  { simpl. now rewrite length_replicate. }
  rewrite Hrun'. f_equal.
  assert (hp' = hp) as ->.
  { apply map_eq. intros a. apply Hout'; [|discriminate].
    simpl. intros (i & shard & e & _ & Hshard & He & _).
    apply lookup_replicate in Hshard as [-> _]. now apply elem_of_nil in He. }
  unfold cleared, withTree. simpl. rewrite length_replicate. f_equal.
  unfold spawnThreadsIfNeeded, numAdditionalThreadsToUseForTasks. simpl.
  destruct (Z.leb_spec (SearchParams.numThreads (searchParams s) - 1) (numThreadsSpawned s));
    simpl.
  - now rewrite (proj2 (Z.leb_le _ _)) by lia.
  - now rewrite Z.leb_refl.
Qed.

End ClearMemoryFacts.


Section ClearMemoryExample.
#[local] Existing Instance toyConstants.
#[local] Existing Instance toyRand.
#[local] Existing Instance toyGame.

Lemma clearSearch_frees_witness :
  exists s',
    clearSearch toySearch = Some s'
    /\ heap s' !! 1%nat = None /\ heap s' !! 4%nat = None
    /\ clearSearch s' = Some s'.
Proof.
  destruct (clearSearch_frees toySearch) as (s' & Hrun & Hfreed & _ & Hagain);
    [simpl; lia|simpl; lia|].
  exists s'. split; [exact Hrun|]. split; [|split; [|exact Hagain]]; apply Hfreed.
  - right. reflexivity.
  - left. exists 0%nat, [((0, 2), 2%nat); ((0, 4), 4%nat)], ((0, 4), 4%nat).
    split; [simpl; lia|]. split; [reflexivity|]. split; [|reflexivity].
    right. left.
Defined.

End ClearMemoryExample.


(** ** Selection values at a node *)

Section NodeSelectionFacts.
Local Open Scope R_scope.
Context `{NodeConstants} `{GameOps}.
Context (expectedWhiteScoreValue : R -> R -> R -> R -> Board -> R).

Lemma Rgeb_spec (x y : R) : reflect (x >= y) (Rgeb x y).
Proof. unfold Rgeb. destruct (Rge_dec x y); constructor; assumption. Qed.

Lemma ownershipPenalty_sign (e : EndingBonusContext) (owner : nat -> R) (moveLoc : Loc) :
  0 <= eb_rootEndingBonusPoints e ->
  ownershipPenalty e owner moveLoc 0 <= 0.
Proof.
  intros Hpts. unfold ownershipPenalty.
  set (o := if decide (eb_rootPla e = P_WHITE) then _ else _).
  destruct (Rleb_spec o (- (0.95))) as [Hlow|Hlow].
  - assert (0 <= (- (0.95) - o) / 0.05) as Hf by (apply Rle_mult_inv_pos; lra).
    nra.
  - destruct (Rgeb_spec o 0.95) as [Hhigh|Hhigh]; [|lra].
    destruct (_ && _); [|lra].
    assert (0 <= (o - 0.95) / 0.05) as Hf by (apply Rle_mult_inv_pos; lra).
    nra.
Qed.

(** The ending bonus never favours the move of the root player: with
    [rootEndingBonusPoints] not negative, in white's points it is not
    positive when white is to move at the root and not negative otherwise
    (every branch takes a product of factors that are not negative away from
    0).  It is 0 away from the root, for the null move and without an
    ownership map, and it is returned whenever the sizes of the net output
    are those of the search.  Only the sign is claimed, not the size of the
    penalty. *)
Theorem getEndingWhiteScoreBonus_penalty (e : EndingBonusContext) (parentIsRoot : bool)
    (nnOutput : option OwnerOutput) (moveLoc : Loc) :
  0 <= eb_rootEndingBonusPoints e ->
  (forall bonus,
     getEndingWhiteScoreBonus e parentIsRoot nnOutput moveLoc = Some bonus ->
     let forRootPla := if decide (eb_rootPla e = P_WHITE) then bonus else - bonus in
     forRootPla <= 0)
  /\ (parentIsRoot = false \/ moveLoc = NULL_LOC \/ nnOutput = None
      \/ (exists out, nnOutput = Some out /\ whiteOwnerMap out = None) ->
      getEndingWhiteScoreBonus e parentIsRoot nnOutput moveLoc = Some 0)
  /\ ((forall out, nnOutput = Some out ->
         out_nnXLen out = eb_nnXLen e /\ out_nnYLen out = eb_nnYLen e) ->
      is_Some (getEndingWhiteScoreBonus e parentIsRoot nnOutput moveLoc)).
Proof.
  intros Hpts. unfold getEndingWhiteScoreBonus.
  split; [|split].
  - intros bonus Hrun.
    destruct (negb parentIsRoot || (moveLoc =? NULL_LOC)%Z).
    { injection Hrun as <-. destruct (decide _); lra. }
    destruct nnOutput as [out|]; [|injection Hrun as <-; destruct (decide _); lra].
    destruct (whiteOwnerMap out) as [owner|] eqn:Hmap;
      [|injection Hrun as <-; destruct (decide _); lra].
    destruct (assert (out_nnXLen out =? eb_nnXLen e)%Z); simpl in Hrun; [|discriminate].
    destruct (assert (out_nnYLen out =? eb_nnYLen e)%Z); simpl in Hrun; [|discriminate].
    pose proof (ownershipPenalty_sign e owner moveLoc Hpts) as Hpen.
    match type of Hrun with
    | (if _ then Some ?x else _) = _ => assert (x <= 0) as Hx
    end.
    { destruct (_ || _).
      - destruct (moveLoc =? eb_PASS_LOC e)%Z; simpl.
        + destruct (eb_hasButton e); lra.
        + destruct (eb_ko_loc e =? NULL_LOC)%Z; simpl; lra.
      - destruct (moveLoc =? eb_PASS_LOC e)%Z; [lra|].
        destruct (eb_ko_loc e =? NULL_LOC)%Z; lra. }
    destruct (decide (eb_rootPla e = P_WHITE)); injection Hrun as <-; lra.
  - intros [->|[->|[->|(out & -> & Hmap)]]].
    + reflexivity.
    + rewrite Z.eqb_refl, orb_true_r. reflexivity.
    + now destruct (_ || _).
    + rewrite Hmap. now destruct (_ || _).
  - intros Hsizes. destruct (_ || _); [eauto|].
    destruct nnOutput as [out|]; [|eauto].
    destruct (whiteOwnerMap out); [|eauto].
    destruct (Hsizes out eq_refl) as [-> ->]. rewrite !Z.eqb_refl. simpl.
    destruct (decide _); eauto.
Qed.

(** First-play urgency: on a node with visits and weight the function
    returns, with a weight per visit that is not negative; without blending
    ([fpuParentWeight] not positive) the parent's utility is the node's
    average as stored; with a loss proportion of 0 the value given to the
    children not yet visited is, for the player to move, no better than the
    parent's utility; and with a weight of 1 at most the stdev factor is
    exactly 1 (the quotient of the prior by itself, less 1, is 0). *)
Theorem getFpuValueForChildrenAssumeVisited_spec (fp : FpuParams.t) (c : ValueContext)
    (stats : NodeStats) (nnOutput : option NNOutputValues) (pla : Player) (isRoot : bool)
    (policyProbMassVisited : R) :
  let searchParams := vc_searchParams c in
  let utilityRadius :=
    ValueParams.winLossUtilityFactor searchParams
    + ValueParams.staticScoreUtilityFactor searchParams
    + ValueParams.dynamicScoreUtilityFactor searchParams in
  (0 < ns_visits stats)%Z -> 0 < ns_weightSum stats -> 0 <= policyProbMassVisited ->
  FpuParams.fpuParentWeight fp <= 0 \/ is_Some nnOutput ->
  0 <= FpuParams.rootFpuReductionMax fp -> 0 <= FpuParams.fpuReductionMax fp ->
  exists fpuValue parentUtility parentWeightPerVisit parentUtilityStdevFactor,
    getFpuValueForChildrenAssumeVisited expectedWhiteScoreValue fp c stats nnOutput pla
      isRoot policyProbMassVisited
    = Some (fpuValue, parentUtility, parentWeightPerVisit, parentUtilityStdevFactor)
    /\ 0 <= parentWeightPerVisit
    /\ ((if isRoot then FpuParams.rootFpuLossProp fp else FpuParams.fpuLossProp fp) = 0 ->
        (pla = P_WHITE -> fpuValue <= parentUtility)
        /\ (pla <> P_WHITE -> parentUtility <= fpuValue))
    /\ (FpuParams.fpuParentWeight fp <= 0 -> parentUtility = ns_utilityAvg stats)
    /\ (ns_weightSum stats <= 1 -> FpuParams.cpuctUtilityStdevPrior fp <> 0 ->
        parentUtilityStdevFactor = 1).
Proof.
  intros searchParams utilityRadius Hvisits Hweight Hmass Hnn Hrmax Hmax.
  unfold getFpuValueForChildrenAssumeVisited. fold searchParams.
  rewrite (proj2 (Z.ltb_lt 0 _) Hvisits). simpl.
  destruct (Rgtb_spec (ns_weightSum stats) 0) as [_|Hno]; [|lra]. simpl.
  assert (0 < IZR (ns_visits stats)) as Hv by (apply IZR_lt; exact Hvisits).
  match goal with
  | |- context [mbind _ ?m] =>
      assert (exists pu, m = Some pu
                /\ (FpuParams.fpuParentWeight fp <= 0 -> pu = ns_utilityAvg stats))
        as (pu & -> & Hpu)
  end.
  { destruct (Rgtb_spec (FpuParams.fpuParentWeight fp) 0) as [Hpos|Hnpos].
    - destruct Hnn as [Hle|[out ->]]; [lra|]. simpl. eexists. split; [reflexivity|lra].
    - eexists. split; [reflexivity|reflexivity]. }
  simpl. eexists _, _, _, _. split; [reflexivity|].
  set (red := (if isRoot then FpuParams.rootFpuReductionMax fp
               else FpuParams.fpuReductionMax fp) * sqrt policyProbMassVisited).
  set (lp := if isRoot then FpuParams.rootFpuLossProp fp else FpuParams.fpuLossProp fp).
  assert (0 <= red) as Hred.
  { unfold red. pose proof (sqrt_pos policyProbMassVisited).
    destruct isRoot; apply Rmult_le_pos; assumption. }
  split; [left; apply Rdiv_lt_0_compat; assumption|].
  split; [|split; [exact Hpu|]].
  - fold lp. intros Hlp. rewrite Hlp. split.
    + intros Hpla. destruct (decide (pla = P_WHITE)) as [_|Hn]; [|contradiction]. lra.
    + intros Hpla. destruct (decide (pla = P_WHITE)) as [Hy|_]; [contradiction|]. lra.
  - intros Hone Hprior.
    rewrite (proj2 (Z.leb_gt _ _) Hvisits). simpl.
    destruct (Rleb_spec (ns_weightSum stats) 1) as [_|Hno]; [|lra].
    field. exact Hprior.
Qed.


End NodeSelectionFacts.


Section NodeSelectionExample.
Local Open Scope R_scope.
#[local] Existing Instance toyConstants.
#[local] Existing Instance toyGame.

(** Area scoring on a 3x3 net output, white to move at the root, the point
    1 next to white's stones. *)
Definition exampleEndingBonus : EndingBonusContext :=
  mkEndingBonusContext (1/2) SCORING_AREA 0 false P_WHITE NULL_LOC 3 3 Z.to_nat
    (fun loc _ => (loc =? 1)%Z) (fun _ _ => false) 9%Z.

Definition exampleOwnerOutput : OwnerOutput :=
  mkOwnerOutput 3 3 (Some (fun _ => 1)).

Definition exampleFpuParams : FpuParams.t := FpuParams.mk 0.4 2 0.85 0 0.1 0.2 0 0.5.

Definition exampleParentStats : NodeStats := mkStats 4 0 0 0 0 0 (1/4) (1/8) 6 10.


Lemma getEndingWhiteScoreBonus_penalty_witness :
  getEndingWhiteScoreBonus exampleEndingBonus false (Some exampleOwnerOutput) 1%Z = Some 0
  /\ is_Some (getEndingWhiteScoreBonus exampleEndingBonus true (Some exampleOwnerOutput) 1%Z).
Proof.
  split.
  - apply (getEndingWhiteScoreBonus_penalty exampleEndingBonus false
             (Some exampleOwnerOutput) 1%Z).
    + simpl. lra.
    + left. reflexivity.
  - apply (getEndingWhiteScoreBonus_penalty exampleEndingBonus true
             (Some exampleOwnerOutput) 1%Z).
    + simpl. lra.
    + intros out [= <-]. split; reflexivity.
Defined.

Lemma getFpuValueForChildrenAssumeVisited_spec_witness :
  exists fpuValue parentWeightPerVisit parentUtilityStdevFactor,
    getFpuValueForChildrenAssumeVisited (fun _ _ _ _ _ => 0) exampleFpuParams
      (exampleContext C_EMPTY) exampleParentStats None P_WHITE true (1/4)
    = Some (fpuValue, 1/4, parentWeightPerVisit, parentUtilityStdevFactor)
    /\ fpuValue <= 1/4
    /\ 0 <= parentWeightPerVisit.
Proof.
  destruct (getFpuValueForChildrenAssumeVisited_spec (fun _ _ _ _ _ => 0)
              exampleFpuParams (exampleContext C_EMPTY) exampleParentStats None P_WHITE
              true (1/4))
    as (fpuValue & parentUtility & perVisit & factor & Hrun & Hper & Hloss & Hparent & _);
    [reflexivity | simpl; lra | lra | left; simpl; lra | simpl; lra | simpl; lra |].
  assert (parentUtility = 1/4) as -> by (apply Hparent; simpl; lra).
  exists fpuValue, perVisit, factor. split; [exact Hrun|]. split.
  - apply Hloss; reflexivity.
  - exact Hper.
Defined.


End NodeSelectionExample.

(** ** Recomputing the statistics of a node *)

Section RecomputeFacts.
Local Open Scope R_scope.
Context `{GameOps}.
Context (expectedWhiteScoreValue : R -> R -> R -> R -> Board -> R)
        (whiteDScoreValueDScoreSmoothNoDrawAdjust : R -> R -> R -> Board -> R)
        (pow : R -> R -> R)
        (getCdf : R -> R).

(** The entries [0 .. n-1] of the buffer hold children whose statistics
    satisfy [P], with visits and a weight that is not negative, and [W] is
    the sum of their weights. *)
Definition weighted (P : NodeStats -> Prop) (n : nat) (buf : list MoreNodeStats) (W : R)
  : Prop :=
  (forall i, (i < n)%nat ->
     exists st, buf !! i = Some st /\ P (ms_stats st) /\ 0 <= weightAdjusted st
                /\ (0 < ns_visits (ms_stats st))%Z)
  /\ W = weightSumTo buf n.

Lemma weightSumTo_insert_ge (buf : list MoreNodeStats) (k i : nat) (st : MoreNodeStats) :
  (k <= i)%nat -> weightSumTo (<[i := st]> buf) k = weightSumTo buf k.
Proof.
  intros Hk. induction k as [|k IH]; simpl; [reflexivity|].
  rewrite IH by lia. now rewrite list_lookup_insert_ne by lia.
Qed.

Lemma weighted_insert_ge (P : NodeStats -> Prop) (n i : nat) (buf : list MoreNodeStats)
    (W : R) (st : MoreNodeStats) :
  (n <= i)%nat -> weighted P n buf W -> weighted P n (<[i := st]> buf) W.
Proof.
  intros Hi [Hall Hsum]. split.
  - intros j Hj. rewrite list_lookup_insert_ne by lia. now apply Hall.
  - now rewrite weightSumTo_insert_ge.
Qed.

Lemma gatherChildStats_spec (P : NodeStats -> Prop) (nextPla : Player)
    (childStats : gmap addr NodeStats) (children : list SearchChildPointer.t) :
  forall (statsBuf : list MoreNodeStats) (n : nat) (W : R),
    (n + length children <= length statsBuf)%nat ->
    (forall slot child, slot ∈ children ->
       SearchChildPointer.getIfAllocated slot = Some child ->
       exists s, childStats !! child = Some s /\ P s) ->
    weighted P n statsBuf W ->
    exists buf' n' W',
      gatherChildStats nextPla childStats children statsBuf n W = Some (buf', n', W')
      /\ length buf' = length statsBuf
      /\ (n' <= n + length children)%nat
      /\ weighted P n' buf' W'.
Proof.
  induction children as [|slot children IH]; intros statsBuf n W Hlen Hchildren Hinv.
  { exists statsBuf, n, W. repeat split; try apply Hinv. lia. }
  simpl in Hlen. simpl.
  destruct (SearchChildPointer.getIfAllocated slot) as [child|] eqn:Hchild.
  2:{ exists statsBuf, n, W. repeat split; try apply Hinv. lia. }
  destruct (lookup_lt_is_Some_2 statsBuf n) as [st Hst]; [lia|].
  destruct (Hchildren slot child) as (s & Hs & HP); [left|exact Hchild|].
  rewrite Hst, Hs. simpl.
  assert (forall slot child, slot ∈ children ->
            SearchChildPointer.getIfAllocated slot = Some child ->
            exists s, childStats !! child = Some s /\ P s) as Hrest.
  { intros slot' child' Hin. apply Hchildren. now right. }
  destruct (Z.leb_spec (ns_visits s) 0) as [Hv|Hv]; simpl.
  { destruct (IH (<[n := mkMoreStats s (selfUtility st) (weightAdjusted st)
                            (prevMoveLoc st)]> statsBuf) n W)
      as (buf' & n' & W' & Hrun & Hlen' & Hn' & Hinv');
      [rewrite length_insert; lia|exact Hrest|now apply weighted_insert_ge|].
    exists buf', n', W'. rewrite length_insert in Hlen'.
    repeat split; try apply Hinv'; auto. lia. }
  destruct (Rleb_spec (ns_weightSum s) 0) as [Hw|Hw]; simpl.
  { destruct (IH (<[n := mkMoreStats s (selfUtility st) (weightAdjusted st)
                            (prevMoveLoc st)]> statsBuf) n W)
      as (buf' & n' & W' & Hrun & Hlen' & Hn' & Hinv');
      [rewrite length_insert; lia|exact Hrest|now apply weighted_insert_ge|].
    exists buf', n', W'. rewrite length_insert in Hlen'.
    repeat split; try apply Hinv'; auto. lia. }
  destruct (Z.leb_spec (SearchChildPointer.getEdgeVisits slot) 0) as [He|He]; simpl.
  { destruct (IH (<[n := mkMoreStats s (selfUtility st) (weightAdjusted st)
                            (prevMoveLoc st)]> statsBuf) n W)
      as (buf' & n' & W' & Hrun & Hlen' & Hn' & Hinv');
      [rewrite length_insert; lia|exact Hrest|now apply weighted_insert_ge|].
    exists buf', n', W'. rewrite length_insert in Hlen'.
    repeat split; try apply Hinv'; auto. lia. }
  set (w := ns_weightSum s
            * (IZR (SearchChildPointer.getEdgeVisits slot) / IZR (ns_visits s))).
  set (new := mkMoreStats s _ w _).
  assert (0 < w) as Hpos.
  { unfold w. apply Rmult_lt_0_compat; [lra|].
    apply Rdiv_lt_0_compat; apply IZR_lt; lia. }
  destruct (IH (<[n := new]> statsBuf) (Datatypes.S n) (W + w))
    as (buf' & n' & W' & Hrun & Hlen' & Hn' & Hinv');
    [rewrite length_insert; lia|exact Hrest| |].
  { destruct Hinv as [Hall Hsum]. split.
    - intros i Hi. destruct (decide (i = n)) as [->|Hne].
      + exists new. rewrite list_lookup_insert_eq by lia.
        split; [reflexivity|]. simpl. repeat split; auto; lra.
      + rewrite list_lookup_insert_ne by lia. apply Hall. lia.
    - simpl. rewrite weightSumTo_insert_ge by lia.
      rewrite list_lookup_insert_eq by lia. simpl. now rewrite Hsum. }
  exists buf', n', W'. rewrite length_insert in Hlen'.
  repeat split; try apply Hinv'; auto. lia.
Qed.

Lemma weighted_lookup (P : NodeStats -> Prop) (n i : nat) (buf : list MoreNodeStats)
    (W : R) (st : MoreNodeStats) :
  weighted P n buf W -> (i < n)%nat -> buf !! i = Some st ->
  P (ms_stats st) /\ 0 <= weightAdjusted st /\ (0 < ns_visits (ms_stats st))%Z.
Proof.
  intros [Hall _] Hi Hst. destruct (Hall i Hi) as (st' & Hst' & Hp).
  assert (st' = st) as -> by congruence. exact Hp.
Qed.

Lemma weighted_nonneg (P : NodeStats -> Prop) (n : nat) (buf : list MoreNodeStats) (W : R) :
  weighted P n buf W ->
  forall j, (j < n)%nat -> 0 <= from_option weightAdjusted 0 (buf !! j).
Proof.
  intros [Hall _] j Hj. destruct (Hall j Hj) as (st & -> & _ & Hw & _). exact Hw.
Qed.

Lemma weightSumTo_some_pos (buf : list MoreNodeStats) (k : nat) :
  0 < weightSumTo buf k ->
  exists i st, (i < k)%nat /\ buf !! i = Some st /\ 0 < weightAdjusted st.
Proof.
  induction k as [|k IH]; simpl; [lra|]. intros Hpos.
  destruct (Rlt_dec 0 (weightSumTo buf k)) as [Hk|Hk].
  - destruct (IH Hk) as (i & st & Hi & Hst & Hw). exists i, st. repeat split; auto.
  - destruct (buf !! k) as [st|] eqn:Hst; simpl in Hpos; [|lra].
    exists k, st. repeat split; auto; lra.
Qed.

(** The loop of [recomputeNodeStats] that finds the largest weight. *)
Lemma maxChildWeight_spec (P : NodeStats -> Prop) (n : nat) (buf : list MoreNodeStats)
    (W : R) :
  weighted P n buf W ->
  exists m,
    for_loopM n
      (fun i maxChildWeight =>
         st ← buf !! i;
         Some (if Rgtb (weightAdjusted st) maxChildWeight then weightAdjusted st
               else maxChildWeight)) 0 = Some m
    /\ (forall i st, (i < n)%nat -> buf !! i = Some st -> weightAdjusted st <= m)
    /\ (0 < m -> exists i st, (i < n)%nat /\ buf !! i = Some st /\ weightAdjusted st = m).
Proof.
  intros [Hall _].
  apply (for_loopM_total
           (fun k m =>
              (forall i st, (i < k)%nat -> buf !! i = Some st -> weightAdjusted st <= m)
              /\ (0 < m -> exists i st, (i < k)%nat /\ buf !! i = Some st
                                        /\ weightAdjusted st = m))).
  - split; [intros; lia|intros; lra].
  - intros k m Hk [Hle Hmax]. destruct (Hall k Hk) as (st & Hst & _).
    rewrite Hst. simpl. eexists. split; [reflexivity|].
    destruct (Rgtb_spec (weightAdjusted st) m) as [Hgt|Hngt].
    + split.
      * intros i st' Hi Hst'. destruct (decide (i = k)) as [->|Hne].
        -- assert (st' = st) as -> by congruence. lra.
        -- pose proof (Hle i st' ltac:(lia) Hst'). lra.
      * intros _. exists k, st. repeat split; auto.
    + split.
      * intros i st' Hi Hst'. destruct (decide (i = k)) as [->|Hne].
        -- assert (st' = st) as -> by congruence. lra.
        -- apply (Hle i st'); [lia|exact Hst'].
      * intros Hm. destruct (Hmax Hm) as (i & st' & Hi & Hst' & Hw).
        exists i, st'. repeat split; auto.
Qed.

(** Some child keeps weight under the amounts that [recomputeNodeStats]
    passes on. *)
Lemma recompute_amounts_keep (P : NodeStats -> Prop) (n : nat) (buf : list MoreNodeStats)
    (W m a b : R) :
  weighted P n buf W ->
  (forall i st, (i < n)%nat -> buf !! i = Some st -> weightAdjusted st <= m) ->
  (0 < m -> exists i st, (i < n)%nat /\ buf !! i = Some st /\ weightAdjusted st = m) ->
  0 < W ->
  exists i st, (i < n)%nat /\ buf !! i = Some st
    /\ Rmin b (m / 64) <= weightAdjusted st /\ Rmin a (m / 64) < weightAdjusted st.
Proof.
  intros Hinv Hle Hmax HW. destruct Hinv as [Hall ->].
  destruct (weightSumTo_some_pos _ _ HW) as (i & st & Hi & Hst & Hw).
  pose proof (Hle i st Hi Hst) as Hm.
  destruct (Hmax ltac:(lra)) as (i0 & st0 & Hi0 & Hst0 & Hw0).
  exists i0, st0. repeat split; auto.
  - pose proof (Rmin_r b (m / 64)). lra.
  - pose proof (Rmin_r a (m / 64)). lra.
Qed.

Lemma unit_amounts_keep (P : NodeStats -> Prop) (n : nat) (buf : list MoreNodeStats)
    (W : R) :
  weighted P n buf W -> 0 < W ->
  exists i st, (i < n)%nat /\ buf !! i = Some st
    /\ 0 <= weightAdjusted st /\ 0 < weightAdjusted st.
Proof.
  intros [_ ->] HW.
  destruct (weightSumTo_some_pos _ _ HW) as (i & st & Hi & Hst & Hw).
  exists i, st. repeat split; auto; lra.
Qed.

(** The loop of [recomputeNodeStats] that fills [policyProbsBuf]. *)
Lemma policyProbsBuf_spec (P : NodeStats -> Prop) (n : nat) (buf : list MoreNodeStats)
    (W : R) (MAX_NN_POLICY_SIZE : Z) (policyProbs : nat -> R) (getPos : Loc -> nat)
    (policyProbsBuf : darray) :
  weighted P n buf W -> (Z.of_nat n <= MAX_NN_POLICY_SIZE)%Z ->
  exists policyProbsBuf',
    for_loopM n
      (fun i policyProbsBuf =>
         _ ← assert (Z.of_nat i <? MAX_NN_POLICY_SIZE)%Z;
         st ← buf !! i;
         Some (upd policyProbsBuf i (Rmax 1e-30 (policyProbs (getPos (prevMoveLoc st))))))
      policyProbsBuf = Some policyProbsBuf'
    /\ forall i, (i < n)%nat -> 0 <= policyProbsBuf' i.
Proof.
  intros [Hall _] Hmax.
  apply (for_loopM_total (fun k (pb : darray) => forall i, (i < k)%nat -> 0 <= pb i)).
  - intros; lia.
  - intros k pb Hk Hpb. destruct (Hall k Hk) as (st & Hst & _).
    rewrite Hst. rewrite (proj2 (Z.ltb_lt _ _)) by lia. simpl.
    eexists. split; [reflexivity|].
    intros i Hi. unfold upd. destruct (Nat.eqb_spec i k) as [->|Hne].
    + pose proof (Rmax_l 1e-30 (policyProbs (getPos (prevMoveLoc st)))). lra.
    + apply Hpb. lia.
Qed.

(** The run of [downweightBadChildrenAndNormalizeWeight] with value
    weighting, for a cdf that is not negative and a power that is
    positive on positive numbers. *)
Lemma downweight_valued_run (c : ValueContext) (MAX_NN_POLICY_SIZE : Z) (stdevs : darray)
    (numChildren : Z) (currentTotalWeight desiredTotalWeight amountToSubtract
     amountToPrune : R) (statsBuf : list MoreNodeStats) :
  let n := Z.to_nat numChildren in
  ValueParams.valueWeightExponent (vc_searchParams c) <> 0 ->
  vc_mirroringPla c = C_EMPTY ->
  (numChildren <= MAX_NN_POLICY_SIZE)%Z ->
  (n <= length statsBuf)%nat ->
  0 < currentTotalWeight ->
  (forall i st, (i < n)%nat -> statsBuf !! i = Some st ->
     0 <= weightAdjusted st /\ (0 < ns_visits (ms_stats st))%Z) ->
  (exists i st, (i < n)%nat /\ statsBuf !! i = Some st
     /\ amountToPrune <= weightAdjusted st /\ amountToSubtract < weightAdjusted st) ->
  (forall x y, 0 < x -> 0 < pow x y) ->
  (forall z, 0 <= getCdf z) ->
  0 <= desiredTotalWeight ->
  exists buf',
    downweightBadChildrenAndNormalizeWeight pow getCdf c MAX_NN_POLICY_SIZE stdevs
      numChildren currentTotalWeight desiredTotalWeight amountToSubtract amountToPrune
      statsBuf = Some buf'
    /\ length buf' = length statsBuf
    /\ (forall j st, statsBuf !! j = Some st ->
          exists st', buf' !! j = Some st' /\ sameButWeight st st'
                      /\ ((j < n)%nat -> 0 <= weightAdjusted st'))
    /\ weightSumTo buf' n = desiredTotalWeight.
Proof.
  intros n Hexp Hmirror Hmax Hlen Hcur Hbuf (i0 & st0 & Hi0 & Hst0 & Hprune0 & Hsub0)
    Hpow Hcdf Hdesired.
  unfold downweightBadChildrenAndNormalizeWeight.
  destruct (Z.leb_spec numChildren 0) as [Hn|Hn]; [lia|]. simpl.
  destruct (Rleb_spec currentTotalWeight 0) as [Hle|_]; [lra|]. simpl.
  destruct (Reqb_spec (ValueParams.valueWeightExponent (vc_searchParams c)) 0)
    as [Hz|_]; [contradiction|].
  rewrite bool_decide_eq_true_2 by exact Hmirror. simpl.
  rewrite (proj2 (Z.leb_le _ _) Hmax). simpl. fold n.
  match goal with
  | |- context [for_loopM n ?body ?s0] =>
      destruct (for_loopM_total (fun _ _ => True) n body s0)
        as ([stdevs1 simpleValueSum] & Hrun1 & _)
  end.
  { exact I. }
  { intros i [sd sv] Hi _.
    destruct (lookup_lt_is_Some_2 statsBuf i) as [st Hst]; [lia|].
    rewrite Hst. simpl. destruct (Hbuf i st Hi Hst) as [_ Hv].
    rewrite (proj2 (Z.leb_le 0 _)) by lia. simpl.
    rewrite (proj2 (Z.eqb_neq _ 0)) by lia. eexists. split; [reflexivity|exact I]. }
  rewrite Hrun1. simpl.
  match goal with
  | |- context [for_loopM n ?body ?s0] =>
      destruct (for_loopM_total
                  (fun k '(buf1, cur1, tot) =>
                     length buf1 = length statsBuf
                     /\ (forall j, (k <= j)%nat -> buf1 !! j = statsBuf !! j)
                     /\ (forall j st, (j < k)%nat -> statsBuf !! j = Some st ->
                           exists st', buf1 !! j = Some st' /\ sameButWeight st st'
                                       /\ 0 <= weightAdjusted st')
                     /\ tot = weightSumTo buf1 k /\ 0 <= tot
                     /\ ((i0 < k)%nat -> 0 < tot)) n body s0)
        as ([[buf1 cur1] tot] & Hrun2 & Hlen1 & Hge & Hlt & Htot & Htot0 & Hpos)
  end.
  { repeat split; auto; try (intros; lia). simpl. lra. }
  { intros i [[buf1 cur1] tot] Hi (Hlen1 & Hge & Hlt & Htot & Htot0 & Hpos).
    destruct (lookup_lt_is_Some_2 statsBuf i) as [st Hst]; [lia|].
    rewrite (Hge i (le_n _)), Hst. simpl.
    destruct (Hbuf i st Hi Hst) as [Hw Hv].
    rewrite (proj2 (Z.eqb_neq _ 0)) by lia.
    rewrite subtractOrPrune_spec.
    pose proof (keptWeight_nonneg amountToSubtract amountToPrune st) as Hkept.
    assert (forall (new : MoreNodeStats) (tot' : R),
              sameButWeight st new -> 0 <= weightAdjusted new ->
              tot' = tot + weightAdjusted new ->
              ((i0 < Datatypes.S i)%nat -> 0 < tot') ->
              length (<[i := new]> buf1) = length statsBuf
              /\ (forall j, (Datatypes.S i <= j)%nat ->
                    <[i := new]> buf1 !! j = statsBuf !! j)
              /\ (forall j st1, (j < Datatypes.S i)%nat -> statsBuf !! j = Some st1 ->
                    exists st', <[i := new]> buf1 !! j = Some st' /\ sameButWeight st1 st'
                                /\ 0 <= weightAdjusted st')
              /\ tot' = weightSumTo (<[i := new]> buf1) (Datatypes.S i)
              /\ 0 <= tot'
              /\ ((i0 < Datatypes.S i)%nat -> 0 < tot')) as Hstep.
    { intros new tot' Hsame Hnew Htot' Hnewpos.
      split; [now rewrite length_insert|].
      split; [intros j Hj; rewrite list_lookup_insert_ne by lia; apply Hge; lia|].
      split.
      { intros j st1 Hj Hst1. destruct (decide (j = i)) as [->|Hne].
        - exists new. rewrite list_lookup_insert_eq by lia.
          assert (st1 = st) as -> by congruence. auto.
        - rewrite list_lookup_insert_ne by lia. apply Hlt; [lia|exact Hst1]. }
      split; [|split; [lra|exact Hnewpos]].
      simpl. rewrite weightSumTo_insert_ge by lia.
      rewrite list_lookup_insert_eq by lia. simpl. rewrite <- Htot. exact Htot'. }
    destruct (Rltb_spec (weightAdjusted st) amountToPrune) as [Hpruned|Hkeeps].
    - assert (keptWeight amountToSubtract amountToPrune st = 0) as Hzero.
      { unfold keptWeight.
        destruct (Rltb_spec (weightAdjusted st) amountToPrune); [reflexivity|lra]. }
      eexists. split; [reflexivity|]. cbv beta iota zeta.
      apply Hstep; [now repeat split|simpl; lra|simpl; lra|].
      intros Hi0'. destruct (decide (i0 = i)) as [->|Hne].
      + assert (st = st0) as -> by congruence. lra.
      + apply Hpos. lia.
    - assert (0 < pow (getCdf ((selfUtility st - simpleValueSum / currentTotalWeight)
                               / stdevs1 i) + 0.0001)
                    (ValueParams.valueWeightExponent (vc_searchParams c))) as Hp.
      { apply Hpow. pose proof (Hcdf ((selfUtility st - simpleValueSum
                                         / currentTotalWeight) / stdevs1 i)). lra. }
      eexists. split; [reflexivity|]. cbv beta iota zeta.
      apply Hstep.
      + now repeat split.
      + simpl. apply Rmult_le_pos; [exact Hkept|lra].
      + reflexivity.
      + intros Hi0'. simpl.
        destruct (decide (i0 = i)) as [->|Hne].
        * assert (st = st0) as -> by congruence.
          assert (0 < keptWeight amountToSubtract amountToPrune st0) as Hk0.
          { unfold keptWeight.
            destruct (Rltb_spec (weightAdjusted st0) amountToPrune); [lra|].
            destruct (Rleb_spec (weightAdjusted st0 - amountToSubtract) 0); lra. }
          pose proof (Rmult_lt_0_compat _ _ Hk0 Hp). lra.
        * assert (0 < tot) by (apply Hpos; lia).
          pose proof (Rmult_le_pos _ _ Hkept (Rlt_le _ _ Hp)). lra. }
  rewrite Hrun2. simpl.
  assert (0 < tot) as Htotpos by (apply Hpos; exact Hi0).
  destruct (Rgtb_spec tot 0) as [_|Hno]; [|lra]. simpl.
  destruct (scaleWeights_spec n (desiredTotalWeight / tot) buf1) as (buf2 & -> & Hinv2);
    [lia|].
  destruct Hinv2 as [Hlen2 Hall2].
  assert (0 <= desiredTotalWeight / tot) as Hfactor
    by (apply Rle_mult_inv_pos; assumption).
  exists buf2. split; [reflexivity|]. split; [congruence|]. split.
  - intros j st Hst. destruct (decide (j < n)%nat) as [Hj|Hj].
    + destruct (Hlt j st Hj Hst) as (st1 & Hst1 & (Hs1 & Hs2 & Hs3) & Hw1).
      rewrite (Hall2 j st1 Hst1), decide_True by lia.
      eexists. split; [reflexivity|]. split; [now repeat split|].
      intros _. simpl. now apply Rmult_le_pos.
    + rewrite <- Hge in Hst by lia. rewrite (Hall2 j st Hst), decide_False by lia.
      exists st. split; [reflexivity|]. split; [now repeat split|]. intros; lia.
  - rewrite (weightSumTo_scaled buf1 buf2 (desiredTotalWeight / tot)).
    + rewrite <- Htot. field. lra.
    + intros j Hj.
      destruct (lookup_lt_is_Some_2 buf1 j) as [st1 Hst1]; [lia|].
      rewrite (Hall2 j st1 Hst1), Hst1, decide_True by lia. reflexivity.
Qed.

(** [downweightBadChildrenAndNormalizeWeight] as [recomputeNodeStats] calls
    it, the desired total being the current one: the children keep their
    statistics, the weights stay non-negative and keep their sum. *)
Lemma downweight_run (P : NodeStats -> Prop) (c : ValueContext) (MAX_NN_POLICY_SIZE : Z)
    (stdevs : darray) (n : nat) (W amountToSubtract amountToPrune : R)
    (statsBuf : list MoreNodeStats) :
  weighted P n statsBuf W ->
  (n <= length statsBuf)%nat ->
  (Z.of_nat n <= MAX_NN_POLICY_SIZE)%Z ->
  (0 < W -> exists i st, (i < n)%nat /\ statsBuf !! i = Some st
     /\ amountToPrune <= weightAdjusted st /\ amountToSubtract < weightAdjusted st) ->
  (forall x y, 0 < x -> 0 < pow x y) ->
  (forall z, 0 <= getCdf z) ->
  exists buf',
    downweightBadChildrenAndNormalizeWeight pow getCdf c MAX_NN_POLICY_SIZE stdevs
      (Z.of_nat n) W W amountToSubtract amountToPrune statsBuf = Some buf'
    /\ length buf' = length statsBuf
    /\ weighted P n buf' W.
Proof.
  intros Hinv Hlen Hmax Hkeeps Hpow Hcdf.
  assert (0 <= W) as HW0.
  { destruct Hinv as [Hall ->]. apply weightSumTo_nonneg.
    eapply weighted_nonneg. split; [exact Hall|reflexivity]. }
  destruct (Rle_dec W 0) as [Hzero|Hpos].
  { exists statsBuf. split; [|split; [reflexivity|exact Hinv]].
    unfold downweightBadChildrenAndNormalizeWeight.
    destruct (Rleb_spec W 0) as [_|Hno]; [|lra]. now rewrite orb_true_r. }
  assert (0 < W) as HW by lra. specialize (Hkeeps HW).
  assert (n <> 0%nat) as Hn.
  { intros ->. destruct Hinv as [_ Hsum]. simpl in Hsum. lra. }
  assert (forall buf',
            length buf' = length statsBuf ->
            (forall j st, statsBuf !! j = Some st ->
               exists st', buf' !! j = Some st' /\ sameButWeight st st'
                           /\ ((j < n)%nat -> 0 <= weightAdjusted st')) ->
            weightSumTo buf' n = W -> weighted P n buf' W) as Hpack.
  { intros buf' Hlen' Hall' Hsum'. split; [|now rewrite Hsum'].
    intros i Hi. destruct Hinv as [Hall _].
    destruct (Hall i Hi) as (st & Hst & HP & _ & Hv).
    destruct (Hall' i st Hst) as (st' & Hst' & (Hs & _) & Hw').
    exists st'. rewrite Hs. auto. }
  destruct (Req_dec_T (ValueParams.valueWeightExponent (vc_searchParams c)) 0)
    as [Hexp|Hexp];
    [|destruct (decide (vc_mirroringPla c = C_EMPTY)) as [Hmirror|Hmirror]].
  - destruct (downweight_plain_run pow getCdf c MAX_NN_POLICY_SIZE stdevs (Z.of_nat n) W W
                amountToSubtract amountToPrune statsBuf)
      as (buf' & factor & Hrun & [Hlen' Hall'] & Hsum & Hfactor);
      rewrite ?Nat2Z.id; auto; [apply Hinv|].
    rewrite Nat2Z.id in *.
    exists buf'. split; [exact Hrun|]. split; [exact Hlen'|].
    apply Hpack; auto.
    intros j st Hst. rewrite (Hall' j st Hst).
    destruct (decide (j < n)%nat); eexists; (split; [reflexivity|]);
      (split; [now repeat split|]); intros; [|lia].
    simpl. apply Rmult_le_pos; [apply keptWeight_nonneg|apply Hfactor; lra].
  - destruct (downweight_valued_run c MAX_NN_POLICY_SIZE stdevs (Z.of_nat n) W W
                amountToSubtract amountToPrune statsBuf)
      as (buf' & Hrun & Hlen' & Hall' & Hsum);
      rewrite ?Nat2Z.id; auto.
    { intros i st Hi Hst.
      destruct (weighted_lookup P n i statsBuf W st Hinv Hi Hst) as (_ & Hw & Hv). auto. }
    rewrite Nat2Z.id in *.
    exists buf'. split; [exact Hrun|]. split; [exact Hlen'|]. now apply Hpack.
  - destruct (downweight_plain_run pow getCdf c MAX_NN_POLICY_SIZE stdevs (Z.of_nat n) W W
                amountToSubtract amountToPrune statsBuf)
      as (buf' & factor & Hrun & [Hlen' Hall'] & Hsum & Hfactor);
      rewrite ?Nat2Z.id; auto; [apply Hinv|].
    rewrite Nat2Z.id in *.
    exists buf'. split; [exact Hrun|]. split; [exact Hlen'|].
    apply Hpack; auto.
    intros j st Hst. rewrite (Hall' j st Hst).
    destruct (decide (j < n)%nat); eexists; (split; [reflexivity|]);
      (split; [now repeat split|]); intros; [|lia].
    simpl. apply Rmult_le_pos; [apply keptWeight_nonneg|apply Hfactor; lra].
Qed.

(** [pruneNoiseWeight] as [recomputeNodeStats] calls it. *)
Lemma pruneNoiseWeight_keeps (P : NodeStats -> Prop) (c : ValueContext) (n : nat)
    (W : R) (statsBuf : list MoreNodeStats) (policyProbsBuf : darray) :
  weighted P n statsBuf W ->
  (n <= length statsBuf)%nat ->
  0 < ValueParams.noisePruneUtilityScale (vc_searchParams c) ->
  0 <= ValueParams.noisePruningCap (vc_searchParams c) ->
  (forall i, (i < n)%nat -> 0 <= policyProbsBuf i) ->
  exists buf' W',
    pruneNoiseWeight c statsBuf (Z.of_nat n) W policyProbsBuf = Some (buf', W')
    /\ length buf' = length statsBuf
    /\ weighted P n buf' W'.
Proof.
  intros Hinv Hlen Hscale Hcap Hpolicy.
  destruct (pruneNoiseWeight_run c statsBuf (Z.of_nat n) W policyProbsBuf)
    as (buf' & W' & Hrun & Hlen' & Hall' & Hsmall & Hbig);
    rewrite ?Nat2Z.id; auto.
  { intros i st Hi Hst.
    destruct (weighted_lookup P n i statsBuf W st Hinv Hi Hst) as (_ & Hw & _). exact Hw. }
  rewrite Nat2Z.id in *.
  exists buf', W'. split; [exact Hrun|]. split; [exact Hlen'|].
  destruct (Z_le_gt_dec (Z.of_nat n) 1) as [Hn|Hn];
    [|destruct (Rle_dec W 0.00001) as [Hw|Hw]].
  - destruct Hsmall as [-> ->]; auto.
  - destruct Hsmall as [-> ->]; auto.
  - split; [|apply Hbig; [lia|lra]].
    intros i Hi. destruct Hinv as [Hall _].
    destruct (Hall i Hi) as (st & Hst & HP & _ & Hv).
    destruct (Hall' i st Hst) as (st' & Hst' & (Hs & _) & _ & Hw' & _).
    exists st'. rewrite Hs. auto.
Qed.

(** The averages that [recomputeNodeStats] takes as plain weighted means:
    the field of the statistics of a child, the value of the node's own
    evaluation, and the sum over the children. *)
Inductive AvgField : Type :=
  F_winLossValue | F_noResultValue | F_scoreMean | F_scoreMeanSq | F_lead.

Definition childAvg (f : AvgField) (s : NodeStats) : R :=
  match f with
  | F_winLossValue => ns_winLossValueAvg s
  | F_noResultValue => ns_noResultValueAvg s
  | F_scoreMean => ns_scoreMeanAvg s
  | F_scoreMeanSq => ns_scoreMeanSqAvg s
  | F_lead => ns_leadAvg s
  end.

Definition sumOf (f : AvgField) (sums : ValueSums) : R :=
  match f with
  | F_winLossValue => vs_winLossValueSum sums
  | F_noResultValue => vs_noResultValueSum sums
  | F_scoreMean => vs_scoreMeanSum sums
  | F_scoreMeanSq => vs_scoreMeanSqSum sums
  | F_lead => vs_leadSum sums
  end.

Lemma sumChildValues_spec (P : NodeStats -> Prop) (n : nat) (buf : list MoreNodeStats)
    (W : R) :
  weighted P n buf W ->
  exists sums,
    sumChildValues n buf = Some sums
    /\ forall f lo hi, (forall s, P s -> lo <= childAvg f s <= hi) ->
         lo * W <= sumOf f sums <= hi * W.
Proof.
  intros [Hall ->]. unfold sumChildValues.
  apply (for_loopM_total
           (fun k sums =>
              forall f lo hi, (forall s, P s -> lo <= childAvg f s <= hi) ->
                lo * weightSumTo buf k <= sumOf f sums <= hi * weightSumTo buf k)).
  - intros f lo hi _. destruct f; simpl; lra.
  - intros k sums Hk Hinv. destruct (Hall k Hk) as (st & Hst & HP & Hw & _).
    rewrite Hst. simpl. eexists. split; [reflexivity|].
    intros f lo hi Hbounds. specialize (Hinv f lo hi Hbounds).
    specialize (Hbounds (ms_stats st) HP).
    cbn [weightSumTo]. rewrite Hst. cbn [from_option].
    assert (lo * weightAdjusted st <= weightAdjusted st * childAvg f (ms_stats st)
            <= hi * weightAdjusted st) as Hprod by nra.
    destruct f; simpl in *; lra.
Qed.

(** [recomputeNodeStats] returns on a node with a net output whose child
    pointers lead to nodes, with a buffer as long as the children array.  It
    adds [numVisitsToAdd] to the visits, keeps the node's other fields and
    the length of the buffer, and the new weight is the weight of the node's
    own evaluation at least.  Of the bias table it writes the entry of the
    node at most.  This needs a positive weight of the own evaluation, a cdf
    that is not negative and a power that is positive on positive numbers.
    Nothing is claimed on the averages stored. *)
Theorem recomputeNodeStats_spec (c : ValueContext) (rp : RecomputeParams.t)
    (MAX_NN_POLICY_SIZE : Z) (getPos : Loc -> nat) (stdevs policyProbsBuf : darray)
    (childStats : gmap addr NodeStats) (entries : gmap addr BiasEntry)
    (statsBuf : list MoreNodeStats) (node : ValueNode) (numVisitsToAdd : Z)
    (isRoot : bool) (nnOutput : PolicyOutput) :
  let weight :=
    computeWeightFromNNOutput whiteDScoreValueDScoreSmoothNoDrawAdjust pow c
      (po_values nnOutput) in
  vn_nnOutput node = Some nnOutput ->
  (length (vn_children node) <= length statsBuf)%nat ->
  (Z.of_nat (length (vn_children node)) <= MAX_NN_POLICY_SIZE)%Z ->
  (forall slot child, slot ∈ vn_children node ->
     SearchChildPointer.getIfAllocated slot = Some child -> is_Some (childStats !! child)) ->
  (forall e, sn_subtreeValueBiasTableEntry (vn_node node) = Some e ->
     is_Some (entries !! e)) ->
  0 < ValueParams.noisePruneUtilityScale (vc_searchParams c) ->
  0 <= ValueParams.noisePruningCap (vc_searchParams c) ->
  (forall x y, 0 < x -> 0 < pow x y) ->
  (forall z, 0 <= getCdf z) ->
  0 < weight ->
  exists node' entries' statsBuf',
    recomputeNodeStats expectedWhiteScoreValue whiteDScoreValueDScoreSmoothNoDrawAdjust
      pow getCdf c rp MAX_NN_POLICY_SIZE getPos stdevs policyProbsBuf childStats entries
      statsBuf node numVisitsToAdd isRoot = Some (node', entries', statsBuf')
    /\ ns_visits (sn_stats (vn_node node'))
       = (ns_visits (sn_stats (vn_node node)) + numVisitsToAdd)%Z
    /\ sn_nextPla (vn_node node') = sn_nextPla (vn_node node)
    /\ sn_patternBonusHash (vn_node node') = sn_patternBonusHash (vn_node node)
    /\ sn_subtreeValueBiasTableEntry (vn_node node')
       = sn_subtreeValueBiasTableEntry (vn_node node)
    /\ vn_children node' = vn_children node
    /\ vn_nnOutput node' = vn_nnOutput node
    /\ length statsBuf' = length statsBuf
    /\ (forall a, sn_subtreeValueBiasTableEntry (vn_node node) <> Some a ->
          entries' !! a = entries !! a)
    /\ weight <= ns_weightSum (sn_stats (vn_node node')).
Proof.
  intros weight Hnn Hlen Hmax Hchildren Hentry Hscale Hcap Hpow Hcdf Hweight.
  set (P := fun s : NodeStats =>
              exists slot child, slot ∈ vn_children node
                /\ SearchChildPointer.getIfAllocated slot = Some child
                /\ childStats !! child = Some s).
  unfold recomputeNodeStats.
  destruct (gatherChildStats_spec P (sn_nextPla (vn_node node)) childStats
              (vn_children node) statsBuf 0 0)
    as (buf1 & n & W & -> & Hlen1 & Hn & Hinv1).
  { simpl. lia. }
  { intros slot child Hin Hchild. destruct (Hchildren slot child Hin Hchild) as [s Hs].
    exists s. split; [exact Hs|]. now exists slot, child. }
  { split; [intros; lia|reflexivity]. }
  simpl in Hn. cbn [mbind option_bind].
  match goal with
  | |- context [mbind _ (if ?b then ?x else Some (buf1, W))] =>
      assert (exists buf2 W2,
                (if b then x else Some (buf1, W)) = Some (buf2, W2)
                /\ length buf2 = length buf1 /\ weighted P n buf2 W2)
        as (buf2 & W2 & -> & Hlen2 & Hinv2)
  end.
  { destruct (_ && _).
    - rewrite Hnn. cbn [mbind option_bind].
      destruct (policyProbsBuf_spec P n buf1 W MAX_NN_POLICY_SIZE
                  (getPolicyProbsMaybeNoised nnOutput) getPos policyProbsBuf Hinv1)
        as (pb & -> & Hpb); [lia|].
      cbn [mbind option_bind].
      apply pruneNoiseWeight_keeps; auto. lia.
    - exists buf1, W. auto. }
  cbn [mbind option_bind].
  match goal with
  | |- context [mbind _ (if ?b then ?x else Some (0, 0))] =>
      assert (exists a b',
                (if b then x else Some (0, 0)) = Some (a, b')
                /\ (0 < W2 -> exists i st, (i < n)%nat /\ buf2 !! i = Some st
                      /\ b' <= weightAdjusted st /\ a < weightAdjusted st))
        as (amountToSubtract & amountToPrune & -> & Hkeeps)
  end.
  { destruct (_ && _).
    - destruct (maxChildWeight_spec P n buf2 W2 Hinv2) as (m & -> & Hle & Hmaxw).
      cbn [mbind option_bind]. eexists. eexists. split; [reflexivity|].
      intros HW2. eapply recompute_amounts_keep; eauto.
    - exists 0, 0. split; [reflexivity|]. intros HW2. eapply unit_amounts_keep; eauto. }
  cbn [mbind option_bind].
  destruct (downweight_run P c MAX_NN_POLICY_SIZE stdevs n W2 amountToSubtract
              amountToPrune buf2 Hinv2) as (buf3 & -> & Hlen3 & Hinv3); auto; [lia..|].
  cbn [mbind option_bind].
  destruct (sumChildValues_spec P n buf3 W2 Hinv3) as (sums & -> & Hsums).
  cbn [mbind option_bind]. rewrite Hnn. cbn [mbind option_bind].
  set (utility0 := getResultUtility _ _ _ + getScoreUtility _ _ _ _ _ _).
  match goal with
  | |- context [mbind _ (if ?b then ?x else ?y)] =>
      assert (exists utility entries' ld lw,
                (if b then x else y) = Some (utility, entries', ld, lw)
                /\ (forall a, sn_subtreeValueBiasTableEntry (vn_node node) <> Some a ->
                      entries' !! a = entries !! a))
        as (utility & entries' & ld & lw & -> & Hothers)
  end.
  { destruct (negb _); [|eauto 10].
    destruct (sn_subtreeValueBiasTableEntry (vn_node node)) as [e|] eqn:He; [|eauto 10].
    destruct (Hentry e eq_refl) as [entry ->]. cbn [mbind option_bind].
    destruct (Rgtb W2 1e-10); cbv beta iota zeta;
      (do 4 eexists; split; [reflexivity|]);
      intros a Ha; apply lookup_insert_ne; congruence. }
  cbn [mbind option_bind].
  assert (0 <= W2) as HW2.
  { destruct Hinv3 as [Hall ->]. apply weightSumTo_nonneg.
    eapply weighted_nonneg. split; [exact Hall|reflexivity]. }
  do 3 eexists. split; [reflexivity|]. simpl.
  fold weight.
  repeat (split; [first [reflexivity|congruence|exact Hothers|lra]|]).
  lra.
Qed.

End RecomputeFacts.


Section RecomputeExample.
Local Open Scope R_scope.
#[local] Existing Instance toyConstants.
#[local] Existing Instance toyGame.

Definition recomputeContext : ValueContext :=
  mkValueContext exampleValueParams [] 0 None P_BLACK C_EMPTY false.

Definition exampleRecomputeParams : RecomputeParams.t :=
  RecomputeParams.mk true false true 0 0 1.

Definition examplePolicyOutput : PolicyOutput :=
  mkPolicyOutput (mkNNOutputValues 0.6 0.3 0.1 1 4 0.5 0.1 0.2) (fun _ => 0.1).

(** A node with two children, at addresses 1 and 2, and an empty third slot. *)
Definition exampleStatsOfChildren : gmap addr NodeStats :=
  <[1%nat := mkStats 3 0.5 0 2 5 1 0.4 0.2 3 3]>
    (<[2%nat := mkStats 1 (-1) 0 (-2) 5 (-1) (-0.8) 0.7 1 1]> ∅).

Definition exampleValueNode (children : list SearchChildPointer.t) : ValueNode :=
  mkValueNode (mkStatsNode P_BLACK (0, 0)%Z None (mkStats 4 0 0 0 0 0 0 0 0 0))
    children (Some examplePolicyOutput) 0 0.

Definition exampleSlots : list SearchChildPointer.t :=
  [SearchChildPointer.mk (Some 1%nat) 3 5%Z; SearchChildPointer.mk (Some 2%nat) 1 7%Z;
   SearchChildPointer.mk None 0 NULL_LOC].

Lemma recomputeNodeStats_spec_witness :
  exists node' entries' statsBuf',
    recomputeNodeStats (fun _ _ _ _ _ => 0) (fun _ _ _ _ => 0) Rpower (fun _ => 1 / 2)
      recomputeContext exampleRecomputeParams 362 Z.to_nat (fun _ => 0) (fun _ => 0)
      exampleStatsOfChildren ∅ (replicate 3 (exampleChild 0 0)) (exampleValueNode exampleSlots)
      1 true = Some (node', entries', statsBuf')
    /\ ns_visits (sn_stats (vn_node node')) = 5%Z
    /\ vn_children node' = exampleSlots
    /\ 0 < ns_weightSum (sn_stats (vn_node node')).
Proof.
  destruct (recomputeNodeStats_spec (fun _ _ _ _ _ => 0) (fun _ _ _ _ => 0) Rpower
              (fun _ => 1 / 2) recomputeContext exampleRecomputeParams 362 Z.to_nat
              (fun _ => 0) (fun _ => 0) exampleStatsOfChildren ∅ (replicate 3 (exampleChild 0 0))
              (exampleValueNode exampleSlots) 1 true examplePolicyOutput)
    as (node' & entries' & statsBuf' & Hrun & Hvisits & _ & _ & _ & Hkept & _ & _ & _
        & Hw).
  - reflexivity.
  - simpl. lia.
  - simpl. lia.
  - intros slot child Hin Hchild. simpl in Hin. unfold exampleSlots in Hin.
    rewrite !elem_of_cons in Hin. destruct Hin as [->|[->|[->|Hin]]].
    + injection Hchild as <-. eexists. reflexivity.
    + injection Hchild as <-. eexists. reflexivity.
    + discriminate.
    + now apply elem_of_nil in Hin.
  - intros e [=].
  - simpl. lra.
  - simpl. lra.
  - intros x y _. apply exp_pos.
  - intros z. lra.
  - unfold computeWeightFromNNOutput. simpl. lra.
  - exists node', entries', statsBuf'. split; [exact Hrun|]. split; [exact Hvisits|].
    split; [exact Hkept|].
    unfold computeWeightFromNNOutput in Hw. simpl in Hw. lra.
Defined.

End RecomputeExample.

(** ** The time limit of a search *)

Section TimeLimitFacts.
Local Open Scope R_scope.
Context (getTime : R -> R * R * R)
        (roundUpTimeLimitIfNeeded : R -> R -> R -> R)
        (getPolicySurpriseAndEntropy : bool * R * R * R)
        (getPlaySelectionValues : R -> bool * list R * list R)
        (ceil : R -> R).

Lemma to_int32_le (z : Z) : (0 <= z)%Z -> (to_int32 z <= z)%Z.
Proof.
  intros Hz. unfold to_int32.
  pose proof (Z.mod_le (z + 2 ^ 31) (2 ^ 32) ltac:(lia) ltac:(lia)). lia.
Qed.

Lemma Rpower_le_1 (a h : R) : 0 < a <= 1 -> 0 <= h -> 0 < Rpower a h <= 1.
Proof.
  intros [Ha Ha1] Hh. unfold Rpower. split; [apply exp_pos|].
  assert (ln a <= 0) as Hln.
  { destruct (Req_dec a 1) as [->|Hne]; [rewrite ln_1; lra|].
    rewrite <- ln_1. left. apply ln_increasing; lra. }
  rewrite <- exp_0. destruct (Req_dec (h * ln a) 0) as [->|Hne]; [lra|].
  left. apply exp_increasing. nra.
Qed.

Lemma Rpower_antitone (a s t : R) : 0 < a <= 1 -> s <= t -> Rpower a t <= Rpower a s.
Proof.
  intros [Ha Ha1] Hst. unfold Rpower.
  assert (ln a <= 0) as Hln.
  { destruct (Req_dec a 1) as [->|Hne]; [rewrite ln_1; lra|].
    rewrite <- ln_1. left. apply ln_increasing; lra. }
  destruct (Req_dec (t * ln a) (s * ln a)) as [->|Hne]; [lra|].
  left. apply exp_increasing. nra.
Qed.

Lemma interpolateEarly_between (t : TimeContext) (halflife earlyValue value : R) :
  0 < halflife -> (0 < to_int32 (tc_x_size t * tc_y_size t))%Z ->
  Rmin earlyValue value <= interpolateEarly t halflife earlyValue value
  <= Rmax earlyValue value.
Proof.
  intros Hhalf Harea. unfold interpolateEarly.
  set (turn := to_uint64 _).
  assert (0 <= IZR turn) as Hturn.
  { apply IZR_le. unfold turn, to_uint64. apply Z.mod_pos_bound. lia. }
  assert (0 < sqrt (IZR (to_int32 (tc_x_size t * tc_y_size t)))) as Hsqrt
    by (apply sqrt_lt_R0, IZR_lt; exact Harea).
  assert (0 <= IZR turn / halflife * 19 / sqrt (IZR (to_int32 (tc_x_size t * tc_y_size t))))
    as Hh.
  { apply Rle_mult_inv_pos; [|exact Hsqrt].
    apply Rmult_le_pos; [|lra]. apply Rle_mult_inv_pos; assumption. }
  pose proof (Rpower_le_1 0.5 _ ltac:(lra) Hh) as [Hp0 Hp1].
  set (f := Rpower 0.5 _) in *.
  unfold Rmin, Rmax. destruct (Rle_dec earlyValue value); split; nra.
Qed.

(** The number of visits below which a move is futile is between 0 and
    [futileVisitsThreshold] times the visits of the most visited move; the
    temperature it uses lies between the early and the late temperature;
    and with both temperatures at 0.001 or more it is at most the visits of
    the most visited move times 0.01 to the power of the lower of the two. *)
Theorem numVisitsNeededToBeNonFutile_bounds (t : TimeContext) (maxVisitsMoveVisits : R) :
  let searchParams := tc_searchParams t in
  let early := TimeParams.chosenMoveTemperatureEarly searchParams in
  let late := TimeParams.chosenMoveTemperature searchParams in
  0 < TimeParams.chosenMoveTemperatureHalflife searchParams ->
  (0 < to_int32 (tc_x_size t * tc_y_size t))%Z ->
  0 <= TimeParams.futileVisitsThreshold searchParams ->
  0 <= maxVisitsMoveVisits ->
  Rmin early late
  <= interpolateEarly t (TimeParams.chosenMoveTemperatureHalflife searchParams) early late
  <= Rmax early late
  /\ 0 <= numVisitsNeededToBeNonFutile t maxVisitsMoveVisits
     <= TimeParams.futileVisitsThreshold searchParams * maxVisitsMoveVisits
  /\ (1e-3 <= Rmin early late ->
      numVisitsNeededToBeNonFutile t maxVisitsMoveVisits
      <= maxVisitsMoveVisits * Rpower 0.01 (Rmin early late)).
Proof.
  intros searchParams early late Hhalf Harea Hthreshold Hmax.
  pose proof (interpolateEarly_between t _ early late Hhalf Harea) as Htemp.
  split; [exact Htemp|].
  unfold numVisitsNeededToBeNonFutile. fold searchParams early late.
  set (temp := interpolateEarly _ _ _ _) in *.
  assert (0 <= TimeParams.futileVisitsThreshold searchParams * maxVisitsMoveVisits)
    as Hreq by (apply Rmult_le_pos; assumption).
  assert (0 < Rpower 0.01 temp) as Hpow by apply exp_pos.
  assert (0 <= maxVisitsMoveVisits * Rpower 0.01 temp) as Htempreq
    by (apply Rmult_le_pos; lra).
  destruct (Rltb_spec temp 1e-3) as [Hcold|Hwarm].
  - split; [lra|]. intros Hlow. lra.
  - split.
    + unfold Rmin. destruct (Rle_dec _ _); lra.
    + intros Hlow.
      pose proof (Rmin_r (TimeParams.futileVisitsThreshold searchParams
                          * maxVisitsMoveVisits)
                    (maxVisitsMoveVisits * Rpower 0.01 temp)) as Hmin.
      pose proof (Rpower_antitone 0.01 (Rmin early late) temp ltac:(lra) (proj1 Htemp)).
      nra.
Qed.

Lemma findBestAndMaxVisits_spec (numMoves : Z) (playSelectionValues visitCounts : list R) :
  (0 < length playSelectionValues)%nat ->
  (Z.to_nat numMoves <= length playSelectionValues)%nat ->
  length playSelectionValues = length visitCounts ->
  exists maxVisitsIdx bestMoveIdx,
    findBestAndMaxVisits numMoves playSelectionValues visitCounts
    = Some (maxVisitsIdx, bestMoveIdx)
    /\ (maxVisitsIdx < length visitCounts)%nat
    /\ (bestMoveIdx < length playSelectionValues)%nat
    /\ (forall j p pBest, (j < Z.to_nat numMoves)%nat ->
          playSelectionValues !! j = Some p ->
          playSelectionValues !! bestMoveIdx = Some pBest -> p <= pBest)
    /\ (forall j v vMax, (j < Z.to_nat numMoves)%nat ->
          visitCounts !! j = Some v ->
          visitCounts !! maxVisitsIdx = Some vMax -> v <= vMax).
Proof.
  intros Hpos Hn Hlen. unfold findBestAndMaxVisits.
  match goal with
  | |- context [for_loopM ?n ?body ?s0] =>
      destruct (for_loopM_total
                  (fun k '(m, b) =>
                     (m <= k)%nat /\ (b <= k)%nat
                     /\ (forall j p pBest, (j <= k)%nat ->
                           playSelectionValues !! j = Some p ->
                           playSelectionValues !! b = Some pBest -> p <= pBest)
                     /\ (forall j v vMax, (j <= k)%nat ->
                           visitCounts !! j = Some v ->
                           visitCounts !! m = Some vMax -> v <= vMax)) n body s0)
        as ([m b] & Hrun & Hm & Hb & Hbest & Hmaxv)
  end.
  { repeat split; auto.
    - intros j p pBest Hj Hp HpBest. assert (j = 0%nat) as -> by lia.
      assert (p = pBest) by congruence. lra.
    - intros j v vMax Hj Hv HvMax. assert (j = 0%nat) as -> by lia.
      assert (v = vMax) by congruence. lra. }
  { intros k [m b] Hk (Hm & Hb & Hbest & Hmaxv).
    destruct (lookup_lt_is_Some_2 playSelectionValues (Datatypes.S k)) as [p Hp]; [lia|].
    destruct (lookup_lt_is_Some_2 playSelectionValues b) as [pBest HpBest]; [lia|].
    destruct (lookup_lt_is_Some_2 visitCounts (Datatypes.S k)) as [v Hv]; [lia|].
    destruct (lookup_lt_is_Some_2 visitCounts m) as [vMax HvMax]; [lia|].
    rewrite Hp, HpBest, Hv, HvMax. simpl. eexists. split; [reflexivity|].
    split; [destruct (Rgtb v vMax); lia|].
    split; [destruct (Rgtb p pBest); lia|]. split.
    - intros j q qBest Hj Hq HqBest.
      destruct (Rgtb_spec p pBest) as [Hgt|Hle].
      + assert (qBest = p) as -> by congruence.
        destruct (decide (j = Datatypes.S k)) as [->|Hne];
          [assert (q = p) by congruence; lra|].
        pose proof (Hbest j q pBest ltac:(lia) Hq HpBest). lra.
      + assert (qBest = pBest) as -> by congruence.
        destruct (decide (j = Datatypes.S k)) as [->|Hne];
          [assert (q = p) by congruence; lra|].
        apply (Hbest j q pBest); auto. lia.
    - intros j w wMax Hj Hw HwMax.
      destruct (Rgtb_spec v vMax) as [Hgt|Hle].
      + assert (wMax = v) as -> by congruence.
        destruct (decide (j = Datatypes.S k)) as [->|Hne];
          [assert (w = v) by congruence; lra|].
        pose proof (Hmaxv j w vMax ltac:(lia) Hw HvMax). lra.
      + assert (wMax = vMax) as -> by congruence.
        destruct (decide (j = Datatypes.S k)) as [->|Hne];
          [assert (w = v) by congruence; lra|].
        apply (Hmaxv j w vMax); auto. lia. }
  exists m, b. split; [exact Hrun|].
  split; [lia|]. split; [lia|]. split.
  - intros j p pBest Hj. apply Hbest. lia.
  - intros j v vMax Hj. apply Hmaxv. lia.
Qed.

Lemma findPossibleAlternativeMove_spec (numMoves : Z) (bestMoveIdx : nat)
    (visitCounts : list R) (upperBound requiredVisits : R) :
  (Z.to_nat numMoves <= length visitCounts)%nat ->
  exists found,
    findPossibleAlternativeMove numMoves bestMoveIdx visitCounts upperBound requiredVisits
    = Some found
    /\ (found = true <->
        exists i v, (i < Z.to_nat numMoves)%nat /\ i <> bestMoveIdx
          /\ visitCounts !! i = Some v /\ v + upperBound >= requiredVisits).
Proof.
  intros Hn. unfold findPossibleAlternativeMove.
  apply (for_loopM_total
           (fun k (found : bool) =>
              found = true <->
              exists i v, (i < k)%nat /\ i <> bestMoveIdx
                /\ visitCounts !! i = Some v /\ v + upperBound >= requiredVisits)).
  - split; [discriminate|]. intros (i & v & Hi & _). lia.
  - intros k found Hk Hinv. destruct found.
    + eexists. split; [reflexivity|]. split; [|reflexivity]. intros _.
      destruct (proj1 Hinv eq_refl) as (i & v & Hi & Hrest).
      exists i, v. split; [lia|exact Hrest].
    + assert (forall i v, (i < k)%nat -> i <> bestMoveIdx -> visitCounts !! i = Some v ->
                ~ v + upperBound >= requiredVisits) as Hnone.
      { intros i v Hi Hne Hv Hge.
        assert (false = true) by (apply Hinv; exists i, v; auto). discriminate. }
      destruct (Nat.eqb_spec k bestMoveIdx) as [->|Hne].
      * eexists. split; [reflexivity|]. split; [discriminate|].
        intros (i & v & Hi & Hib & Hv & Hge). exfalso.
        apply (Hnone i v); auto. lia.
      * destruct (lookup_lt_is_Some_2 visitCounts k) as [v Hv]; [lia|].
        rewrite Hv. simpl.
        destruct (Rgeb_spec (v + upperBound) requiredVisits) as [Hge|Hlt];
          (eexists; split; [reflexivity|]).
        -- split; [|reflexivity]. intros _. exists k, v. repeat split; auto.
        -- split; [discriminate|]. intros (i & w & Hi & Hib & Hw & Hge). exfalso.
           destruct (decide (i = k)) as [->|Hik].
           ++ assert (w = v) as -> by congruence. contradiction.
           ++ apply (Hnone i w); auto. lia.
Qed.

(** [recomputeSearchTimeLimit] always returns, no index leaving the vectors
    of play selection values and visit counts, and the limit it returns is
    at most [tcMax]; with a search factor that is not negative it is at
    least [tcMin] times the factor, or [tcMax] if that is less. *)
Theorem recomputeSearchTimeLimit_spec (t : TimeContext) (timeUsed searchFactor : R)
    (rootVisits : Z) :
  let tcMin := (getTime (TimeParams.lagBuffer (tc_searchParams t))).1.1 in
  let tcMax := (getTime (TimeParams.lagBuffer (tc_searchParams t))).2 in
  exists tcRec,
    recomputeSearchTimeLimit getTime roundUpTimeLimitIfNeeded getPolicySurpriseAndEntropy
      getPlaySelectionValues ceil t timeUsed searchFactor rootVisits = Some tcRec
    /\ tcRec <= tcMax
    /\ (0 <= searchFactor -> Rmin (tcMin * searchFactor) tcMax <= tcRec)
    /\ (searchFactor = 1 -> tcMin <= tcMax -> tcMin <= tcRec).
Proof.
  intros tcMin' tcMax'. subst tcMin' tcMax'. unfold recomputeSearchTimeLimit.
  destruct (getTime _) as [[tcMin tcRec0] tcMax]. cbn [fst snd]. cbv zeta.
  match goal with
  | |- context [mbind _ ?m] => assert (exists x, m = Some x) as [x ->]
  end.
  { destruct (Rgtb _ 0); [|eauto]. destruct (Rltb _ _); [|eauto].
    destruct (getPlaySelectionValues 1) as [[suc p] v].
    destruct suc; simpl; [|eauto].
    destruct (Nat.ltb_spec 0 (length p)) as [Hpos|Hempty]; [|eauto].
    destruct (Nat.eqb_spec (length p) (length v)) as [Hlen|Hne]; [|eauto].
    assert (Z.to_nat (to_int32 (Z.of_nat (length p))) <= length p)%nat as Hn.
    { pose proof (to_int32_le (Z.of_nat (length p)) ltac:(lia)). lia. }
    destruct (findBestAndMaxVisits_spec _ p v Hpos Hn Hlen)
      as (m & b & -> & Hm & Hb & _). cbn [mbind option_bind].
    destruct (Nat.eqb_spec m b) as [Hsame|Hdiff]; [|eauto].
    destruct (lookup_lt_is_Some_2 v m Hm) as [vMax ->]. cbn [mbind option_bind].
    match goal with
    | |- context [findPossibleAlternativeMove ?n ?b ?v ?u ?r] =>
        destruct (findPossibleAlternativeMove_spec n b v u r) as (found & -> & _);
          [lia|]
    end.
    cbn [mbind option_bind]. destruct found; simpl; eauto. }
  cbn [mbind option_bind].
  set (r1 := roundUpTimeLimitIfNeeded _ _ x).
  eexists. split; [reflexivity|].
  destruct (Rgtb_spec r1 tcMax) as [H1|H1];
    match goal with
    | |- context [Rltb ?y tcMin] => destruct (Rltb_spec y tcMin) as [H2|H2]
    end;
    match goal with
    | |- context [Rgtb ?y tcMax] => destruct (Rgtb_spec y tcMax) as [H3|H3]
    end;
    (split; [lra|]); (split; [intros Hsf; unfold Rmin; destruct (Rle_dec _ _); nra
                             |intros -> Hmm; lra]).
Qed.

End TimeLimitFacts.


Section TimeLimitExample.
Local Open Scope R_scope.

Definition exampleTimeParams : TimeParams.t :=
  TimeParams.mk 0 1 1 130 100 1 0.45 0.28 0.2 19 0.5 0.1 4.

(** Move 10 of a game on the 19x19 board. *)
Definition exampleTimeContext : TimeContext :=
  mkTimeContext exampleTimeParams 19 19 0 10 0.

Lemma numVisitsNeededToBeNonFutile_bounds_witness :
  0 <= numVisitsNeededToBeNonFutile exampleTimeContext 100 <= 20.
Proof.
  destruct (numVisitsNeededToBeNonFutile_bounds exampleTimeContext 100)
    as (_ & Hbounds & _).
  - simpl. lra.
  - reflexivity.
  - simpl. lra.
  - lra.
  - simpl in Hbounds. lra.
Defined.

End TimeLimitExample.
